(** * Smart EV grid management: the schedule engine and the parameter optimizer

    A shallow embedding of [database.py], [logic.py] and of the two programs
    held by [ui_tk.py] (the [FlexiCityApp] form validator and the monolithic
    "SmartLDS ver1.0" script), followed by the properties of the schedule
    engine, the statistics and the grid-search optimizers.

    Numbers.  Python floats are idealised as exact rationals ([Qc], the
    canonical rationals, so that equality is Leibniz equality); integers are
    [Z].  Everything that can raise in Python ([IndexError], [KeyError],
    [ValueError] of [min]/[max] on an empty list, [ZeroDivisionError]) is a
    [None] of the option monad. *)

From Stdlib Require Import ZArith List String Bool Lia QArith Qcanon FinFun.
From Stdlib Require Import Sorted Permutation Qround DecimalString.
Import ListNotations.
Open Scope Z_scope.

(* ------------------------------------------------------------------ *)
(** * Python primitives used by the sources *)
(* ------------------------------------------------------------------ *)

Module Py.

Definition bind {A B : Type} (m : option A) (f : A -> option B) : option B :=
  match m with
  | Some a => f a
  | None => None
  end.

Notation "x <- m ;; k" := (bind m (fun x => k))
  (at level 61, m at next level, right associativity).
Notation "' pat <- m ;; k" := (bind m (fun x => let 'pat := x in k))
  (at level 61, pat pattern, m at next level, right associativity).

(** Comparisons of floats. *)
Definition ltb (x y : Qc) : bool :=
  match (x ?= y)%Qc with Lt => true | _ => false end.
Definition leb (x y : Qc) : bool :=
  match (x ?= y)%Qc with Gt => false | _ => true end.

(** [x / y]: raises [ZeroDivisionError] when [y] is zero. *)
Definition div (x y : Qc) : option Qc :=
  if Qc_eq_bool y 0%Qc then None else Some (x / y)%Qc.

(** A float written as a decimal literal, [n / d]. *)
Definition lit (n : Z) (d : positive) : Qc := Q2Qc (n # d).

Definition len {A : Type} (l : list A) : Z := Z.of_nat (List.length l).

(** [list(range(lo, hi))]. *)
Definition range (lo hi : Z) : list Z :=
  map (fun k => lo + Z.of_nat k) (seq 0 (Z.to_nat (hi - lo))).

(** [list(range(lo, hi, step))] for a positive [step]. *)
Definition range_step (lo hi step : Z) : list Z :=
  map (fun k => lo + step * Z.of_nat k)
      (seq 0 (Z.to_nat ((hi - lo + step - 1) / step))).

(** Position denoted by a subscript: negative subscripts count from the
    end, anything else out of range is an [IndexError]. *)
Definition index {A : Type} (l : list A) (i : Z) : option nat :=
  if (0 <=? i) && (i <? len l) then Some (Z.to_nat i)
  else if (- len l <=? i) && (i <? 0) then Some (Z.to_nat (len l + i))
  else None.

(** [l[i]]. *)
Definition getitem {A : Type} (l : list A) (i : Z) : option A :=
  k <- index l i ;; nth_error l k.

Fixpoint update {A : Type} (k : nat) (v : A) (l : list A) : list A :=
  match l, k with
  | [], _ => []
  | _ :: l', O => v :: l'
  | x :: l', S k' => x :: update k' v l'
  end.

(** [l[i] = v]. *)
Definition setitem {A : Type} (l : list A) (i : Z) (v : A) : option (list A) :=
  k <- index l i ;; Some (update k v l).

(** [l[i] += v] and [l[i] -= v]. *)
Definition iadd (l : list Qc) (i : Z) (v : Qc) : option (list Qc) :=
  x <- getitem l i ;; setitem l i (x + v)%Qc.
Definition isub (l : list Qc) (i : Z) (v : Qc) : option (list Qc) :=
  x <- getitem l i ;; setitem l i (x - v)%Qc.

(** Bound of a slice: negative bounds count from the end, and every bound
    is clipped to [0 .. len l]. *)
Definition slice_bound {A : Type} (l : list A) (k : Z) : Z :=
  if k <? 0 then Z.max 0 (len l + k) else Z.min k (len l).

(** [l[i:j]]; [l[:j]] is [slice l 0 j]. *)
Definition slice {A : Type} (l : list A) (i j : Z) : list A :=
  let a := slice_bound l i in
  let b := slice_bound l j in
  firstn (Z.to_nat (b - a)) (skipn (Z.to_nat a) l).

(** [min(l)] and [max(l)] on floats: [ValueError] on the empty list. *)
Fixpoint min_from (best : Qc) (l : list Qc) : Qc :=
  match l with
  | [] => best
  | y :: l' => min_from (if ltb y best then y else best) l'
  end.
Definition min (l : list Qc) : option Qc :=
  match l with
  | [] => None
  | x :: l' => Some (min_from x l')
  end.

Fixpoint max_from (best : Qc) (l : list Qc) : Qc :=
  match l with
  | [] => best
  | y :: l' => max_from (if ltb best y then y else best) l'
  end.
Definition max (l : list Qc) : option Qc :=
  match l with
  | [] => None
  | x :: l' => Some (max_from x l')
  end.

(** [min(a, b)] and [max(a, b)] on integers and on floats.  With equal
    arguments Python returns the first one. *)
Definition min2 (a b : Z) : Z := if b <? a then b else a.
Definition max2 (a b : Z) : Z := if a <? b then b else a.
Definition qmin2 (a b : Qc) : Qc := if ltb b a then b else a.
Definition qmax2 (a b : Qc) : Qc := if ltb a b then b else a.

(** [min(l, key=key)]: the first item whose key is minimal; the key is
    computed once per item and may itself raise. *)
Fixpoint min_key_from {A : Type} (key : A -> option Qc) (best : A) (kbest : Qc)
         (l : list A) : option A :=
  match l with
  | [] => Some best
  | y :: l' =>
      ky <- key y ;;
      if ltb ky kbest then min_key_from key y ky l'
      else min_key_from key best kbest l'
  end.
Definition min_key {A : Type} (key : A -> option Qc) (l : list A) : option A :=
  match l with
  | [] => None
  | x :: l' => kx <- key x ;; min_key_from key x kx l'
  end.

(** [l.remove(x)]: drops the first occurrence, [ValueError] if absent. *)
Fixpoint remove (x : Z) (l : list Z) : option (list Z) :=
  match l with
  | [] => None
  | y :: l' =>
      if y =? x then Some l'
      else r <- remove x l' ;; Some (y :: r)
  end.

(** [sorted(l, key=key)] / [l.sort(key=key)]: stable. *)
Fixpoint insert_by {A : Type} (key : A -> Qc) (x : A) (l : list A) : list A :=
  match l with
  | [] => [x]
  | y :: l' => if ltb (key y) (key x) then y :: insert_by key x l' else x :: l
  end.
Definition sorted {A : Type} (key : A -> Qc) (l : list A) : list A :=
  fold_right (insert_by key) [] l.

(** [sum(l)]. *)
Definition sum (l : list Qc) : Qc :=
  fold_left Qcplus l 0%Qc.

(** [enumerate(l)]. *)
Definition enumerate {A : Type} (l : list A) : list (nat * A) :=
  combine (seq 0 (List.length l)) l.

(** Dictionaries: the most recent binding of a key shadows the older
    ones. *)
Section Dict.
Context {K V : Type} (eqb : K -> K -> bool).

Definition dict : Type := list (K * V).

Fixpoint dict_getitem (d : dict) (k : K) : option V :=
  match d with
  | [] => None
  | (k', v) :: d' => if eqb k' k then Some v else dict_getitem d' k
  end.

Definition dict_get (d : dict) (k : K) (default : V) : V :=
  match dict_getitem d k with
  | Some v => v
  | None => default
  end.

Definition dict_setitem (d : dict) (k : K) (v : V) : dict := (k, v) :: d.
End Dict.

(** [sub in s] on strings. *)
Fixpoint contains (sub s : string) : bool :=
  String.prefix sub s ||
  match s with
  | EmptyString => false
  | String _ s' => contains sub s'
  end.

(** Threading a fallible loop body through a list: [for x in l: body]. *)
Fixpoint for_each {S A : Type} (body : S -> A -> option S) (l : list A) (s : S)
  : option S :=
  match l with
  | [] => Some s
  | x :: l' => s' <- body s x ;; for_each body l' s'
  end.

End Py.

Import Py.

(* ------------------------------------------------------------------ *)
(** * database.py *)
(* ------------------------------------------------------------------ *)

Module Database.

Record Asset : Type := mkAsset {
  owner : string;
  appliance : string;
  power_kw : Qc;
  duration_h : Z;
  start_hour : Z;          (* 0..23 *)
  end_hour : Z;            (* 0..24 (can wrap) *)
  variable : bool;         (* true = split over hours, false = fixed block *)
  enabled : bool;
  (* runtime fields (filled by logic) *)
  before_hours : list Z;
  after_hours : list Z
}.

(** The constructor call [Asset(owner, appliance, power, duration, start, end,
    variable)]: [enabled] defaults to [True], the runtime fields to []. *)
Definition new_asset (o ap : string) (pw : Qc) (d s e : Z) (v : bool) : Asset :=
  mkAsset o ap pw d s e v true [] [].

Definition set_power_kw (a : Asset) (pw : Qc) : Asset :=
  mkAsset (owner a) (appliance a) pw (duration_h a) (start_hour a) (end_hour a)
          (variable a) (enabled a) (before_hours a) (after_hours a).

Definition set_before_hours (a : Asset) (hs : list Z) : Asset :=
  mkAsset (owner a) (appliance a) (power_kw a) (duration_h a) (start_hour a)
          (end_hour a) (variable a) (enabled a) hs (after_hours a).

Definition set_after_hours (a : Asset) (hs : list Z) : Asset :=
  mkAsset (owner a) (appliance a) (power_kw a) (duration_h a) (start_hour a)
          (end_hour a) (variable a) (enabled a) (before_hours a) hs.

Record Scenario : Type := mkScenario {
  name : string;
  base_load : list Qc;                      (* length 24 *)
  co2_per_hour : list Qc;                   (* length 24, tCO2/MWh *)
  scaling_factors : list (string * Qc)      (* e.g. {"EV": 1.6, "HVAC": 1.3} *)
}.

(** Price and CO2 "database". *)
Definition PRICE_PER_HOUR : list Qc :=
  map (fun n => lit n 100)
    [870; 848; 852; 861; 869; 869;
     956; 1158; 1272; 1307; 1565; 1765;
     1624; 1555; 1512; 1664; 1860; 2153;
     2268; 2029; 1709; 1409; 1281; 1163].

Definition CO2_PER_HOUR_BASELINE : list Qc :=
  map (fun n => lit n 1000)
    [45; 42; 40; 38; 35; 32;
     30; 35; 50; 65; 70; 75;
     80; 85; 90; 95; 100; 110;
     105; 95; 85; 75; 60; 50].

Definition generate_baseline_base_load : list Qc :=
  map (fun h =>
         let val := lit 40 1 in
         let val := if (7 <=? h) && (h <=? 9) then (val + lit 25 1)%Qc else val in
         let val := if (17 <=? h) && (h <=? 21) then (val + lit 35 1)%Qc else val in
         val)
      (range 0 24).

Definition generate_winter_base_load : list Qc :=
  map (fun h =>
         let val := lit 55 1 in
         let val := if (5 <=? h) && (h <=? 9) then (val + lit 70 1)%Qc else val in
         let val := if (16 <=? h) && (h <=? 22) then (val + lit 90 1)%Qc else val in
         val)
      (range 0 24).

Definition generate_future_base_load : list Qc :=
  let baseline := generate_baseline_base_load in
  map (fun h =>
         let val := (nth (Z.to_nat h) baseline 0 * lit 19 10)%Qc in
         let val := if (10 <=? h) && (h <=? 15) then (val + lit 35 1)%Qc else val in
         let val := if (16 <=? h) && (h <=? 21) then (val + lit 70 1)%Qc else val in
         val)
      (range 0 24).

Definition generate_winter_co2 : list Qc :=
  map (fun '(h, val) =>
         let h := Z.of_nat h in
         let factor := lit 125 100 in
         let factor := if (17 <=? h) && (h <=? 21) then lit 145 100 else factor in
         (val * factor)%Qc)
      (enumerate CO2_PER_HOUR_BASELINE).

Definition generate_future_co2 : list Qc :=
  map (fun '(h, val) =>
         let h := Z.of_nat h in
         let factor := lit 65 100 in
         let factor := if (10 <=? h) && (h <=? 16) then lit 45 100 else factor in
         (val * factor)%Qc)
      (enumerate CO2_PER_HOUR_BASELINE).

Definition get_scenarios : list (string * Scenario) :=
  [ ("Baseline"%string,
     mkScenario "Baseline" generate_baseline_base_load CO2_PER_HOUR_BASELINE []);
    ("Winter weekday"%string,
     mkScenario "Winter weekday" generate_winter_base_load generate_winter_co2
       [("EV"%string, lit 14 10); ("HVAC"%string, lit 18 10);
        ("Sauna"%string, lit 16 10)]);
    ("2030 future"%string,
     mkScenario "2030 future" generate_future_base_load generate_future_co2
       [("EV"%string, lit 22 10); ("HVAC"%string, lit 19 10);
        ("Battery"%string, lit 19 10)]) ].

(** The four "hero" assets that open [initial_assets()]. *)
Definition hero_assets : list Asset :=
  [ new_asset "City EV fleet" "Fast chargers (EV)" (lit 80 1) 4 17 24 true;
    new_asset "Office block A" "HVAC" (lit 30 1) 3 14 20 true;
    new_asset "Supermarket" "Fridge defrost" (lit 20 1) 4 0 24 false;
    new_asset "Residential block" "EV chargers (EV)" (lit 40 1) 6 18 24 true ].

(** [str(n)] of an integer, as the f-strings of [initial_assets] write it. *)
Definition str (n : Z) : string := NilZero.string_of_int (Z.to_int n).

(** [initial_assets()]: the four hero assets, then the six generated
    groups, in the order of the [append] calls. *)
Definition initial_assets : list Asset :=
  (* Core "hero" assets *)
  hero_assets
  (* 1) Residential EV chargers (neighbourhoods) *)
  ++ map (fun i =>
            let start := 18 + (i mod 3) in      (* 18-20 *)
            let end_ := 24 in                   (* until midnight *)
            let power := (lit 6 1 + lit (i mod 4) 1 * lit 15 10)%Qc in
            let duration := 3 + (i mod 3) in    (* 3-5 h *)
            new_asset (String.append "Res block EV #" (str (i + 1)))
                      "EV chargers (EV)" power duration start end_ true)
         (range 0 10)
  (* 2) Household appliances (dishwashers / laundry) *)
  ++ map (fun i =>
            let start := 20 + (i mod 3) in      (* 20-22 *)
            let end_ := 24 in
            let power := (lit 15 10 + lit (i mod 2) 1 * lit 5 10)%Qc in
            let duration := 2 in
            new_asset (String.append "Household #" (str (i + 1)))
                      "Dishwasher (fixed)" power duration start end_ false)
         (range 0 10)
  (* 3) Office HVAC / ventilation *)
  ++ map (fun i =>
            let start := 7 in
            let end_ := 19 in
            let power := (lit 15 1 + lit i 1 * lit 15 10)%Qc in
            let duration := 6 + (i mod 3) in    (* 6-8 h *)
            new_asset (String.append "Office block #" (str (i + 1)))
                      "HVAC" power duration start end_ true)
         (range 0 10)
  (* 4) Supermarket / cold storage *)
  ++ map (fun i =>
            let start := (i mod 4) * 6 in       (* 0,6,12,18 *)
            let end_ := start + 6 in
            let power := (lit 8 1 + lit (i mod 3) 1 * lit 2 1)%Qc in
            let duration := 3 in
            new_asset (String.append "Supermarket #" (str (i + 1)))
                      "Cold storage" power duration start end_ true)
         (range 0 8)
  (* 5) Bus depot EV chargers (wrap over midnight) *)
  ++ map (fun i =>
            let start := 22 in
            let end_ := 6 in
            let power := (lit 30 1 + lit i 1 * lit 5 1)%Qc in
            let duration := 4 + (i mod 3) in    (* 4-6 h *)
            new_asset (String.append "Bus depot #" (str (i + 1)))
                      "Bus chargers (EV)" power duration start end_ true)
         (range 0 6)
  (* 6) Small community batteries *)
  ++ map (fun i =>
            let start := 0 in
            let end_ := 7 in
            let power := (lit 10 1 + lit i 1 * lit 2 1)%Qc in
            let duration := 3 + (i mod 2) in    (* 3-4 h *)
            new_asset (String.append "Community battery #" (str (i + 1)))
                      "Battery charging" power duration start end_ true)
         (range 0 6).

Definition set_enabled (a : Asset) (b : bool) : Asset :=
  mkAsset (owner a) (appliance a) (power_kw a) (duration_h a) (start_hour a)
          (end_hour a) (variable a) b (before_hours a) (after_hours a).

End Database.

Import Database.

(* ------------------------------------------------------------------ *)
(** * logic.py *)
(* ------------------------------------------------------------------ *)

Module Logic.

Definition NUM_HOURS : Z := 24.

Record Stats : Type := mkStats {
  peak_before : Qc;
  peak_after : Qc;
  peak_reduction : Qc;
  peak_reduction_pct : Qc;
  cost_before_eur : Qc;
  cost_after_eur : Qc;
  cost_saving_eur : Qc;
  cost_saving_pct : Qc;
  co2_saving_day : Qc;
  co2_saving_pct : Qc;
  co2_saving_year : Qc
}.

(** The state of a [Simulator] object.  An [Asset] object of [assets] is
    denoted by its position in the list: the passes below mutate the assets
    in place, which is an update at that position. *)
Record Simulator : Type := mkSimulator {
  scenarios : list (string * Scenario);
  current_scenario : Scenario;
  assets : list Asset;
  base_power : list (nat * Qc);     (* unscaled reference power, by index *)
  before_load : list Qc;
  after_load : list Qc;
  flex_participation : Qc;          (* 0..1 *)
  price_weight : Qc;                (* 0..1 *)
  cost_before_cents : Qc;
  cost_after_cents : Qc
}.

Definition is_nil {A : Type} (l : list A) : bool :=
  match l with [] => true | _ => false end.

(** [[f(x) for x in l]] with a body that may raise. *)
Fixpoint comprehension {A B : Type} (f : A -> option B) (l : list A)
  : option (list B) :=
  match l with
  | [] => Some []
  | x :: l' => y <- f x ;; ys <- comprehension f l' ;; Some (y :: ys)
  end.

(** ** helpers *)

Definition get_window_hours (start end_ : Z) : list Z :=
  if start <? end_ then range start end_
  else (* wrap over midnight *)
    range start NUM_HOURS ++ range 0 end_.

(** ** core math *)

(** Body of the first loop of [_build_before_curve], for one asset. *)
Definition before_place (bl : list Qc) (a : Asset) : option (Asset * list Qc) :=
  let a := set_before_hours a [] in
  if negb (enabled a) then Some (a, bl)
  else
    let window := get_window_hours (start_hour a) (end_hour a) in
    if is_nil window then Some (a, bl)
    else
      let duration := min2 (duration_h a) (len window) in
      let hours := slice window 0 duration in
      let a := set_before_hours a hours in
      bl' <- for_each (fun bl h => iadd bl h (power_kw a)) hours bl ;;
      Some (a, bl').

Fixpoint before_loop (bl : list Qc) (l : list Asset)
  : option (list Asset * list Qc) :=
  match l with
  | [] => Some ([], bl)
  | a :: l' =>
      '(a', bl1) <- before_place bl a ;;
      '(l'', bl2) <- before_loop bl1 l' ;;
      Some (a' :: l'', bl2)
  end.

(** cost BEFORE (flex loads only, simplified) *)
Definition before_cost (l : list Asset) : option Qc :=
  for_each
    (fun cost a =>
       if negb (enabled a) then Some cost
       else for_each (fun cost h =>
                        pr <- getitem PRICE_PER_HOUR h ;;
                        Some (cost + power_kw a * pr)%Qc)
                     (before_hours a) cost)
    l 0%Qc.

Definition _build_before_curve (s : Simulator) : option Simulator :=
  (* reset *)
  let bl := base_load (current_scenario s) in
  '(assets', bl') <- before_loop bl (assets s) ;;
  cost <- before_cost assets' ;;
  Some (mkSimulator (scenarios s) (current_scenario s) assets' (base_power s)
          bl' (after_load s) (flex_participation s) (price_weight s)
          cost (cost_after_cents s)).

Definition norm (val lo hi : Qc) : option Qc :=
  if ltb lo hi then div (val - lo) (hi - lo) else Some 0%Qc.

Definition scores_of (d : list (Z * Qc)) (h : Z) : option Qc :=
  dict_getitem Z.eqb d h.

(** score each hour in window based on current after_load + price *)
Definition score_hours (al : list Qc) (w_grid w_price : Qc) (window : list Z)
  : option (list (Z * Qc)) :=
  loads <- comprehension (getitem al) window ;;
  prices <- comprehension (getitem PRICE_PER_HOUR) window ;;
  Lmin <- Py.min loads ;;
  Lmax <- Py.max loads ;;
  Pmin <- Py.min prices ;;
  Pmax <- Py.max prices ;;
  for_each
    (fun scores h =>
       lh <- getitem al h ;;
       l_norm <- norm lh Lmin Lmax ;;
       ph <- getitem PRICE_PER_HOUR h ;;
       p_norm <- norm ph Pmin Pmax ;;
       Some (dict_setitem scores h (w_grid * l_norm + w_price * p_norm)%Qc))
    window [].

(** take best individual hours: [n] is the number of turns of
    [for _ in range(duration)]. *)
Fixpoint take_best (scores : list (Z * Qc)) (n : nat) (available chosen : list Z)
  : option (list Z) :=
  match n with
  | O => Some chosen
  | S n' =>
      if is_nil available then Some chosen
      else
        best <- min_key (scores_of scores) available ;;
        available' <- remove best available ;;
        take_best scores n' available' (chosen ++ [best])
  end.

(** best continuous block: the loop over [i], carrying
    [(best_block, best_score)]. *)
Definition block_step (scores : list (Z * Qc)) (window : list Z) (duration : Z)
           (st : option (list Z) * option Qc) (i : Z)
  : option (option (list Z) * option Qc) :=
  let block := slice window i (i + duration) in
  vals <- comprehension (scores_of scores) block ;;
  let s := sum vals in
  match snd st with
  | None => Some (Some block, Some s)
  | Some best_score =>
      if ltb s best_score then Some (Some block, Some s) else Some st
  end.

Definition block_search (scores : list (Z * Qc)) (window : list Z) (duration : Z)
  : option (option (list Z)) :=
  let duration := if len window <? duration then len window else duration in
  '(best_block, _) <-
     for_each (block_step scores window duration)
              (range 0 (len window - duration + 1)) (None, None) ;;
  Some best_block.

(** [if best_block: chosen = best_block], [chosen] being [[]] before. *)
Definition best_block (scores : list (Z * Qc)) (window : list Z) (duration : Z)
  : option (list Z) :=
  best_block <- block_search scores window duration ;;
  match best_block with
  | Some (h :: block) => Some (h :: block)
  | _ => Some []
  end.

Definition add_cost (power : Qc) (cost : Qc) (h : Z) : option Qc :=
  pr <- getitem PRICE_PER_HOUR h ;; Some (cost + power * pr)%Qc.

(** Body of the placement loop of [_build_after_curve]; the asset is the
    object at position [i] of the catalog. *)
Definition place (p_flex w_price w_grid : Qc)
           (st : list Asset * list Qc * Qc) (i : nat)
  : option (list Asset * list Qc * Qc) :=
  let '(assets, al, cost) := st in
  a <- nth_error assets i ;;
  let power_full := power_kw a in
  if leb power_full 0%Qc || is_nil (before_hours a) then Some st
  else
    let participate_power := (power_full * p_flex)%Qc in
    let remain_power := (power_full * (1 - p_flex))%Qc in
    let window := get_window_hours (start_hour a) (end_hour a) in
    if is_nil window then
      Some (update i (set_after_hours a (before_hours a)) assets, al, cost)
    else
      let duration := min2 (duration_h a) (len window) in
      (* remove participating part from previous hours *)
      al <- for_each (fun al h => isub al h participate_power) (before_hours a) al ;;
      scores <- score_hours al w_grid w_price window ;;
      chosen <- (if variable a
                 then take_best scores (Z.to_nat duration) window []
                 else best_block scores window duration) ;;
      (* add participating part to chosen hours *)
      al <- for_each (fun al h => iadd al h participate_power) chosen al ;;
      let a := set_after_hours a chosen in
      (* cost for this asset (simplified: before+after, cents) *)
      cost <- for_each (add_cost remain_power) (before_hours a) cost ;;
      cost <- for_each (add_cost participate_power) (after_hours a) cost ;;
      Some (update i a assets, al, cost).

(** sort big assets first: the positions of the enabled assets, by
    descending power, equal powers in catalog order. *)
Definition enabled_assets (l : list Asset) : list nat :=
  map fst
    (sorted (fun x : nat * Asset => (- power_kw (snd x))%Qc)
            (filter (fun x : nat * Asset => enabled (snd x)) (enumerate l))).

Definition _build_after_curve (s : Simulator) : option Simulator :=
  let al := before_load s in  (* start from naive *)
  let p_flex := flex_participation s in
  let w_price := price_weight s in
  let w_grid := (1 - w_price)%Qc in
  (* clear after_hours *)
  let cleared := map (fun a => set_after_hours a []) (assets s) in
  '(assets', al', cost) <-
     for_each (place p_flex w_price w_grid) (enabled_assets cleared)
              (cleared, al, 0%Qc) ;;
  Some (mkSimulator (scenarios s) (current_scenario s) assets' (base_power s)
          (before_load s) al' (flex_participation s) (price_weight s)
          (cost_before_cents s) cost).

(** Rebuild before/after curves, costs, etc. *)
Definition recalculate (s : Simulator) : option Simulator :=
  s1 <- _build_before_curve s ;;
  _build_after_curve s1.

Definition scaling_get (sc : Scenario) (key : string) : Qc :=
  dict_get String.eqb (scaling_factors sc) key 1%Qc.

(** The factor that [apply_scenario] computes for one appliance label. *)
Definition scenario_factor (sc : Scenario) (label : string) : Qc :=
  let factor := 1%Qc in
  let factor := if contains "EV" label
                then (factor * scaling_get sc "EV")%Qc else factor in
  let factor := if contains "HVAC" label || contains "Heat" label
                then (factor * scaling_get sc "HVAC")%Qc else factor in
  let factor := if contains "Battery" label
                then (factor * scaling_get sc "Battery")%Qc else factor in
  let factor := if contains "Sauna" label
                then (factor * scaling_get sc "Sauna")%Qc else factor in
  factor.

(** scale assets according to scenario *)
Definition scale_assets (sc : Scenario) (bp : list (nat * Qc)) (l : list Asset)
  : option (list Asset) :=
  comprehension
    (fun x : nat * Asset =>
       let (i, a) := x in
       base <- dict_getitem Nat.eqb bp i ;;
       Some (set_power_kw a (base * scenario_factor sc (appliance a))%Qc))
    (enumerate l).

Definition apply_scenario (s : Simulator) (name : string) : option Simulator :=
  sc <- dict_getitem String.eqb (scenarios s) name ;;
  assets' <- scale_assets sc (base_power s) (assets s) ;;
  recalculate
    (mkSimulator (scenarios s) sc assets' (base_power s)
       (before_load s) (after_load s) (flex_participation s) (price_weight s)
       (cost_before_cents s) (cost_after_cents s)).

(** ** public API *)

Definition set_flex_participation (s : Simulator) (pct : Qc) : option Simulator :=
  recalculate
    (mkSimulator (scenarios s) (current_scenario s) (assets s) (base_power s)
       (before_load s) (after_load s) (qmax2 0%Qc (qmin2 1%Qc pct)) (price_weight s)
       (cost_before_cents s) (cost_after_cents s)).

Definition set_price_weight (s : Simulator) (pct : Qc) : option Simulator :=
  recalculate
    (mkSimulator (scenarios s) (current_scenario s) (assets s) (base_power s)
       (before_load s) (after_load s) (flex_participation s)
       (qmax2 0%Qc (qmin2 1%Qc pct))
       (cost_before_cents s) (cost_after_cents s)).

(** [if den > 0 then num / den * 100 else 0.0]. *)
Definition pct_of (num den : Qc) : option Qc :=
  if ltb 0%Qc den then q <- div num den ;; Some (q * lit 100 1)%Qc
  else Some 0%Qc.

(** The CO2 loop of [compute_stats]: [(co2_before, co2_after)]. *)
Definition co2_step (bl al co2_curve : list Qc) (acc : Qc * Qc) (h : Z)
  : option (Qc * Qc) :=
  let (co2_before, co2_after) := acc in
  b <- getitem bl h ;;
  cb <- getitem co2_curve h ;;
  a <- getitem al h ;;
  ca <- getitem co2_curve h ;;
  Some ((co2_before + b * cb)%Qc, (co2_after + a * ca)%Qc).

Definition compute_stats (s : Simulator) : option Stats :=
  peak_before <- Py.max (before_load s) ;;
  peak_after <- Py.max (after_load s) ;;
  let red := (peak_before - peak_after)%Qc in
  red_pct <- pct_of red peak_before ;;
  let cb_eur := (cost_before_cents s / lit 100 1)%Qc in
  let ca_eur := (cost_after_cents s / lit 100 1)%Qc in
  let saving_eur := (cb_eur - ca_eur)%Qc in
  saving_pct <- pct_of saving_eur cb_eur ;;
  (* CO2 *)
  let co2_curve := co2_per_hour (current_scenario s) in
  '(co2_before, co2_after) <-
     for_each (co2_step (before_load s) (after_load s) co2_curve)
              (range 0 NUM_HOURS) (0%Qc, 0%Qc) ;;
  let co2_saving_day := (co2_before - co2_after)%Qc in
  co2_saving_pct <- pct_of co2_saving_day co2_before ;;
  let co2_saving_year := (co2_saving_day * lit 365 1)%Qc in
  Some (mkStats peak_before peak_after red red_pct
          cb_eur ca_eur saving_eur saving_pct
          co2_saving_day co2_saving_pct co2_saving_year).

(** The dict comprehension [{i: a.power_kw for i, a in enumerate(assets)}]. *)
Definition power_by_index (l : list Asset) : list (nat * Qc) :=
  fold_left (fun d (x : nat * Asset) => dict_setitem d (fst x) (power_kw (snd x)))
            (enumerate l) [].

(** [Simulator()]. *)
Definition __init__ : option Simulator :=
  let scenarios := get_scenarios in
  current_scenario <- dict_getitem String.eqb scenarios "Baseline"%string ;;
  let assets := initial_assets in
  (* store unscaled reference power *)
  let base_power := power_by_index assets in
  recalculate
    (mkSimulator scenarios current_scenario assets base_power
       (base_load current_scenario) (base_load current_scenario)
       1%Qc (lit 5 10) 0%Qc 0%Qc).

End Logic.

(* ------------------------------------------------------------------ *)
(** * ui_tk.py, class [FlexiCityApp]: the form of the modular program *)
(* ------------------------------------------------------------------ *)

Module FlexiCityApp.

Definition _window_hours (start end_ : Z) : list Z :=
  if start <? end_ then range start end_
  else range start Logic.NUM_HOURS ++ range 0 end_.

(** [_read_form_asset], from the point where the entries have been parsed
    ([float()], [int()], [bool()]): the checks in their order, [inl msg] for
    the [ValueError] that is caught and shown (the method then returns
    [None]), [inr] for the tuple it returns. *)
Definition _read_form_asset (owner appliance : string) (power_kw : Qc)
           (duration_h start end_ : Z) (variable : bool)
  : string + (string * string * Qc * Z * Z * Z * bool) :=
  if negb ((0 <=? start) && (start <? 24)) then
    inl "Start hour must be between 0 and 23"%string
  else if negb ((1 <=? end_) && (end_ <=? 24)) then
    inl "End hour must be between 1 and 24"%string
  else if len (_window_hours start end_) =? 0 then
    inl "Time window is empty or invalid."%string
  else if duration_h <? 1 then
    inl "Duration must be at least 1 hour."%string
  else if len (_window_hours start end_) <? duration_h then
    inl "Duration cannot exceed window length."%string
  else inr (owner, appliance, power_kw, duration_h, start, end_, variable).

(** [_on_add_asset]: the asset appended to the catalog, its base power
    recorded, then a recompute.  [None] of the outer option is a raise of the
    recompute; [Some None] is the form refused. *)
Definition _on_add_asset (sim : Logic.Simulator) (owner appliance : string)
           (power_kw : Qc) (duration_h start end_ : Z) (variable : bool)
  : option (option Logic.Simulator) :=
  match _read_form_asset owner appliance power_kw duration_h start end_ variable with
  | inl _ => Some None
  | inr (owner, appliance, power_kw, duration_h, start, end_, variable) =>
      let new_asset :=
        Database.new_asset owner appliance power_kw duration_h start end_ variable in
      let assets := (Logic.assets sim ++ [new_asset])%list in
      let base_power :=
        dict_setitem (Logic.base_power sim) (List.length assets - 1)%nat power_kw in
      sim' <- Logic.recalculate
                (Logic.mkSimulator (Logic.scenarios sim) (Logic.current_scenario sim)
                   assets base_power (Logic.before_load sim) (Logic.after_load sim)
                   (Logic.flex_participation sim) (Logic.price_weight sim)
                   (Logic.cost_before_cents sim) (Logic.cost_after_cents sim)) ;;
      Some (Some sim')
  end.

(** ** Callbacks

    Each callback below ends, in the source, with [self._refresh_all()],
    which is [_refresh_all] further down; the callbacks are given up to that
    call.  The selection of the list box is [sel] ([None] when nothing is
    selected); the index map of the list box is the identity on the
    positions of the catalog, so that a selection past the catalog is the
    [IndexError] of the map. *)

Definition with_assets (sim : Logic.Simulator) (l : list Asset) (bp : list (nat * Qc))
  : Logic.Simulator :=
  Logic.mkSimulator (Logic.scenarios sim) (Logic.current_scenario sim) l bp
    (Logic.before_load sim) (Logic.after_load sim)
    (Logic.flex_participation sim) (Logic.price_weight sim)
    (Logic.cost_before_cents sim) (Logic.cost_after_cents sim).

Definition _on_scenario_change (sim : Logic.Simulator) (name : string)
  : option Logic.Simulator :=
  Logic.apply_scenario sim name.

(** [flex_var] and [price_weight_var] hold the slider values, in percent. *)
Definition _on_flex_change (sim : Logic.Simulator) (flex_var : Qc)
  : option Logic.Simulator :=
  Logic.set_flex_participation sim (flex_var / lit 100 1)%Qc.

Definition _on_price_weight_change (sim : Logic.Simulator) (price_weight_var : Qc)
  : option Logic.Simulator :=
  Logic.set_price_weight sim (price_weight_var / lit 100 1)%Qc.

Definition _on_toggle_asset (sim : Logic.Simulator) (sel : option nat)
  : option Logic.Simulator :=
  match sel with
  | None => Some sim    (* "Please select an asset first." *)
  | Some list_idx =>
      let asset_idx := list_idx in
      a <- nth_error (Logic.assets sim) asset_idx ;;
      let a := set_enabled a (negb (enabled a)) in
      Logic.recalculate
        (with_assets sim (update asset_idx a (Logic.assets sim)) (Logic.base_power sim))
  end.

(** [del l[i]]. *)
Fixpoint del {A : Type} (l : list A) (i : nat) : list A :=
  match l, i with
  | [], _ => []
  | _ :: l', O => l'
  | x :: l', S i' => x :: del l' i'
  end.

(** [confirm] is the answer to the "Delete asset" dialog. *)
Definition _on_delete_asset (sim : Logic.Simulator) (sel : option nat) (confirm : bool)
  : option Logic.Simulator :=
  match sel with
  | None => Some sim    (* "Please select an asset to delete." *)
  | Some list_idx =>
      let asset_idx := list_idx in
      a <- nth_error (Logic.assets sim) asset_idx ;;
      if negb confirm then Some sim
      else
        let assets := del (Logic.assets sim) asset_idx in
        (* rebuild base_power mapping (logic uses it for scenarios) *)
        let base_power := Logic.power_by_index assets in
        Logic.recalculate (with_assets sim assets base_power)
  end.

Definition set_form_fields (a : Asset) (owner appliance : string) (power_kw : Qc)
           (duration_h start end_ : Z) (variable : bool) : Asset :=
  mkAsset owner appliance power_kw duration_h start end_ variable (enabled a)
          (before_hours a) (after_hours a).

(** [None] of the inner option: the form is refused and nothing changes. *)
Definition _on_apply_edit_to_selected (sim : Logic.Simulator) (sel : option nat)
           (owner appliance : string) (power_kw : Qc) (duration_h start end_ : Z)
           (variable : bool)
  : option (option Logic.Simulator) :=
  match sel with
  | None => Some None   (* "Select an asset to apply changes to." *)
  | Some list_idx =>
      let asset_idx := list_idx in
      if negb (Nat.ltb list_idx (List.length (Logic.assets sim))) then None
      else
      match _read_form_asset owner appliance power_kw duration_h start end_ variable with
      | inl _ => Some None
      | inr (owner, appliance, power_kw, duration_h, start, end_, variable) =>
          a <- nth_error (Logic.assets sim) asset_idx ;;
          let a := set_form_fields a owner appliance power_kw duration_h start end_
                     variable in
          let base_power := dict_setitem (Logic.base_power sim) asset_idx power_kw in
          sim' <- Logic.recalculate
                    (with_assets sim (update asset_idx a (Logic.assets sim)) base_power) ;;
          Some (Some sim')
      end
  end.

(** ** Refresh and drawing

    The texts put in the labels and in the list box are left out; the
    drawing functions give the flat list of coordinates [x0, y0, x1, y1, ...]
    of the polyline they draw on a canvas of width [w] and height [h]. *)

Definition _draw_curve (w h : Z) (load : list Qc) : option (list Qc) :=
  let margin := 40 in
  m <- Py.max load ;;
  let max_val := if ltb 0%Qc m then (m * lit 11 10)%Qc else 1%Qc in
  let x_span := w - 2 * margin in
  let x_step := (lit x_span 1 / lit 24 1)%Qc in
  for_each
    (fun pts k =>
       let idx := k mod Logic.NUM_HOURS in
       v <- getitem load idx ;;
       let x := (lit margin 1 + lit k 1 * x_step)%Qc in
       r <- div v max_val ;;
       let y := (lit (h - margin) 1 - r * lit (h - 2 * margin) 1)%Qc in
       Some (pts ++ [x; y]))
    (range 0 25) [].

(** [pts_for] of [_draw_combined]. *)
Definition pts_for (w h : Z) (max_val : Qc) (curve : list Qc) : option (list Qc) :=
  let margin := 40 in
  let x_span := w - 2 * margin in
  let x_step := (lit x_span 1 / lit 24 1)%Qc in
  for_each
    (fun pts k =>
       let idx := k mod Logic.NUM_HOURS in
       v <- getitem curve idx ;;
       let x := (lit margin 1 + lit k 1 * x_step)%Qc in
       r <- div v max_val ;;
       let y := (lit (h - margin) 1 - r * lit (h - 2 * margin) 1)%Qc in
       Some (pts ++ [x; y]))
    (range 0 25) [].

Definition _draw_combined (w h : Z) (before after : list Qc)
  : option (list Qc * list Qc) :=
  m <- Py.max (before ++ after) ;;
  max_val <- (if ltb 0%Qc m
              then mb <- Py.max before ;; ma <- Py.max after ;;
                   Some (qmax2 mb ma * lit 11 10)%Qc
              else Some 1%Qc) ;;
  pts_b <- pts_for w h max_val before ;;
  pts_a <- pts_for w h max_val after ;;
  Some (pts_b, pts_a).

(** [to_point] of [_draw_price]. *)
Definition to_point (w h : Z) (hour : Z) (val : Qc) : Qc * Qc :=
  let margin := 40 in
  let min_price_scale := 0%Qc in
  let max_price_scale := lit 25 1 in
  let price_range := (max_price_scale - min_price_scale)%Qc in
  let x_span := w - 2 * margin in
  let x_step := (lit x_span 1 / lit 24 1)%Qc in
  let usable_height := h - 2 * margin in
  let pv := qmax2 min_price_scale (qmin2 max_price_scale val) in
  let norm := ((pv - min_price_scale) / price_range)%Qc in
  let x := (lit margin 1 + lit hour 1 * x_step)%Qc in
  let y := (lit (h - margin) 1 - norm * lit usable_height 1)%Qc in
  (x, y).

Definition _draw_price (w h : Z) : option (list Qc) :=
  for_each
    (fun pts k =>
       let idx := k mod Logic.NUM_HOURS in
       v <- getitem PRICE_PER_HOUR idx ;;
       let (x, y) := to_point w h k v in
       Some (pts ++ [x; y]))
    (range 0 25) [].

(** The sizes [(width, height)] of the four canvases. *)
Record Canvases : Type := mkCanvases {
  canvas_before : Z * Z;
  canvas_after : Z * Z;
  canvas_combined : Z * Z;
  canvas_price : Z * Z
}.

Definition _redraw_graphs (cv : Canvases) (sim : Logic.Simulator) : option unit :=
  _ <- _draw_curve (fst (canvas_before cv)) (snd (canvas_before cv))
                   (Logic.before_load sim) ;;
  _ <- _draw_curve (fst (canvas_after cv)) (snd (canvas_after cv))
                   (Logic.after_load sim) ;;
  _ <- _draw_combined (fst (canvas_combined cv)) (snd (canvas_combined cv))
                      (Logic.before_load sim) (Logic.after_load sim) ;;
  Some tt.

(** [_refresh_all]: the statistics, the list box (which raises nothing), the
    three load graphs and the price graph. *)
Definition _refresh_all (cv : Canvases) (sim : Logic.Simulator) : option Logic.Stats :=
  stats <- Logic.compute_stats sim ;;
  _ <- _redraw_graphs cv sim ;;
  _ <- _draw_price (fst (canvas_price cv)) (snd (canvas_price cv)) ;;
  Some stats.

(** What the user does; the form fields are the parsed entries. *)
Inductive Event : Type :=
| ScenarioChange (name : string)
| FlexChange (flex_var : Qc)
| PriceWeightChange (price_weight_var : Qc)
| ToggleAsset (sel : option nat)
| DeleteAsset (sel : option nat) (confirm : bool)
| AddAsset (owner appliance : string) (power_kw : Qc) (duration_h start end_ : Z)
           (variable : bool)
| ApplyEdit (sel : option nat) (owner appliance : string) (power_kw : Qc)
            (duration_h start end_ : Z) (variable : bool).

(** A callback with the refresh that ends it.  A refused form returns
    before the refresh. *)
Definition handle (cv : Canvases) (sim : Logic.Simulator) (ev : Event)
  : option Logic.Simulator :=
  let refreshed (r : option Logic.Simulator) :=
    sim' <- r ;; _ <- _refresh_all cv sim' ;; Some sim' in
  match ev with
  | ScenarioChange name => refreshed (_on_scenario_change sim name)
  | FlexChange v => refreshed (_on_flex_change sim v)
  | PriceWeightChange v => refreshed (_on_price_weight_change sim v)
  | ToggleAsset None => Some sim
  | ToggleAsset sel => refreshed (_on_toggle_asset sim sel)
  | DeleteAsset None _ => Some sim
  | DeleteAsset sel false => _on_delete_asset sim sel false
  | DeleteAsset sel true => refreshed (_on_delete_asset sim sel true)
  | AddAsset o ap pw d s e v =>
      r <- _on_add_asset sim o ap pw d s e v ;;
      match r with
      | None => Some sim
      | Some sim' => refreshed (Some sim')
      end
  | ApplyEdit sel o ap pw d s e v =>
      r <- _on_apply_edit_to_selected sim sel o ap pw d s e v ;;
      match r with
      | None => Some sim
      | Some sim' => refreshed (Some sim')
      end
  end.

End FlexiCityApp.

(* ------------------------------------------------------------------ *)
(** * ui_tk.py, "SmartLDS ver1.0": the monolithic program *)
(* ------------------------------------------------------------------ *)

Module SmartLDS.

Definition NUM_HOURS : Z := 24.

(** The script repeats the price table, the CO2 table and the curve
    generators of [database.py] literally. *)
Definition PRICE_PER_HOUR : list Qc := Database.PRICE_PER_HOUR.
Definition CO2_PER_HOUR_BASELINE : list Qc := Database.CO2_PER_HOUR_BASELINE.
Definition generate_base_load : list Qc := Database.generate_baseline_base_load.
Definition generate_winter_load : list Qc := Database.generate_winter_base_load.
Definition generate_future2030_load (baseline : list Qc) : list Qc :=
  map (fun h =>
         let val := (nth (Z.to_nat h) baseline 0 * lit 19 10)%Qc in
         let val := if (10 <=? h) && (h <=? 15) then (val + lit 35 1)%Qc else val in
         let val := if (16 <=? h) && (h <=? 21) then (val + lit 70 1)%Qc else val in
         val)
      (range 0 NUM_HOURS).
Definition generate_winter_co2 : list Qc := Database.generate_winter_co2.
Definition generate_future2030_co2 : list Qc := Database.generate_future_co2.
Definition BASE_LOAD_BASELINE : list Qc := generate_base_load.

(** An asset is a dict with these keys; every asset of the script has them
    all, so that [asset.get("enabled", True)] reads the key. *)
Record Asset : Type := mkAsset {
  owner : string;
  appliance : string;
  power_kW : Qc;
  duration_h : Z;
  start_hour : Z;          (* 0..23 *)
  end_hour : Z;            (* 0..24 (can wrap if end <= start) *)
  variable : bool;         (* True = can be split, False = continuous block *)
  enabled : bool;
  before_hours : list Z;
  after_hours : list Z;
  base_power_kW : Qc       (* original power for scenario scaling *)
}.

Definition set_power_kW (a : Asset) (pw : Qc) : Asset :=
  mkAsset (owner a) (appliance a) pw (duration_h a) (start_hour a) (end_hour a)
          (variable a) (enabled a) (before_hours a) (after_hours a)
          (base_power_kW a).

Definition set_before_hours (a : Asset) (hs : list Z) : Asset :=
  mkAsset (owner a) (appliance a) (power_kW a) (duration_h a) (start_hour a)
          (end_hour a) (variable a) (enabled a) hs (after_hours a)
          (base_power_kW a).

Definition set_after_hours (a : Asset) (hs : list Z) : Asset :=
  mkAsset (owner a) (appliance a) (power_kW a) (duration_h a) (start_hour a)
          (end_hour a) (variable a) (enabled a) (before_hours a) hs
          (base_power_kW a).

(** The module-level globals that the schedule engine and the optimizers
    read and write; [flex_var] and [priority_var] are the values held by the
    two Tk variables (percent). *)
Record Globals : Type := mkGlobals {
  BASE_LOAD : list Qc;
  CO2_PER_HOUR : list Qc;
  ASSETS : list Asset;
  before_load : list Qc;
  after_load : list Qc;
  cost_before_flex : Qc;
  cost_after_flex : Qc;
  flex_var : Qc;
  priority_var : Qc
}.

Definition clamp (val lo hi : Z) : Z := max2 lo (min2 hi val).

Definition get_window_hours (start_hour end_hour : Z) : list Z :=
  let sh := start_hour in
  let eh := end_hour in
  if sh <? eh then range sh eh
  else (* wrap across midnight *)
    range sh NUM_HOURS ++ range 0 eh.

(** 1) BEFORE scenario (everyone dumb, full power): body of the loop. *)
Definition before_place (bl : list Qc) (asset : Asset) : option (Asset * list Qc) :=
  if negb (enabled asset) then Some (asset, bl)
  else
    let sh := clamp (start_hour asset) 0 (NUM_HOURS - 1) in
    (* allow 0..24 for end *)
    let eh := clamp (end_hour asset) 0 NUM_HOURS in
    if sh =? eh then Some (asset, bl)  (* empty window *)
    else
      let window_hours := get_window_hours sh eh in
      if Logic.is_nil window_hours then Some (asset, bl)
      else
        let max_duration := len window_hours in
        let duration := clamp (duration_h asset) 1 max_duration in
        let power_full := power_kW asset in
        if leb power_full 0%Qc then Some (asset, bl)
        else
          let hours_used := slice window_hours 0 duration in
          bl' <- for_each (fun bl h => iadd bl h power_full) hours_used bl ;;
          Some (set_before_hours asset hours_used, bl').

Fixpoint before_loop (bl : list Qc) (l : list Asset)
  : option (list Asset * list Qc) :=
  match l with
  | [] => Some ([], bl)
  | a :: l' =>
      '(a', bl1) <- before_place bl a ;;
      '(l'', bl2) <- before_loop bl1 l' ;;
      Some (a' :: l'', bl2)
  end.

(** cost BEFORE (flexible loads only) *)
Definition before_cost (l : list Asset) : option Qc :=
  for_each
    (fun cost asset =>
       if negb (enabled asset) then Some cost
       else for_each (Logic.add_cost (power_kW asset)) (before_hours asset) cost)
    l 0%Qc.

(** 2) AFTER scenario: body of the loop over the sorted enabled assets; the
    asset is the dict at position [i] of [ASSETS].  Steps 2b and the two
    placement policies are, word for word, those of [logic.py]. *)
Definition place (participation price_weight grid_weight : Qc)
           (st : list Asset * list Qc) (i : nat)
  : option (list Asset * list Qc) :=
  let '(assets, al) := st in
  asset <- nth_error assets i ;;
  let power_full := power_kW asset in
  if leb power_full 0%Qc then Some st
  else
    let p := participation in
    let participating_power := (power_full * p)%Qc in
    if leb p 0%Qc || Logic.is_nil (before_hours asset) then
      Some (update i (set_after_hours asset (before_hours asset)) assets, al)
    else
      let sh := clamp (start_hour asset) 0 (NUM_HOURS - 1) in
      let eh := clamp (end_hour asset) 0 NUM_HOURS in
      if sh =? eh then
        Some (update i (set_after_hours asset (before_hours asset)) assets, al)
      else
        let window_hours := get_window_hours sh eh in
        if Logic.is_nil window_hours then
          Some (update i (set_after_hours asset (before_hours asset)) assets, al)
        else
          let duration := clamp (duration_h asset) 1 (len window_hours) in
          (* 2a) remove participating part from old naive hours *)
          al <- for_each (fun al h => isub al h participating_power)
                         (before_hours asset) al ;;
          (* 2b) compute scores (grid + price) inside window *)
          hour_score <- Logic.score_hours al grid_weight price_weight window_hours ;;
          chosen_hours <-
            (if variable asset
             then Logic.take_best hour_score (Z.to_nat duration) window_hours []
             else
               best_block <- Logic.block_search hour_score window_hours duration ;;
               match best_block with
               | Some block => Some block
               | None => Some []
               end) ;;
          (* 2c) add participating part to new hours *)
          al <- for_each (fun al h => iadd al h participating_power) chosen_hours al ;;
          Some (update i (set_after_hours asset chosen_hours) assets, al).

(** sort largest power first so big assets shape the curve first *)
Definition enabled_sorted (l : list Asset) : list nat :=
  map fst
    (sorted (fun x : nat * Asset => (- power_kW (snd x))%Qc)
            (filter (fun x : nat * Asset => enabled (snd x)) (enumerate l))).

(** cost AFTER *)
Definition after_cost (participation : Qc) (l : list Asset) : option Qc :=
  for_each
    (fun cost asset =>
       if negb (enabled asset) then Some cost
       else
         let power_full := power_kW asset in
         let p := participation in
         let participating_power := (power_full * p)%Qc in
         let remaining_power := (power_full * (1 - p))%Qc in
         cost <- for_each (Logic.add_cost remaining_power) (before_hours asset) cost ;;
         for_each (Logic.add_cost participating_power) (after_hours asset) cost)
    l 0%Qc.

Definition recalculate_schedules (g : Globals) : option Globals :=
  let participation := (flex_var g / lit 100 1)%Qc in  (* 0..1 *)
  let priority_val := (priority_var g / lit 100 1)%Qc in
  let price_weight := priority_val in           (* 0..1 *)
  let grid_weight := (1 - priority_val)%Qc in   (* 1..0 *)
  (* Reset schedules *)
  let assets := map (fun a => set_after_hours (set_before_hours a []) []) (ASSETS g) in
  '(assets, bl) <- before_loop (BASE_LOAD g) assets ;;
  cost_before <- before_cost assets ;;
  '(assets, al) <-
     for_each (place participation price_weight grid_weight)
              (enabled_sorted assets) (assets, bl) ;;
  cost_after <- after_cost participation assets ;;
  Some (mkGlobals (BASE_LOAD g) (CO2_PER_HOUR g) assets bl al
          cost_before cost_after (flex_var g) (priority_var g)).

(** The numbers that [update_stats_and_graph] computes and displays. *)
Definition emissions (load co2 : list Qc) : option Qc :=
  for_each (fun acc h =>
              x <- getitem load h ;;
              c <- getitem co2 h ;;
              Some (acc + x * c)%Qc)
           (range 0 NUM_HOURS) 0%Qc.

Definition update_stats_and_graph (g : Globals) : option Logic.Stats :=
  peak_b <- Py.max (before_load g) ;;
  peak_a <- Py.max (after_load g) ;;
  let reduction := (peak_b - peak_a)%Qc in
  reduction_pct <- Logic.pct_of reduction peak_b ;;
  let cost_b_eur := (cost_before_flex g / lit 100 1)%Qc in
  let cost_a_eur := (cost_after_flex g / lit 100 1)%Qc in
  let saving_eur := (cost_b_eur - cost_a_eur)%Qc in
  saving_pct <- Logic.pct_of saving_eur cost_b_eur ;;
  '(emissions_before_t_day, emissions_after_t_day) <-
     for_each (Logic.co2_step (before_load g) (after_load g) (CO2_PER_HOUR g))
              (range 0 NUM_HOURS) (0%Qc, 0%Qc) ;;
  let saving_t_day := (emissions_before_t_day - emissions_after_t_day)%Qc in
  saving_pct_co2 <- Logic.pct_of saving_t_day emissions_before_t_day ;;
  let saving_t_year := (saving_t_day * lit 365 1)%Qc in
  Some (Logic.mkStats peak_b peak_a reduction reduction_pct
          cost_b_eur cost_a_eur saving_eur saving_pct
          saving_t_day saving_pct_co2 saving_t_year).

Definition set_vars (g : Globals) (flex pr : Z) : Globals :=
  mkGlobals (BASE_LOAD g) (CO2_PER_HOUR g) (ASSETS g) (before_load g)
    (after_load g) (cost_before_flex g) (cost_after_flex g)
    (lit flex 1) (lit pr 1).

(** The slider callbacks: a recompute, then the display. *)
Definition on_flex_change (g : Globals) : option Globals :=
  g' <- recalculate_schedules g ;;
  _ <- update_stats_and_graph g' ;;
  Some g'.

Definition on_priority_change (g : Globals) : option Globals :=
  g' <- recalculate_schedules g ;;
  _ <- update_stats_and_graph g' ;;
  Some g'.

(** ** Scenarios *)

Definition scale_all (f : Asset -> Qc) (l : list Asset) : list Asset :=
  map (fun a => set_power_kW a (f a)) l.

Definition winter_power (a : Asset) : Qc :=
  let base := base_power_kW a in
  if contains "Heat pumps" (appliance a) || contains "HVAC" (appliance a) then
    (base * lit 18 10)%Qc      (* much more heating demand *)
  else if contains "EV" (appliance a) || contains "charg" (appliance a) then
    (base * lit 14 10)%Qc      (* more EV charging in winter *)
  else if contains "Sauna" (appliance a) then
    (base * lit 16 10)%Qc
  else
    (base * lit 12 10)%Qc.     (* everything slightly higher *)

Definition future_power (a : Asset) : Qc :=
  let base := base_power_kW a in
  if contains "EV" (appliance a) || contains "charg" (appliance a) then
    (base * lit 22 10)%Qc      (* lots more EVs *)
  else if contains "Heat pumps" (appliance a) || contains "Battery" (appliance a) then
    (base * lit 19 10)%Qc      (* more electric heating & storage *)
  else
    (base * lit 14 10)%Qc.     (* more electrification overall *)

Definition with_scenario (g : Globals) (bl co2 : list Qc) (l : list Asset) : Globals :=
  mkGlobals bl co2 l (before_load g) (after_load g) (cost_before_flex g)
    (cost_after_flex g) (flex_var g) (priority_var g).

Definition apply_scenario (g : Globals) (name : string) : option Globals :=
  let g :=
    if String.eqb name "Baseline" then
      with_scenario g BASE_LOAD_BASELINE CO2_PER_HOUR_BASELINE
        (scale_all base_power_kW (ASSETS g))
    else if String.eqb name "Winter weekday" then
      with_scenario g generate_winter_load generate_winter_co2
        (scale_all winter_power (ASSETS g))
    else if String.eqb name "2030 future" then
      with_scenario g (generate_future2030_load BASE_LOAD_BASELINE)
        generate_future2030_co2 (scale_all future_power (ASSETS g))
    else g in
  g' <- recalculate_schedules g ;;
  _ <- update_stats_and_graph g' ;;
  Some g'.

(** [read_form_values], from the point where the entries have been parsed:
    [inl msg] for the [ValueError] it raises. *)
Definition read_form_values (owner appliance : string) (power : Qc)
           (duration start end_ : Z) (variable enabled : bool)
  : string + Asset :=
  if negb ((0 <=? start) && (start <? NUM_HOURS)) then
    inl "Start hour must be between 0 and 23"%string
  else if negb ((0 <=? end_) && (end_ <=? NUM_HOURS)) then
    inl "End hour must be between 0 and 24"%string
  else if start =? end_ then
    inl "Start and end hour cannot be the same (empty window)"%string
  else inr (mkAsset owner appliance power duration start end_ variable enabled
              [] [] power).

(** ** Optimisation buttons *)

(** [range(0, 101, 10)], the values of both loops. *)
Definition grid_axis : list Z := range_step 0 101 10.

(** [for flex in range(0, 101, 10): for pr in range(0, 101, 10): body]. *)
Definition grid_loop {S : Type} (body : S -> Z * Z -> option S) (s : S) : option S :=
  for_each (fun s flex => for_each (fun s pr => body s (flex, pr)) grid_axis s)
           grid_axis s.

(** Min-peak search over flex & grid/price: the body of the two loops,
    carrying the globals and [(best_peak, best_flex, best_priority)]. *)
Definition optimal_step (st : Globals * option Qc * option Z * option Z) (pt : Z * Z)
  : option (Globals * option Qc * option Z * option Z) :=
  let '(g, best_peak, best_flex, best_priority) := st in
  let (flex, pr) := pt in
  g <- recalculate_schedules (set_vars g flex pr) ;;
  peak_a <- Py.max (after_load g) ;;
  match best_peak with
  | None => Some (g, Some peak_a, Some flex, Some pr)
  | Some bp =>
      if ltb peak_a bp then Some (g, Some peak_a, Some flex, Some pr)
      else Some (g, best_peak, best_flex, best_priority)
  end.

Definition find_optimal_settings (g : Globals) : option Globals :=
  '(g, _, best_flex, best_priority) <- grid_loop optimal_step (g, None, None, None) ;;
  match best_flex, best_priority with
  | Some best_flex, Some best_priority =>
      g <- on_flex_change (set_vars g best_flex best_priority) ;;
      on_priority_change g
  | _, _ => Some g
  end.

(** The dict [best_combo] of [find_ideal_peak_settings]. *)
Record Combo : Type := mkCombo {
  flex : Z;
  priority : Z;
  peak_after : Qc;
  cost_after_eur : Qc;
  emissions_after_t_day : Qc;
  saving_cost : Qc;
  saving_co2 : Qc
}.

(** Max peak reduction, but only if cost saving >= 0 and CO2 saving >= 0:
    the body of the two loops.  [baseline] holds [(baseline_peak,
    baseline_cost_eur, baseline_emissions)], which the script sets together
    at the first grid point. *)
Definition ideal_peak_step
           (st : Globals * option (Qc * Qc * Qc) * option Combo * option Qc)
           (pt : Z * Z)
  : option (Globals * option (Qc * Qc * Qc) * option Combo * option Qc) :=
  let '(g, baseline, best_combo, best_peak_after) := st in
  let (flex, pr) := pt in
  g <- recalculate_schedules (set_vars g flex pr) ;;
  '(baseline_peak, baseline_cost_eur, baseline_emissions) <-
     match baseline with
     | Some b => Some b
     | None =>
         baseline_peak <- Py.max (before_load g) ;;
         let baseline_cost_eur := (cost_before_flex g / lit 100 1)%Qc in
         baseline_emissions <- emissions (before_load g) (CO2_PER_HOUR g) ;;
         Some (baseline_peak, baseline_cost_eur, baseline_emissions)
     end ;;
  let baseline := Some (baseline_peak, baseline_cost_eur, baseline_emissions) in
  peak_after <- Py.max (after_load g) ;;
  let cost_after_eur := (cost_after_flex g / lit 100 1)%Qc in
  emissions_after_t_day <- emissions (after_load g) (CO2_PER_HOUR g) ;;
  let saving_cost := (baseline_cost_eur - cost_after_eur)%Qc in
  let saving_co2 := (baseline_emissions - emissions_after_t_day)%Qc in
  if ltb saving_cost 0%Qc || ltb saving_co2 0%Qc then
    Some (g, baseline, best_combo, best_peak_after)
  else
    let better :=
      match best_peak_after with
      | None => true
      | Some bp => ltb peak_after bp
      end in
    if better then
      Some (g, baseline,
            Some (mkCombo flex pr peak_after cost_after_eur emissions_after_t_day
                    saving_cost saving_co2),
            Some peak_after)
    else Some (g, baseline, best_combo, best_peak_after).

(** What [find_ideal_peak_settings] reports: [Infeasible] is the message "No
    combination found that both saves money and CO2", [Found] the winning
    combination with the peak reduction and its percentage. *)
Inductive IdealPeak : Type :=
| Infeasible
| Found (best_combo : Combo) (peak_reduction peak_reduction_pct : Qc).

Definition find_ideal_peak_settings (g : Globals) : option (Globals * IdealPeak) :=
  '(g, baseline, best_combo, _) <-
     grid_loop ideal_peak_step (g, None, None, None) ;;
  match best_combo with
  | None => Some (g, Infeasible)
  | Some best_combo =>
      g <- on_flex_change (set_vars g (flex best_combo) (priority best_combo)) ;;
      g <- on_priority_change g ;;
      let baseline_peak :=
        match baseline with
        | Some (baseline_peak, _, _) => baseline_peak
        | None => 0%Qc
        end in
      let peak_reduction := (baseline_peak - peak_after best_combo)%Qc in
      peak_reduction_pct <- Logic.pct_of peak_reduction baseline_peak ;;
      Some (g, Found best_combo peak_reduction peak_reduction_pct)
  end.

(** ** Asset buttons

    [editing_index] is the global of that name; the selection of the list box
    is [sel].  [read_form_values] is called from the point where the entries
    have been parsed; its [ValueError] is caught by [add_asset] and
    [save_changes], which then show the message and change nothing.  Each
    function is given up to its calls of [update_stats_and_graph()] and of
    the list box, which is [update_stats_and_graph] above.  An exception of
    the recompute is an [IndexError], which [except ValueError] does not
    catch: it leaves the handler, [None] here. *)

Definition with_ASSETS (g : Globals) (l : list Asset) : Globals :=
  mkGlobals (BASE_LOAD g) (CO2_PER_HOUR g) l (before_load g) (after_load g)
    (cost_before_flex g) (cost_after_flex g) (flex_var g) (priority_var g).

Definition set_enabled (a : Asset) (b : bool) : Asset :=
  mkAsset (owner a) (appliance a) (power_kW a) (duration_h a) (start_hour a)
          (end_hour a) (variable a) b (before_hours a) (after_hours a)
          (base_power_kW a).

Definition add_asset (g : Globals) (editing_index : option nat)
           (owner appliance : string) (power : Qc) (duration start end_ : Z)
           (variable enabled : bool)
  : option (Globals * option nat) :=
  match read_form_values owner appliance power duration start end_ variable enabled with
  | inl _ => Some (g, editing_index)     (* "Invalid input" *)
  | inr asset =>
      g <- recalculate_schedules (with_ASSETS g (ASSETS g ++ [asset])) ;;
      (* clear_form() *)
      Some (g, None)
  end.

Definition save_changes (g : Globals) (editing_index : option nat)
           (owner appliance : string) (power : Qc) (duration start end_ : Z)
           (variable enabled : bool)
  : option (Globals * option nat) :=
  match editing_index with
  | None => Some (g, editing_index)      (* "No asset loaded" *)
  | Some idx =>
      match read_form_values owner appliance power duration start end_ variable enabled with
      | inl _ => Some (g, editing_index)
      | inr new_asset =>
          (* keep base_power_kW as new base *)
          if negb (Nat.ltb idx (List.length (ASSETS g))) then None
          else
            g <- recalculate_schedules (with_ASSETS g (update idx new_asset (ASSETS g))) ;;
            Some (g, None)
      end
  end.

Definition toggle_enabled_selected (g : Globals) (sel : option nat) : option Globals :=
  match sel with
  | None => Some g                       (* "No selection" *)
  | Some idx =>
      asset <- nth_error (ASSETS g) idx ;;
      let asset := set_enabled asset (negb (enabled asset)) in
      recalculate_schedules (with_ASSETS g (update idx asset (ASSETS g)))
  end.

Definition delete_selected (g : Globals) (editing_index : option nat) (sel : option nat)
  : option (Globals * option nat) :=
  match sel with
  | None => Some (g, editing_index)      (* "No selection" *)
  | Some idx =>
      if negb (Nat.ltb idx (List.length (ASSETS g))) then None
      else
        g <- recalculate_schedules (with_ASSETS g (FlexiCityApp.del (ASSETS g) idx)) ;;
        Some (g, None)
  end.

(** ** The other two optimisation buttons *)

(** An entry of [results] in [find_optimal_co2_settings]. *)
Record Co2Result : Type := mkCo2Result {
  co2_flex : Z;
  co2_priority : Z;
  co2_peak : Qc;
  co2_emissions_before : Qc;
  co2_emissions_after : Qc
}.

(** The body of the two loops: the globals and [results]. *)
Definition co2_scan_step (st : Globals * list Co2Result) (pt : Z * Z)
  : option (Globals * list Co2Result) :=
  let '(g, results) := st in
  let (flex, pr) := pt in
  g <- recalculate_schedules (set_vars g flex pr) ;;
  peak_a <- Py.max (after_load g) ;;
  '(emissions_before_t_day, emissions_after_t_day) <-
     for_each (Logic.co2_step (before_load g) (after_load g) (CO2_PER_HOUR g))
              (range 0 NUM_HOURS) (0%Qc, 0%Qc) ;;
  Some (g, results ++ [mkCo2Result flex pr peak_a emissions_before_t_day
                                   emissions_after_t_day]).

(** "balanced (peak+CO2)": the body of the loop over [results], carrying
    [(best_balanced, best_score)]. *)
Definition balanced_step (peak_min peak_max em_min em_max : Qc)
           (st : option Co2Result * option Qc) (r : Co2Result)
  : option (option Co2Result * option Qc) :=
  peak_norm <- Logic.norm (co2_peak r) peak_min peak_max ;;
  em_norm <- Logic.norm (co2_emissions_after r) em_min em_max ;;
  let score := (lit 5 10 * peak_norm + lit 5 10 * em_norm)%Qc in
  match snd st with
  | None => Some (Some r, Some score)
  | Some best_score =>
      if ltb score best_score then Some (Some r, Some score) else Some st
  end.

(** What [find_optimal_co2_settings] shows: "No results to analyse." or the
    two winners with their savings. *)
Inductive Co2Report : Type :=
| NoResults
| Co2Found (best_co2 best_balanced : Co2Result)
           (saving_t_day saving_pct saving_bal_day saving_bal_pct : Qc).

Definition find_optimal_co2_settings (g : Globals) : option (Globals * Co2Report) :=
  '(g, results) <- grid_loop co2_scan_step (g, []) ;;
  if Logic.is_nil results then Some (g, NoResults)
  else
    (* best CO2 *)
    best_co2 <- min_key (fun r => Some (co2_emissions_after r)) results ;;
    (* balanced (peak+CO2) *)
    let peaks := map co2_peak results in
    let ems := map co2_emissions_after results in
    peak_min <- Py.min peaks ;;
    peak_max <- Py.max peaks ;;
    em_min <- Py.min ems ;;
    em_max <- Py.max ems ;;
    '(best_balanced, _) <-
       for_each (balanced_step peak_min peak_max em_min em_max) results (None, None) ;;
    (* Apply CO2-optimal *)
    g <- on_flex_change (set_vars g (co2_flex best_co2) (co2_priority best_co2)) ;;
    g <- on_priority_change g ;;
    let base_em := co2_emissions_before best_co2 in
    let best_em := co2_emissions_after best_co2 in
    let saving_t_day := (base_em - best_em)%Qc in
    saving_pct <- Logic.pct_of saving_t_day base_em ;;
    (* [best_balanced["emissions_before"]]: a [TypeError] on [None] *)
    best_balanced <- best_balanced ;;
    let base_em_bal := co2_emissions_before best_balanced in
    let best_em_bal := co2_emissions_after best_balanced in
    let saving_bal_day := (base_em_bal - best_em_bal)%Qc in
    saving_bal_pct <- Logic.pct_of saving_bal_day base_em_bal ;;
    Some (g, Co2Found best_co2 best_balanced saving_t_day saving_pct
                      saving_bal_day saving_bal_pct).

(** An entry of [results] in [find_ideal_settings]. *)
Record IdealResult : Type := mkIdealResult {
  ideal_flex : Z;
  ideal_priority : Z;
  ideal_peak : Qc;
  ideal_cost : Qc;
  ideal_emissions : Qc
}.

(** The body of the two loops: the globals, [results] and
    [baseline_emissions]. *)
Definition ideal_scan_step (st : Globals * list IdealResult * option Qc) (pt : Z * Z)
  : option (Globals * list IdealResult * option Qc) :=
  let '(g, results, baseline_emissions) := st in
  let (flex, pr) := pt in
  g <- recalculate_schedules (set_vars g flex pr) ;;
  peak_a <- Py.max (after_load g) ;;
  let cost_a_eur := (cost_after_flex g / lit 100 1)%Qc in
  '(emissions_before_t_day, emissions_after_t_day) <-
     for_each (Logic.co2_step (before_load g) (after_load g) (CO2_PER_HOUR g))
              (range 0 NUM_HOURS) (0%Qc, 0%Qc) ;;
  let baseline_emissions :=
    match baseline_emissions with
    | None => Some emissions_before_t_day
    | Some b => Some b
    end in
  Some (g, results ++ [mkIdealResult flex pr peak_a cost_a_eur emissions_after_t_day],
        baseline_emissions).

(** [abs(x)] on floats. *)
Definition qabs (x : Qc) : Qc := if ltb x 0%Qc then (- x)%Qc else x.

(** The score of an entry: peak, cost and emissions normalised over the
    grid, the penalty of a low participation and the penalty of a priority
    away from 50. *)
Definition ideal_score (peak_min peak_max cost_min cost_max em_min em_max : Qc)
           (r : IdealResult) : option Qc :=
  peak_norm <- Logic.norm (ideal_peak r) peak_min peak_max ;;
  cost_norm <- Logic.norm (ideal_cost r) cost_min cost_max ;;
  em_norm <- Logic.norm (ideal_emissions r) em_min em_max ;;
  let flex_norm := (lit (ideal_flex r) 1 / lit 100 1)%Qc in
  let flex_penalty := (1 - flex_norm)%Qc in
  let priority_penalty := (qabs (lit (ideal_priority r) 1 - lit 50 1) / lit 50 1)%Qc in
  Some ((peak_norm + cost_norm + em_norm + flex_penalty + priority_penalty)
        / lit 5 1)%Qc.

Definition ideal_step (peak_min peak_max cost_min cost_max em_min em_max : Qc)
           (st : option IdealResult * option Qc) (r : IdealResult)
  : option (option IdealResult * option Qc) :=
  score <- ideal_score peak_min peak_max cost_min cost_max em_min em_max r ;;
  match snd st with
  | None => Some (Some r, Some score)
  | Some best_score =>
      if ltb score best_score then Some (Some r, Some score) else Some st
  end.

Inductive IdealReport : Type :=
| NoIdealResults
| IdealFound (best_ideal : IdealResult) (saving_t_day saving_pct : Qc).

Definition find_ideal_settings (g : Globals) : option (Globals * IdealReport) :=
  '(g, results, baseline_emissions) <- grid_loop ideal_scan_step (g, [], None) ;;
  if Logic.is_nil results then Some (g, NoIdealResults)
  else
    let peaks := map ideal_peak results in
    let costs := map ideal_cost results in
    let ems := map ideal_emissions results in
    peak_min <- Py.min peaks ;;
    peak_max <- Py.max peaks ;;
    cost_min <- Py.min costs ;;
    cost_max <- Py.max costs ;;
    em_min <- Py.min ems ;;
    em_max <- Py.max ems ;;
    '(best_ideal, _) <-
       for_each (ideal_step peak_min peak_max cost_min cost_max em_min em_max)
                results (None, None) ;;
    (* [best_ideal["flex"]]: a [TypeError] on [None] *)
    best_ideal <- best_ideal ;;
    g <- on_flex_change (set_vars g (ideal_flex best_ideal) (ideal_priority best_ideal)) ;;
    g <- on_priority_change g ;;
    let base_em :=
      match baseline_emissions with
      | Some b => b
      | None => ideal_emissions best_ideal
      end in
    let saving_t_day := (base_em - ideal_emissions best_ideal)%Qc in
    saving_pct <- Logic.pct_of saving_t_day base_em ;;
    Some (g, IdealFound best_ideal saving_t_day saving_pct).

(** ** Drawing helpers *)

(** [math.ceil] of a float. *)
Definition ceil (x : Qc) : Z := Qceiling (this x).

Definition get_y_scaling_params (g : Globals) (h margin : Z) : option (Z * Z) :=
  mb <- Py.max (before_load g) ;;
  ma <- Py.max (after_load g) ;;
  let max_val_data := qmax2 mb ma in
  let max_tick :=
    if leb max_val_data 0%Qc then 25
    else max2 25 (25 * ceil (max_val_data / lit 25 1)%Qc) in
  let usable_height := h - 2 * margin in
  Some (max_tick, usable_height).

(** [to_point] of [draw_single_graph] and of [draw_combined_graph], on a
    canvas of width [w] and height [h]. *)
Definition to_point (w h max_tick usable_height : Z) (k : Z) (value : Qc)
  : option (Qc * Qc) :=
  let margin := 40 in
  let x_span := w - 2 * margin in
  let n_x_steps := 24 in
  let x_step := (lit x_span 1 / lit n_x_steps 1)%Qc in
  let x := (lit margin 1 + lit k 1 * x_step)%Qc in
  r <- div value (lit max_tick 1) ;;
  let y := (lit (h - margin) 1 - r * lit usable_height 1)%Qc in
  Some (x, y).

(** The polyline of [draw_single_graph]: [x0, y0, x1, y1, ...]. *)
Definition draw_single_graph (g : Globals) (w h : Z) (load : list Qc)
  : option (list Qc) :=
  let margin := 40 in
  '(max_tick, usable_height) <- get_y_scaling_params g h margin ;;
  for_each
    (fun pts k =>
       let idx := k mod NUM_HOURS in
       v <- getitem load idx ;;
       '(x, y) <- to_point w h max_tick usable_height k v ;;
       Some (pts ++ [x; y]))
    (range 0 25) [].

(** [to_point_price] of [draw_price_graph]. *)
Definition to_point_price (w h : Z) (k : Z) (price_value : Qc) : Qc * Qc :=
  let margin := 40 in
  let min_price_scale := 0%Qc in
  let max_price_scale := lit 25 1 in
  let price_range := (max_price_scale - min_price_scale)%Qc in
  let x_span := w - 2 * margin in
  let n_x_steps := 24 in
  let x_step := (lit x_span 1 / lit n_x_steps 1)%Qc in
  let usable_height := h - 2 * margin in
  let pv := qmax2 min_price_scale (qmin2 max_price_scale price_value) in
  let norm := ((pv - min_price_scale) / price_range)%Qc in
  let x := (lit margin 1 + lit k 1 * x_step)%Qc in
  let y := (lit (h - margin) 1 - norm * lit usable_height 1)%Qc in
  (x, y).

End SmartLDS.

(* ------------------------------------------------------------------ *)
(** * Vocabulary of the statements *)
(* ------------------------------------------------------------------ *)

Module Spec.

(** The hour fields of an asset are in their documented ranges. *)
Definition wf_asset (a : Asset) : Prop :=
  0 <= start_hour a <= 23 /\ 0 <= end_hour a <= 24.

(** The window of an asset, and the hours that the naive placement gives
    it: the first [min(duration_h, len(window))] hours of the window. *)
Definition window_of (a : Asset) : list Z :=
  Logic.get_window_hours (start_hour a) (end_hour a).

Definition naive_hours (a : Asset) : list Z :=
  if enabled a
  then slice (window_of a) 0 (min2 (duration_h a) (len (window_of a)))
  else [].

Definition set_naive (a : Asset) : Asset := set_before_hours a (naive_hours a).

(** An asset with its [after_hours] forgotten: two assets that agree on it
    differ in their [after_hours] only. *)
Definition clear_after (a : Asset) : Asset := set_after_hours a [].

Definition hour_in_day (h : Z) : Prop := 0 <= h < 24.

(** What the after pass needs of an asset to complete: hours in range. *)
Definition good (a : Asset) : Prop :=
  wf_asset a /\ Forall hour_in_day (before_hours a).

(** The flexible load that the naive placement puts on hour [h]: the sum of
    the rated powers of the assets whose [before_hours] contain [h]. *)
Definition draws_at (h : Z) (a : Asset) : bool :=
  existsb (Z.eqb h) (before_hours a).

Definition naive_load (l : list Asset) (h : Z) : Qc :=
  sum (map power_kw (filter (draws_at h) l)).

(** After the before pass, an enabled asset holds its naive hours. *)
Definition settled (a : Asset) : Prop :=
  before_hours a = naive_hours a /\ 0 <= duration_h a.

(** The assets that the after pass re-places: positive power and some
    naive hours (the test of the placement loop). *)
Definition replaced (a : Asset) : Prop :=
  leb (power_kw a) 0%Qc || Logic.is_nil (before_hours a) = false.

(** An asset [a'] as a recompute leaves the asset [a]: placed naively, with
    some after hours. *)
Definition placed (a' a : Asset) : Prop :=
  a' = set_after_hours (set_naive a) (after_hours a').

(** The number of hours that a placement of the asset takes. *)
Definition hours_needed (a : Asset) : nat :=
  Z.to_nat (min2 (duration_h a) (len (window_of a))).

(** Greedy selection from a pool, in the pool's iteration order: each turn
    takes the pool's first hour of minimal score (every earlier hour of the
    pool scores strictly more, every later one at least as much) and removes
    it from the pool. *)
Inductive greedy (score : Z -> option Qc) : nat -> list Z -> list Z -> Prop :=
| greedy_stop : forall pool, greedy score 0 pool []
| greedy_pick : forall n earlier best later picks vbest,
    score best = Some vbest ->
    (forall h, In h earlier -> exists v, score h = Some v /\ (vbest < v)%Qc) ->
    (forall h, In h later -> exists v, score h = Some v /\ (vbest <= v)%Qc) ->
    greedy score n (earlier ++ later) picks ->
    greedy score (S n) (earlier ++ best :: later) (best :: picks).

(** A percentage as the statistics guard it: the ratio times 100 when the
    denominator is strictly positive, 0 otherwise. *)
Definition guarded_pct (num den : Qc) : Qc :=
  if ltb 0%Qc den then (num / den * lit 100 1)%Qc else 0%Qc.

(** The statistics as section 4.3 of the specification gives them, from the
    two peaks, the two cost accumulators (cents) and the two daily emissions:
    absolute values are plain differences, percentages are guarded. *)
Definition stats_as_specified (st : Logic.Stats)
           (pb pa cost_b_cents cost_a_cents co2b co2a : Qc) : Prop :=
  Logic.peak_before st = pb /\ Logic.peak_after st = pa /\
  Logic.peak_reduction st = (pb - pa)%Qc /\
  Logic.peak_reduction_pct st = guarded_pct (pb - pa) pb /\
  Logic.cost_before_eur st = (cost_b_cents / lit 100 1)%Qc /\
  Logic.cost_after_eur st = (cost_a_cents / lit 100 1)%Qc /\
  Logic.cost_saving_eur st
    = (cost_b_cents / lit 100 1 - cost_a_cents / lit 100 1)%Qc /\
  Logic.cost_saving_pct st
    = guarded_pct (cost_b_cents / lit 100 1 - cost_a_cents / lit 100 1)
                  (cost_b_cents / lit 100 1) /\
  Logic.co2_saving_day st = (co2b - co2a)%Qc /\
  Logic.co2_saving_pct st = guarded_pct (co2b - co2a) co2b /\
  Logic.co2_saving_year st = ((co2b - co2a) * lit 365 1)%Qc.

(** State of the block search once a block has been recorded: the block is
    a [duration]-slice of the window. *)
Definition block_state_ok (window : list Z) (d : Z)
           (st : option (list Z) * option Qc) : Prop :=
  exists i s, 0 <= i /\ i + d <= len window /\ fst st = Some (slice window i (i + d)) /\ snd st = Some s.

(** Scenario scaling as the specification words it: the categories with
    the keywords that put a label in them, and the product of the scenario's
    factors over the categories that the label matches (an absent category
    counts for 1). *)
Definition categories : list (string * list string) :=
  [ ("EV", ["EV"]); ("HVAC", ["HVAC"; "Heat"]);
    ("Battery", ["Battery"]); ("Sauna", ["Sauna"]) ]%string.

Definition matches (keywords : list string) (label : string) : bool :=
  existsb (fun k => contains k label) keywords.

Definition keyword_factor (sc : Scenario) (label : string) : Qc :=
  fold_left
    (fun factor (cat : string * list string) =>
       if matches (snd cat) label
       then (factor * Logic.scaling_get sc (fst cat))%Qc
       else factor)
    categories 1%Qc.

(** The scenario "Winter weekday" of [get_scenarios()]. *)
Definition winter_weekday : Scenario :=
  mkScenario "Winter weekday" generate_winter_base_load generate_winter_co2
    [("EV"%string, lit 14 10); ("HVAC"%string, lit 18 10);
     ("Sauna"%string, lit 16 10)].

(** An asset with both its schedules forgotten. *)
Definition forget_hours (a : Asset) : Asset :=
  set_after_hours (set_before_hours a []) [].

(** A simulator with everything forgotten that a recompute writes: the
    schedules of the assets, the two curves and the two costs. *)
Definition forget (s : Logic.Simulator) : Logic.Simulator :=
  Logic.mkSimulator (Logic.scenarios s) (Logic.current_scenario s)
    (map forget_hours (Logic.assets s)) (Logic.base_power s) [] []
    (Logic.flex_participation s) (Logic.price_weight s) 0%Qc 0%Qc.

(** The before curve: the rated power of every asset added at its naive
    hours, in catalog order. *)
Fixpoint before_curve (bl : list Qc) (l : list Asset) : option (list Qc) :=
  match l with
  | [] => Some bl
  | a :: l' =>
      bl1 <- for_each (fun bl h => iadd bl h (power_kw a)) (naive_hours a) bl ;;
      before_curve bl1 l'
  end.

(** [best] is the first item of [xs] at which [f] is least: every earlier
    item gives strictly more than [v], every later one at least [v]. *)
Definition first_least {A : Type} (f : A -> option Qc) (xs : list A)
           (best : A) (v : Qc) : Prop :=
  exists earlier later,
    xs = earlier ++ best :: later /\ f best = Some v /\
    (forall q, In q earlier -> exists vq, f q = Some vq /\ (v < vq)%Qc) /\
    (forall q, In q later -> exists vq, f q = Some vq /\ (v <= vq)%Qc).

(** The score of the block of [d] hours that starts at position [i] of the
    window: the sum of the scores of its hours. *)
Definition block_score (scores : list (Z * Qc)) (window : list Z) (d i : Z)
  : option Qc :=
  vals <- Logic.comprehension (Logic.scores_of scores) (slice window i (i + d)) ;;
  Some (sum vals).

(** The state of the block search once the start positions [done] have been
    tried. *)
Definition block_search_inv (scores : list (Z * Qc)) (window : list Z) (d : Z)
           (done : list Z) (st : option (list Z) * option Qc) : Prop :=
  (done = [] /\ st = (None, None)) \/
  (exists i v, st = (Some (slice window i (i + d)), Some v) /\
               first_least (block_score scores window d) done i v).

(** Position [i] of the catalog is placed before position [j]: its asset
    has the greater power, or the same power and the earlier position. *)
Definition goes_first (l : list Asset) (i j : nat) : Prop :=
  exists a b, nth_error l i = Some a /\ nth_error l j = Some b /\
    ((power_kw b < power_kw a)%Qc \/ (power_kw a = power_kw b /\ (i < j)%nat)).

(** The order that a stable sort by [key] gives to numbered items. *)
Definition key_then_position {A : Type} (key : nat * A -> Qc) (x y : nat * A) : Prop :=
  (key x < key y)%Qc \/ (key x = key y /\ (fst x < fst y)%nat).


(** Two assets that differ in their power and their schedules only. *)
Definition same_load_spec (a1 a : Asset) : Prop :=
  forget_hours (set_power_kw a1 0%Qc) = forget_hours (set_power_kw a 0%Qc).


(** The price of an hour, as [PRICE_PER_HOUR[h]] reads it. *)
Definition price_at (h : Z) : Qc :=
  match getitem PRICE_PER_HOUR h with
  | Some pr => pr
  | None => 0%Qc
  end.

(** The price of a list of hours, one unit of power at each. *)
Definition price_of (hs : list Z) : Qc := sum (map price_at hs).

(** What an asset adds to the cost BEFORE: its rated power at the price of
    its before hours, when it is enabled. *)
Definition cost_before_of (a : Asset) : Qc :=
  if enabled a then (power_kw a * price_of (before_hours a))%Qc else 0%Qc.





End Spec.

(** The same vocabulary for the monolithic script. *)
Module SpecLDS.

Import SmartLDS.

(** An asset with its hours forgotten: what a recompute reads of it. *)
Definition reset (a : Asset) : Asset :=
  set_after_hours (set_before_hours a []) [].

Definition clear_after (a : Asset) : Asset := set_after_hours a [].

Definition sh_of (a : Asset) : Z := clamp (start_hour a) 0 (NUM_HOURS - 1).
Definition eh_of (a : Asset) : Z := clamp (end_hour a) 0 NUM_HOURS.

Definition window_of (a : Asset) : list Z := get_window_hours (sh_of a) (eh_of a).

Definition duration_of (a : Asset) : Z := clamp (duration_h a) 1 (len (window_of a)).

(** The hours of the naive placement: none for a disabled asset, for a
    window with equal clamped bounds or for a power that is not positive. *)
Definition naive_hours (a : Asset) : list Z :=
  if enabled a && negb (sh_of a =? eh_of a) && negb (leb (power_kW a) 0%Qc)
  then slice (window_of a) 0 (duration_of a)
  else [].

Definition set_naive (a : Asset) : Asset := set_before_hours a (naive_hours a).

Definition hours_in_day (a : Asset) : Prop :=
  Forall Spec.hour_in_day (before_hours a) /\ Forall Spec.hour_in_day (after_hours a).

(** The grid of the optimizers, in scan order: [flex] outer, [pr] inner. *)
Definition grid_points : list (Z * Z) :=
  flat_map (fun flex => map (fun pr => (flex, pr)) grid_axis) grid_axis.

(** The peak of the after curve at a grid point, for the catalog, base curve
    and CO2 curve of [g]. *)
Definition peak_at (g : Globals) (pt : Z * Z) : option Qc :=
  g' <- recalculate_schedules (set_vars g (fst pt) (snd pt)) ;;
  Py.max (after_load g').

(** [best] is the first point of [pts] at which [f] is minimal: every
    earlier point gives strictly more, every later one at least as much. *)
Definition first_minimum (f : Z * Z -> option Qc) (pts : list (Z * Z))
           (best : Z * Z) (v : Qc) : Prop :=
  exists earlier later,
    pts = earlier ++ best :: later /\ f best = Some v /\
    (forall q, In q earlier -> exists vq, f q = Some vq /\ (v < vq)%Qc) /\
    (forall q, In q later -> exists vq, f q = Some vq /\ (v <= vq)%Qc).

(** Cost saving and CO2 saving of a grid point against the baseline, which
    is the before-values of the first grid point [(0, 0)]. *)
Definition savings_at (g : Globals) (pt : Z * Z) : option (Qc * Qc) :=
  g0 <- recalculate_schedules (set_vars g 0 0) ;;
  baseline_emissions <- emissions (before_load g0) (CO2_PER_HOUR g0) ;;
  g' <- recalculate_schedules (set_vars g (fst pt) (snd pt)) ;;
  emissions_after <- emissions (after_load g') (CO2_PER_HOUR g') ;;
  Some ((cost_before_flex g0 / lit 100 1 - cost_after_flex g' / lit 100 1)%Qc,
        (baseline_emissions - emissions_after)%Qc).

(** Both savings are at least 0 (0 itself satisfies the constraint). *)
Definition feasible (g : Globals) (pt : Z * Z) : bool :=
  match savings_at g pt with
  | Some (saving_cost, saving_co2) =>
      negb (ltb saving_cost 0%Qc || ltb saving_co2 0%Qc)
  | None => false
  end.

(** [g1] has the catalog (hours apart), the base curve and the CO2 curve of
    [g]. *)
Definition same_catalog (g g1 : Globals) : Prop :=
  map reset (ASSETS g1) = map reset (ASSETS g) /\
  BASE_LOAD g1 = BASE_LOAD g /\ CO2_PER_HOUR g1 = CO2_PER_HOUR g.

(** Invariant of the min-peak search once the points [done] are scanned. *)
Definition min_peak_inv (g : Globals) (done : list (Z * Z))
           (st : Globals * option Qc * option Z * option Z) : Prop :=
  let '(g1, best_peak, best_flex, best_priority) := st in
  same_catalog g g1 /\
  ((done = [] /\ best_peak = None /\ best_flex = None /\ best_priority = None) \/
   (exists flex pr v,
       best_peak = Some v /\ best_flex = Some flex /\ best_priority = Some pr /\
       first_minimum (peak_at g) done (flex, pr) v)).

(** The baseline of the constrained search: peak, cost (euros) and
    emissions of the before curve at the first grid point. *)
Definition baseline_of (g : Globals) : option (Qc * Qc * Qc) :=
  g0 <- recalculate_schedules (set_vars g 0 0) ;;
  baseline_peak <- Py.max (before_load g0) ;;
  baseline_emissions <- emissions (before_load g0) (CO2_PER_HOUR g0) ;;
  Some (baseline_peak, (cost_before_flex g0 / lit 100 1)%Qc, baseline_emissions).

(** Invariant of the constrained search once the points [done] are scanned:
    the best combination is the first minimum of the peak among the
    feasible points scanned, and there is none when no scanned point is
    feasible. *)
Definition ideal_peak_inv (g : Globals) (done : list (Z * Z))
           (st : Globals * option (Qc * Qc * Qc) * option Combo * option Qc) : Prop :=
  let '(g1, baseline, best_combo, best_peak_after) := st in
  same_catalog g g1 /\
  ((done = [] /\ baseline = None) \/
   (exists b, done <> [] /\ baseline = Some b /\ baseline_of g = Some b)) /\
  ((filter (feasible g) done = [] /\ best_combo = None /\ best_peak_after = None) \/
   (exists c,
       best_combo = Some c /\ best_peak_after = Some (peak_after c) /\
       savings_at g (flex c, priority c) = Some (saving_cost c, saving_co2 c) /\
       first_minimum (peak_at g) (filter (feasible g) done)
                     (flex c, priority c) (peak_after c))).

(** The rule of the "Winter weekday" branch of the script's
    [apply_scenario]: the first test that the label passes gives the factor,
    1.2 when it passes none. *)
Definition winter_rule (label : string) : Qc :=
  if contains "Heat pumps" label || contains "HVAC" label then lit 18 10
  else if contains "EV" label || contains "charg" label then lit 14 10
  else if contains "Sauna" label then lit 16 10
  else lit 12 10.

(** The state of the placement loop of the script: the static part of the
    catalog and the total of the curve are those of the start, and every
    asset has hours of its window, no hour twice, none if it has no before
    hours. *)
Definition lds_loop_inv (l0 : list Asset) (al0 : list Qc)
           (st : list Asset * list Qc) : Prop :=
  map clear_after (fst st) = map clear_after l0 /\
  sum (snd st) = sum al0 /\
  Forall (fun a => (before_hours a = [] -> after_hours a = []) /\
                   incl (after_hours a) (window_of a) /\
                   NoDup (after_hours a)) (fst st).

Definition lds_as_many (st : list Asset * list Qc) (i : nat) : Prop :=
  forall a, nth_error (fst st) i = Some a ->
            List.length (after_hours a) = List.length (before_hours a).

(** Invariant of a loop that keeps the first item of least score
    ([if best_score is None or score < best_score]) once the items [done]
    are scanned. *)
Definition best_so_far {A : Type} (score : A -> option Qc) (done : list A)
           (st : option A * option Qc) : Prop :=
  (done = [] /\ st = (None, None)) \/
  (exists b v, st = (Some b, Some v) /\ Spec.first_least score done b v).

(** The entry that [find_optimal_co2_settings] appends to [results] at a
    grid point, for the catalog, base curve and CO2 curve of [g]. *)
Definition co2_result_at (g : Globals) (pt : Z * Z) : option Co2Result :=
  g' <- recalculate_schedules (set_vars g (fst pt) (snd pt)) ;;
  peak_a <- Py.max (after_load g') ;;
  emissions_before <- emissions (before_load g') (CO2_PER_HOUR g') ;;
  emissions_after <- emissions (after_load g') (CO2_PER_HOUR g') ;;
  Some (mkCo2Result (fst pt) (snd pt) peak_a emissions_before emissions_after).

(** The emissions of the after curve at a grid point. *)
Definition emissions_after_at (g : Globals) (pt : Z * Z) : option Qc :=
  r <- co2_result_at g pt ;; Some (co2_emissions_after r).

(** The "balanced" score of an entry of [results]: half its peak and half
    its emissions, each normalised between the least and the greatest value
    of [results]. *)
Definition balanced_score (results : list Co2Result) (r : Co2Result) : option Qc :=
  peak_min <- Py.min (map co2_peak results) ;;
  peak_max <- Py.max (map co2_peak results) ;;
  em_min <- Py.min (map co2_emissions_after results) ;;
  em_max <- Py.max (map co2_emissions_after results) ;;
  peak_norm <- Logic.norm (co2_peak r) peak_min peak_max ;;
  em_norm <- Logic.norm (co2_emissions_after r) em_min em_max ;;
  Some (lit 5 10 * peak_norm + lit 5 10 * em_norm)%Qc.

Definition balanced_score_at (g : Globals) (results : list Co2Result) (pt : Z * Z)
  : option Qc :=
  r <- co2_result_at g pt ;; balanced_score results r.

(** Invariant of the scan of [find_optimal_co2_settings] once the points
    [done] are scanned. *)
Definition co2_scan_inv (g : Globals) (done : list (Z * Z))
           (st : Globals * list Co2Result) : Prop :=
  same_catalog g (fst st) /\
  Forall2 (fun pt r => co2_result_at g pt = Some r) done (snd st).

(** The entry that [find_ideal_settings] appends to [results] at a grid
    point, for the catalog, base curve and CO2 curve of [g]. *)
Definition ideal_result_at (g : Globals) (pt : Z * Z) : option IdealResult :=
  g' <- recalculate_schedules (set_vars g (fst pt) (snd pt)) ;;
  peak_a <- Py.max (after_load g') ;;
  _ <- emissions (before_load g') (CO2_PER_HOUR g') ;;
  emissions_after <- emissions (after_load g') (CO2_PER_HOUR g') ;;
  Some (mkIdealResult (fst pt) (snd pt) peak_a
          (cost_after_flex g' / lit 100 1)%Qc emissions_after).

(** The emissions of the before curve at a grid point. *)
Definition emissions_before_at (g : Globals) (pt : Z * Z) : option Qc :=
  g' <- recalculate_schedules (set_vars g (fst pt) (snd pt)) ;;
  emissions (before_load g') (CO2_PER_HOUR g').

(** The score of an entry of [results], normalised over [results]. *)
Definition ideal_score_of (results : list IdealResult) (r : IdealResult) : option Qc :=
  peak_min <- Py.min (map ideal_peak results) ;;
  peak_max <- Py.max (map ideal_peak results) ;;
  cost_min <- Py.min (map ideal_cost results) ;;
  cost_max <- Py.max (map ideal_cost results) ;;
  em_min <- Py.min (map ideal_emissions results) ;;
  em_max <- Py.max (map ideal_emissions results) ;;
  ideal_score peak_min peak_max cost_min cost_max em_min em_max r.

Definition ideal_score_at (g : Globals) (results : list IdealResult) (pt : Z * Z)
  : option Qc :=
  r <- ideal_result_at g pt ;; ideal_score_of results r.

(** Invariant of the scan of [find_ideal_settings] once the points [done]
    are scanned: [baseline_emissions] is set at the first point. *)
Definition ideal_scan_inv (g : Globals) (done : list (Z * Z))
           (st : Globals * list IdealResult * option Qc) : Prop :=
  let '(g1, results, baseline_emissions) := st in
  same_catalog g g1 /\
  Forall2 (fun pt r => ideal_result_at g pt = Some r) done results /\
  baseline_emissions = match done with
                       | [] => None
                       | pt :: _ => emissions_before_at g pt
                       end /\
  (done <> [] -> baseline_emissions <> None).

(** The points of a polyline given as [x0, y0, x1, y1, ...]. *)
Fixpoint pairs (pts : list Qc) : list (Qc * Qc) :=
  match pts with
  | x :: y :: rest => (x, y) :: pairs rest
  | _ => []
  end.

(** A point of the canvas within the two axes, which leave a margin of 40
    on every side. *)
Definition inside (w h : Z) (p : Qc * Qc) : Prop :=
  (lit 40 1 <= fst p)%Qc /\ (fst p <= lit (w - 40) 1)%Qc /\
  (lit 40 1 <= snd p)%Qc /\ (snd p <= lit (h - 40) 1)%Qc.

(** The point drawn for hour [k] of a load graph: inside the axes, at the
    height of the value of hour [k mod 24], on the left axis for hour 0 and
    at the right end of the hour axis for hour 24. *)
Definition drawn_at (w h max_tick : Z) (load : list Qc) (k : Z) (p : Qc * Qc) : Prop :=
  inside w h p /\
  (exists v, getitem load (k mod NUM_HOURS) = Some v /\
             snd p = (lit (h - 40) 1 - v / lit max_tick 1 * lit (h - 2 * 40) 1)%Qc) /\
  (k = 0 -> fst p = lit 40 1) /\ (k = 24 -> fst p = lit (w - 40) 1).

End SpecLDS.

(** The vocabulary of the statements on the modular application. *)
Module SpecApp.

Import Logic Spec FlexiCityApp.

(** One of the scenarios of [get_scenarios()]. *)
Definition known_scenario (sc : Scenario) : Prop := In sc (map snd get_scenarios).

(** A simulator on which nothing raises: hour fields in range, the
    scenarios of the database, a reference power for every position of the
    catalog, and 24-hour curves. *)
Definition ready (sim : Simulator) : Prop :=
  Forall wf_asset (assets sim) /\
  scenarios sim = get_scenarios /\
  known_scenario (current_scenario sim) /\
  (forall i, (i < List.length (assets sim))%nat ->
             dict_getitem Nat.eqb (base_power sim) i <> None) /\
  List.length (before_load sim) = 24%nat /\
  List.length (after_load sim) = 24%nat.

(** What the widgets allow: a scenario of the combo box, a selection that
    is a line of the list box. *)
Definition allowed (sim : Simulator) (ev : Event) : Prop :=
  match ev with
  | ScenarioChange name => In name (map fst (scenarios sim))
  | ToggleAsset (Some i) => (i < List.length (assets sim))%nat
  | DeleteAsset (Some i) _ => (i < List.length (assets sim))%nat
  | ApplyEdit (Some i) _ _ _ _ _ _ _ => (i < List.length (assets sim))%nat
  | _ => True
  end.

(** The states of the application: the simulator as constructed and
    refreshed, then any number of allowed events that were handled. *)
Inductive reachable (cv : Canvases) : Simulator -> Prop :=
| reach_init : forall sim stats,
    __init__ = Some sim -> _refresh_all cv sim = Some stats -> reachable cv sim
| reach_step : forall sim ev sim',
    reachable cv sim -> allowed sim ev -> handle cv sim ev = Some sim' ->
    reachable cv sim'.

End SpecApp.

(** Vocabulary to compare the two engines. *)
Module SpecBoth.






End SpecBoth.

(* ------------------------------------------------------------------ *)
(** * Concrete catalogs *)
(* ------------------------------------------------------------------ *)

Module Examples.

(** The scenario "Baseline" of [get_scenarios()]. *)
Definition baseline : Scenario :=
  mkScenario "Baseline" generate_baseline_base_load CO2_PER_HOUR_BASELINE [].

(** A [Simulator] as [__init__] leaves it before its first recompute, for a
    given catalog and the two slider values. *)
Definition simulator_with (l : list Asset) (p w : Qc) : Logic.Simulator :=
  Logic.mkSimulator get_scenarios baseline l
    (map (fun x : nat * Asset => (fst x, power_kw (snd x))) (enumerate l))
    (base_load baseline) (base_load baseline) p w 0%Qc 0%Qc.

(** The four "hero" assets at flex participation 0, and at full
    participation with an even price weight. *)
Definition hero_at_zero_flex : Logic.Simulator :=
  simulator_with hero_assets 0%Qc (lit 1 2).

Definition hero_at_full_flex : Logic.Simulator :=
  simulator_with hero_assets 1%Qc (lit 1 2).

(** An asset of 2 kW that asks for 10 hours in the 6-hour window 18..24. *)
Definition long_wash : Asset :=
  new_asset "Household" "Dishwasher (fixed)" (lit 2 1) 10 18 24 false.

(** An asset of 7 kW whose end hour lies past the day: its window 20..30
    holds the hours 24..29. *)
Definition late_charge : Asset :=
  new_asset "Household" "EV charger" (lit 7 1) 6 20 30 true.

(** The "Original 4" of the script's [ASSETS]. *)
Definition lds_asset (o ap : string) (pw : Qc) (d s e : Z) (v : bool)
  : SmartLDS.Asset :=
  SmartLDS.mkAsset o ap pw d s e v true [] [] pw.

Definition original_four : list SmartLDS.Asset :=
  [ lds_asset "City EV fleet" "Fast chargers" (lit 80 1) 4 17 24 true;
    lds_asset "Office block A" "HVAC pre-cooling" (lit 30 1) 3 14 20 true;
    lds_asset "Supermarket" "Fridge defrost cycles" (lit 20 1) 4 0 24 false;
    lds_asset "Residential block" "EV chargers" (lit 40 1) 6 18 24 true ].

(** The globals of the script for a catalog and the two slider values
    (percent), under the baseline scenario. *)
Definition globals_with (l : list SmartLDS.Asset) (flex pr : Z) : SmartLDS.Globals :=
  SmartLDS.mkGlobals SmartLDS.BASE_LOAD_BASELINE SmartLDS.CO2_PER_HOUR_BASELINE l
    SmartLDS.BASE_LOAD_BASELINE SmartLDS.BASE_LOAD_BASELINE 0%Qc 0%Qc
    (lit flex 1) (lit pr 1).

Definition original_four_globals : SmartLDS.Globals :=
  globals_with original_four 100 50.

(** The same catalog with every power at 0. *)
Definition zero_power_globals : SmartLDS.Globals :=
  globals_with (map (fun a => SmartLDS.set_power_kW a 0%Qc) original_four) 100 50.

(** The hours of each asset, before and after. *)
Definition schedule (s : Logic.Simulator) : list (list Z * list Z) :=
  map (fun a => (before_hours a, after_hours a)) (Logic.assets s).

Definition lds_schedule (g : SmartLDS.Globals) : list (list Z * list Z) :=
  map (fun a => (SmartLDS.before_hours a, SmartLDS.after_hours a)) (SmartLDS.ASSETS g).

(** The rational values of a list of floats. *)
Definition values (l : list Qc) : list Q := map this l.

End Examples.

(* ------------------------------------------------------------------ *)
(** * Facts about the Python primitives *)
(* ------------------------------------------------------------------ *)

Section PyFacts.

Lemma ltb_lt (x y : Qc) : ltb x y = true <-> (x < y)%Qc.
Proof.
  unfold ltb. rewrite Qclt_alt. destruct (x ?= y)%Qc; split; congruence.
Qed.

Lemma ltb_ge (x y : Qc) : ltb x y = false <-> (y <= x)%Qc.
Proof.
  split; intro H.
  - apply Qcnot_lt_le. intro L. apply ltb_lt in L. congruence.
  - destruct (ltb x y) eqn:E; [|reflexivity].
    apply ltb_lt in E. exfalso. exact (Qclt_not_le _ _ E H).
Qed.

Lemma leb_le (x y : Qc) : leb x y = true <-> (x <= y)%Qc.
Proof.
  unfold leb. rewrite Qcle_alt. destruct (x ?= y)%Qc; split; congruence.
Qed.

Lemma leb_gt (x y : Qc) : leb x y = false <-> (y < x)%Qc.
Proof.
  split; intro H.
  - apply Qcnot_le_lt. intro L. apply leb_le in L. congruence.
  - destruct (leb x y) eqn:E; [|reflexivity].
    apply leb_le in E. exfalso. exact (Qclt_not_le _ _ H E).
Qed.

Lemma bind_Some {A B : Type} (m : option A) (f : A -> option B) (y : B) :
  bind m f = Some y <-> exists x, m = Some x /\ f x = Some y.
Proof.
  destruct m as [x|]; simpl; split.
  - intro H. exists x. auto.
  - intros (x' & E & H). congruence.
  - discriminate.
  - intros (x' & E & _). discriminate.
Qed.

Lemma len_nonneg {A : Type} (l : list A) : 0 <= len l.
Proof. unfold len. lia. Qed.

Lemma len_app {A : Type} (l1 l2 : list A) : len (l1 ++ l2) = len l1 + len l2.
Proof. unfold len. rewrite length_app. lia. Qed.

Lemma length_range (lo hi : Z) : List.length (range lo hi) = Z.to_nat (hi - lo).
Proof. unfold range. now rewrite length_map, length_seq. Qed.

Lemma len_range (lo hi : Z) : len (range lo hi) = Z.max 0 (hi - lo).
Proof. unfold len. rewrite length_range. lia. Qed.

Lemma in_range (lo hi h : Z) : In h (range lo hi) <-> lo <= h < hi.
Proof.
  unfold range. rewrite in_map_iff. split.
  - intros (k & <- & Hk). apply in_seq in Hk. lia.
  - intros Hh. exists (Z.to_nat (h - lo)). split; [lia|].
    apply in_seq. lia.
Qed.

Lemma NoDup_range (lo hi : Z) : NoDup (range lo hi).
Proof.
  unfold range. apply Injective_map_NoDup.
  - intros a b E. lia.
  - apply seq_NoDup.
Qed.

Lemma index_Some_lt {A : Type} (l : list A) (i : Z) (k : nat) :
  index l i = Some k -> (k < List.length l)%nat.
Proof.
  unfold index, len.
  destruct ((0 <=? i) && (i <? _)) eqn:E1.
  - intro H. injection H as <-. lia.
  - destruct ((- _ <=? i) && (i <? 0)) eqn:E2; [|discriminate].
    intro H. injection H as <-. lia.
Qed.

Lemma index_nonneg {A : Type} (l : list A) (i : Z) :
  0 <= i < len l -> index l i = Some (Z.to_nat i).
Proof.
  intro H. unfold index.
  replace ((0 <=? i) && (i <? len l)) with true; [reflexivity|].
  symmetry. apply andb_true_iff. split; lia.
Qed.

Lemma index_length {A B : Type} (l : list A) (l' : list B) (i : Z) :
  List.length l = List.length l' -> index l i = index l' i.
Proof. intro H. unfold index, len. now rewrite H. Qed.

Lemma getitem_Some {A : Type} (l : list A) (i : Z) (x : A) :
  getitem l i = Some x <-> exists k, index l i = Some k /\ nth_error l k = Some x.
Proof. unfold getitem. apply bind_Some. Qed.

Lemma getitem_total {A : Type} (l : list A) (i : Z) :
  0 <= i < len l -> exists x, getitem l i = Some x.
Proof.
  intro H. unfold getitem. rewrite index_nonneg by assumption. simpl.
  destruct (nth_error l (Z.to_nat i)) as [x|] eqn:E; [now exists x|].
  apply nth_error_None in E. unfold len in H. lia.
Qed.

Lemma length_update {A : Type} (k : nat) (v : A) (l : list A) :
  List.length (update k v l) = List.length l.
Proof.
  revert k. induction l as [|x l IH]; intros [|k]; simpl; auto.
Qed.

Lemma nth_error_update_eq {A : Type} (k : nat) (v : A) (l : list A) :
  (k < List.length l)%nat -> nth_error (update k v l) k = Some v.
Proof.
  revert k. induction l as [|x l IH]; intros [|k] H; simpl in *; try lia; auto.
  apply IH. lia.
Qed.

Lemma nth_error_update_neq {A : Type} (k k' : nat) (v : A) (l : list A) :
  k <> k' -> nth_error (update k v l) k' = nth_error l k'.
Proof.
  revert k k'. induction l as [|x l IH]; intros [|k] [|k'] H; simpl; auto.
  congruence.
Qed.

Lemma update_same {A : Type} (k : nat) (x : A) (l : list A) :
  nth_error l k = Some x -> update k x l = l.
Proof.
  revert k. induction l as [|y l IH]; intros [|k] H; simpl in *; try discriminate.
  - congruence.
  - f_equal. auto.
Qed.

Lemma map_update {A B : Type} (f : A -> B) (k : nat) (v : A) (l : list A) :
  map f (update k v l) = update k (f v) (map f l).
Proof.
  revert k. induction l as [|x l IH]; intros [|k]; simpl; auto.
  now rewrite IH.
Qed.

Lemma fold_left_Qcplus (l : list Qc) (a : Qc) :
  fold_left Qcplus l a = (a + fold_left Qcplus l 0)%Qc.
Proof.
  revert a. induction l as [|x l IH]; intro a; simpl.
  - ring.
  - rewrite IH. rewrite (IH (0 + x)%Qc). ring.
Qed.

Lemma sum_cons (x : Qc) (l : list Qc) : sum (x :: l) = (x + sum l)%Qc.
Proof.
  unfold sum. simpl. rewrite fold_left_Qcplus. ring.
Qed.

Lemma sum_update (k : nat) (x v : Qc) (l : list Qc) :
  nth_error l k = Some x -> sum (update k v l) = (sum l - x + v)%Qc.
Proof.
  revert k. induction l as [|y l IH]; intros [|k] H; simpl in *; try discriminate.
  - injection H as ->. rewrite !sum_cons. ring.
  - rewrite !sum_cons, (IH _ H). ring.
Qed.

Lemma iadd_Some (l l' : list Qc) (i : Z) (v : Qc) :
  iadd l i v = Some l' <->
  exists k x, index l i = Some k /\ nth_error l k = Some x /\
              l' = update k (x + v)%Qc l.
Proof.
  unfold iadd, setitem. rewrite bind_Some. split.
  - intros (x & G & H). apply getitem_Some in G. destruct G as (k & I & N).
    rewrite I in H. simpl in H. injection H as <-. now exists k, x.
  - intros (k & x & I & N & ->). exists x. split.
    + apply getitem_Some. now exists k.
    + now rewrite I.
Qed.

Lemma isub_Some (l l' : list Qc) (i : Z) (v : Qc) :
  isub l i v = Some l' <->
  exists k x, index l i = Some k /\ nth_error l k = Some x /\
              l' = update k (x - v)%Qc l.
Proof.
  unfold isub, setitem. rewrite bind_Some. split.
  - intros (x & G & H). apply getitem_Some in G. destruct G as (k & I & N).
    rewrite I in H. simpl in H. injection H as <-. now exists k, x.
  - intros (k & x & I & N & ->). exists x. split.
    + apply getitem_Some. now exists k.
    + now rewrite I.
Qed.

Lemma iadd_total (l : list Qc) (i : Z) (v : Qc) :
  0 <= i < len l -> exists l', iadd l i v = Some l'.
Proof.
  intro H. destruct (getitem_total l i H) as (x & G).
  apply getitem_Some in G. destruct G as (k & I & N).
  exists (update k (x + v)%Qc l). apply iadd_Some. now exists k, x.
Qed.

Lemma isub_total (l : list Qc) (i : Z) (v : Qc) :
  0 <= i < len l -> exists l', isub l i v = Some l'.
Proof.
  intro H. destruct (getitem_total l i H) as (x & G).
  apply getitem_Some in G. destruct G as (k & I & N).
  exists (update k (x - v)%Qc l). apply isub_Some. now exists k, x.
Qed.

Lemma iadd_length (l l' : list Qc) (i : Z) (v : Qc) :
  iadd l i v = Some l' -> List.length l' = List.length l.
Proof.
  intro H. apply iadd_Some in H. destruct H as (k & x & _ & _ & ->).
  apply length_update.
Qed.

Lemma isub_length (l l' : list Qc) (i : Z) (v : Qc) :
  isub l i v = Some l' -> List.length l' = List.length l.
Proof.
  intro H. apply isub_Some in H. destruct H as (k & x & _ & _ & ->).
  apply length_update.
Qed.

Lemma iadd_sum (l l' : list Qc) (i : Z) (v : Qc) :
  iadd l i v = Some l' -> sum l' = (sum l + v)%Qc.
Proof.
  intro H. apply iadd_Some in H. destruct H as (k & x & _ & N & ->).
  rewrite (sum_update _ _ _ _ N). ring.
Qed.

Lemma isub_sum (l l' : list Qc) (i : Z) (v : Qc) :
  isub l i v = Some l' -> sum l' = (sum l - v)%Qc.
Proof.
  intro H. apply isub_Some in H. destruct H as (k & x & _ & N & ->).
  rewrite (sum_update _ _ _ _ N). ring.
Qed.

Lemma iadd_zero (l l' : list Qc) (i : Z) : iadd l i 0%Qc = Some l' -> l' = l.
Proof.
  intro H. apply iadd_Some in H. destruct H as (k & x & _ & N & ->).
  apply update_same. rewrite N. f_equal. ring.
Qed.

Lemma isub_zero (l l' : list Qc) (i : Z) : isub l i 0%Qc = Some l' -> l' = l.
Proof.
  intro H. apply isub_Some in H. destruct H as (k & x & _ & N & ->).
  apply update_same. rewrite N. f_equal. ring.
Qed.

(** Loops: an invariant kept by the body is kept by the loop, and a body
    that succeeds on every element under the invariant makes the loop
    succeed. *)
Lemma for_each_invariant {S A : Type} (I : S -> Prop) (body : S -> A -> option S)
      (l : list A) :
  (forall s x s', In x l -> I s -> body s x = Some s' -> I s') ->
  forall s s', I s -> for_each body l s = Some s' -> I s'.
Proof.
  induction l as [|x l IH]; intros Hb s s' Hs H; simpl in H.
  - now injection H as <-.
  - apply bind_Some in H. destruct H as (s1 & B & H).
    apply (IH (fun s x s' Hx => Hb s x s' (or_intror Hx)) s1 s'); auto.
    apply (Hb s x s1); simpl; auto.
Qed.

Lemma for_each_total {S A : Type} (I : S -> Prop) (body : S -> A -> option S)
      (l : list A) :
  (forall s x, In x l -> I s -> exists s', body s x = Some s' /\ I s') ->
  forall s, I s -> exists s', for_each body l s = Some s' /\ I s'.
Proof.
  induction l as [|x l IH]; intros Hb s Hs; simpl.
  - now exists s.
  - destruct (Hb s x (or_introl eq_refl) Hs) as (s1 & B & Hs1).
    rewrite B. simpl.
    apply (IH (fun s x Hx => Hb s x (or_intror Hx)) s1 Hs1).
Qed.

Lemma for_each_app {S A : Type} (body : S -> A -> option S) (l1 l2 : list A) (s : S) :
  for_each body (l1 ++ l2) s = s1 <- for_each body l1 s ;; for_each body l2 s1.
Proof.
  revert s. induction l1 as [|x l1 IH]; intro s; simpl.
  - reflexivity.
  - destruct (body s x) as [s1|]; simpl; auto.
Qed.

End PyFacts.

(* ------------------------------------------------------------------ *)
(** * Slices and windows *)
(* ------------------------------------------------------------------ *)

Section SliceFacts.

Lemma In_firstn {A : Type} (n : nat) (l : list A) (x : A) :
  In x (firstn n l) -> In x l.
Proof.
  revert n. induction l as [|y l IH]; intros [|n] H; simpl in *; try tauto.
  destruct H; eauto.
Qed.

Lemma In_skipn {A : Type} (n : nat) (l : list A) (x : A) :
  In x (skipn n l) -> In x l.
Proof.
  revert n. induction l as [|y l IH]; intros [|n] H; simpl in *; try tauto.
  eauto.
Qed.

Lemma slice_incl {A : Type} (l : list A) (i j : Z) (x : A) :
  In x (slice l i j) -> In x l.
Proof.
  unfold slice. intro H. apply In_firstn in H. now apply In_skipn in H.
Qed.

Lemma slice_nil {A : Type} (i j : Z) : slice (@nil A) i j = [].
Proof. unfold slice. now rewrite skipn_nil, firstn_nil. Qed.

Lemma slice_prefix {A : Type} (l : list A) (d : Z) :
  0 <= d -> slice l 0 d = firstn (Z.to_nat (Z.min d (len l))) l.
Proof.
  intro H. unfold slice, slice_bound. simpl.
  replace (d <? 0) with false by lia.
  pose proof (len_nonneg l).
  replace (Z.min 0 (len l)) with 0 by lia.
  rewrite Z.sub_0_r. reflexivity.
Qed.

Lemma length_slice {A : Type} (l : list A) (i d : Z) :
  0 <= i -> 0 <= d -> i + d <= len l ->
  List.length (slice l i (i + d)) = Z.to_nat d.
Proof.
  intros Hi Hd H. unfold slice, slice_bound.
  replace (i <? 0) with false by lia.
  replace (i + d <? 0) with false by lia.
  rewrite length_firstn, length_skipn. unfold len in *. lia.
Qed.

Lemma NoDup_firstn {A : Type} (n : nat) (l : list A) : NoDup l -> NoDup (firstn n l).
Proof.
  revert n. induction l as [|x l IH]; intros [|n] H; simpl; try constructor.
  - inversion H; subst. intro I. apply In_firstn in I. contradiction.
  - inversion H; subst. auto.
Qed.

End SliceFacts.

Section Window.

Import Logic.
Variables start end_ : Z.
Hypothesis Hs : 0 <= start <= 23.
Hypothesis He : 0 <= end_ <= 24.

Lemma window_in_range (h : Z) :
  In h (get_window_hours start end_) -> 0 <= h < 24.
Proof.
  unfold get_window_hours, NUM_HOURS.
  destruct (start <? end_) eqn:E.
  - rewrite in_range. lia.
  - rewrite in_app_iff, !in_range. lia.
Qed.

Lemma window_len : 1 <= len (get_window_hours start end_) <= 24.
Proof.
  unfold get_window_hours, NUM_HOURS.
  destruct (start <? end_) eqn:E.
  - rewrite len_range. lia.
  - rewrite len_app, !len_range. lia.
Qed.

Lemma window_nonempty : get_window_hours start end_ <> [].
Proof.
  intro H. pose proof window_len as L. rewrite H in L. unfold len in L.
  simpl in L. lia.
Qed.

Lemma window_NoDup : NoDup (get_window_hours start end_).
Proof.
  unfold get_window_hours, NUM_HOURS.
  destruct (start <? end_) eqn:E.
  - apply NoDup_range.
  - apply NoDup_app; try apply NoDup_range.
    intros h H1 H2. apply in_range in H1, H2. lia.
Qed.

End Window.

(* ------------------------------------------------------------------ *)
(** * Load curves under additions and removals *)
(* ------------------------------------------------------------------ *)

Section Loads.

Lemma lit_add (a b : Z) : lit (a + b) 1 = (lit a 1 + lit b 1)%Qc.
Proof.
  unfold lit, Qcplus. apply Q2Qc_eq_iff. cbn [this Q2Qc].
  rewrite !Qred_correct. unfold Qeq, Qplus. simpl. lia.
Qed.

Lemma lit_0 : lit 0 1 = 0%Qc.
Proof. now apply Qc_is_canon. Qed.

Lemma lit_1 : lit 1 1 = 1%Qc.
Proof. now apply Qc_is_canon. Qed.

(** Adding (or removing) a power at a list of hours. *)
Lemma for_each_iadd_length (v : Qc) (hs : list Z) (bl bl' : list Qc) :
  for_each (fun bl h => iadd bl h v) hs bl = Some bl' ->
  List.length bl' = List.length bl.
Proof.
  apply (for_each_invariant (fun s => List.length s = List.length bl)); [|reflexivity].
  intros s h s' _ L H. apply iadd_length in H. congruence.
Qed.

Lemma for_each_isub_length (v : Qc) (hs : list Z) (bl bl' : list Qc) :
  for_each (fun bl h => isub bl h v) hs bl = Some bl' ->
  List.length bl' = List.length bl.
Proof.
  apply (for_each_invariant (fun s => List.length s = List.length bl)); [|reflexivity].
  intros s h s' _ L H. apply isub_length in H. congruence.
Qed.

Lemma for_each_iadd_total (v : Qc) (hs : list Z) (bl : list Qc) :
  Forall (fun h => 0 <= h < len bl) hs ->
  exists bl', for_each (fun bl h => iadd bl h v) hs bl = Some bl'.
Proof.
  intro F.
  destruct (for_each_total (fun s => List.length s = List.length bl)
              (fun bl h => iadd bl h v) hs) with (s := bl) as (bl' & H & _);
    [|reflexivity|now exists bl'].
  intros s h Hh L. rewrite Forall_forall in F. specialize (F h Hh).
  destruct (iadd_total s h v) as (s' & H).
  { unfold len in *. lia. }
  exists s'. split; [assumption|]. apply iadd_length in H. congruence.
Qed.

Lemma for_each_isub_total (v : Qc) (hs : list Z) (bl : list Qc) :
  Forall (fun h => 0 <= h < len bl) hs ->
  exists bl', for_each (fun bl h => isub bl h v) hs bl = Some bl'.
Proof.
  intro F.
  destruct (for_each_total (fun s => List.length s = List.length bl)
              (fun bl h => isub bl h v) hs) with (s := bl) as (bl' & H & _);
    [|reflexivity|now exists bl'].
  intros s h Hh L. rewrite Forall_forall in F. specialize (F h Hh).
  destruct (isub_total s h v) as (s' & H).
  { unfold len in *. lia. }
  exists s'. split; [assumption|]. apply isub_length in H. congruence.
Qed.

Lemma for_each_iadd_sum (v : Qc) (hs : list Z) (bl bl' : list Qc) :
  for_each (fun bl h => iadd bl h v) hs bl = Some bl' ->
  sum bl' = (sum bl + lit (len hs) 1 * v)%Qc.
Proof.
  revert bl. induction hs as [|h hs IH]; intros bl H; simpl in H.
  - injection H as <-. unfold len. simpl. rewrite lit_0. ring.
  - apply bind_Some in H. destruct H as (bl1 & A & H).
    rewrite (IH _ H), (iadd_sum _ _ _ _ A).
    replace (len (h :: hs)) with (1 + len hs) by (unfold len; simpl List.length; lia).
    rewrite lit_add, lit_1. ring.
Qed.

Lemma for_each_isub_sum (v : Qc) (hs : list Z) (bl bl' : list Qc) :
  for_each (fun bl h => isub bl h v) hs bl = Some bl' ->
  sum bl' = (sum bl - lit (len hs) 1 * v)%Qc.
Proof.
  revert bl. induction hs as [|h hs IH]; intros bl H; simpl in H.
  - injection H as <-. unfold len. simpl. rewrite lit_0. ring.
  - apply bind_Some in H. destruct H as (bl1 & A & H).
    rewrite (IH _ H), (isub_sum _ _ _ _ A).
    replace (len (h :: hs)) with (1 + len hs) by (unfold len; simpl List.length; lia).
    rewrite lit_add, lit_1. ring.
Qed.

Lemma nth_update (k k' : nat) (v : Qc) (l : list Qc) :
  (k < List.length l)%nat ->
  nth k' (update k v l) 0%Qc = if Nat.eqb k k' then v else nth k' l 0%Qc.
Proof.
  revert k k'. induction l as [|x l IH]; intros [|k] [|k'] H; simpl in *;
    try lia; auto.
  apply IH. lia.
Qed.

Lemma existsb_eqb_In (h : Z) (hs : list Z) :
  existsb (Z.eqb h) hs = true <-> In h hs.
Proof.
  rewrite existsb_exists. split.
  - intros (x & I & E). apply Z.eqb_eq in E. now subst.
  - intro I. exists h. split; [assumption|apply Z.eqb_refl].
Qed.

(** The load at position [k] after adding [v] at distinct hours [hs]. *)
Lemma for_each_iadd_nth (v : Qc) (hs : list Z) (bl bl' : list Qc) (k : nat) :
  NoDup hs -> Forall (fun h => 0 <= h < len bl) hs ->
  for_each (fun bl h => iadd bl h v) hs bl = Some bl' ->
  nth k bl' 0%Qc =
  (nth k bl 0 + (if existsb (Z.eqb (Z.of_nat k)) hs then v else 0))%Qc.
Proof.
  revert bl. induction hs as [|h hs IH]; intros bl N F H; simpl in H.
  - injection H as <-. simpl. ring.
  - apply bind_Some in H. destruct H as (bl1 & A & H).
    inversion N as [|? ? Nh N']; subst. inversion F as [|? ? Fh F']; subst.
    pose proof (iadd_length _ _ _ _ A) as L.
    assert (F1 : Forall (fun h => 0 <= h < len bl1) hs).
    { eapply Forall_impl; [|exact F']. unfold len. intros. cbv beta in *. lia. }
    rewrite (IH bl1 N' F1 H).
    apply iadd_Some in A. destruct A as (j & x & I & X & ->).
    rewrite index_nonneg in I by assumption. injection I as <-.
    rewrite nth_update by (unfold len in Fh; lia).
    simpl existsb.
    destruct (Nat.eqb (Z.to_nat h) k) eqn:E.
    + apply Nat.eqb_eq in E. subst k. rewrite Z2Nat.id by lia.
      rewrite Z.eqb_refl. simpl.
      replace (existsb (Z.eqb h) hs) with false.
      * rewrite (nth_error_nth _ _ _ X). ring.
      * symmetry. apply not_true_is_false. rewrite existsb_eqb_In. assumption.
    + apply Nat.eqb_neq in E.
      replace (Z.of_nat k =? h) with false by lia. simpl. reflexivity.
Qed.

End Loads.

(* ------------------------------------------------------------------ *)
(** * Scoring and the two placement policies *)
(* ------------------------------------------------------------------ *)

Section Selection.

Import Logic Spec.

Lemma comprehension_total {A B : Type} (f : A -> option B) (l : list A) :
  (forall x, In x l -> exists y, f x = Some y) ->
  exists ys, comprehension f l = Some ys.
Proof.
  induction l as [|x l IH]; intro H; simpl.
  - now exists [].
  - destruct (H x (or_introl eq_refl)) as (y & ->). simpl.
    destruct IH as (ys & ->); [intros; apply H; now right|].
    simpl. now exists (y :: ys).
Qed.

Lemma comprehension_length {A B : Type} (f : A -> option B) (l : list A) (ys : list B) :
  comprehension f l = Some ys -> List.length ys = List.length l.
Proof.
  revert ys. induction l as [|x l IH]; intros ys H; simpl in H.
  - now injection H as <-.
  - apply bind_Some in H. destruct H as (y & _ & H).
    apply bind_Some in H. destruct H as (ys' & R & H). injection H as <-.
    simpl. f_equal. auto.
Qed.

Lemma Qc_eq_bool_false (x y : Qc) : x <> y -> Qc_eq_bool x y = false.
Proof.
  intro H. destruct (Qc_eq_bool x y) eqn:E; [|reflexivity].
  apply Qc_eq_bool_correct in E. contradiction.
Qed.

Lemma norm_total (val lo hi : Qc) : exists r, norm val lo hi = Some r.
Proof.
  unfold norm. destruct (ltb lo hi) eqn:E; [|now exists 0%Qc].
  apply ltb_lt in E. unfold div. rewrite Qc_eq_bool_false.
  - eexists. reflexivity.
  - intro Hz. apply (Qclt_not_eq _ _ E).
    replace hi with ((hi - lo) + lo)%Qc by ring. rewrite Hz. ring.
Qed.

(** The loop that fills [scores] binds every hour it visits. *)
Lemma scores_loop_defined (body : list (Z * Qc) -> Z -> option (list (Z * Qc)))
      (l : list Z) :
  (forall d h d', body d h = Some d' -> exists v, d' = dict_setitem d h v) ->
  forall d0 d, for_each body l d0 = Some d ->
  forall h, In h l \/ scores_of d0 h <> None -> scores_of d h <> None.
Proof.
  intro Hb. induction l as [|x l IH]; intros d0 d H h Hh; simpl in H.
  - injection H as <-. destruct Hh as [[]|]; assumption.
  - apply bind_Some in H. destruct H as (d1 & B & H).
    apply (IH _ _ H). destruct (Hb _ _ _ B) as (v & ->).
    unfold scores_of, dict_setitem. simpl.
    destruct Hh as [[->|I]|D].
    + right. now rewrite Z.eqb_refl.
    + now left.
    + right. destruct (x =? h); [discriminate|exact D].
Qed.

Lemma score_hours_total (al : list Qc) (w_grid w_price : Qc) (window : list Z) :
  window <> [] ->
  List.length al = 24%nat ->
  Forall hour_in_day window ->
  exists scores, score_hours al w_grid w_price window = Some scores.
Proof.
  intros NE L F. rewrite Forall_forall in F. unfold score_hours.
  assert (GA : forall h, In h window -> exists x, getitem al h = Some x).
  { intros h Hh. apply getitem_total. unfold len. rewrite L.
    specialize (F h Hh). unfold hour_in_day in F. lia. }
  assert (GP : forall h, In h window -> exists x, getitem PRICE_PER_HOUR h = Some x).
  { intros h Hh. apply getitem_total. exact (F h Hh). }
  destruct (comprehension_total _ window GA) as (loads & EL).
  destruct (comprehension_total _ window GP) as (prices & EP).
  pose proof (comprehension_length _ _ _ EL) as LL.
  pose proof (comprehension_length _ _ _ EP) as LP.
  rewrite EL, EP. cbn [bind].
  destruct window as [|h0 window]; [contradiction|].
  destruct loads as [|l0 loads]; [discriminate|].
  destruct prices as [|p0 prices]; [discriminate|].
  cbn [Py.min Py.max bind].
  destruct (for_each_total (fun _ => True)
              (fun scores h =>
                 lh <- getitem al h ;;
                 l_norm <- norm lh (min_from l0 loads) (max_from l0 loads) ;;
                 ph <- getitem PRICE_PER_HOUR h ;;
                 p_norm <- norm ph (min_from p0 prices) (max_from p0 prices) ;;
                 Some (dict_setitem scores h (w_grid * l_norm + w_price * p_norm)%Qc))
              (h0 :: window)) with (s := @nil (Z * Qc)) as (d & D & _);
    [|exact I|now exists d].
  intros d h Hh _.
  destruct (GA h Hh) as (x & ->). cbn [bind].
  destruct (norm_total x (min_from l0 loads) (max_from l0 loads)) as (ln & ->).
  cbn [bind].
  destruct (GP h Hh) as (y & ->). cbn [bind].
  destruct (norm_total y (min_from p0 prices) (max_from p0 prices)) as (pn & ->).
  cbn [bind]. eexists. split; [reflexivity|exact I].
Qed.

Lemma score_hours_defined (al : list Qc) (w_grid w_price : Qc) (window : list Z)
      (scores : list (Z * Qc)) :
  score_hours al w_grid w_price window = Some scores ->
  forall h, In h window -> scores_of scores h <> None.
Proof.
  unfold score_hours. intros H h Hh.
  apply bind_Some in H. destruct H as (loads & _ & H).
  apply bind_Some in H. destruct H as (prices & _ & H).
  apply bind_Some in H. destruct H as (Lmin & _ & H).
  apply bind_Some in H. destruct H as (Lmax & _ & H).
  apply bind_Some in H. destruct H as (Pmin & _ & H).
  apply bind_Some in H. destruct H as (Pmax & _ & H).
  eapply scores_loop_defined; [|exact H|left; exact Hh].
  intros d x d' B.
  apply bind_Some in B. destruct B as (lh & _ & B).
  apply bind_Some in B. destruct B as (ln & _ & B).
  apply bind_Some in B. destruct B as (ph & _ & B).
  apply bind_Some in B. destruct B as (pn & _ & B).
  injection B as <-. eexists. reflexivity.
Qed.

(** [min(l, key=...)] returns the first item of minimal key. *)
Lemma min_key_from_first_min {A : Type} (key : A -> option Qc) (l : list A) :
  forall best kbest r,
  min_key_from key best kbest l = Some r ->
  (r = best /\ forall x, In x l -> exists v, key x = Some v /\ (kbest <= v)%Qc) \/
  (exists l1 l2 vr,
      l = l1 ++ r :: l2 /\ key r = Some vr /\ (vr < kbest)%Qc /\
      (forall x, In x l1 -> exists v, key x = Some v /\ (vr < v)%Qc) /\
      (forall x, In x l2 -> exists v, key x = Some v /\ (vr <= v)%Qc)).
Proof.
  induction l as [|y l IH]; intros best kbest r H; simpl in H.
  - injection H as <-. left. split; [reflexivity|intros x []].
  - apply bind_Some in H. destruct H as (ky & Ky & H).
    destruct (ltb ky kbest) eqn:E.
    + apply ltb_lt in E. right.
      destruct (IH _ _ _ H) as [(-> & All)|(l1 & l2 & vr & -> & Kr & Lt & B & Af)].
      * exists [], l, ky. repeat split; auto. intros x [].
      * exists (y :: l1), l2, vr. repeat split; auto.
        -- eapply Qclt_trans; eassumption.
        -- intros x [<-|I]; [now exists ky|auto].
    + apply ltb_ge in E.
      destruct (IH _ _ _ H) as [(-> & All)|(l1 & l2 & vr & -> & Kr & Lt & B & Af)].
      * left. split; [reflexivity|]. intros x [<-|I]; [now exists ky|auto].
      * right. exists (y :: l1), l2, vr. repeat split; auto.
        intros x [<-|I]; [|auto]. exists ky. split; [assumption|].
        eapply Qclt_le_trans; eassumption.
Qed.

Lemma min_key_first_min {A : Type} (key : A -> option Qc) (l : list A) (r : A) :
  min_key key l = Some r ->
  exists l1 l2 vr,
    l = l1 ++ r :: l2 /\ key r = Some vr /\
    (forall x, In x l1 -> exists v, key x = Some v /\ (vr < v)%Qc) /\
    (forall x, In x l2 -> exists v, key x = Some v /\ (vr <= v)%Qc).
Proof.
  destruct l as [|x l]; [discriminate|]. simpl. intro H.
  apply bind_Some in H. destruct H as (kx & Kx & H).
  destruct (min_key_from_first_min _ _ _ _ _ H)
    as [(-> & All)|(l1 & l2 & vr & -> & Kr & Lt & B & Af)].
  - exists [], l, kx. repeat split; auto. intros y [].
  - exists (x :: l1), l2, vr. repeat split; auto.
    intros y [<-|I]; [now exists kx|auto].
Qed.

Lemma min_key_from_total {A : Type} (key : A -> option Qc) (l : list A) :
  (forall x, In x l -> key x <> None) ->
  forall best kbest, exists r, min_key_from key best kbest l = Some r.
Proof.
  induction l as [|y l IH]; intros K best kbest; simpl.
  - now exists best.
  - destruct (key y) as [ky|] eqn:Ky; [|exfalso; exact (K y (or_introl eq_refl) Ky)].
    cbn [bind]. destruct (ltb ky kbest); apply IH; intros; apply K; now right.
Qed.

Lemma min_key_total {A : Type} (key : A -> option Qc) (l : list A) :
  l <> [] -> (forall x, In x l -> key x <> None) ->
  exists r, min_key key l = Some r.
Proof.
  destruct l as [|x l]; [contradiction|]. intros _ K. simpl.
  destruct (key x) as [kx|] eqn:Kx; [|exfalso; exact (K x (or_introl eq_refl) Kx)].
  cbn [bind]. apply min_key_from_total. intros; apply K; now right.
Qed.

Lemma remove_middle (b : Z) (l1 l2 : list Z) :
  ~ In b l1 -> remove b (l1 ++ b :: l2) = Some (l1 ++ l2).
Proof.
  induction l1 as [|x l1 IH]; intro N; simpl.
  - now rewrite Z.eqb_refl.
  - destruct (x =? b) eqn:E.
    + apply Z.eqb_eq in E. exfalso. apply N. now left.
    + rewrite IH; [reflexivity|]. intro I. apply N. now right.
Qed.

Lemma greedy_length (score : Z -> option Qc) (n : nat) (pool picks : list Z) :
  greedy score n pool picks -> List.length picks = n.
Proof. induction 1; simpl; auto. Qed.

Lemma greedy_incl (score : Z -> option Qc) (n : nat) (pool picks : list Z) :
  greedy score n pool picks -> forall h, In h picks -> In h pool.
Proof.
  induction 1; intros h Hh; simpl in Hh; [contradiction|].
  apply in_app_iff. destruct Hh as [<-|I].
  - right. now left.
  - apply IHgreedy in I. apply in_app_iff in I. simpl. tauto.
Qed.

Lemma greedy_NoDup (score : Z -> option Qc) (n : nat) (pool picks : list Z) :
  NoDup pool -> greedy score n pool picks -> NoDup picks.
Proof.
  intros N G. induction G; [constructor|].
  apply NoDup_remove in N. destruct N as (N & Nb).
  constructor; auto.
  intro I. apply Nb. eapply greedy_incl; eassumption.
Qed.

(** Whenever the selection loop completes, its picks are the greedy ones. *)
Lemma take_best_greedy (scores : list (Z * Qc)) (n : nat) :
  forall available chosen r,
  take_best scores n available chosen = Some r ->
  exists picks,
    r = chosen ++ picks /\
    greedy (scores_of scores) (Nat.min n (List.length available)) available picks.
Proof.
  induction n as [|n IH]; intros available chosen r H; simpl in H.
  - injection H as <-. exists []. rewrite app_nil_r. split; [reflexivity|constructor].
  - destruct available as [|a0 available].
    + injection H as <-. exists []. rewrite app_nil_r.
      split; [reflexivity|constructor].
    + cbn [is_nil] in H.
      apply bind_Some in H. destruct H as (best & M & H).
      apply bind_Some in H. destruct H as (available' & R & H).
      apply min_key_first_min in M.
      destruct M as (l1 & l2 & vb & E & Kb & Bf & Af).
      rewrite E in R |- *.
      rewrite remove_middle in R.
      2:{ intro I. destruct (Bf _ I) as (v & Kv & Lt).
          rewrite Kb in Kv. injection Kv as <-.
          exact (Qclt_not_eq _ _ Lt eq_refl). }
      injection R as <-.
      destruct (IH _ _ _ H) as (picks & -> & G).
      exists (best :: picks). split.
      * now rewrite <- app_assoc.
      * replace (Nat.min (S n) (List.length (l1 ++ best :: l2)))
          with (S (Nat.min n (List.length (l1 ++ l2))))
          by (rewrite !length_app; cbn [List.length]; lia).
        econstructor; eassumption.
Qed.

Lemma take_best_total (scores : list (Z * Qc)) (n : nat) :
  forall available chosen,
  (forall h, In h available -> scores_of scores h <> None) ->
  exists r, take_best scores n available chosen = Some r.
Proof.
  induction n as [|n IH]; intros available chosen K; simpl.
  - now exists chosen.
  - destruct available as [|a0 available]; [now exists chosen|].
    cbn [is_nil].
    destruct (min_key_total (scores_of scores) (a0 :: available)) as (best & M);
      [discriminate|exact K|].
    rewrite M. cbn [bind].
    apply min_key_first_min in M.
    destruct M as (l1 & l2 & vb & E & Kb & Bf & Af).
    rewrite E in K |- *.
    rewrite remove_middle.
    2:{ intro I. destruct (Bf _ I) as (v & Kv & Lt).
        rewrite Kb in Kv. injection Kv as <-.
        exact (Qclt_not_eq _ _ Lt eq_refl). }
    cbn [bind]. apply IH. intros h I. apply K.
    apply in_app_iff in I. apply in_app_iff. simpl. tauto.
Qed.

(** The block search. *)
Lemma block_step_ok (scores : list (Z * Qc)) (window : list Z) (d i : Z)
      (st st' : option (list Z) * option Qc) :
  0 <= i -> i + d <= len window ->
  block_state_ok window d st \/ st = (None, None) ->
  block_step scores window d st i = Some st' ->
  block_state_ok window d st'.
Proof.
  intros Hi Hd Hst H. unfold block_step in H.
  apply bind_Some in H. destruct H as (vals & _ & H).
  destruct Hst as [(j & s & Hj & Hjd & B & Hs) | ->].
  - rewrite Hs in H. destruct (ltb (sum vals) s).
    + injection H as <-. now exists i, (sum vals).
    + injection H as <-. now exists j, s.
  - simpl in H. injection H as <-. now exists i, (sum vals).
Qed.

Lemma block_loop_ok (scores : list (Z * Qc)) (window : list Z) (d : Z) (l : list Z)
      (st' : option (list Z) * option Qc) :
  l <> [] -> Forall (fun i => 0 <= i /\ i + d <= len window) l ->
  for_each (block_step scores window d) l (None, None) = Some st' ->
  block_state_ok window d st'.
Proof.
  destruct l as [|i l]; [contradiction|]. intros _ F H. simpl in H.
  apply bind_Some in H. destruct H as (st1 & B & H).
  inversion F as [|? ? (Hi & Hd) F']; subst.
  apply block_step_ok in B; auto.
  revert H. apply for_each_invariant; [|exact B].
  intros s x s' Hx Hs Hb. rewrite Forall_forall in F'.
  destruct (F' x Hx) as (Hx0 & Hxd).
  eapply block_step_ok; [exact Hx0|exact Hxd| |exact Hb]. now left.
Qed.

Lemma block_search_block (scores : list (Z * Qc)) (window : list Z) (d : Z)
      (bb : option (list Z)) :
  1 <= d <= len window ->
  block_search scores window d = Some bb ->
  exists i, 0 <= i /\ i + d <= len window /\ bb = Some (slice window i (i + d)).
Proof.
  intros Hd H. unfold block_search in H.
  replace (len window <? d) with false in H by lia.
  apply bind_Some in H. destruct H as ([b s] & L & H). injection H as <-.
  apply block_loop_ok in L.
  - destruct L as (i & s' & Hi & Hid & B & _). now exists i.
  - intro E. apply (f_equal (@List.length Z)) in E.
    rewrite length_range in E. simpl in E. lia.
  - apply Forall_forall. intros i I. apply in_range in I. lia.
Qed.

Lemma block_search_incl (scores : list (Z * Qc)) (window : list Z) (d : Z)
      (block : list Z) :
  block_search scores window d = Some (Some block) ->
  forall h, In h block -> In h window.
Proof.
  unfold block_search. intro H.
  apply bind_Some in H. destruct H as ([b s] & L & H). injection H as ->.
  set (d' := if len window <? d then len window else d) in *.
  assert (Inv : forall b, fst (Some block, s) = Some b ->
                forall h, In h b -> In h window); [|exact (Inv block eq_refl)].
  eapply (for_each_invariant
            (fun st => forall b, fst st = Some b -> forall h, In h b -> In h window));
    [| |exact L].
  - intros [ob os] x [ob' os'] _ Inv B. unfold block_step in B.
    apply bind_Some in B. destruct B as (vals & _ & B). simpl in B.
    intros b0 E h Hh. simpl in E. subst ob'.
    destruct os as [bs|].
    + destruct (ltb (sum vals) bs); injection B as E1 E2.
      * subst b0. eapply slice_incl; eassumption.
      * subst ob. eapply Inv; [reflexivity|exact Hh].
    + injection B as E1 E2. subst b0. eapply slice_incl; eassumption.
  - intros b0 E. discriminate.
Qed.

Lemma block_search_total (scores : list (Z * Qc)) (window : list Z) (d : Z) :
  (forall h, In h window -> scores_of scores h <> None) ->
  exists bb, block_search scores window d = Some bb.
Proof.
  intro K. unfold block_search.
  set (d' := if len window <? d then len window else d).
  destruct (for_each_total (fun _ => True) (block_step scores window d')
              (range 0 (len window - d' + 1))) with (s := (@None (list Z), @None Qc))
    as ([b s] & L & _); [|exact I|].
  - intros st i _ _. unfold block_step.
    destruct (comprehension_total (scores_of scores) (slice window i (i + d')))
      as (vals & ->).
    { intros h Hh. apply slice_incl in Hh.
      destruct (scores_of scores h) eqn:E; [now eexists|].
      exfalso. exact (K h Hh E). }
    cbn [bind]. destruct (snd st) as [bs|].
    + destruct (ltb (sum vals) bs); eexists; split; try reflexivity; exact I.
    + eexists; split; try reflexivity; exact I.
  - rewrite L. cbn [bind]. now exists b.
Qed.

End Selection.

(* ------------------------------------------------------------------ *)
(** * Sorting, enumeration and updates *)
(* ------------------------------------------------------------------ *)

Section Sorting.

Lemma In_insert_by {A : Type} (key : A -> Qc) (x y : A) (l : list A) :
  In x (insert_by key y l) <-> x = y \/ In x l.
Proof.
  induction l as [|z l IH]; simpl.
  - intuition congruence.
  - destruct (ltb (key z) (key y)); simpl; rewrite ?IH; intuition congruence.
Qed.

Lemma In_sorted {A : Type} (key : A -> Qc) (x : A) (l : list A) :
  In x (sorted key l) <-> In x l.
Proof.
  unfold sorted. induction l as [|y l IH]; simpl; [tauto|].
  rewrite In_insert_by, IH. intuition congruence.
Qed.

Lemma In_combine_seq {A : Type} (l : list A) (s i : nat) (a : A) :
  In (i, a) (combine (seq s (List.length l)) l) <->
  (s <= i)%nat /\ nth_error l (i - s) = Some a.
Proof.
  revert s. induction l as [|x l IH]; intro s; simpl.
  - split; [tauto|]. intros (_ & H). destruct (i - s)%nat; discriminate.
  - rewrite IH. split.
    + intros [E|(Hs & N)].
      * injection E as <- <-. rewrite Nat.sub_diag. auto.
      * split; [lia|]. replace (i - s)%nat with (S (i - S s)) by lia. exact N.
    + intros (Hs & N). destruct (Nat.eq_dec i s) as [->|Ne].
      * rewrite Nat.sub_diag in N. left. simpl in N. congruence.
      * right. split; [lia|].
        replace (i - s)%nat with (S (i - S s)) in N by lia. exact N.
Qed.

Lemma In_enumerate {A : Type} (l : list A) (i : nat) (a : A) :
  In (i, a) (enumerate l) <-> nth_error l i = Some a.
Proof.
  unfold enumerate. rewrite In_combine_seq, Nat.sub_0_r. intuition lia.
Qed.

Lemma Forall_update {A : Type} (P : A -> Prop) (k : nat) (v : A) (l : list A) :
  P v -> Forall P l -> Forall P (update k v l).
Proof.
  intros Hv. revert k. induction l as [|x l IH]; intros [|k] F; simpl; auto;
    inversion F; subst; constructor; auto.
Qed.

End Sorting.

(* ------------------------------------------------------------------ *)
(** * logic.py: the before pass *)
(* ------------------------------------------------------------------ *)

Section LogicBefore.

Import Logic Spec.

Lemma before_place_eq (bl : list Qc) (a : Asset) :
  before_place bl a =
  (bl' <- for_each (fun bl h => iadd bl h (power_kw a)) (naive_hours a) bl ;;
   Some (set_before_hours a (naive_hours a), bl')).
Proof.
  unfold before_place, naive_hours, window_of. cbn [enabled set_before_hours
    start_hour end_hour duration_h power_kw].
  destruct (enabled a); [|reflexivity]. cbn [negb].
  destruct (get_window_hours (start_hour a) (end_hour a)) as [|h w] eqn:W.
  - rewrite slice_nil. reflexivity.
  - reflexivity.
Qed.

Lemma before_loop_assets (bl bl' : list Qc) (l l' : list Asset) :
  before_loop bl l = Some (l', bl') ->
  l' = map set_naive l /\ List.length bl' = List.length bl.
Proof.
  revert bl l'. induction l as [|a l IH]; intros bl l' H; simpl in H.
  - injection H as <- <-. auto.
  - rewrite before_place_eq in H.
    apply bind_Some in H. destruct H as ([a1 bl1] & P & H).
    apply bind_Some in P. destruct P as (bl1' & P & E). injection E as <- <-.
    apply bind_Some in H. destruct H as ([l1 bl2] & R & H).
    injection H as <- <-. destruct (IH _ _ R) as (-> & L).
    apply for_each_iadd_length in P. split; [reflexivity|congruence].
Qed.

End LogicBefore.

(* ------------------------------------------------------------------ *)
(** * logic.py: the after pass at zero participation *)
(* ------------------------------------------------------------------ *)

Section LogicZero.

Import Logic Spec.

Lemma for_each_isub_zero (hs : list Z) (al al' : list Qc) :
  for_each (fun al h => isub al h 0%Qc) hs al = Some al' -> al' = al.
Proof.
  apply (for_each_invariant (fun s => s = al)); [|reflexivity].
  intros s h s' _ -> H. now apply isub_zero in H.
Qed.

Lemma for_each_iadd_zero (hs : list Z) (al al' : list Qc) :
  for_each (fun al h => iadd al h 0%Qc) hs al = Some al' -> al' = al.
Proof.
  apply (for_each_invariant (fun s => s = al)); [|reflexivity].
  intros s h s' _ -> H. now apply iadd_zero in H.
Qed.

Lemma place_zero_flex (w wg : Qc) (l l' : list Asset) (al al' : list Qc)
      (c c' : Qc) (i : nat) :
  place 0%Qc w wg (l, al, c) i = Some (l', al', c') -> al' = al.
Proof.
  unfold place. intro H.
  apply bind_Some in H. destruct H as (a & _ & H).
  destruct (leb (power_kw a) 0%Qc || is_nil (before_hours a)).
  { now injection H as _ <- _. }
  destruct (is_nil (get_window_hours (start_hour a) (end_hour a))).
  { now injection H as _ <- _. }
  rewrite Qcmult_0_r in H.
  apply bind_Some in H. destruct H as (al1 & H1 & H).
  apply for_each_isub_zero in H1. subst al1.
  apply bind_Some in H. destruct H as (scores & _ & H).
  apply bind_Some in H. destruct H as (chosen & _ & H).
  apply bind_Some in H. destruct H as (al2 & H2 & H).
  apply for_each_iadd_zero in H2. subst al2.
  apply bind_Some in H. destruct H as (c1 & _ & H).
  apply bind_Some in H. destruct H as (c2 & _ & H).
  now injection H as _ <- _.
Qed.

Lemma after_curve_zero_flex (s s' : Simulator) :
  flex_participation s = 0%Qc ->
  _build_after_curve s = Some s' ->
  after_load s' = before_load s /\ before_load s' = before_load s.
Proof.
  intros Hp H. unfold _build_after_curve in H. rewrite Hp in H.
  apply bind_Some in H. destruct H as (((l', al'), c') & L & H).
  injection H as <-. simpl. split; [|reflexivity].
  revert L.
  apply (for_each_invariant (fun st => snd (fst st) = before_load s)); [|reflexivity].
  intros [[l1 al1] c1] i [[l2 al2] c2] _ I P. simpl in *.
  apply place_zero_flex in P. congruence.
Qed.

End LogicZero.

(* ------------------------------------------------------------------ *)
(** * logic.py: one turn of the placement loop *)
(* ------------------------------------------------------------------ *)

Section LogicPlace.

Import Logic Spec.

Lemma add_cost_total (power : Qc) (hs : list Z) (c : Qc) :
  Forall hour_in_day hs -> exists c', for_each (add_cost power) hs c = Some c'.
Proof.
  intro F. rewrite Forall_forall in F.
  destruct (for_each_total (fun _ => True) (add_cost power) hs) with (s := c)
    as (c' & H & _); [|exact I|now exists c'].
  intros s h Hh _. unfold add_cost.
  destruct (getitem_total PRICE_PER_HOUR h (F h Hh)) as (pr & ->).
  cbn [bind]. eexists; split; [reflexivity|exact I].
Qed.

(** What one turn of the placement loop does to the asset at position [i]. *)
Lemma place_inv (p w wg : Qc) (l l' : list Asset) (al al' : list Qc) (c c' : Qc)
      (i : nat) :
  place p w wg (l, al, c) i = Some (l', al', c') ->
  exists a, nth_error l i = Some a /\
  ((leb (power_kw a) 0%Qc || is_nil (before_hours a) = true /\
    l' = l /\ al' = al /\ c' = c) \/
   (leb (power_kw a) 0%Qc || is_nil (before_hours a) = false /\
    window_of a = [] /\
    l' = update i (set_after_hours a (before_hours a)) l /\ al' = al /\ c' = c) \/
   (leb (power_kw a) 0%Qc || is_nil (before_hours a) = false /\
    window_of a <> [] /\
    exists al1 scores chosen,
      for_each (fun al h => isub al h (power_kw a * p)%Qc) (before_hours a) al
        = Some al1 /\
      score_hours al1 wg w (window_of a) = Some scores /\
      (if variable a
       then take_best scores
              (Z.to_nat (min2 (duration_h a) (len (window_of a)))) (window_of a) []
       else best_block scores (window_of a)
              (min2 (duration_h a) (len (window_of a)))) = Some chosen /\
      for_each (fun al h => iadd al h (power_kw a * p)%Qc) chosen al1 = Some al' /\
      l' = update i (set_after_hours a chosen) l)).
Proof.
  unfold place, window_of. intro H.
  apply bind_Some in H. destruct H as (a & N & H). exists a. split; [exact N|].
  destruct (leb (power_kw a) 0%Qc || is_nil (before_hours a)) eqn:E1.
  { injection H as <- <- <-. left. auto. }
  right.
  destruct (get_window_hours (start_hour a) (end_hour a)) as [|h0 win] eqn:W.
  { cbn [is_nil] in H. injection H as <- <- <-. left. auto. }
  right. cbn [is_nil] in H.
  apply bind_Some in H. destruct H as (al1 & S1 & H).
  apply bind_Some in H. destruct H as (scores & S2 & H).
  apply bind_Some in H. destruct H as (chosen & S3 & H).
  apply bind_Some in H. destruct H as (al2 & S4 & H).
  apply bind_Some in H. destruct H as (c1 & _ & H).
  apply bind_Some in H. destruct H as (c2 & _ & H).
  injection H as <- <- <-.
  split; [reflexivity|]. split; [discriminate|].
  exists al1, scores, chosen. auto.
Qed.

Lemma len_PRICE : len PRICE_PER_HOUR = 24.
Proof. reflexivity. Qed.

Lemma chosen_in_window (scores : list (Z * Qc)) (a : Asset) (chosen : list Z) :
  (if variable a
   then take_best scores
          (Z.to_nat (min2 (duration_h a) (len (window_of a)))) (window_of a) []
   else best_block scores (window_of a)
          (min2 (duration_h a) (len (window_of a)))) = Some chosen ->
  forall h, In h chosen -> In h (window_of a).
Proof.
  destruct (variable a); intros H h Hh.
  - apply take_best_greedy in H. destruct H as (picks & -> & G).
    simpl in Hh. eapply greedy_incl; eassumption.
  - unfold best_block in H. apply bind_Some in H. destruct H as (bb & B & H).
    destruct bb as [[|h0 block]|]; injection H as <-; try contradiction.
    eapply block_search_incl; eassumption.
Qed.

Lemma place_total (p w wg : Qc) (l : list Asset) (al : list Qc) (c : Qc)
      (i : nat) (a : Asset) :
  nth_error l i = Some a ->
  wf_asset a ->
  Forall hour_in_day (before_hours a) ->
  List.length al = 24%nat ->
  exists st', place p w wg (l, al, c) i = Some st'.
Proof.
  intros N (Hs & He) Fb L. unfold place. rewrite N. cbn [bind].
  destruct (leb (power_kw a) 0%Qc || is_nil (before_hours a)); [now eexists|].
  pose proof (window_nonempty _ _ Hs He) as NE.
  pose proof (window_in_range _ _ Hs He) as IR.
  fold (window_of a) in *.
  destruct (window_of a) as [|h0 win] eqn:W; [contradiction|]. cbn [is_nil].
  rewrite <- W in *.
  destruct (for_each_isub_total (power_kw a * p)%Qc (before_hours a) al) as (al1 & S1).
  { eapply Forall_impl; [|exact Fb]. unfold hour_in_day, len. intros. lia. }
  rewrite S1. cbn [bind].
  pose proof (for_each_isub_length _ _ _ _ S1) as L1.
  destruct (score_hours_total al1 wg w (window_of a)) as (scores & S2);
    [assumption|congruence|now apply Forall_forall|].
  rewrite S2. cbn [bind].
  pose proof (score_hours_defined _ _ _ _ _ S2) as D.
  assert (exists chosen,
    (if variable a
     then take_best scores
            (Z.to_nat (min2 (duration_h a) (len (window_of a)))) (window_of a) []
     else best_block scores (window_of a)
            (min2 (duration_h a) (len (window_of a)))) = Some chosen)
    as (chosen & S3).
  { destruct (variable a).
    - now apply take_best_total.
    - unfold best_block.
      destruct (block_search_total scores (window_of a)
                  (min2 (duration_h a) (len (window_of a))) D) as (bb & ->).
      cbn [bind]. destruct bb as [[|? ?]|]; now eexists. }
  rewrite S3. cbn [bind].
  pose proof (chosen_in_window _ _ _ S3) as CW.
  destruct (for_each_iadd_total (power_kw a * p)%Qc chosen al1) as (al2 & S4).
  { apply Forall_forall. intros h Hh. apply CW, IR in Hh. unfold len. lia. }
  rewrite S4. cbn [bind]. cbn [before_hours after_hours set_after_hours].
  destruct (add_cost_total (power_kw a * (1 - p))%Qc (before_hours a) c Fb)
    as (c1 & ->).
  cbn [bind].
  destruct (add_cost_total (power_kw a * p)%Qc chosen c1) as (c2 & ->).
  { apply Forall_forall. intros h Hh. apply CW, IR in Hh. exact Hh. }
  cbn [bind]. now eexists.
Qed.

End LogicPlace.

(* ------------------------------------------------------------------ *)
(** * logic.py: the recompute completes on well-formed catalogs *)
(* ------------------------------------------------------------------ *)

Section LogicPasses.

Import Logic Spec.

Lemma In_enabled_assets (l : list Asset) (i : nat) :
  In i (enabled_assets l) <->
  exists a, nth_error l i = Some a /\ enabled a = true.
Proof.
  unfold enabled_assets. rewrite in_map_iff. split.
  - intros ([j a] & <- & H). apply In_sorted, filter_In in H.
    destruct H as (H & E). apply In_enumerate in H. now exists a.
  - intros (a & N & E). exists (i, a). split; [reflexivity|].
    apply In_sorted, filter_In. split; [now apply In_enumerate|exact E].
Qed.

Lemma naive_hours_in_window (a : Asset) (h : Z) :
  In h (naive_hours a) -> In h (window_of a).
Proof.
  unfold naive_hours. destruct (enabled a); [|contradiction].
  apply slice_incl.
Qed.

Lemma naive_hours_in_day (a : Asset) :
  wf_asset a -> Forall hour_in_day (naive_hours a).
Proof.
  intros (Hs & He). apply Forall_forall. intros h Hh.
  apply naive_hours_in_window in Hh.
  exact (window_in_range _ _ Hs He h Hh).
Qed.

Lemma before_loop_total (l : list Asset) :
  Forall wf_asset l ->
  forall bl, List.length bl = 24%nat ->
  exists bl', before_loop bl l = Some (map set_naive l, bl') /\
              List.length bl' = 24%nat.
Proof.
  induction 1 as [|a l Ha _ IH]; intros bl L; simpl.
  - now exists bl.
  - rewrite before_place_eq.
    destruct (for_each_iadd_total (power_kw a) (naive_hours a) bl) as (bl1 & P).
    { eapply Forall_impl; [|exact (naive_hours_in_day a Ha)].
      unfold hour_in_day, len. intros. lia. }
    rewrite P. cbn [bind].
    pose proof (for_each_iadd_length _ _ _ _ P) as L1.
    destruct (IH bl1) as (bl2 & -> & L2); [congruence|].
    cbn [bind]. now exists bl2.
Qed.

Lemma before_cost_total (l : list Asset) :
  Forall (fun a => Forall hour_in_day (before_hours a)) l ->
  exists c, before_cost l = Some c.
Proof.
  intro F. rewrite Forall_forall in F. unfold before_cost.
  destruct (for_each_total (fun _ => True)
     (fun cost a =>
       if negb (enabled a) then Some cost
       else for_each (fun cost h =>
                        pr <- getitem PRICE_PER_HOUR h ;;
                        Some (cost + power_kw a * pr)%Qc)
                     (before_hours a) cost) l) with (s := 0%Qc)
    as (c & H & _); [|exact I|now exists c].
  intros c a Ha _. destruct (negb (enabled a)); [now exists c|].
  destruct (add_cost_total (power_kw a) (before_hours a) c (F a Ha)) as (c' & H).
  exists c'. split; [exact H|exact I].
Qed.

Lemma build_before_inv (s s1 : Simulator) :
  _build_before_curve s = Some s1 ->
  assets s1 = map set_naive (assets s) /\
  List.length (before_load s1) = List.length (base_load (current_scenario s)) /\
  scenarios s1 = scenarios s /\ current_scenario s1 = current_scenario s /\
  base_power s1 = base_power s /\ flex_participation s1 = flex_participation s /\
  price_weight s1 = price_weight s.
Proof.
  unfold _build_before_curve. intro H.
  apply bind_Some in H. destruct H as ([l' bl'] & B & H).
  apply bind_Some in H. destruct H as (c & _ & H). injection H as <-. simpl.
  apply before_loop_assets in B. destruct B as (-> & L). auto 10.
Qed.

Lemma good_set_naive (a : Asset) : wf_asset a -> good (set_naive a).
Proof.
  intro W. split; [exact W|]. exact (naive_hours_in_day a W).
Qed.

Lemma build_before_total (s : Simulator) :
  Forall wf_asset (assets s) ->
  List.length (base_load (current_scenario s)) = 24%nat ->
  exists s1, _build_before_curve s = Some s1.
Proof.
  intros W L. unfold _build_before_curve.
  destruct (before_loop_total _ W _ L) as (bl' & -> & L'). cbn [bind].
  destruct (before_cost_total (map set_naive (assets s))) as (c & ->).
  { apply Forall_map. eapply Forall_impl; [|exact W].
    intros a Ha. exact (naive_hours_in_day a Ha). }
  cbn [bind]. now eexists.
Qed.

(** The after pass changes the [after_hours] of the assets and nothing
    else, and keeps the length of the load curve. *)
Lemma place_keeps (p w wg : Qc) (l l' : list Asset) (al al' : list Qc) (c c' : Qc)
      (i : nat) :
  place p w wg (l, al, c) i = Some (l', al', c') ->
  map clear_after l' = map clear_after l /\ List.length al' = List.length al.
Proof.
  intro H. apply place_inv in H. destruct H as (a & N & H).
  assert (U : forall hs, map clear_after (update i (set_after_hours a hs) l)
                         = map clear_after l).
  { intro hs. rewrite map_update. apply update_same.
    now rewrite nth_error_map, N. }
  destruct H as [(_ & -> & -> & _)|[(_ & _ & -> & -> & _)|
                 (_ & _ & al1 & scores & chosen & S1 & _ & _ & S4 & ->)]]; auto.
  split; [apply U|].
  apply for_each_isub_length in S1. apply for_each_iadd_length in S4. congruence.
Qed.

Lemma after_loop_keeps (p w wg : Qc) (idxs : list nat) (l l' : list Asset)
      (al al' : list Qc) (c c' : Qc) :
  for_each (place p w wg) idxs (l, al, c) = Some (l', al', c') ->
  map clear_after l' = map clear_after l /\ List.length al' = List.length al.
Proof.
  intro H.
  apply (for_each_invariant
           (fun st => map clear_after (fst (fst st)) = map clear_after l /\
                      List.length (snd (fst st)) = List.length al)
           _ _) with (s' := (l', al', c')) in H; auto.
  intros [[l1 al1] c1] i [[l2 al2] c2] _ (I1 & I2) P. simpl in *.
  apply place_keeps in P. destruct P. split; congruence.
Qed.

Lemma clear_after_good (a a' : Asset) :
  clear_after a' = clear_after a -> good a -> good a'.
Proof.
  unfold clear_after, set_after_hours, good, wf_asset.
  intros E G. injection E as E1 E2 E3 E4 E5 E6 E7 E8 E9.
  now rewrite E5, E6, E9.
Qed.

Lemma map_eq_nth {A B : Type} (f : A -> B) (l l' : list A) (i : nat) (a' : A) :
  map f l' = map f l -> nth_error l' i = Some a' ->
  exists a, nth_error l i = Some a /\ f a' = f a.
Proof.
  intros E N. apply (f_equal (fun m => nth_error m i)) in E.
  rewrite !nth_error_map, N in E. simpl in E.
  destruct (nth_error l i) as [a|]; [|discriminate].
  exists a. split; [reflexivity|]. simpl in E. congruence.
Qed.

Lemma after_loop_total (p w wg : Qc) (idxs : list nat) (l : list Asset)
      (al : list Qc) (c : Qc) :
  Forall good l -> List.length al = 24%nat ->
  (forall i, In i idxs -> (i < List.length l)%nat) ->
  exists st', for_each (place p w wg) idxs (l, al, c) = Some st'.
Proof.
  intros G L Hi.
  destruct (for_each_total
              (fun st => map clear_after (fst (fst st)) = map clear_after l /\
                         List.length (snd (fst st)) = 24%nat)
              (place p w wg) idxs) with (s := (l, al, c)) as (st' & H & _);
    [|now split|now exists st'].
  intros [[l1 al1] c1] i Ii (I1 & I2). simpl in *.
  assert (exists a1, nth_error l1 i = Some a1) as (a1 & N1).
  { destruct (nth_error l1 i) eqn:E; [now eexists|].
    apply nth_error_None in E. apply (f_equal (@List.length _)) in I1.
    rewrite !length_map in I1. specialize (Hi i Ii). lia. }
  destruct (map_eq_nth _ _ _ _ _ I1 N1) as (a & N & E).
  assert (G1 : good a1).
  { eapply clear_after_good; [exact E|]. rewrite Forall_forall in G.
    apply G. eapply nth_error_In; eassumption. }
  destruct G1 as (W1 & F1).
  destruct (place_total p w wg l1 al1 c1 i a1 N1 W1 F1 I2) as ([[l2 al2] c2] & P).
  exists (l2, al2, c2). split; [exact P|]. simpl.
  apply place_keeps in P. destruct P. split; congruence.
Qed.

Lemma build_after_total (s : Simulator) :
  Forall good (assets s) -> List.length (before_load s) = 24%nat ->
  exists s', _build_after_curve s = Some s'.
Proof.
  intros G L. unfold _build_after_curve.
  destruct (after_loop_total (flex_participation s) (price_weight s)
              (1 - price_weight s)%Qc
              (enabled_assets (map (fun a => set_after_hours a []) (assets s)))
              (map (fun a => set_after_hours a []) (assets s))
              (before_load s) 0%Qc) as ([[l' al'] c'] & ->).
  - apply Forall_map. eapply Forall_impl; [|exact G]. intros a Ga. exact Ga.
  - exact L.
  - intros i Ii. apply In_enabled_assets in Ii. destruct Ii as (a & N & _).
    apply nth_error_Some. congruence.
  - cbn [bind]. now eexists.
Qed.

Lemma recalculate_total (s : Simulator) :
  Forall wf_asset (assets s) ->
  List.length (base_load (current_scenario s)) = 24%nat ->
  exists s', recalculate s = Some s'.
Proof.
  intros W L. unfold recalculate.
  destruct (build_before_total s W L) as (s1 & B). rewrite B. cbn [bind].
  apply build_before_inv in B. destruct B as (A & LB & _).
  apply build_after_total.
  - rewrite A. apply Forall_map. eapply Forall_impl; [|exact W].
    intros a Ha. exact (good_set_naive a Ha).
  - congruence.
Qed.

End LogicPasses.

(* ------------------------------------------------------------------ *)
(** * logic.py: what a placement turn conserves *)
(* ------------------------------------------------------------------ *)

Section LogicConservation.

Import Logic Spec.

Lemma min2_le (a b : Z) : min2 a b <= b /\ min2 a b <= a.
Proof. unfold min2. destruct (b <? a) eqn:E; lia. Qed.

Lemma naive_hours_length (a : Asset) :
  enabled a = true -> 0 <= duration_h a ->
  List.length (naive_hours a) = hours_needed a.
Proof.
  intros E D. unfold naive_hours, hours_needed. rewrite E.
  pose proof (min2_le (duration_h a) (len (window_of a))) as M.
  pose proof (len_nonneg (window_of a)) as L.
  assert (0 <= min2 (duration_h a) (len (window_of a))).
  { unfold min2. destruct (_ <? _); lia. }
  rewrite slice_prefix by assumption.
  rewrite length_firstn. unfold len in *. lia.
Qed.

Lemma chosen_length (scores : list (Z * Qc)) (a : Asset) (chosen : list Z) :
  (1 <= hours_needed a)%nat ->
  (if variable a
   then take_best scores (hours_needed a) (window_of a) []
   else best_block scores (window_of a)
          (min2 (duration_h a) (len (window_of a)))) = Some chosen ->
  List.length chosen = hours_needed a.
Proof.
  intro N1. unfold hours_needed in *.
  pose proof (min2_le (duration_h a) (len (window_of a))) as M.
  destruct (variable a); intro H.
  - apply take_best_greedy in H. destruct H as (picks & -> & G).
    apply greedy_length in G. simpl. rewrite G. unfold len in *. lia.
  - unfold best_block in H. apply bind_Some in H. destruct H as (bb & B & H).
    apply block_search_block in B; [|lia].
    destruct B as (i & Hi & Hid & ->).
    assert (D0 : 0 <= min2 (duration_h a) (len (window_of a))) by lia.
    pose proof (length_slice (window_of a) i _ Hi D0 Hid) as LS.
    destruct (slice (window_of a) i _) as [|h0 block] eqn:S;
      injection H as <-; simpl in LS |- *; lia.
Qed.

Lemma place_conserves (p w wg : Qc) (l l' : list Asset) (al al' : list Qc)
      (c c' : Qc) (i : nat) (a : Asset) :
  place p w wg (l, al, c) i = Some (l', al', c') ->
  nth_error l i = Some a -> enabled a = true -> settled a ->
  sum al' = sum al /\
  forall a', nth_error l' i = Some a' -> replaced a' ->
             List.length (after_hours a') = List.length (before_hours a').
Proof.
  intros H N E (SB & SD). apply place_inv in H. destruct H as (a0 & N0 & H).
  rewrite N in N0. injection N0 as <-.
  assert (Li : (i < List.length l)%nat) by (apply nth_error_Some; congruence).
  destruct H as [(C & -> & -> & _)|[(C & _ & -> & -> & _)|
                 (C & NE & al1 & scores & chosen & S1 & _ & S3 & S4 & ->)]].
  - split; [reflexivity|]. intros a' N' R. rewrite N in N'. injection N' as <-.
    unfold replaced in R. congruence.
  - split; [reflexivity|]. intros a' N' _.
    rewrite nth_error_update_eq in N' by assumption. now injection N' as <-.
  - assert (LB : List.length (before_hours a) = hours_needed a).
    { rewrite SB. now apply naive_hours_length. }
    assert (N1 : (1 <= hours_needed a)%nat).
    { apply orb_false_elim in C. destruct C as (_ & C).
      destruct (before_hours a); [discriminate|]. simpl in LB. lia. }
    pose proof (chosen_length _ _ _ N1 S3) as LC.
    split.
    + rewrite (for_each_iadd_sum _ _ _ _ S4), (for_each_isub_sum _ _ _ _ S1).
      unfold len. rewrite LB, LC. ring.
    + intros a' N' _. rewrite nth_error_update_eq in N' by assumption.
      injection N' as <-. simpl. congruence.
Qed.

(** A property of the asset placed at a turn, once established by its turn,
    holds at the end of the loop for every position the loop visited. *)
Lemma after_loop_visited (T : Asset -> Prop) (Inv : list Asset * list Qc * Qc -> Prop)
      (p w wg : Qc) (idxs0 : list nat) :
  (forall st j st', Inv st -> In j idxs0 -> place p w wg st j = Some st' -> Inv st') ->
  (forall st j st' a', Inv st -> In j idxs0 -> place p w wg st j = Some st' ->
      nth_error (fst (fst st')) j = Some a' -> T a') ->
  forall idxs st st',
  incl idxs idxs0 -> Inv st ->
  for_each (place p w wg) idxs st = Some st' ->
  Inv st' /\
  forall i a', In i idxs -> nth_error (fst (fst st')) i = Some a' -> T a'.
Proof.
  intros HI HT. induction idxs as [|j idxs IH]; intros st st' Incl I0 H; simpl in H.
  - injection H as <-. split; [assumption|]. intros i a' [].
  - apply bind_Some in H. destruct H as (st1 & P & H).
    assert (Ij : In j idxs0) by (apply Incl; now left).
    assert (I1 : Inv st1) by (eapply HI; eassumption).
    assert (Incl' : incl idxs idxs0) by (intros x Hx; apply Incl; now right).
    destruct (IH _ _ Incl' I1 H) as (I' & Rest). split; [assumption|].
    intros i a' [<-|Hi] N; [|eapply Rest; eassumption].
    destruct (in_dec Nat.eq_dec j idxs) as [Hj|Hj]; [eapply Rest; eassumption|].
    (* position [j] is not visited again: its asset is the one placed now *)
    assert (K : forall k, ~ In k idxs ->
                nth_error (fst (fst st')) k = nth_error (fst (fst st1)) k).
    { clear - H. revert st1 H. induction idxs as [|x idxs IHx]; intros st1 H k Nk;
        simpl in H.
      - now injection H as <-.
      - apply bind_Some in H. destruct H as (st2 & P & H).
        rewrite (IHx _ H k) by (intro; apply Nk; now right).
        destruct st1 as [[l1 al1] c1], st2 as [[l2 al2] c2].
        apply place_inv in P. destruct P as (a & _ & P). simpl.
        assert (x <> k) by (intro; apply Nk; now left).
        destruct P as [(_ & -> & _)|[(_ & _ & -> & _)|
                       (_ & _ & ? & ? & ? & _ & _ & _ & _ & ->)]];
          try reflexivity; now apply nth_error_update_neq. }
    rewrite (K j Hj) in N. exact (HT st j st1 a' I0 Ij P N).
Qed.

End LogicConservation.
(* ------------------------------------------------------------------ *)
(** * logic.py: properties of a recompute *)
(* ------------------------------------------------------------------ *)

Section LogicRun.

Import Logic Spec.

Lemma clear_after_eq (a a' : Asset) :
  clear_after a' = clear_after a -> a' = set_after_hours a (after_hours a').
Proof.
  destruct a, a'. unfold clear_after, set_after_hours. simpl.
  intro E. injection E as -> -> -> -> -> -> -> -> ->. reflexivity.
Qed.

Lemma recalculate_inv (s s' : Simulator) :
  recalculate s = Some s' ->
  exists s1 l' al' c',
    _build_before_curve s = Some s1 /\
    for_each (place (flex_participation s) (price_weight s) (1 - price_weight s)%Qc)
             (enabled_assets (map clear_after (map set_naive (assets s))))
             (map clear_after (map set_naive (assets s)), before_load s1, 0%Qc)
      = Some (l', al', c') /\
    s' = mkSimulator (scenarios s) (current_scenario s) l' (base_power s)
           (before_load s1) al' (flex_participation s) (price_weight s)
           (cost_before_cents s1) c'.
Proof.
  unfold recalculate. intro H.
  apply bind_Some in H. destruct H as (s1 & B & H).
  pose proof (build_before_inv _ _ B) as (A & _ & E1 & E2 & E3 & E4 & E5).
  unfold _build_after_curve in H.
  apply bind_Some in H. destruct H as ([[l' al'] c'] & L & H).
  injection H as <-.
  exists s1, l', al', c'. split; [exact B|].
  rewrite A, E4, E5 in L. split; [exact L|].
  now rewrite E1, E2, E3, E4, E5.
Qed.

(** Every asset of the catalog keeps everything but its hours. *)
Lemma recalculate_assets (s s' : Simulator) :
  recalculate s = Some s' ->
  map clear_after (assets s') = map clear_after (map set_naive (assets s)).
Proof.
  intro H. apply recalculate_inv in H.
  destruct H as (s1 & l' & al' & c' & _ & L & ->). simpl.
  apply after_loop_keeps in L. destruct L as (L & _).
  rewrite L. rewrite !map_map. reflexivity.
Qed.


Lemma cleared_settled (s : Simulator) (a0 : Asset) :
  (forall a, In a (assets s) -> enabled a = true -> 0 <= duration_h a) ->
  In a0 (map clear_after (map set_naive (assets s))) ->
  enabled a0 = true -> settled a0.
Proof.
  intros D I E. rewrite map_map in I. apply in_map_iff in I.
  destruct I as (a & <- & Ia). split; [reflexivity|].
  simpl in *. now apply D.
Qed.

Lemma visited_asset (s : Simulator) (l1 : list Asset) (j : nat) (a1 : Asset) :
  (forall a, In a (assets s) -> enabled a = true -> 0 <= duration_h a) ->
  map clear_after l1 = map clear_after (map clear_after (map set_naive (assets s))) ->
  In j (enabled_assets (map clear_after (map set_naive (assets s)))) ->
  nth_error l1 j = Some a1 ->
  settled a1 /\ enabled a1 = true.
Proof.
  intros D I1 Ij N1.
  apply In_enabled_assets in Ij. destruct Ij as (a0 & N0 & E0).
  destruct (map_eq_nth _ _ _ _ _ I1 N1) as (a0' & N0' & E).
  rewrite N0 in N0'. injection N0' as <-.
  apply clear_after_eq in E.
  assert (S0 : settled a0).
  { eapply cleared_settled; eauto. eapply nth_error_In; eassumption. }
  rewrite E. destruct S0. split; [split|]; assumption.
Qed.

Lemma map_eq_Forall2 {A B C : Type} (f : A -> C) (g : B -> C) (l : list A) (l2 : list B) :
  map f l = map g l2 -> Forall2 (fun a b => f a = g b) l l2.
Proof.
  revert l2. induction l as [|a l IH]; intros [|b l2] H; try discriminate;
    constructor; injection H; auto.
Qed.

Lemma build_before_run (s s1 : Simulator) :
  _build_before_curve s = Some s1 ->
  exists bl c,
    before_loop (base_load (current_scenario s)) (assets s)
      = Some (map set_naive (assets s), bl) /\
    before_cost (map set_naive (assets s)) = Some c /\
    s1 = mkSimulator (scenarios s) (current_scenario s) (map set_naive (assets s))
           (base_power s) bl (after_load s) (flex_participation s) (price_weight s)
           c (cost_after_cents s).
Proof.
  unfold _build_before_curve. intro H.
  apply bind_Some in H. destruct H as ([l' bl'] & B & H).
  apply bind_Some in H. destruct H as (c & C & H). injection H as <-.
  pose proof (before_loop_assets _ _ _ _ B) as (-> & _).
  exists bl', c. auto.
Qed.

Lemma placed_naive (a' a : Asset) :
  placed a' a ->
  naive_hours a' = naive_hours a /\ power_kw a' = power_kw a /\
  enabled a' = enabled a /\ before_hours a' = naive_hours a /\
  set_before_hours a' (naive_hours a) = a'.
Proof.
  unfold placed. intros ->. destruct a. repeat split; reflexivity.
Qed.

Lemma before_loop_rerun (l' l : list Asset) :
  Forall2 placed l' l ->
  forall bl bl1,
  before_loop bl l = Some (map set_naive l, bl1) ->
  before_loop bl l' = Some (l', bl1).
Proof.
  induction 1 as [|a' a l' l P _ IH]; intros bl bl1 H; simpl in *.
  - exact H.
  - rewrite before_place_eq in *.
    apply placed_naive in P. destruct P as (N & W & _ & _ & S).
    rewrite N, W, S.
    apply bind_Some in H. destruct H as ([a1 bl2] & Q & H).
    apply bind_Some in Q. destruct Q as (bl2' & Q & E). injection E as <- <-.
    rewrite Q. cbn [bind].
    apply bind_Some in H. destruct H as ([l1 bl3] & R & H).
    injection H as E1 E2. subst l1 bl3.
    rewrite (IH _ _ R). reflexivity.
Qed.

Lemma before_cost_rerun (l' l : list Asset) :
  Forall2 placed l' l -> before_cost l' = before_cost (map set_naive l).
Proof.
  unfold before_cost. intro F. generalize 0%Qc.
  induction F as [|a' a l' l P _ IH]; intro c; simpl.
  - reflexivity.
  - apply placed_naive in P. destruct P as (_ & W & E & B & _).
    cbn [enabled set_naive set_before_hours power_kw before_hours].
    rewrite W, E, B.
    destruct (negb (enabled a)); cbn [bind]; [apply IH|].
    destruct (for_each _ (naive_hours a) c); cbn [bind]; [apply IH|reflexivity].
Qed.

(** Rerunning the recompute on its own result changes nothing: the same
    hours are chosen again and the same curves and costs are built. *)
Lemma recalculate_rerun (s s' : Simulator) :
  recalculate s = Some s' -> recalculate s' = Some s'.
Proof.
  intro H. pose proof (recalculate_assets _ _ H) as K.
  apply recalculate_inv in H.
  destruct H as (s1 & l' & al' & c' & B & L & ->). cbn [assets] in K.
  apply build_before_run in B. destruct B as (bl & cb & B & C & ->).
  cbn [before_load cost_before_cents] in *.
  assert (P : Forall2 placed l' (assets s)).
  { rewrite map_map in K.
    apply (map_eq_Forall2 clear_after (fun a => clear_after (set_naive a))) in K.
    eapply Forall2_impl; [|exact K]. intros a' a E. now apply clear_after_eq. }
  unfold recalculate, _build_before_curve. cbn [current_scenario assets].
  rewrite (before_loop_rerun _ _ P _ _ B). cbn [bind].
  rewrite (before_cost_rerun _ _ P), C. cbn [bind].
  unfold _build_after_curve.
  cbn [assets before_load flex_participation price_weight scenarios current_scenario
       base_power cost_before_cents].
  change (map (fun a => set_after_hours a []) l') with (map clear_after l').
  rewrite K, L. reflexivity.
Qed.

(** An asset that the before pass left without hours is left without after
    hours: the placement loop skips it. *)
Lemma empty_before_empty_after (s s' : Simulator) :
  recalculate s = Some s' ->
  Forall (fun a => before_hours a = [] -> after_hours a = []) (assets s').
Proof.
  intro H. apply recalculate_inv in H.
  destruct H as (s1 & l' & al' & c' & _ & L & ->). cbn [assets].
  apply (for_each_invariant
           (fun st => Forall (fun a => before_hours a = [] -> after_hours a = [])
                             (fst (fst st))) _ _) with (s' := (l', al', c')) in L;
    auto.
  - intros [[l1 al1] c1] i [[l2 al2] c2] _ I P. cbn [fst] in *.
    apply place_inv in P. destruct P as (a & N & P).
    destruct P as [(_ & -> & _)|[(_ & _ & -> & _)|
                   (C & _ & al2' & scores & chosen & _ & _ & _ & _ & ->)]];
      [assumption| |].
    + apply Forall_update; [|assumption]. simpl. auto.
    + apply Forall_update; [|assumption]. simpl. intro B.
      rewrite B in C. simpl in C. apply orb_false_elim in C. destruct C. discriminate.
  - cbn [fst]. rewrite map_map. apply Forall_map, Forall_forall. intros a _.
    reflexivity.
Qed.

(** C7.  Recomputing with flex participation 0 leaves the after curve equal
    to the before curve, hour by hour; and on a catalog whose hour fields
    are in range (with a 24-hour base curve) the recompute does complete. *)
Theorem zero_flex_after_equals_before (s : Simulator) :
  flex_participation s = 0%Qc ->
  (Forall wf_asset (assets s) ->
   List.length (base_load (current_scenario s)) = 24%nat ->
   exists s', recalculate s = Some s') /\
  (forall s', recalculate s = Some s' -> after_load s' = before_load s').
Proof.
  intro P. split; [apply recalculate_total|].
  intros s' H. unfold recalculate in H.
  apply bind_Some in H. destruct H as (s1 & B & H).
  apply build_before_inv in B. destruct B as (_ & _ & _ & _ & _ & F & _).
  apply after_curve_zero_flex in H; [|congruence].
  destruct H. congruence.
Qed.

(** C10.  Total daily energy is conserved by a recompute, whatever the flex
    participation and the price weight: the after curve sums to what the
    before curve sums to, because every re-placed asset gets as many after
    hours as it has before hours.  Durations are not negative, as the data
    model has them. *)
Theorem energy_is_conserved (s : Simulator) :
  (forall a, In a (assets s) -> enabled a = true -> 0 <= duration_h a) ->
  (Forall wf_asset (assets s) ->
   List.length (base_load (current_scenario s)) = 24%nat ->
   exists s', recalculate s = Some s') /\
  (forall s', recalculate s = Some s' ->
     sum (after_load s') = sum (before_load s') /\
     List.length (after_load s') = List.length (before_load s') /\
     forall a', In a' (assets s') -> enabled a' = true -> replaced a' ->
       List.length (after_hours a') = List.length (before_hours a')).
Proof.
  intro D. split; [apply recalculate_total|].
  intros s' H. apply recalculate_inv in H.
  destruct H as (s1 & l' & al' & c' & _ & L & ->). cbn [after_load before_load assets].
  set (l0 := map clear_after (map set_naive (assets s))) in *.
  pose proof (after_loop_keeps _ _ _ _ _ _ _ _ _ _ L) as (K & LEN).
  destruct (after_loop_visited
              (fun a' => replaced a' ->
                         List.length (after_hours a') = List.length (before_hours a'))
              (fun st => map clear_after (fst (fst st)) = map clear_after l0 /\
                         sum (snd (fst st)) = sum (before_load s1))
              (flex_participation s) (price_weight s) (1 - price_weight s)%Qc
              (enabled_assets l0)) with (idxs := enabled_assets l0)
              (st := (l0, before_load s1, 0%Qc)) (st' := (l', al', c'))
    as ((_ & SUM) & VIS).
  - (* the invariant is kept *)
    intros [[l1 al1] c1] j [[l2 al2] c2] (I1 & I2) Ij P. cbn [fst snd] in *.
    pose proof (place_keeps _ _ _ _ _ _ _ _ _ _ P) as (K1 & _).
    split; [congruence|].
    pose proof (place_inv _ _ _ _ _ _ _ _ _ _ P) as (a1 & N1 & _).
    destruct (visited_asset s l1 j a1 D I1 Ij N1) as (S1 & E1).
    destruct (place_conserves _ _ _ _ _ _ _ _ _ _ _ P N1 E1 S1) as (SM & _).
    congruence.
  - (* the turn of an asset gives it as many hours as it had *)
    intros [[l1 al1] c1] j [[l2 al2] c2] a' (I1 & I2) Ij P N'. cbn [fst snd] in *.
    pose proof (place_inv _ _ _ _ _ _ _ _ _ _ P) as (a1 & N1 & _).
    destruct (visited_asset s l1 j a1 D I1 Ij N1) as (S1 & E1).
    destruct (place_conserves _ _ _ _ _ _ _ _ _ _ _ P N1 E1 S1) as (_ & Q).
    exact (Q a' N').
  - apply incl_refl.
  - split; reflexivity.
  - exact L.
  - cbn [fst snd] in *. split; [exact SUM|]. split; [exact LEN|].
    intros a' Ia E R. apply In_nth_error in Ia. destruct Ia as (i & Ni).
    refine (VIS i a' _ Ni R).
    apply In_enabled_assets.
    destruct (map_eq_nth _ _ _ _ _ K Ni) as (a0 & N0 & E0).
    exists a0. split; [exact N0|].
    apply (f_equal enabled) in E0. simpl in E0. congruence.
Qed.

End LogicRun.

(* ------------------------------------------------------------------ *)
(** * logic.py: the before curve *)
(* ------------------------------------------------------------------ *)

Section LogicBeforeCurve.

Import Logic Spec.

Lemma NoDup_skipn {A : Type} (n : nat) (l : list A) : NoDup l -> NoDup (skipn n l).
Proof.
  revert n. induction l as [|x l IH]; intros [|n] H; simpl; auto.
  inversion H; subst. auto.
Qed.

Lemma NoDup_slice {A : Type} (l : list A) (i j : Z) : NoDup l -> NoDup (slice l i j).
Proof. intro H. unfold slice. now apply NoDup_firstn, NoDup_skipn. Qed.

Lemma naive_hours_NoDup (a : Asset) : wf_asset a -> NoDup (naive_hours a).
Proof.
  intros (Hs & He). unfold naive_hours. destruct (enabled a); [|constructor].
  apply NoDup_slice. apply window_NoDup.
Qed.

Lemma naive_load_cons (a : Asset) (l : list Asset) (h : Z) :
  naive_load (a :: l) h =
  ((if draws_at h a then power_kw a else 0) + naive_load l h)%Qc.
Proof.
  unfold naive_load. simpl. destruct (draws_at h a); simpl.
  - apply sum_cons.
  - ring.
Qed.

Lemma before_loop_load (l : list Asset) :
  Forall wf_asset l ->
  forall bl l' bl', List.length bl = 24%nat ->
  before_loop bl l = Some (l', bl') ->
  forall k, nth k bl' 0%Qc = (nth k bl 0 + naive_load l' (Z.of_nat k))%Qc.
Proof.
  induction 1 as [|a l Ha _ IH]; intros bl l' bl' L H k; simpl in H.
  - injection H as <- <-. unfold naive_load. simpl. unfold sum. simpl. ring.
  - rewrite before_place_eq in H.
    apply bind_Some in H. destruct H as ([a1 bl1] & P & H).
    apply bind_Some in P. destruct P as (bl1' & P & E). injection E as <- <-.
    apply bind_Some in H. destruct H as ([l1 bl2] & R & H).
    injection H as <- <-.
    pose proof (for_each_iadd_length _ _ _ _ P) as L1.
    rewrite (IH bl1' l1 bl2) by (congruence || assumption).
    assert (F : Forall (fun h => 0 <= h < len bl) (naive_hours a)).
    { eapply Forall_impl; [|exact (naive_hours_in_day a Ha)].
      unfold hour_in_day, len. intros. lia. }
    rewrite (for_each_iadd_nth _ _ _ _ k (naive_hours_NoDup a Ha) F P).
    rewrite naive_load_cons. unfold draws_at. cbn [before_hours set_before_hours].
    destruct (existsb _ _); cbn [power_kw set_before_hours]; ring.
Qed.


Lemma naive_load_clear_after (l : list Asset) (h : Z) :
  naive_load (map clear_after l) h = naive_load l h.
Proof.
  unfold naive_load. induction l as [|a l IH]; [reflexivity|]. simpl.
  change (draws_at h (clear_after a)) with (draws_at h a).
  destruct (draws_at h a); simpl; rewrite ?sum_cons; simpl in IH; now rewrite ?IH.
Qed.

Lemma min2_min (a b : Z) : min2 a b = Z.min a b.
Proof. unfold min2. destruct (b <? a) eqn:E; lia. Qed.

(** C4.  After a recompute, an enabled asset with a duration of at least one
    hour has as its before hours exactly the first [min(duration_h,
    len(window))] hours of its window, in window order (so 6 hours for a
    duration of 10 in a 6-hour window); and on a catalog with hour fields in
    range the before curve at each hour is the base curve plus the full rated
    power of every asset whose before hours contain that hour. *)
Theorem before_hours_are_window_prefix (s : Simulator) :
  (forall s', recalculate s = Some s' ->
     forall i a, nth_error (assets s) i = Some a ->
     enabled a = true -> 1 <= duration_h a ->
     exists a',
       nth_error (assets s') i = Some a' /\
       power_kw a' = power_kw a /\
       before_hours a' =
         firstn (Z.to_nat (Z.min (duration_h a) (len (window_of a)))) (window_of a) /\
       (duration_h a = 10 -> len (window_of a) = 6 ->
        List.length (before_hours a') = 6%nat)) /\
  (Forall wf_asset (assets s) ->
   List.length (base_load (current_scenario s)) = 24%nat ->
   exists s', recalculate s = Some s' /\
     forall h, 0 <= h < 24 ->
       getitem (before_load s') h =
       Some (nth (Z.to_nat h) (base_load (current_scenario s)) 0
             + naive_load (assets s') h)%Qc).
Proof.
  split.
  - intros s' H i a N E D.
    pose proof (recalculate_assets _ _ H) as K.
    assert (LEN : List.length (assets s') = List.length (assets s)).
    { apply (f_equal (@List.length _)) in K. now rewrite !length_map in K. }
    destruct (nth_error (assets s') i) as [a'|] eqn:N'.
    2:{ apply nth_error_None in N'.
        assert (i < List.length (assets s))%nat by (apply nth_error_Some; congruence).
        lia. }
    destruct (map_eq_nth _ _ _ _ _ K N') as (a0 & N0 & N1).
    rewrite nth_error_map, N in N0. cbn [option_map] in N0. injection N0 as <-.
    apply clear_after_eq in N1.
    exists a'. split; [reflexivity|].
    assert (B : before_hours a' =
                firstn (Z.to_nat (Z.min (duration_h a) (len (window_of a))))
                       (window_of a)).
    { rewrite N1. cbn [before_hours set_after_hours set_naive set_before_hours].
      unfold naive_hours. rewrite E, min2_min.
      pose proof (len_nonneg (window_of a)).
      rewrite slice_prefix by lia. f_equal. lia. }
    split; [now rewrite N1|]. split; [exact B|].
    intros D10 W6. rewrite B, length_firstn, D10, W6.
    unfold len in W6. lia.
  - intros W L. destruct (recalculate_total s W L) as (s' & H).
    exists s'. split; [exact H|]. intros h Hh.
    pose proof (recalculate_assets _ _ H) as K.
    apply recalculate_inv in H.
    destruct H as (s1 & l' & al' & c' & B & _ & ->). cbn [before_load assets] in *.
    unfold _build_before_curve in B.
    apply bind_Some in B. destruct B as ([l1 bl1] & BL & B).
    apply bind_Some in B. destruct B as (c1 & _ & B). injection B as <-.
    cbn [before_load].
    pose proof (before_loop_assets _ _ _ _ BL) as (-> & L1).
    pose proof (before_loop_load _ W _ _ _ L BL (Z.to_nat h)) as F.
    rewrite Z2Nat.id in F by lia.
    rewrite <- naive_load_clear_after, K, naive_load_clear_after, <- F.
    unfold getitem. rewrite index_nonneg by (unfold len; lia). cbn [bind].
    apply nth_error_nth'. lia.
Qed.

End LogicBeforeCurve.

(* ------------------------------------------------------------------ *)
(** * logic.py: the greedy placement of variable assets *)
(* ------------------------------------------------------------------ *)

Section LogicGreedy.

Import Logic Spec.

(** The first hour of minimal score splits a pool in one way only. *)
Lemma first_min_unique (score : Z -> option Qc) (e1 e2 : list Z) :
  forall (b1 b2 : Z) (l1 l2 : list Z) (v1 v2 : Qc),
  e1 ++ b1 :: l1 = e2 ++ b2 :: l2 ->
  score b1 = Some v1 -> score b2 = Some v2 ->
  (forall h, In h e1 -> exists v, score h = Some v /\ (v1 < v)%Qc) ->
  (forall h, In h l1 -> exists v, score h = Some v /\ (v1 <= v)%Qc) ->
  (forall h, In h e2 -> exists v, score h = Some v /\ (v2 < v)%Qc) ->
  (forall h, In h l2 -> exists v, score h = Some v /\ (v2 <= v)%Qc) ->
  e1 = e2 /\ b1 = b2 /\ l1 = l2.
Proof.
  revert e2. induction e1 as [|x e1 IH]; intros [|y e2] b1 b2 l1 l2 v1 v2 E S1 S2
    B1 A1 B2 A2; simpl in E.
  - injection E as -> ->. auto.
  - injection E as -> ->.
    destruct (B2 y (or_introl eq_refl)) as (v & Sv & Lt).
    destruct (A1 b2) as (v' & Sv' & Le); [apply in_app_iff; right; now left|].
    rewrite S1 in Sv. injection Sv as <-. rewrite S2 in Sv'. injection Sv' as <-.
    exfalso. exact (Qclt_not_le _ _ Lt Le).
  - injection E as -> <-.
    destruct (B1 b2 (or_introl eq_refl)) as (v & Sv & Lt).
    destruct (A2 b1) as (v' & Sv' & Le); [apply in_app_iff; right; now left|].
    rewrite S2 in Sv. injection Sv as <-. rewrite S1 in Sv'. injection Sv' as <-.
    exfalso. exact (Qclt_not_le _ _ Lt Le).
  - assert (Ex : x = y) by congruence.
    assert (Et : e1 ++ b1 :: l1 = e2 ++ b2 :: l2) by congruence. subst y.
    destruct (IH e2 b1 b2 l1 l2 v1 v2 Et S1 S2) as (-> & -> & ->); auto.
    + intros h Hh. apply B1. now right.
    + intros h Hh. apply B2. now right.
Qed.

Lemma greedy_unique (score : Z -> option Qc) (n : nat) (pool p1 p2 : list Z) :
  greedy score n pool p1 -> greedy score n pool p2 -> p1 = p2.
Proof.
  intro G1. revert p2. induction G1 as [pool|n e1 b1 l1 picks v1 S1 B1 A1 G1 IH];
    intros p2 G2.
  - inversion G2. reflexivity.
  - inversion G2 as [|n' e2 b2 l2 picks2 v2 S2 B2 A2 G2' En Ep Epk]. subst.
    destruct (first_min_unique score e2 e1 b2 b1 l2 l1 v2 v1 Ep S2 S1 B2 A2 B1 A1)
      as (-> & -> & ->).
    f_equal. apply IH. exact G2'.
Qed.

Lemma hours_needed_le (a : Asset) : (hours_needed a <= List.length (window_of a))%nat.
Proof.
  unfold hours_needed. pose proof (min2_le (duration_h a) (len (window_of a))).
  unfold len in *. lia.
Qed.

Lemma replaced_iff (a : Asset) :
  replaced a <-> (0 < power_kw a)%Qc /\ before_hours a <> [].
Proof.
  unfold replaced. rewrite orb_false_iff, leb_gt. split; intros (P & B); split; auto.
  - destruct (before_hours a); [discriminate|discriminate].
  - destruct (before_hours a); [contradiction|reflexivity].
Qed.

(** The turn of a variable asset. *)
Lemma place_variable (p w wg : Qc) (l l' : list Asset) (al al' : list Qc) (c c' : Qc)
      (i : nat) (a : Asset) :
  nth_error l i = Some a ->
  variable a = true -> replaced a -> window_of a <> [] ->
  place p w wg (l, al, c) i = Some (l', al', c') ->
  exists al1 scores chosen,
    for_each (fun al h => isub al h (power_kw a * p)%Qc) (before_hours a) al
      = Some al1 /\
    score_hours al1 wg w (window_of a) = Some scores /\
    for_each (fun al h => iadd al h (power_kw a * p)%Qc) chosen al1 = Some al' /\
    nth_error l' i = Some (set_after_hours a chosen) /\
    List.length chosen = hours_needed a /\
    greedy (scores_of scores) (hours_needed a) (window_of a) chosen.
Proof.
  intros N V R NE H. apply place_inv in H. destruct H as (a0 & N0 & H).
  rewrite N in N0. injection N0 as <-. unfold replaced in R.
  destruct H as [(C & _)|[(_ & W & _)|
                 (_ & _ & al1 & scores & chosen & S1 & S2 & S3 & S4 & ->)]];
    [congruence|contradiction|].
  rewrite V in S3. apply take_best_greedy in S3. destruct S3 as (picks & -> & G).
  fold (hours_needed a) in G.
  rewrite Nat.min_l in G by apply hours_needed_le.
  exists al1, scores, picks. cbn [app] in *.
  repeat split; auto.
  - apply nth_error_update_eq. apply nth_error_Some. congruence.
  - eapply greedy_length; eassumption.
Qed.


(** C1.  A variable asset with positive power and some before hours is
    placed by greedy selection: at its turn ([place]) the scores are those of
    the after curve with its participating power removed, and the chosen
    hours are exactly [min(duration_h, len(window))] hours of its window,
    each the first hour of minimal score among the window hours not chosen
    yet; after a whole recompute the asset's [after_hours] are such a
    selection; the selection is determined: two greedy selections from
    the same pool under the same scores are equal; and rerunning the
    recompute on its result reproduces that result, the chosen hours
    included. *)
Theorem variable_assets_are_placed_greedily :
  (forall p w wg l l' al al' c c' i a,
     nth_error l i = Some a -> variable a = true ->
     (0 < power_kw a)%Qc -> before_hours a <> [] -> window_of a <> [] ->
     place p w wg (l, al, c) i = Some (l', al', c') ->
     exists al1 scores chosen,
       for_each (fun al h => isub al h (power_kw a * p)%Qc) (before_hours a) al
         = Some al1 /\
       score_hours al1 wg w (window_of a) = Some scores /\
       for_each (fun al h => iadd al h (power_kw a * p)%Qc) chosen al1 = Some al' /\
       nth_error l' i = Some (set_after_hours a chosen) /\
       List.length chosen = hours_needed a /\
       greedy (scores_of scores) (hours_needed a) (window_of a) chosen) /\
  (forall s s' a',
     recalculate s = Some s' -> In a' (assets s') ->
     enabled a' = true -> variable a' = true ->
     (0 < power_kw a')%Qc -> before_hours a' <> [] ->
     exists al1 scores,
       score_hours al1 (1 - price_weight s)%Qc (price_weight s) (window_of a')
         = Some scores /\
       List.length (after_hours a') = hours_needed a' /\
       greedy (scores_of scores) (hours_needed a') (window_of a') (after_hours a')) /\
  (forall score n pool picks1 picks2,
     greedy score n pool picks1 -> greedy score n pool picks2 -> picks1 = picks2) /\
  (forall s s', recalculate s = Some s' -> recalculate s' = Some s').
Proof.
  split; [|split; [|split; [|exact recalculate_rerun]]].
  - intros p w wg l l' al al' c c' i a N V P B NE H.
    eapply place_variable; eauto. apply replaced_iff. auto.
  - intros s s' a' H Ia E V P B.
    pose proof (recalculate_assets _ _ H) as K.
    apply recalculate_inv in H.
    destruct H as (s1 & l' & al' & c' & _ & L & ->). cbn [assets] in *.
    set (l0 := map clear_after (map set_naive (assets s))) in *.
    destruct (after_loop_visited
                (fun a' => variable a' = true -> replaced a' -> window_of a' <> [] ->
                   exists al1 scores,
                     score_hours al1 (1 - price_weight s)%Qc (price_weight s)
                       (window_of a') = Some scores /\
                     List.length (after_hours a') = hours_needed a' /\
                     greedy (scores_of scores) (hours_needed a') (window_of a')
                       (after_hours a'))
                (fun _ => True)
                (flex_participation s) (price_weight s) (1 - price_weight s)%Qc
                (enabled_assets l0)) with (idxs := enabled_assets l0)
                (st := (l0, before_load s1, 0%Qc)) (st' := (l', al', c'))
      as (_ & VIS); auto.
    + intros [[l1 al1] c1] j [[l2 al2] c2] a2 _ Ij Pl N2 V2 R2 W2. cbn [fst snd] in *.
      pose proof (place_inv _ _ _ _ _ _ _ _ _ _ Pl) as (a1 & N1 & _).
      pose proof (place_keeps _ _ _ _ _ _ _ _ _ _ Pl) as (K1 & _).
      destruct (map_eq_nth _ _ _ _ _ K1 N2) as (a1' & N1' & E1).
      rewrite N1 in N1'. injection N1' as <-.
      apply clear_after_eq in E1.
      assert (V1 : variable a1 = true) by (rewrite E1 in V2; exact V2).
      assert (R1 : replaced a1) by (rewrite E1 in R2; exact R2).
      assert (W1 : window_of a1 <> []) by (rewrite E1 in W2; exact W2).
      destruct (place_variable _ _ _ _ _ _ _ _ _ _ _ N1 V1 R1 W1 Pl)
        as (al1' & scores & chosen & _ & S2 & _ & N2' & LC & G).
      rewrite N2 in N2'. injection N2' as ->.
      exists al1', scores. auto.
    + apply incl_refl.
    + cbn [fst snd] in VIS.
      apply In_nth_error in Ia. destruct Ia as (i & Ni).
      destruct (map_eq_nth _ _ _ _ _ K Ni) as (a0 & N0 & E0).
      rewrite nth_error_map in N0.
      destruct (nth_error (assets s) i) as [a|] eqn:Na; [|discriminate].
      cbn [option_map] in N0. injection N0 as <-.
      apply clear_after_eq in E0.
      apply (VIS i a'); auto.
      * apply In_enabled_assets. exists (clear_after (set_naive a)). split.
        -- unfold l0. now rewrite !nth_error_map, Na.
        -- rewrite E0 in E. exact E.
      * apply replaced_iff. auto.
      * intro W. apply B. rewrite E0.
        cbn [before_hours set_after_hours set_naive set_before_hours].
        rewrite E0 in W. change (window_of a = []) in W.
        unfold naive_hours. rewrite W. destruct (enabled a); [apply slice_nil|reflexivity].
  - intros. eapply greedy_unique; eassumption.
Qed.

End LogicGreedy.

(* ------------------------------------------------------------------ *)
(** * The statistics *)
(* ------------------------------------------------------------------ *)

Section Stats.

Import Logic Spec.

Lemma pct_of_guarded (num den : Qc) : pct_of num den = Some (guarded_pct num den).
Proof.
  unfold pct_of, guarded_pct. destruct (ltb 0%Qc den) eqn:E; [|reflexivity].
  apply ltb_lt in E. unfold div. rewrite Qc_eq_bool_false; [reflexivity|].
  intro Z0. rewrite Z0 in E. exact (Qclt_not_eq _ _ E eq_refl).
Qed.

Lemma max_total (l : list Qc) : l <> [] -> exists m, Py.max l = Some m.
Proof. destruct l; [contradiction|]. intros _. simpl. now eexists. Qed.

Lemma co2_loop_total (bl al co2 : list Qc) :
  List.length bl = 24%nat -> List.length al = 24%nat -> List.length co2 = 24%nat ->
  exists b a, for_each (co2_step bl al co2) (range 0 NUM_HOURS) (0%Qc, 0%Qc)
              = Some (b, a).
Proof.
  intros Lb La Lc.
  destruct (for_each_total (fun _ => True) (co2_step bl al co2) (range 0 NUM_HOURS))
    with (s := (0%Qc, 0%Qc)) as ([b a] & H & _); [|exact I|now exists b, a].
  intros [x y] h Hh _. apply in_range in Hh. unfold NUM_HOURS in Hh.
  unfold co2_step.
  destruct (getitem_total bl h) as (v1 & ->); [unfold len; lia|].
  destruct (getitem_total co2 h) as (v2 & ->); [unfold len; lia|].
  destruct (getitem_total al h) as (v3 & ->); [unfold len; lia|].
  cbn [bind]. eexists. split; [reflexivity|exact I].
Qed.

Lemma compute_stats_completes (s : Simulator) :
  List.length (before_load s) = 24%nat ->
  List.length (after_load s) = 24%nat ->
  List.length (co2_per_hour (current_scenario s)) = 24%nat ->
  exists st pb pa co2b co2a,
    compute_stats s = Some st /\
    Py.max (before_load s) = Some pb /\ Py.max (after_load s) = Some pa /\
    for_each (co2_step (before_load s) (after_load s)
                (co2_per_hour (current_scenario s)))
             (range 0 NUM_HOURS) (0%Qc, 0%Qc) = Some (co2b, co2a) /\
    stats_as_specified st pb pa (cost_before_cents s) (cost_after_cents s)
                       co2b co2a.
Proof.
  intros Lb La Lc.
  destruct (max_total (before_load s)) as (pb & Mb).
  { intro E. rewrite E in Lb. discriminate. }
  destruct (max_total (after_load s)) as (pa & Ma).
  { intro E. rewrite E in La. discriminate. }
  destruct (co2_loop_total _ _ _ Lb La Lc) as (co2b & co2a & C).
  unfold compute_stats. rewrite Mb, Ma. cbn [bind]. rewrite !pct_of_guarded.
  cbn [bind]. rewrite C. cbn [bind]. rewrite pct_of_guarded. cbn [bind].
  eexists. exists pb, pa, co2b, co2a.
  split; [reflexivity|]. repeat (split; [reflexivity|]).
  unfold stats_as_specified. cbn [peak_before peak_after peak_reduction
    peak_reduction_pct cost_before_eur cost_after_eur cost_saving_eur
    cost_saving_pct co2_saving_day co2_saving_pct co2_saving_year].
  repeat split.
Qed.

Lemma update_stats_completes (g : SmartLDS.Globals) :
  List.length (SmartLDS.before_load g) = 24%nat ->
  List.length (SmartLDS.after_load g) = 24%nat ->
  List.length (SmartLDS.CO2_PER_HOUR g) = 24%nat ->
  exists st pb pa co2b co2a,
    SmartLDS.update_stats_and_graph g = Some st /\
    Py.max (SmartLDS.before_load g) = Some pb /\
    Py.max (SmartLDS.after_load g) = Some pa /\
    for_each (co2_step (SmartLDS.before_load g) (SmartLDS.after_load g)
                (SmartLDS.CO2_PER_HOUR g))
             (range 0 NUM_HOURS) (0%Qc, 0%Qc) = Some (co2b, co2a) /\
    stats_as_specified st pb pa (SmartLDS.cost_before_flex g)
                       (SmartLDS.cost_after_flex g) co2b co2a.
Proof.
  intros Lb La Lc.
  destruct (max_total (SmartLDS.before_load g)) as (pb & Mb).
  { intro E. rewrite E in Lb. discriminate. }
  destruct (max_total (SmartLDS.after_load g)) as (pa & Ma).
  { intro E. rewrite E in La. discriminate. }
  destruct (co2_loop_total _ _ _ Lb La Lc) as (co2b & co2a & C).
  unfold SmartLDS.update_stats_and_graph. rewrite Mb, Ma. cbn [bind].
  rewrite !pct_of_guarded. cbn [bind].
  change SmartLDS.NUM_HOURS with NUM_HOURS.
  rewrite C. cbn [bind]. rewrite pct_of_guarded. cbn [bind].
  eexists. exists pb, pa, co2b, co2a.
  split; [reflexivity|]. repeat (split; [reflexivity|]).
  unfold stats_as_specified. cbn [peak_before peak_after peak_reduction
    peak_reduction_pct cost_before_eur cost_after_eur cost_saving_eur
    cost_saving_pct co2_saving_day co2_saving_pct co2_saving_year].
  repeat split.
Qed.

(** C9.  [compute_stats], and the same computation in
    [update_stats_and_graph], complete on 24-hour curves whatever the curves
    and the cost accumulators, so no division by zero is ever attempted: each
    percentage is the ratio times 100 when its denominator is strictly
    positive and 0 otherwise, and the absolute reduction and savings are
    plain differences, whatever the denominators. *)
Theorem compute_stats_never_divides_by_zero :
  (forall s : Simulator,
     List.length (before_load s) = 24%nat ->
     List.length (after_load s) = 24%nat ->
     List.length (co2_per_hour (current_scenario s)) = 24%nat ->
     exists st pb pa co2b co2a,
       compute_stats s = Some st /\
       Py.max (before_load s) = Some pb /\ Py.max (after_load s) = Some pa /\
       for_each (co2_step (before_load s) (after_load s)
                   (co2_per_hour (current_scenario s)))
                (range 0 NUM_HOURS) (0%Qc, 0%Qc) = Some (co2b, co2a) /\
       stats_as_specified st pb pa (cost_before_cents s) (cost_after_cents s)
                          co2b co2a) /\
  (forall g : SmartLDS.Globals,
     List.length (SmartLDS.before_load g) = 24%nat ->
     List.length (SmartLDS.after_load g) = 24%nat ->
     List.length (SmartLDS.CO2_PER_HOUR g) = 24%nat ->
     exists st pb pa co2b co2a,
       SmartLDS.update_stats_and_graph g = Some st /\
       Py.max (SmartLDS.before_load g) = Some pb /\
       Py.max (SmartLDS.after_load g) = Some pa /\
       for_each (co2_step (SmartLDS.before_load g) (SmartLDS.after_load g)
                   (SmartLDS.CO2_PER_HOUR g))
                (range 0 NUM_HOURS) (0%Qc, 0%Qc) = Some (co2b, co2a) /\
       stats_as_specified st pb pa (SmartLDS.cost_before_flex g)
                          (SmartLDS.cost_after_flex g) co2b co2a) /\
  (forall num den, pct_of num den = Some (guarded_pct num den)) /\
  (forall num den, ~ (0 < den)%Qc -> guarded_pct num den = 0%Qc) /\
  (forall num den, (0 < den)%Qc ->
     guarded_pct num den = (num / den * lit 100 1)%Qc).
Proof.
  split; [exact compute_stats_completes|].
  split; [exact update_stats_completes|].
  split; [exact pct_of_guarded|]. split.
  - intros num den N. unfold guarded_pct.
    destruct (ltb 0%Qc den) eqn:E; [|reflexivity].
    apply ltb_lt in E. contradiction.
  - intros num den P. unfold guarded_pct. apply ltb_lt in P. now rewrite P.
Qed.

End Stats.


(* ------------------------------------------------------------------ *)
(** * SmartLDS: the recompute completes, and what it reads and writes *)
(* ------------------------------------------------------------------ *)

Section LDSPasses.

Import SmartLDS SpecLDS.
Import Spec (hour_in_day).

Lemma clamp_bounds (v lo hi : Z) : lo <= hi -> lo <= clamp v lo hi <= hi.
Proof. unfold clamp, max2, min2. intro H. destruct (v <? hi) eqn:E1;
  destruct (lo <? _) eqn:E2; lia. Qed.

Lemma lds_window_eq (s e : Z) : get_window_hours s e = Logic.get_window_hours s e.
Proof. reflexivity. Qed.

Lemma sh_bounds (a : Asset) : 0 <= sh_of a <= 23.
Proof. unfold sh_of, NUM_HOURS. apply clamp_bounds. lia. Qed.

Lemma eh_bounds (a : Asset) : 0 <= eh_of a <= 24.
Proof. unfold eh_of, NUM_HOURS. apply clamp_bounds. lia. Qed.

Lemma lds_window_in_day (a : Asset) (h : Z) : In h (window_of a) -> hour_in_day h.
Proof.
  unfold window_of. rewrite lds_window_eq.
  apply window_in_range; [apply sh_bounds|apply eh_bounds].
Qed.

Lemma lds_window_len (a : Asset) : 1 <= len (window_of a) <= 24.
Proof.
  unfold window_of. rewrite lds_window_eq.
  apply window_len; [apply sh_bounds|apply eh_bounds].
Qed.

Lemma lds_window_nonempty (a : Asset) : Logic.is_nil (window_of a) = false.
Proof.
  pose proof (lds_window_len a) as L. destruct (window_of a); [|reflexivity].
  unfold len in L. simpl in L. lia.
Qed.

Lemma lds_duration_bounds (a : Asset) : 1 <= duration_of a <= len (window_of a).
Proof.
  unfold duration_of. apply clamp_bounds. pose proof (lds_window_len a). lia.
Qed.

Lemma lds_naive_in_day (a : Asset) : Forall hour_in_day (naive_hours a).
Proof.
  apply Forall_forall. intros h Hh. unfold naive_hours in Hh.
  destruct (_ && _ && _); [|contradiction].
  apply slice_incl in Hh. eapply lds_window_in_day; eassumption.
Qed.

Lemma set_before_same (a : Asset) :
  before_hours a = [] -> set_before_hours a [] = a.
Proof. destruct a. simpl. intros ->. reflexivity. Qed.

Lemma lds_before_place_eq (bl : list Qc) (a : Asset) :
  before_hours a = [] ->
  before_place bl a =
  (bl' <- for_each (fun bl h => iadd bl h (power_kW a)) (naive_hours a) bl ;;
   Some (set_naive a, bl')).
Proof.
  intro B. unfold before_place, set_naive, naive_hours.
  fold (sh_of a) (eh_of a). fold (window_of a). fold (duration_of a).
  rewrite lds_window_nonempty.
  destruct (enabled a); cbn [negb andb bind for_each];
    [|now rewrite set_before_same].
  destruct (sh_of a =? eh_of a); cbn [negb andb bind for_each];
    [now rewrite set_before_same|].
  destruct (leb (power_kW a) 0%Qc); cbn [negb andb bind for_each];
    [now rewrite set_before_same|].
  reflexivity.
Qed.

Lemma lds_before_loop_total (l : list Asset) :
  Forall (fun a => before_hours a = []) l ->
  forall bl, List.length bl = 24%nat ->
  exists bl', before_loop bl l = Some (map set_naive l, bl') /\
              List.length bl' = 24%nat.
Proof.
  induction 1 as [|a l Ha _ IH]; intros bl L; simpl.
  - now exists bl.
  - rewrite lds_before_place_eq by assumption.
    destruct (for_each_iadd_total (power_kW a) (naive_hours a) bl) as (bl1 & P).
    { eapply Forall_impl; [|exact (lds_naive_in_day a)].
      unfold hour_in_day, len. intros. lia. }
    rewrite P. cbn [bind].
    pose proof (for_each_iadd_length _ _ _ _ P) as L1.
    destruct (IH bl1) as (bl2 & -> & L2); [congruence|].
    cbn [bind]. now exists bl2.
Qed.

Lemma lds_before_cost_total (l : list Asset) :
  Forall (fun a => Forall hour_in_day (before_hours a)) l ->
  exists c, before_cost l = Some c.
Proof.
  intro F. rewrite Forall_forall in F. unfold before_cost.
  destruct (for_each_total (fun _ => True)
     (fun cost asset =>
       if negb (enabled asset) then Some cost
       else for_each (Logic.add_cost (power_kW asset)) (before_hours asset) cost) l)
    with (s := 0%Qc) as (c & H & _); [|exact I|now exists c].
  intros c a Ha _. destruct (negb (enabled a)); [now exists c|].
  destruct (add_cost_total (power_kW a) (before_hours a) c (F a Ha)) as (c' & H).
  exists c'. split; [exact H|exact I].
Qed.

Lemma lds_after_cost_total (p : Qc) (l : list Asset) :
  Forall hours_in_day l -> exists c, after_cost p l = Some c.
Proof.
  intro F. rewrite Forall_forall in F. unfold after_cost.
  destruct (for_each_total (fun _ => True)
     (fun cost asset =>
       if negb (enabled asset) then Some cost
       else
         let power_full := power_kW asset in
         let participating_power := (power_full * p)%Qc in
         let remaining_power := (power_full * (1 - p))%Qc in
         cost <- for_each (Logic.add_cost remaining_power) (before_hours asset) cost ;;
         for_each (Logic.add_cost participating_power) (after_hours asset) cost) l)
    with (s := 0%Qc) as (c & H & _); [|exact I|now exists c].
  intros c a Ha _. destruct (negb (enabled a)); [now exists c|].
  destruct (F a Ha) as (Fb & Fa). cbv zeta.
  destruct (add_cost_total (power_kW a * (1 - p))%Qc (before_hours a) c Fb)
    as (c1 & ->).
  cbn [bind].
  destruct (add_cost_total (power_kW a * p)%Qc (after_hours a) c1 Fa) as (c2 & H).
  exists c2. split; [exact H|exact I].
Qed.


(** What one turn of the placement loop does to the dict at position [i]. *)
Lemma lds_place_inv (p w wg : Qc) (l l' : list Asset) (al al' : list Qc) (i : nat) :
  place p w wg (l, al) i = Some (l', al') ->
  exists a, nth_error l i = Some a /\
  ((leb (power_kW a) 0%Qc = true /\ l' = l /\ al' = al) \/
   (leb (power_kW a) 0%Qc = false /\
    (leb p 0%Qc || Logic.is_nil (before_hours a) = true \/ sh_of a = eh_of a) /\
    l' = update i (set_after_hours a (before_hours a)) l /\ al' = al) \/
   (leb (power_kW a) 0%Qc = false /\
    leb p 0%Qc || Logic.is_nil (before_hours a) = false /\
    sh_of a <> eh_of a /\
    exists al1 scores chosen,
      for_each (fun al h => isub al h (power_kW a * p)%Qc) (before_hours a) al
        = Some al1 /\
      Logic.score_hours al1 wg w (window_of a) = Some scores /\
      (if variable a
       then Logic.take_best scores (Z.to_nat (duration_of a)) (window_of a) []
       else
         best_block <- Logic.block_search scores (window_of a) (duration_of a) ;;
         match best_block with
         | Some block => Some block
         | None => Some []
         end) = Some chosen /\
      for_each (fun al h => iadd al h (power_kW a * p)%Qc) chosen al1 = Some al' /\
      l' = update i (set_after_hours a chosen) l)).
Proof.
  unfold place. intro H.
  apply bind_Some in H. destruct H as (a & N & H). exists a. split; [exact N|].
  fold (sh_of a) (eh_of a) in H. fold (window_of a) in H. fold (duration_of a) in H.
  rewrite lds_window_nonempty in H.
  destruct (leb (power_kW a) 0%Qc) eqn:E0.
  { injection H as <- <-. left. auto. }
  right.
  destruct (leb p 0%Qc || Logic.is_nil (before_hours a)) eqn:E1.
  { injection H as <- <-. left. auto. }
  destruct (sh_of a =? eh_of a) eqn:E2.
  { injection H as <- <-. left. apply Z.eqb_eq in E2. auto. }
  right. apply Z.eqb_neq in E2.
  apply bind_Some in H. destruct H as (al1 & S1 & H).
  apply bind_Some in H. destruct H as (scores & S2 & H).
  apply bind_Some in H. destruct H as (chosen & S3 & H).
  apply bind_Some in H. destruct H as (al2 & S4 & H).
  injection H as <- <-.
  repeat (split; [auto; fail|]).
  exists al1, scores, chosen. auto.
Qed.

Lemma lds_chosen_in_window (scores : list (Z * Qc)) (a : Asset) (chosen : list Z) :
  (if variable a
   then Logic.take_best scores (Z.to_nat (duration_of a)) (window_of a) []
   else
     best_block <- Logic.block_search scores (window_of a) (duration_of a) ;;
     match best_block with
     | Some block => Some block
     | None => Some []
     end) = Some chosen ->
  forall h, In h chosen -> In h (window_of a).
Proof.
  destruct (variable a); intros H h Hh.
  - apply take_best_greedy in H. destruct H as (picks & -> & G).
    simpl in Hh. eapply greedy_incl; eassumption.
  - apply bind_Some in H. destruct H as (bb & B & H).
    destruct bb as [block|]; injection H as <-; try contradiction.
    eapply block_search_incl; eassumption.
Qed.

Lemma lds_place_total (p w wg : Qc) (l : list Asset) (al : list Qc)
      (i : nat) (a : Asset) :
  nth_error l i = Some a ->
  Forall hour_in_day (before_hours a) ->
  List.length al = 24%nat ->
  exists st', place p w wg (l, al) i = Some st'.
Proof.
  intros N Fb L. unfold place. rewrite N. cbn [bind].
  fold (sh_of a) (eh_of a). fold (window_of a). fold (duration_of a).
  rewrite lds_window_nonempty.
  destruct (leb (power_kW a) 0%Qc); [now eexists|].
  destruct (leb p 0%Qc || Logic.is_nil (before_hours a)); [now eexists|].
  destruct (sh_of a =? eh_of a); [now eexists|].
  destruct (for_each_isub_total (power_kW a * p)%Qc (before_hours a) al) as (al1 & S1).
  { eapply Forall_impl; [|exact Fb]. unfold hour_in_day, len. intros. lia. }
  rewrite S1. cbn [bind].
  pose proof (for_each_isub_length _ _ _ _ S1) as L1.
  destruct (score_hours_total al1 wg w (window_of a)) as (scores & S2).
  { pose proof (lds_window_nonempty a). destruct (window_of a); discriminate. }
  { congruence. }
  { apply Forall_forall. intros h Hh. eapply lds_window_in_day; eassumption. }
  rewrite S2. cbn [bind].
  pose proof (score_hours_defined _ _ _ _ _ S2) as D.
  assert (exists chosen,
    (if variable a
     then Logic.take_best scores (Z.to_nat (duration_of a)) (window_of a) []
     else
       best_block <- Logic.block_search scores (window_of a) (duration_of a) ;;
       match best_block with
       | Some block => Some block
       | None => Some []
       end) = Some chosen) as (chosen & S3).
  { destruct (variable a).
    - now apply take_best_total.
    - destruct (block_search_total scores (window_of a) (duration_of a) D)
        as (bb & ->).
      cbn [bind]. destruct bb; now eexists. }
  rewrite S3. cbn [bind].
  pose proof (lds_chosen_in_window _ _ _ S3) as CW.
  destruct (for_each_iadd_total (power_kW a * p)%Qc chosen al1) as (al2 & S4).
  { apply Forall_forall. intros h Hh. apply CW, lds_window_in_day in Hh.
    unfold hour_in_day, len in *. lia. }
  rewrite S4. cbn [bind]. now eexists.
Qed.

(** The after pass changes the [after_hours] of the assets and nothing
    else, keeps the length of the load curve and keeps the hours in the
    day. *)
Lemma lds_place_keeps (p w wg : Qc) (l l' : list Asset) (al al' : list Qc) (i : nat) :
  place p w wg (l, al) i = Some (l', al') ->
  map clear_after l' = map clear_after l /\
  List.length al' = List.length al /\
  (Forall hours_in_day l -> Forall hours_in_day l').
Proof.
  intro H. apply lds_place_inv in H. destruct H as (a & N & H).
  assert (U : forall hs, map clear_after (update i (set_after_hours a hs) l)
                         = map clear_after l).
  { intro hs. rewrite map_update. apply update_same.
    now rewrite nth_error_map, N. }
  assert (G : forall hs, Forall hour_in_day hs -> Forall hours_in_day l ->
                         Forall hours_in_day (update i (set_after_hours a hs) l)).
  { intros hs Fh F. apply Forall_update; [|exact F].
    rewrite Forall_forall in F. destruct (F a (nth_error_In _ _ N)) as (Fb & _).
    split; assumption. }
  destruct H as [(_ & -> & ->)|[(_ & _ & -> & ->)|
                 (_ & _ & _ & al1 & scores & chosen & S1 & _ & S3 & S4 & ->)]]; auto.
  - split; [apply U|]. split; [reflexivity|]. intro F. apply G; [|exact F].
    rewrite Forall_forall in F. now destruct (F a (nth_error_In _ _ N)).
  - split; [apply U|]. split.
    + apply for_each_isub_length in S1. apply for_each_iadd_length in S4. congruence.
    + apply G. apply Forall_forall. intros h Hh.
      eapply lds_window_in_day, lds_chosen_in_window; eassumption.
Qed.

Lemma lds_after_loop_keeps (p w wg : Qc) (idxs : list nat) (l l' : list Asset)
      (al al' : list Qc) :
  for_each (place p w wg) idxs (l, al) = Some (l', al') ->
  map clear_after l' = map clear_after l /\
  List.length al' = List.length al /\
  (Forall hours_in_day l -> Forall hours_in_day l').
Proof.
  intro H.
  apply (for_each_invariant
           (fun st => map clear_after (fst st) = map clear_after l /\
                      List.length (snd st) = List.length al /\
                      (Forall hours_in_day l -> Forall hours_in_day (fst st)))
           _ _) with (s' := (l', al')) in H; auto.
  intros [l1 al1] i [l2 al2] _ (I1 & I2 & I3) P. simpl in *.
  apply lds_place_keeps in P. destruct P as (P1 & P2 & P3).
  split; [congruence|]. split; [congruence|auto].
Qed.

Lemma lds_clear_after_eq (a a' : Asset) :
  clear_after a' = clear_after a -> a' = set_after_hours a (after_hours a').
Proof.
  destruct a, a'. unfold clear_after, set_after_hours. simpl.
  intro E. injection E as -> -> -> -> -> -> -> -> -> ->. reflexivity.
Qed.

Lemma lds_In_enabled_sorted (l : list Asset) (i : nat) :
  In i (enabled_sorted l) <->
  exists a, nth_error l i = Some a /\ enabled a = true.
Proof.
  unfold enabled_sorted. rewrite in_map_iff. split.
  - intros ([j a] & <- & H). apply In_sorted, filter_In in H.
    destruct H as (H & E). apply In_enumerate in H. now exists a.
  - intros (a & N & E). exists (i, a). split; [reflexivity|].
    apply In_sorted, filter_In. split; [now apply In_enumerate|exact E].
Qed.

Lemma lds_after_loop_total (p w wg : Qc) (idxs : list nat) (l : list Asset)
      (al : list Qc) :
  Forall hours_in_day l -> List.length al = 24%nat ->
  (forall i, In i idxs -> (i < List.length l)%nat) ->
  exists st', for_each (place p w wg) idxs (l, al) = Some st'.
Proof.
  intros G L Hi.
  destruct (for_each_total
              (fun st => map clear_after (fst st) = map clear_after l /\
                         List.length (snd st) = 24%nat)
              (place p w wg) idxs) with (s := (l, al)) as (st' & H & _);
    [|now split|now exists st'].
  intros [l1 al1] i Ii (I1 & I2). simpl in *.
  assert (exists a1, nth_error l1 i = Some a1) as (a1 & N1).
  { destruct (nth_error l1 i) eqn:E; [now eexists|].
    apply nth_error_None in E. apply (f_equal (@List.length _)) in I1.
    rewrite !length_map in I1. specialize (Hi i Ii). lia. }
  destruct (map_eq_nth _ _ _ _ _ I1 N1) as (a & N & E).
  apply lds_clear_after_eq in E.
  assert (F1 : Forall hour_in_day (before_hours a1)).
  { rewrite E. cbn [before_hours set_after_hours]. rewrite Forall_forall in G.
    now destruct (G a (nth_error_In _ _ N)). }
  destruct (lds_place_total p w wg l1 al1 i a1 N1 F1 I2) as ([l2 al2] & P).
  exists (l2, al2). split; [exact P|]. simpl.
  apply lds_place_keeps in P. destruct P as (P1 & P2 & _). split; congruence.
Qed.


Lemma lds_before_loop_assets (l : list Asset) :
  Forall (fun a => before_hours a = []) l ->
  forall bl l' bl', before_loop bl l = Some (l', bl') ->
  l' = map set_naive l /\ List.length bl' = List.length bl.
Proof.
  induction 1 as [|a l Ha _ IH]; intros bl l' bl' H; simpl in H.
  - injection H as <- <-. auto.
  - rewrite lds_before_place_eq in H by assumption.
    apply bind_Some in H. destruct H as ([a1 bl1] & P & H).
    apply bind_Some in P. destruct P as (bl1' & P & E). injection E as <- <-.
    apply bind_Some in H. destruct H as ([l1 bl2] & R & H).
    injection H as <- <-. destruct (IH _ _ _ R) as (-> & L).
    apply for_each_iadd_length in P. split; [reflexivity|congruence].
Qed.

Lemma reset_before_nil (l : list Asset) :
  Forall (fun a => before_hours a = []) (map reset l).
Proof. apply Forall_map, Forall_forall. intros a _. reflexivity. Qed.

Lemma naive_in_day (l : list Asset) :
  Forall hours_in_day (map set_naive (map reset l)).
Proof.
  rewrite map_map. apply Forall_map, Forall_forall. intros a _. split.
  - exact (lds_naive_in_day (reset a)).
  - constructor.
Qed.

Lemma lds_recalc_inv (g g' : Globals) :
  recalculate_schedules g = Some g' ->
  exists bl cb l2 al ca,
    before_loop (BASE_LOAD g) (map reset (ASSETS g))
      = Some (map set_naive (map reset (ASSETS g)), bl) /\
    before_cost (map set_naive (map reset (ASSETS g))) = Some cb /\
    for_each (place (flex_var g / lit 100 1)%Qc (priority_var g / lit 100 1)%Qc
                    (1 - priority_var g / lit 100 1)%Qc)
             (enabled_sorted (map set_naive (map reset (ASSETS g))))
             (map set_naive (map reset (ASSETS g)), bl) = Some (l2, al) /\
    after_cost (flex_var g / lit 100 1)%Qc l2 = Some ca /\
    g' = mkGlobals (BASE_LOAD g) (CO2_PER_HOUR g) l2 bl al cb ca
           (flex_var g) (priority_var g).
Proof.
  unfold recalculate_schedules. intro H.
  change (map (fun a => set_after_hours (set_before_hours a []) []) (ASSETS g))
    with (map reset (ASSETS g)) in H.
  apply bind_Some in H. destruct H as ([l1 bl] & B & H).
  pose proof (lds_before_loop_assets _ (reset_before_nil _) _ _ _ B) as (-> & _).
  apply bind_Some in H. destruct H as (cb & CB & H).
  apply bind_Some in H. destruct H as ([l2 al] & L & H).
  apply bind_Some in H. destruct H as (ca & CA & H).
  injection H as <-. exists bl, cb, l2, al, ca. auto.
Qed.

Lemma lds_recalc_total (g : Globals) :
  List.length (BASE_LOAD g) = 24%nat ->
  exists g', recalculate_schedules g = Some g'.
Proof.
  intro L. unfold recalculate_schedules.
  change (map (fun a => set_after_hours (set_before_hours a []) []) (ASSETS g))
    with (map reset (ASSETS g)).
  destruct (lds_before_loop_total _ (reset_before_nil (ASSETS g)) _ L)
    as (bl & -> & Lb).
  cbn [bind].
  pose proof (naive_in_day (ASSETS g)) as G.
  destruct (lds_before_cost_total (map set_naive (map reset (ASSETS g)))) as (cb & ->).
  { eapply Forall_impl; [|exact G]. now intros a (Fb & _). }
  cbn [bind].
  destruct (lds_after_loop_total (flex_var g / lit 100 1)%Qc
              (priority_var g / lit 100 1)%Qc (1 - priority_var g / lit 100 1)%Qc
              (enabled_sorted (map set_naive (map reset (ASSETS g))))
              (map set_naive (map reset (ASSETS g))) bl G Lb) as ([l2 al] & A).
  { intros i Ii. apply lds_In_enabled_sorted in Ii. destruct Ii as (a & N & _).
    apply nth_error_Some. congruence. }
  rewrite A. cbn [bind].
  apply lds_after_loop_keeps in A. destruct A as (_ & _ & G2).
  destruct (lds_after_cost_total (flex_var g / lit 100 1)%Qc l2 (G2 G)) as (ca & ->).
  cbn [bind]. now eexists.
Qed.

Lemma reset_clear_after (a : Asset) : reset (clear_after a) = reset a.
Proof. reflexivity. Qed.

Lemma reset_set_naive (a : Asset) : reset (set_naive (reset a)) = reset a.
Proof. reflexivity. Qed.

(** A recompute changes the hours of the assets, the two curves and the two
    costs, and nothing else. *)
Lemma lds_recalc_keeps (g g' : Globals) :
  recalculate_schedules g = Some g' ->
  map reset (ASSETS g') = map reset (ASSETS g) /\
  BASE_LOAD g' = BASE_LOAD g /\ CO2_PER_HOUR g' = CO2_PER_HOUR g /\
  flex_var g' = flex_var g /\ priority_var g' = priority_var g /\
  List.length (before_load g') = List.length (BASE_LOAD g) /\
  List.length (after_load g') = List.length (BASE_LOAD g).
Proof.
  intro H. apply lds_recalc_inv in H.
  destruct H as (bl & cb & l2 & al & ca & B & _ & L & _ & ->). simpl.
  apply lds_before_loop_assets in B; [|apply reset_before_nil].
  destruct B as (_ & Lb).
  apply lds_after_loop_keeps in L. destruct L as (K & La & _).
  repeat split; try congruence.
  transitivity (map reset (map clear_after l2)).
  { rewrite map_map. apply map_ext. intro a. reflexivity. }
  rewrite K, !map_map. apply map_ext. intro a. reflexivity.
Qed.

(** A recompute reads the assets without their hours, the base curve, the
    CO2 curve and the two sliders, and nothing else. *)
Lemma lds_recalc_static (g1 g2 : Globals) :
  map reset (ASSETS g1) = map reset (ASSETS g2) ->
  BASE_LOAD g1 = BASE_LOAD g2 -> CO2_PER_HOUR g1 = CO2_PER_HOUR g2 ->
  flex_var g1 = flex_var g2 -> priority_var g1 = priority_var g2 ->
  recalculate_schedules g1 = recalculate_schedules g2.
Proof.
  intros A B C F P. unfold recalculate_schedules.
  change (map (fun a => set_after_hours (set_before_hours a []) []) (ASSETS g1))
    with (map reset (ASSETS g1)).
  change (map (fun a => set_after_hours (set_before_hours a []) []) (ASSETS g2))
    with (map reset (ASSETS g2)).
  now rewrite A, B, C, F, P.
Qed.

(** The recompute at a grid point does not depend on the recomputes made
    before it. *)
Lemma lds_recalc_after (g g1 : Globals) (flex pr : Z) :
  map reset (ASSETS g1) = map reset (ASSETS g) ->
  BASE_LOAD g1 = BASE_LOAD g -> CO2_PER_HOUR g1 = CO2_PER_HOUR g ->
  recalculate_schedules (set_vars g1 flex pr)
  = recalculate_schedules (set_vars g flex pr).
Proof. intros A B C. apply lds_recalc_static; assumption || reflexivity. Qed.

End LDSPasses.

(* ------------------------------------------------------------------ *)
(** * SmartLDS: the grid search for the minimal peak *)
(* ------------------------------------------------------------------ *)

Section GridSearch.

Import SmartLDS SpecLDS.
Import Spec (hour_in_day).

Lemma for_each_map {S A B : Type} (body : S -> B -> option S) (f : A -> B)
      (l : list A) (s : S) :
  for_each body (map f l) s = for_each (fun s x => body s (f x)) l s.
Proof.
  revert s. induction l as [|x l IH]; intro s; simpl; [reflexivity|].
  destruct (body s (f x)); simpl; auto.
Qed.

Lemma nested_loops {S : Type} (body : S -> Z * Z -> option S) (xs ys : list Z)
      (s : S) :
  for_each (fun s x => for_each (fun s y => body s (x, y)) ys s) xs s
  = for_each body (flat_map (fun x => map (fun y => (x, y)) ys) xs) s.
Proof.
  revert s. induction xs as [|x xs IH]; intro s; simpl; [reflexivity|].
  rewrite for_each_app, for_each_map.
  destruct (for_each _ ys s); simpl; auto.
Qed.

(** The two nested loops scan [grid_points] in order. *)
Lemma grid_loop_points {S : Type} (body : S -> Z * Z -> option S) (s : S) :
  grid_loop body s = for_each body grid_points s.
Proof. apply nested_loops. Qed.

Lemma first_minimum_one (f : Z * Z -> option Qc) (pt : Z * Z) (v : Qc) :
  f pt = Some v -> first_minimum f [pt] pt v.
Proof.
  intro F. exists [], []. repeat split; auto; intros q [].
Qed.

Lemma first_minimum_better (f : Z * Z -> option Qc) (done : list (Z * Z))
      (b pt : Z * Z) (vb v : Qc) :
  first_minimum f done b vb -> f pt = Some v -> (v < vb)%Qc ->
  first_minimum f (done ++ [pt]) pt v.
Proof.
  intros (e & l & -> & Fb & E & L) F Lt. exists (e ++ b :: l), [].
  repeat split; auto; [|intros q []].
  intros q Hq. apply in_app_iff in Hq. destruct Hq as [Hq|[<-|Hq]].
  - destruct (E q Hq) as (vq & Fq & Lq). exists vq. split; [assumption|].
    eapply Qclt_trans; eassumption.
  - now exists vb.
  - destruct (L q Hq) as (vq & Fq & Lq). exists vq. split; [assumption|].
    eapply Qclt_le_trans; eassumption.
Qed.

Lemma first_minimum_kept (f : Z * Z -> option Qc) (done : list (Z * Z))
      (b pt : Z * Z) (vb v : Qc) :
  first_minimum f done b vb -> f pt = Some v -> (vb <= v)%Qc ->
  first_minimum f (done ++ [pt]) b vb.
Proof.
  intros (e & l & -> & Fb & E & L) F Le. exists e, (l ++ [pt]).
  repeat split; auto.
  - now rewrite <- app_assoc.
  - intros q Hq. apply in_app_iff in Hq. destruct Hq as [Hq|[<-|[]]]; auto.
    now exists v.
Qed.

Lemma first_minimum_In (f : Z * Z -> option Qc) (pts : list (Z * Z))
      (b : Z * Z) (v : Qc) :
  first_minimum f pts b v -> In b pts.
Proof.
  intros (e & l & -> & _). apply in_app_iff. right. now left.
Qed.

(** When every point gives the same value, the first minimum is the first
    point of the scan. *)
Lemma first_minimum_constant (f : Z * Z -> option Qc) (p0 : Z * Z)
      (pts : list (Z * Z)) (b : Z * Z) (v m : Qc) :
  (forall q, In q (p0 :: pts) -> f q = Some m) ->
  first_minimum f (p0 :: pts) b v -> b = p0.
Proof.
  intros C (e & l & E & Fb & Ee & _).
  destruct e as [|x e]; simpl in E.
  - congruence.
  - exfalso. assert (x = p0) by congruence. subst x.
    destruct (Ee p0 (or_introl eq_refl)) as (vq & Fq & Lt).
    rewrite C in Fq by now left. injection Fq as <-.
    rewrite C in Fb.
    + injection Fb as <-. exact (Qclt_not_eq _ _ Lt eq_refl).
    + rewrite E. right. apply in_app_iff. right. now left.
Qed.


Lemma same_catalog_refl (g : Globals) : same_catalog g g.
Proof. repeat split. Qed.

Lemma same_catalog_step (g g1 g2 : Globals) (flex pr : Z) :
  same_catalog g g1 ->
  recalculate_schedules (set_vars g1 flex pr) = Some g2 ->
  same_catalog g g2 /\ recalculate_schedules (set_vars g flex pr) = Some g2 /\
  flex_var g2 = lit flex 1 /\ priority_var g2 = lit pr 1 /\
  List.length (before_load g2) = List.length (BASE_LOAD g) /\
  List.length (after_load g2) = List.length (BASE_LOAD g).
Proof.
  intros (A & B & C) H.
  pose proof (lds_recalc_keeps _ _ H) as (A2 & B2 & C2 & F2 & P2 & L1 & L2).
  cbn [set_vars ASSETS BASE_LOAD CO2_PER_HOUR flex_var priority_var] in *.
  split; [repeat split; congruence|].
  split; [now rewrite <- (lds_recalc_after g g1 flex pr A B C)|].
  repeat split; congruence.
Qed.

Lemma peak_at_total (g : Globals) (pt : Z * Z) :
  List.length (BASE_LOAD g) = 24%nat -> exists v, peak_at g pt = Some v.
Proof.
  intro L. unfold peak_at.
  destruct (lds_recalc_total (set_vars g (fst pt) (snd pt)) L) as (g' & H).
  rewrite H. cbn [bind].
  apply lds_recalc_keeps in H. destruct H as (_ & _ & _ & _ & _ & _ & La).
  cbn [set_vars BASE_LOAD] in La.
  apply max_total. intro E. rewrite E in La. simpl in La. lia.
Qed.

Lemma optimal_step_inv (g : Globals) (done : list (Z * Z)) (pt : Z * Z)
      (st st' : Globals * option Qc * option Z * option Z) :
  min_peak_inv g done st -> optimal_step st pt = Some st' ->
  min_peak_inv g (done ++ [pt]) st'.
Proof.
  destruct st as [[[g1 bpk] bfl] bpr], pt as [flex pr].
  intros (SC & Best) H. unfold optimal_step in H.
  apply bind_Some in H. destruct H as (g2 & R & H).
  apply bind_Some in H. destruct H as (peak_a & M & H).
  pose proof (same_catalog_step _ _ _ _ _ SC R) as (SC2 & R2 & _).
  assert (PK : peak_at g (flex, pr) = Some peak_a).
  { unfold peak_at. cbn [fst snd]. rewrite R2. exact M. }
  destruct Best as [(-> & -> & -> & ->)|(bf & bp & v & -> & -> & -> & FM)].
  - injection H as <-. split; [exact SC2|]. right.
    exists flex, pr, peak_a. repeat split; auto.
    now apply first_minimum_one.
  - destruct (ltb peak_a v) eqn:E.
    + injection H as <-. apply ltb_lt in E. split; [exact SC2|]. right.
      exists flex, pr, peak_a. repeat split; auto.
      eapply first_minimum_better; eassumption.
    + injection H as <-. apply ltb_ge in E. split; [exact SC2|]. right.
      exists bf, bp, v. repeat split; auto.
      eapply first_minimum_kept; eassumption.
Qed.

Lemma optimal_loop_inv (g : Globals) (rest : list (Z * Z)) :
  forall done st st',
  min_peak_inv g done st -> for_each optimal_step rest st = Some st' ->
  min_peak_inv g (done ++ rest) st'.
Proof.
  induction rest as [|pt rest IH]; intros done st st' I H; simpl in H.
  - injection H as <-. now rewrite app_nil_r.
  - apply bind_Some in H. destruct H as (st1 & S1 & H).
    replace (done ++ pt :: rest) with ((done ++ [pt]) ++ rest)
      by now rewrite <- app_assoc.
    eapply IH; [|exact H]. eapply optimal_step_inv; eassumption.
Qed.

Lemma optimal_loop_total (g : Globals) (rest : list (Z * Z))
      (st : Globals * option Qc * option Z * option Z) :
  List.length (BASE_LOAD g) = 24%nat ->
  same_catalog g (fst (fst (fst st))) ->
  exists st', for_each optimal_step rest st = Some st'.
Proof.
  intros L SC.
  destruct (for_each_total (fun st => same_catalog g (fst (fst (fst st))))
              optimal_step rest) with (s := st) as (st' & H & _);
    [|exact SC|now exists st'].
  intros [[[g1 bpk] bfl] bpr] [flex pr] _ SC1. cbn [fst] in SC1.
  unfold optimal_step.
  destruct (lds_recalc_total (set_vars g1 flex pr)) as (g2 & R).
  { cbn [set_vars BASE_LOAD]. destruct SC1 as (_ & B & _). congruence. }
  rewrite R. cbn [bind].
  pose proof (same_catalog_step _ _ _ _ _ SC1 R) as (SC2 & _ & _ & _ & _ & La).
  destruct (max_total (after_load g2)) as (pk & ->).
  { intro E. rewrite E in La. simpl in La. lia. }
  cbn [bind]. destruct bpk as [bp|]; [destruct (ltb pk bp)|];
    eexists; (split; [reflexivity|exact SC2]).
Qed.

Lemma slider_change_total (g g' : Globals) :
  List.length (BASE_LOAD g) = 24%nat -> List.length (CO2_PER_HOUR g) = 24%nat ->
  recalculate_schedules g = Some g' ->
  on_flex_change g = Some g' /\ on_priority_change g = Some g'.
Proof.
  intros L C H. unfold on_flex_change, on_priority_change. rewrite H. cbn [bind].
  pose proof (lds_recalc_keeps _ _ H) as (_ & _ & C2 & _ & _ & L1 & L2).
  destruct (update_stats_completes g') as (st & ? & ? & ? & ? & -> & _);
    try congruence.
  cbn [bind]. auto.
Qed.


Lemma grid_points_explicit :
  grid_points =
  flat_map (fun i => map (fun j => (10 * i, 10 * j)) (range 0 11)) (range 0 11).
Proof. reflexivity. Qed.

(** C6.  The min-peak optimizer scans the 11-by-11 grid of percentages
    [0, 10, ..., 100], flex in the outer loop and price weight in the inner
    one, both ascending, with a recompute at every point, and ends on the
    grid point of minimal after-peak, the first one in scan order: every
    point scanned earlier has a strictly greater peak, so a later point with
    an equal peak never replaces it.  The engine is left recomputed at that
    point. *)
Theorem min_peak_search_takes_first_minimum (g : Globals) :
  List.length (BASE_LOAD g) = 24%nat ->
  List.length (CO2_PER_HOUR g) = 24%nat ->
  exists g' flex pr v,
    find_optimal_settings g = Some g' /\
    recalculate_schedules (set_vars g flex pr) = Some g' /\
    flex_var g' = lit flex 1 /\ priority_var g' = lit pr 1 /\
    Py.max (after_load g') = Some v /\
    first_minimum (peak_at g) grid_points (flex, pr) v /\
    (forall pt, In pt grid_points -> exists v', peak_at g pt = Some v') /\
    grid_points =
      flat_map (fun i => map (fun j => (10 * i, 10 * j)) (range 0 11)) (range 0 11) /\
    List.length grid_points = 121%nat /\
    (forall S (body : S -> Z * Z -> option S) s,
       grid_loop body s = for_each body grid_points s).
Proof.
  intros L C. unfold find_optimal_settings. rewrite grid_loop_points.
  destruct (optimal_loop_total g grid_points (g, None, None, None) L
              (same_catalog_refl g)) as ([[[g1 bpk] bfl] bpr] & H).
  rewrite H. cbn [bind].
  assert (I0 : min_peak_inv g [] (g, None, None, None)).
  { split; [apply same_catalog_refl|]. left. auto. }
  pose proof (optimal_loop_inv g grid_points [] _ _ I0 H) as (SC & Best).
  cbn [app] in Best.
  destruct Best as [(E & _)|(flex & pr & v & -> & -> & -> & FM)]; [discriminate|].
  destruct (lds_recalc_total (set_vars g1 flex pr)) as (g2 & R).
  { cbn [set_vars BASE_LOAD]. destruct SC as (_ & B & _). congruence. }
  pose proof (same_catalog_step _ _ _ _ _ SC R) as (SC2 & R2 & F2 & P2 & _ & La2).
  destruct (slider_change_total (set_vars g1 flex pr) g2) as (OF & _); auto.
  { cbn [set_vars BASE_LOAD]. destruct SC as (_ & B & _). congruence. }
  { cbn [set_vars CO2_PER_HOUR]. destruct SC as (_ & _ & B). congruence. }
  rewrite OF. cbn [bind].
  (* the second callback recomputes at the same point *)
  assert (R3 : recalculate_schedules g2 = Some g2).
  { transitivity (recalculate_schedules (set_vars g flex pr)); [|exact R2].
    destruct SC2 as (A & B & D).
    apply lds_recalc_static; cbn [set_vars ASSETS BASE_LOAD CO2_PER_HOUR
      flex_var priority_var]; assumption. }
  destruct (slider_change_total g2 g2) as (_ & OP); auto.
  { destruct SC2 as (_ & B & _). congruence. }
  { destruct SC2 as (_ & _ & B). congruence. }
  rewrite OP.
  exists g2, flex, pr, v. split; [reflexivity|]. split; [exact R2|].
  split; [exact F2|]. split; [exact P2|].
  split.
  { destruct FM as (e & l & _ & PK & _). unfold peak_at in PK. cbn [fst snd] in PK.
    rewrite R2 in PK. exact PK. }
  split; [exact FM|].
  split; [intros pt _; now apply peak_at_total|].
  split; [reflexivity|]. split; [reflexivity|].
  intros. apply grid_loop_points.
Qed.

End GridSearch.

(* ------------------------------------------------------------------ *)
(** * SmartLDS: a catalog whose powers are all 0 *)
(* ------------------------------------------------------------------ *)

Section ZeroPower.

Import SmartLDS SpecLDS.
Import Spec (hour_in_day).

Lemma leb_0_0 : leb 0%Qc 0%Qc = true.
Proof. reflexivity. Qed.

Lemma naive_hours_zero_power (a : Asset) : power_kW a = 0%Qc -> naive_hours a = [].
Proof.
  intro P. unfold naive_hours. rewrite P, leb_0_0.
  now rewrite andb_false_r.
Qed.

Lemma before_loop_zero_power (l : list Asset) (bl : list Qc) :
  Forall (fun a => before_hours a = [] /\ power_kW a = 0%Qc) l ->
  before_loop bl l = Some (l, bl).
Proof.
  induction 1 as [|a l (B & P) _ IH]; simpl; [reflexivity|].
  rewrite lds_before_place_eq by assumption.
  unfold set_naive. rewrite (naive_hours_zero_power a P). cbn [for_each bind].
  rewrite IH. cbn [bind]. now rewrite set_before_same.
Qed.

Lemma before_cost_no_hours (l : list Asset) :
  Forall (fun a => before_hours a = []) l -> before_cost l = Some 0%Qc.
Proof.
  unfold before_cost. intro F. generalize 0%Qc as c.
  induction F as [|a l B _ IH]; intro c; simpl; [reflexivity|].
  destruct (negb (enabled a)); cbn [bind]; [apply IH|].
  rewrite B. cbn [for_each bind]. apply IH.
Qed.

Lemma after_cost_no_hours (p : Qc) (l : list Asset) :
  Forall (fun a => before_hours a = [] /\ after_hours a = []) l ->
  after_cost p l = Some 0%Qc.
Proof.
  unfold after_cost. intro F. generalize 0%Qc as c.
  induction F as [|a l (B & A) _ IH]; intro c; simpl; [reflexivity|].
  destruct (negb (enabled a)); cbn [bind]; [apply IH|].
  rewrite B, A. cbn [for_each bind]. apply IH.
Qed.

Lemma place_loop_zero_power (p w wg : Qc) (idxs : list nat) (l : list Asset)
      (al : list Qc) :
  (forall i, In i idxs -> exists a, nth_error l i = Some a /\ power_kW a = 0%Qc) ->
  for_each (place p w wg) idxs (l, al) = Some (l, al).
Proof.
  induction idxs as [|i idxs IH]; intro H; simpl; [reflexivity|].
  destruct (H i (or_introl eq_refl)) as (a & N & P).
  unfold place at 1. rewrite N. cbn [bind]. rewrite P, leb_0_0. cbn [bind].
  apply IH. intros j Hj. apply H. now right.
Qed.

(** With every power at 0 nothing is placed: both curves are the base
    curve and both costs are 0, at every setting of the sliders. *)
Lemma recalc_zero_power (g : Globals) :
  Forall (fun a => power_kW a = 0%Qc) (ASSETS g) ->
  recalculate_schedules g =
  Some (mkGlobals (BASE_LOAD g) (CO2_PER_HOUR g) (map reset (ASSETS g))
          (BASE_LOAD g) (BASE_LOAD g) 0%Qc 0%Qc (flex_var g) (priority_var g)).
Proof.
  intro Z0. unfold recalculate_schedules.
  change (map (fun a => set_after_hours (set_before_hours a []) []) (ASSETS g))
    with (map reset (ASSETS g)).
  assert (F : Forall (fun a => before_hours a = [] /\ power_kW a = 0%Qc)
                     (map reset (ASSETS g))).
  { apply Forall_map. eapply Forall_impl; [|exact Z0]. intros a P. now split. }
  rewrite (before_loop_zero_power _ _ F). cbn [bind].
  rewrite before_cost_no_hours by apply reset_before_nil. cbn [bind].
  rewrite place_loop_zero_power.
  - cbn [bind]. rewrite after_cost_no_hours; [reflexivity|].
    apply Forall_map, Forall_forall. intros a _. now split.
  - intros i Ii. apply lds_In_enabled_sorted in Ii. destruct Ii as (a & N & _).
    exists a. split; [exact N|]. rewrite Forall_forall in F.
    now destruct (F a (nth_error_In _ _ N)).
Qed.

Lemma emissions_total (load co2 : list Qc) :
  List.length load = 24%nat -> List.length co2 = 24%nat ->
  exists e, emissions load co2 = Some e.
Proof.
  intros L C. unfold emissions.
  destruct (for_each_total (fun _ => True)
              (fun acc h => x <- getitem load h ;; c <- getitem co2 h ;;
                            Some (acc + x * c)%Qc)
              (range 0 NUM_HOURS)) with (s := 0%Qc) as (e & H & _);
    [|exact I|now exists e].
  intros acc h Hh _. apply in_range in Hh. unfold NUM_HOURS in Hh.
  destruct (getitem_total load h) as (x & ->); [unfold len; lia|].
  destruct (getitem_total co2 h) as (c & ->); [unfold len; lia|].
  cbn [bind]. eexists. split; [reflexivity|exact I].
Qed.

Lemma zero_cost_saving : (0 / lit 100 1 - 0 / lit 100 1)%Qc = 0%Qc.
Proof. now apply Qc_is_canon. Qed.

Lemma zero_power_points (g : Globals) (pt : Z * Z) :
  Forall (fun a => power_kW a = 0%Qc) (ASSETS g) ->
  List.length (BASE_LOAD g) = 24%nat -> List.length (CO2_PER_HOUR g) = 24%nat ->
  peak_at g pt = Py.max (BASE_LOAD g) /\
  savings_at g pt = Some (0%Qc, 0%Qc) /\ feasible g pt = true.
Proof.
  intros Z0 L C.
  assert (S : savings_at g pt = Some (0%Qc, 0%Qc)).
  { unfold savings_at. rewrite !recalc_zero_power by exact Z0.
    cbn [bind set_vars BASE_LOAD CO2_PER_HOUR before_load after_load
         cost_before_flex cost_after_flex].
    destruct (emissions_total _ _ L C) as (e & ->). cbn [bind].
    rewrite zero_cost_saving. do 2 f_equal. ring. }
  split; [|split; [exact S|]].
  - unfold peak_at. now rewrite recalc_zero_power by exact Z0.
  - unfold feasible. rewrite S. reflexivity.
Qed.

End ZeroPower.

(* ------------------------------------------------------------------ *)
(** * SmartLDS: the constrained search for the ideal peak *)
(* ------------------------------------------------------------------ *)

Section IdealPeak.

Import SmartLDS SpecLDS.
Import Spec (hour_in_day).

Lemma baseline_of_Some (g : Globals) (b : Qc * Qc * Qc) :
  baseline_of g = Some b ->
  exists g0 e0,
    recalculate_schedules (set_vars g 0 0) = Some g0 /\
    emissions (before_load g0) (CO2_PER_HOUR g0) = Some e0 /\
    snd (fst b) = (cost_before_flex g0 / lit 100 1)%Qc /\ snd b = e0.
Proof.
  unfold baseline_of. intro H.
  apply bind_Some in H. destruct H as (g0 & R & H).
  apply bind_Some in H. destruct H as (pb & _ & H).
  apply bind_Some in H. destruct H as (e0 & E & H).
  injection H as <-. exists g0, e0. auto.
Qed.

Lemma filter_snoc {A : Type} (f : A -> bool) (l : list A) (x : A) :
  filter f (l ++ [x]) = filter f l ++ (if f x then [x] else []).
Proof. rewrite filter_app. reflexivity. Qed.

Lemma ideal_peak_step_inv (g : Globals) (done : list (Z * Z)) (pt : Z * Z)
      (st st' : Globals * option (Qc * Qc * Qc) * option Combo * option Qc) :
  ideal_peak_inv g done st -> (done = [] -> pt = (0, 0)) ->
  ideal_peak_step st pt = Some st' ->
  ideal_peak_inv g (done ++ [pt]) st'.
Proof.
  destruct st as [[[g1 baseline] best_combo] best_peak], pt as [fx pw].
  intros (SC & Base & Best) First H. unfold ideal_peak_step in H.
  apply bind_Some in H. destruct H as (g2 & R & H).
  pose proof (same_catalog_step _ _ _ _ _ SC R) as (SC2 & R2 & _).
  apply bind_Some in H. destruct H as ([[bpk bcost] bemis] & BL & H).
  apply bind_Some in H. destruct H as (peak & M & H).
  apply bind_Some in H. destruct H as (e1 & E1 & H).
  (* the baseline is the one of the first grid point *)
  assert (B : baseline_of g = Some (bpk, bcost, bemis)).
  { destruct Base as [(D & ->)|(b & _ & -> & B)].
    - specialize (First D). injection First as -> ->.
      apply bind_Some in BL. destruct BL as (pb & Mb & BL).
      apply bind_Some in BL. destruct BL as (e0 & E0 & BL).
      injection BL as <- <- <-.
      unfold baseline_of. rewrite R2. cbn [bind]. rewrite Mb. cbn [bind].
      rewrite E0. reflexivity.
    - injection BL as ->. exact B. }
  pose proof (baseline_of_Some _ _ B) as (g0 & e0 & R0 & E0 & Bc & Be).
  cbn [fst snd] in Bc, Be. subst bcost bemis.
  assert (PK : peak_at g (fx, pw) = Some peak).
  { unfold peak_at. cbn [fst snd]. now rewrite R2. }
  assert (SV : savings_at g (fx, pw)
               = Some ((cost_before_flex g0 / lit 100 1
                        - cost_after_flex g2 / lit 100 1)%Qc, (e0 - e1)%Qc)).
  { unfold savings_at. cbn [fst snd]. rewrite R0. cbn [bind]. rewrite E0.
    cbn [bind]. rewrite R2. cbn [bind]. rewrite E1. reflexivity. }
  assert (FE : feasible g (fx, pw)
               = negb (ltb (cost_before_flex g0 / lit 100 1
                            - cost_after_flex g2 / lit 100 1)%Qc 0%Qc
                       || ltb (e0 - e1)%Qc 0%Qc)).
  { unfold feasible. now rewrite SV. }
  assert (Base' : (done ++ [(fx, pw)] = [] /\ Some (bpk, (cost_before_flex g0 / lit 100 1)%Qc, e0) = None) \/
                  (exists b, done ++ [(fx, pw)] <> [] /\
                             Some (bpk, (cost_before_flex g0 / lit 100 1)%Qc, e0) = Some b /\
                             baseline_of g = Some b)).
  { right. eexists. split; [|split; [reflexivity|exact B]].
    destruct done; discriminate. }
  cbv zeta in H.
  assert (Fl : filter (feasible g) (done ++ [(fx, pw)])
               = filter (feasible g) done
                 ++ (if feasible g (fx, pw) then [(fx, pw)] else []))
    by apply filter_snoc.
  rewrite FE in Fl.
  destruct (ltb _ 0%Qc || ltb _ 0%Qc) eqn:Cond; cbn [negb] in Fl.
  - (* the point is skipped *)
    injection H as <-. rewrite app_nil_r in Fl.
    split; [exact SC2|]. split; [exact Base'|]. rewrite Fl. exact Best.
  - destruct Best as [(Fd & -> & ->)|(c & -> & -> & SVc & FM)].
    + injection H as <-. split; [exact SC2|]. split; [exact Base'|].
      right. eexists. split; [reflexivity|]. cbn [peak_after flex priority
        saving_cost saving_co2]. split; [reflexivity|]. split; [exact SV|].
      rewrite Fl, Fd. cbn [app]. now apply first_minimum_one.
    + destruct (ltb peak (peak_after c)) eqn:E.
      * injection H as <-. apply ltb_lt in E.
        split; [exact SC2|]. split; [exact Base'|].
        right. eexists. split; [reflexivity|]. cbn [peak_after flex priority
          saving_cost saving_co2]. split; [reflexivity|]. split; [exact SV|].
        rewrite Fl. eapply first_minimum_better; eassumption.
      * injection H as <-. apply ltb_ge in E.
        split; [exact SC2|]. split; [exact Base'|].
        right. exists c. repeat split; auto.
        rewrite Fl. eapply first_minimum_kept; eassumption.
Qed.

Lemma ideal_peak_loop_inv (g : Globals) (rest : list (Z * Z)) :
  forall done st st',
  ideal_peak_inv g done st -> (done = [] -> rest = [] \/ hd (0, 0) rest = (0, 0)) ->
  for_each ideal_peak_step rest st = Some st' ->
  ideal_peak_inv g (done ++ rest) st'.
Proof.
  induction rest as [|pt rest IH]; intros done st st' I F H; simpl in H.
  - injection H as <-. now rewrite app_nil_r.
  - apply bind_Some in H. destruct H as (st1 & S1 & H).
    replace (done ++ pt :: rest) with ((done ++ [pt]) ++ rest)
      by now rewrite <- app_assoc.
    eapply IH; [| |exact H].
    + eapply ideal_peak_step_inv; [exact I| |exact S1].
      intro D. destruct (F D) as [N|N]; [discriminate|exact N].
    + intro D. destruct done; discriminate.
Qed.

Lemma ideal_peak_loop_total (g : Globals) (rest : list (Z * Z))
      (st : Globals * option (Qc * Qc * Qc) * option Combo * option Qc) :
  List.length (BASE_LOAD g) = 24%nat -> List.length (CO2_PER_HOUR g) = 24%nat ->
  same_catalog g (fst (fst (fst st))) ->
  exists st', for_each ideal_peak_step rest st = Some st'.
Proof.
  intros L C SC.
  destruct (for_each_total (fun st => same_catalog g (fst (fst (fst st))))
              ideal_peak_step rest) with (s := st) as (st' & H & _);
    [|exact SC|now exists st'].
  intros [[[g1 bl] bc] bp] [flex pr] _ SC1. cbn [fst] in SC1.
  unfold ideal_peak_step.
  destruct (lds_recalc_total (set_vars g1 flex pr)) as (g2 & R).
  { cbn [set_vars BASE_LOAD]. destruct SC1 as (_ & B & _). congruence. }
  rewrite R. cbn [bind].
  pose proof (same_catalog_step _ _ _ _ _ SC1 R) as (SC2 & _ & _ & _ & Lb & La).
  assert (C2 : List.length (CO2_PER_HOUR g2) = 24%nat).
  { destruct SC2 as (_ & _ & D). congruence. }
  destruct (max_total (before_load g2)) as (pb & Mb).
  { intro E. rewrite E in Lb. simpl in Lb. lia. }
  destruct (emissions_total (before_load g2) (CO2_PER_HOUR g2)) as (e0 & E0);
    [congruence|exact C2|].
  destruct (max_total (after_load g2)) as (pk & Ma).
  { intro E. rewrite E in La. simpl in La. lia. }
  destruct (emissions_total (after_load g2) (CO2_PER_HOUR g2)) as (e1 & E1);
    [congruence|exact C2|].
  destruct bl as [[[b1 b2] b3]|]; cbv zeta; cbn [bind];
    rewrite ?Mb; cbn [bind]; rewrite ?E0; cbn [bind];
    rewrite Ma; cbn [bind]; rewrite E1; cbn [bind];
    (destruct (ltb _ 0%Qc || ltb _ 0%Qc);
     [eexists; split; [reflexivity|exact SC2]|]);
    (destruct (match bp with Some bp0 => ltb pk bp0 | None => true end);
     eexists; (split; [reflexivity|exact SC2])).
Qed.


Lemma filter_nil_iff {A : Type} (f : A -> bool) (l : list A) :
  filter f l = [] <-> forall x, In x l -> f x = false.
Proof.
  induction l as [|x l IH]; simpl; [tauto|].
  destruct (f x) eqn:E; split.
  - discriminate.
  - intro H. specialize (H x (or_introl eq_refl)). congruence.
  - intros H y [<-|Hy]; [assumption|]. now apply IH.
  - intro H. apply IH. intros y Hy. apply H. now right.
Qed.

Lemma filter_all {A : Type} (f : A -> bool) (l : list A) :
  (forall x, In x l -> f x = true) -> filter f l = l.
Proof.
  induction l as [|x l IH]; intro H; simpl; [reflexivity|].
  rewrite (H x (or_introl eq_refl)). f_equal. apply IH. intros y Hy. apply H.
  now right.
Qed.

Lemma feasible_iff (g : Globals) (pt : Z * Z) :
  feasible g pt = true <->
  exists saving_cost saving_co2,
    savings_at g pt = Some (saving_cost, saving_co2) /\
    (0 <= saving_cost)%Qc /\ (0 <= saving_co2)%Qc.
Proof.
  unfold feasible. destruct (savings_at g pt) as [[sc sco2]|]; split.
  - intro H. apply negb_true_iff, orb_false_iff in H. destruct H as (H1 & H2).
    apply ltb_ge in H1, H2. now exists sc, sco2.
  - intros (a & b & E & H1 & H2). injection E as <- <-.
    apply negb_true_iff, orb_false_iff. split; now apply ltb_ge.
  - discriminate.
  - intros (a & b & E & _). discriminate.
Qed.

(** C5.  The constrained ideal-peak optimizer reports [Infeasible] exactly
    when no point of the 121-point grid has both a cost saving and a CO2
    saving of at least 0 against the baseline (a saving of exactly 0
    passes); otherwise it reports the first feasible point of minimal
    after-peak.  For a catalog whose powers are all 0 every saving is 0, so
    it reports the point (0, 0), not [Infeasible]. *)
Theorem constrained_search_is_infeasible_iff_no_point_is_feasible (g : Globals) :
  List.length (BASE_LOAD g) = 24%nat ->
  List.length (CO2_PER_HOUR g) = 24%nat ->
  exists g' r,
    find_ideal_peak_settings g = Some (g', r) /\
    (r = Infeasible <-> forall pt, In pt grid_points -> feasible g pt = false) /\
    (forall pt,
       feasible g pt = true <->
       exists saving_cost saving_co2,
         savings_at g pt = Some (saving_cost, saving_co2) /\
         (0 <= saving_cost)%Qc /\ (0 <= saving_co2)%Qc) /\
    (forall c red pct,
       r = Found c red pct ->
       first_minimum (peak_at g) (filter (feasible g) grid_points)
                     (flex c, priority c) (peak_after c) /\
       savings_at g (flex c, priority c) = Some (saving_cost c, saving_co2 c) /\
       recalculate_schedules (set_vars g (flex c) (priority c)) = Some g') /\
    (Forall (fun a => power_kW a = 0%Qc) (ASSETS g) ->
     exists c red pct,
       r = Found c red pct /\ flex c = 0 /\ priority c = 0 /\
       saving_cost c = 0%Qc /\ saving_co2 c = 0%Qc) /\
    List.length grid_points = 121%nat.
Proof.
  intros L C. unfold find_ideal_peak_settings. rewrite grid_loop_points.
  destruct (ideal_peak_loop_total g grid_points (g, None, None, None) L C
              (same_catalog_refl g)) as ([[[g1 baseline] best_combo] bp] & H).
  rewrite H. cbn [bind].
  assert (I0 : ideal_peak_inv g [] (g, None, None, None)).
  { split; [apply same_catalog_refl|]. split; left; auto. }
  pose proof (ideal_peak_loop_inv g grid_points [] _ _ I0
                (fun _ => or_intror eq_refl) H) as (SC & _ & Best).
  cbn [app] in Best.
  destruct best_combo as [c|].
  - (* a combination was found *)
    destruct Best as [(_ & E & _)|(c' & E & _ & SV & FM)]; [discriminate|].
    injection E as <-.
    destruct (lds_recalc_total (set_vars g1 (flex c) (priority c))) as (g2 & R).
    { cbn [set_vars BASE_LOAD]. destruct SC as (_ & B & _). congruence. }
    pose proof (same_catalog_step _ _ _ _ _ SC R) as (SC2 & R2 & _).
    destruct (slider_change_total (set_vars g1 (flex c) (priority c)) g2)
      as (OF & _); auto.
    { cbn [set_vars BASE_LOAD]. destruct SC as (_ & B & _). congruence. }
    { cbn [set_vars CO2_PER_HOUR]. destruct SC as (_ & _ & B). congruence. }
    rewrite OF. cbn [bind].
    assert (R3 : recalculate_schedules g2 = Some g2).
    { transitivity (recalculate_schedules (set_vars g (flex c) (priority c)));
        [|exact R2].
      pose proof (lds_recalc_keeps _ _ R) as (_ & _ & _ & F2 & P2 & _).
      destruct SC2 as (A & B & D).
      apply lds_recalc_static; cbn [set_vars ASSETS BASE_LOAD CO2_PER_HOUR
        flex_var priority_var] in *; assumption. }
    destruct (slider_change_total g2 g2) as (_ & OP); auto.
    { destruct SC2 as (_ & B & _). congruence. }
    { destruct SC2 as (_ & _ & B). congruence. }
    rewrite OP. cbn [bind]. rewrite pct_of_guarded. cbn [bind].
    eexists. eexists. split; [reflexivity|].
    assert (Ib : In (flex c, priority c) (filter (feasible g) grid_points))
      by (eapply first_minimum_In; eassumption).
    apply filter_In in Ib. destruct Ib as (Ig & Fc).
    split; [|split; [apply feasible_iff|split; [|split]]].
    + split; [discriminate|]. intro N. rewrite (N _ Ig) in Fc. discriminate.
    + intros c0 red pct E. injection E as <- _ _. auto.
    + intro Z0. eexists. eexists. eexists. split; [reflexivity|].
      assert (A : forall pt, In pt grid_points ->
                    peak_at g pt = Py.max (BASE_LOAD g) /\
                    savings_at g pt = Some (0%Qc, 0%Qc) /\ feasible g pt = true).
      { intros pt _. now apply zero_power_points. }
      rewrite filter_all in FM by (intros pt Hp; now apply A).
      destruct (max_total (BASE_LOAD g)) as (m & Mx).
      { intro E. rewrite E in L. discriminate. }
      assert (E00 : (flex c, priority c) = (0, 0)).
      { change grid_points with ((0, 0) :: tl grid_points) in FM.
        eapply first_minimum_constant; [|exact FM].
        intros q Hq. rewrite <- Mx. apply A. exact Hq. }
      destruct (A _ Ig) as (_ & S0 & _). rewrite SV in S0.
      injection E00 as -> ->. injection S0 as -> ->. auto.
    + reflexivity.
  - (* no combination *)
    destruct Best as [(Fn & _)|(c' & E & _)]; [|discriminate].
    eexists. eexists. split; [reflexivity|].
    split; [|split; [apply feasible_iff|split; [|split]]].
    + split; auto. intros _. now apply filter_nil_iff.
    + intros c0 red pct E. discriminate.
    + intro Z0. exfalso.
      assert (F : feasible g (0, 0) = true) by now apply zero_power_points.
      rewrite (proj1 (filter_nil_iff _ _) Fn (0, 0)) in F; [discriminate|].
      now left.
    + reflexivity.
Qed.

End IdealPeak.
(* ------------------------------------------------------------------ *)
(** * SmartLDS: the recompute at a participation of 0 percent *)
(* ------------------------------------------------------------------ *)

Section LDSZeroFlex.


Import SmartLDS SpecLDS.

Lemma percent_not_positive (x : Qc) :
  (x <= 0)%Qc -> leb (x / lit 100 1)%Qc 0%Qc = true.
Proof.
  intro H. apply leb_le. unfold Qcdiv.
  replace 0%Qc with (0 * / lit 100 1)%Qc by ring.
  apply Qcmult_le_compat_r; [exact H|]. now vm_compute.
Qed.

(** At a participation that is not positive a turn of the placement loop
    leaves the curve alone, and the asset either as it is (power not
    positive) or with its before hours copied. *)
Lemma lds_place_zero (p w wg : Qc) (l l' : list Asset) (al al' : list Qc) (i : nat) :
  leb p 0%Qc = true ->
  place p w wg (l, al) i = Some (l', al') ->
  al' = al /\
  exists a, nth_error l i = Some a /\
    ((leb (power_kW a) 0%Qc = true /\ l' = l) \/
     l' = update i (set_after_hours a (before_hours a)) l).
Proof.
  intros P H. apply lds_place_inv in H. destruct H as (a & N & H).
  rewrite P in H. cbn [orb] in H.
  destruct H as [(E & -> & ->)|[(_ & _ & -> & ->)|(_ & E & _)]];
    [| |discriminate].
  - split; [reflexivity|]. exists a. auto.
  - split; [reflexivity|]. exists a. auto.
Qed.

Lemma lds_zero_loop (p w wg : Qc) (idxs : list nat) :
  leb p 0%Qc = true ->
  forall l l' al al',
  for_each (place p w wg) idxs (l, al) = Some (l', al') ->
  al' = al /\
  forall i a', nth_error l' i = Some a' ->
    exists a, nth_error l i = Some a /\
      ((a' = a /\ (~ In i idxs \/ leb (power_kW a) 0%Qc = true)) \/
       a' = set_after_hours a (before_hours a)).
Proof.
  intro P. induction idxs as [|j idxs IH]; intros l l' al al' H; simpl in H.
  - injection H as <- <-. split; [reflexivity|]. intros i a' N.
    exists a'. split; [exact N|]. left. split; [reflexivity|]. left. intros [].
  - apply bind_Some in H. destruct H as ([l1 al1] & S & H).
    apply lds_place_zero in S; [|exact P]. destruct S as (-> & a & N & S).
    destruct (IH _ _ _ _ H) as (-> & R). split; [reflexivity|].
    intros i a' N'. destruct (R i a' N') as (a1 & N1 & C).
    destruct S as [(E & ->)| ->].
    + exists a1. split; [exact N1|].
      destruct C as [(-> & [C|C])|C]; auto.
      destruct (Nat.eq_dec j i) as [<-|D].
      * left. split; [reflexivity|]. right. congruence.
      * left. split; [reflexivity|]. left. intros [?|?]; auto.
    + destruct (Nat.eq_dec j i) as [<-|D].
      * rewrite nth_error_update_eq in N1 by (apply nth_error_Some; congruence).
        injection N1 as <-. exists a. split; [exact N|]. right.
        destruct C as [(-> & _)| ->]; reflexivity.
      * rewrite nth_error_update_neq in N1 by exact D.
        exists a1. split; [exact N1|].
        destruct C as [(-> & [C|C])|C]; auto.
        left. split; [reflexivity|]. left. intros [?|?]; auto.
Qed.

(** The script at a participation of 0 percent (or less): every asset ends
    with its before hours copied as its after hours, and the after curve is
    the before curve. *)
Lemma lds_zero_flex_copies (g g' : Globals) :
  (flex_var g <= 0)%Qc ->
  recalculate_schedules g = Some g' ->
  after_load g' = before_load g' /\
  Forall (fun a => after_hours a = before_hours a) (ASSETS g').
Proof.
  intros F H. apply lds_recalc_inv in H.
  destruct H as (bl & cb & l2 & al & ca & _ & _ & L & _ & ->).
  cbn [after_load before_load ASSETS].
  apply lds_zero_loop in L; [|now apply percent_not_positive].
  destruct L as (-> & R). split; [reflexivity|].
  apply Forall_forall. intros a' Ia. apply In_nth_error in Ia.
  destruct Ia as (i & N). destruct (R i a' N) as (a & N0 & C).
  assert (exists a0, a = set_naive (reset a0)) as (a0 & ->).
  { apply nth_error_In in N0. rewrite map_map in N0. apply in_map_iff in N0.
    destruct N0 as (a0 & <- & _). now exists a0. }
  destruct C as [(-> & C)| ->]; [|reflexivity].
  cbn [after_hours before_hours set_naive reset set_before_hours set_after_hours].
  unfold naive_hours.
  destruct C as [C|C].
  - (* not visited: the asset is disabled *)
    destruct (enabled (reset a0)) eqn:E; [|reflexivity].
    exfalso. apply C. apply lds_In_enabled_sorted. eexists. split; [exact N0|].
    exact E.
  - cbn [power_kW set_naive set_before_hours] in C.
    rewrite C. cbn [negb]. now rewrite andb_false_r.
Qed.

End LDSZeroFlex.


(* ------------------------------------------------------------------ *)
(** * Scenario scaling *)
(* ------------------------------------------------------------------ *)

Section Scenarios.

Import Logic Spec.

Lemma scenario_factor_spec (sc : Scenario) (label : string) :
  scenario_factor sc label = keyword_factor sc label.
Proof.
  unfold scenario_factor, keyword_factor, categories, matches. simpl.
  rewrite !orb_false_r. reflexivity.
Qed.

Lemma comprehension_nth {A B : Type} (f : A -> option B) (l : list A) (l' : list B) :
  comprehension f l = Some l' ->
  forall i y, nth_error l' i = Some y ->
  exists x, nth_error l i = Some x /\ f x = Some y.
Proof.
  revert l'. induction l as [|x l IH]; intros l' H i y N; simpl in H.
  - injection H as <-. destruct i; discriminate.
  - apply bind_Some in H. destruct H as (y0 & F & H).
    apply bind_Some in H. destruct H as (ys & R & H). injection H as <-.
    destruct i as [|i]; simpl in N.
    + injection N as <-. now exists x.
    + destruct (IH _ R i y N) as (x' & N' & F'). now exists x'.
Qed.

Lemma nth_error_combine_seq {A : Type} (l : list A) (s i j : nat) (a : A) :
  nth_error (combine (seq s (List.length l)) l) i = Some (j, a) ->
  j = (s + i)%nat /\ nth_error l i = Some a.
Proof.
  revert s i. induction l as [|x l IH]; intros s i H; simpl in H.
  - destruct i; discriminate.
  - destruct i as [|i]; simpl in H.
    + injection H as <- <-. split; [lia|reflexivity].
    + apply IH in H. destruct H as (-> & H). split; [lia|exact H].
Qed.

Lemma scale_assets_nth (sc : Scenario) (bp : list (nat * Qc)) (l l' : list Asset) :
  scale_assets sc bp l = Some l' ->
  forall i a', nth_error l' i = Some a' ->
  exists a base,
    nth_error l i = Some a /\ dict_getitem Nat.eqb bp i = Some base /\
    a' = set_power_kw a (base * keyword_factor sc (appliance a))%Qc.
Proof.
  unfold scale_assets. intros H i a' N.
  destruct (comprehension_nth _ _ _ H i a' N) as ([j a] & Nj & F).
  apply nth_error_combine_seq in Nj. destruct Nj as (-> & Na). simpl in F.
  apply bind_Some in F. destruct F as (base & B & F). injection F as <-.
  exists a, base. rewrite scenario_factor_spec. auto.
Qed.

(** What [apply_scenario] of [logic.py] does to the catalog. *)
Lemma logic_apply_scenario (s s' : Simulator) (name : string) :
  apply_scenario s name = Some s' ->
  exists sc,
    dict_getitem String.eqb (scenarios s) name = Some sc /\
    current_scenario s' = sc /\
    scenarios s' = scenarios s /\ base_power s' = base_power s /\
    List.length (assets s') = List.length (assets s) /\
    forall i a', nth_error (assets s') i = Some a' ->
    exists a base,
      nth_error (assets s) i = Some a /\
      dict_getitem Nat.eqb (base_power s) i = Some base /\
      appliance a' = appliance a /\
      power_kw a' = (base * keyword_factor sc (appliance a))%Qc.
Proof.
  unfold apply_scenario. intro H.
  apply bind_Some in H. destruct H as (sc & S & H).
  apply bind_Some in H. destruct H as (l1 & SA & H).
  exists sc. split; [exact S|].
  pose proof (recalculate_assets _ _ H) as K.
  apply recalculate_inv in H.
  destruct H as (s1 & l' & al' & c' & _ & _ & ->). cbn [assets current_scenario
    scenarios base_power] in *.
  repeat split; try reflexivity.
  { apply (f_equal (@List.length _)) in K. rewrite !length_map in K. rewrite K.
    unfold scale_assets in SA. apply comprehension_length in SA.
    unfold enumerate in SA. rewrite length_combine, length_seq in SA. lia. }
  intros i a' N.
  destruct (map_eq_nth _ _ _ _ _ K N) as (a1 & N1 & E).
  rewrite nth_error_map in N1.
  destruct (nth_error l1 i) as [a0|] eqn:N0; [|discriminate].
  cbn [option_map] in N1. injection N1 as <-.
  apply clear_after_eq in E.
  destruct (scale_assets_nth _ _ _ _ SA i a0 N0) as (a & base & Na & B & ->).
  exists a, base. rewrite E. auto.
Qed.


Lemma logic_scenario_twice (s s1 s2 : Simulator) (name : string) :
  apply_scenario s name = Some s1 -> apply_scenario s1 name = Some s2 ->
  map power_kw (assets s2) = map power_kw (assets s1).
Proof.
  intros H1 H2.
  destruct (logic_apply_scenario _ _ _ H1) as (sc & S & _ & ES & EB & L1 & A1).
  destruct (logic_apply_scenario _ _ _ H2) as (sc' & S' & _ & _ & _ & L2 & A2).
  rewrite ES, S in S'. injection S' as <-.
  apply nth_error_ext. intro n. rewrite !nth_error_map.
  destruct (nth_error (assets s2) n) as [a2|] eqn:N2.
  - destruct (A2 n a2 N2) as (a1 & base & N1 & B & Ap & P). rewrite N1.
    destruct (A1 n a1 N1) as (a & base' & N & B' & Ap' & P').
    rewrite EB, B' in B. injection B as <-. cbn [option_map].
    now rewrite P, P', Ap'.
  - apply nth_error_None in N2. rewrite L2 in N2. apply nth_error_None in N2.
    now rewrite N2.
Qed.

End Scenarios.

Section LDSScenarios.

Import SmartLDS SpecLDS.

Lemma winter_power_rule (a : Asset) :
  winter_power a = (base_power_kW a * winter_rule (appliance a))%Qc.
Proof.
  unfold winter_power, winter_rule.
  destruct (_ || _); [reflexivity|]. destruct (_ || _); [reflexivity|].
  destruct (contains _ _); reflexivity.
Qed.

Lemma lds_apply_winter (g g' : Globals) :
  apply_scenario g "Winter weekday" = Some g' ->
  List.length (ASSETS g') = List.length (ASSETS g) /\
  forall i a', nth_error (ASSETS g') i = Some a' ->
  exists a,
    nth_error (ASSETS g) i = Some a /\
    appliance a' = appliance a /\ base_power_kW a' = base_power_kW a /\
    power_kW a' = (base_power_kW a * winter_rule (appliance a))%Qc.
Proof.
  unfold apply_scenario. cbn [String.eqb Ascii.eqb Bool.eqb andb]. intro H.
  apply bind_Some in H. destruct H as (g1 & R & H).
  apply bind_Some in H. destruct H as (st & _ & H). injection H as <-.
  apply lds_recalc_keeps in R. destruct R as (K & _).
  cbn [with_scenario ASSETS] in K. unfold scale_all in K. split.
  { apply (f_equal (@List.length _)) in K. now rewrite !length_map in K. }
  intros i a' N.
  destruct (map_eq_nth _ _ _ _ _ K N) as (a1 & N1 & E).
  rewrite nth_error_map in N1.
  destruct (nth_error (ASSETS g) i) as [a|] eqn:Na; [|discriminate].
  cbn [option_map] in N1. injection N1 as <-.
  exists a. split; [reflexivity|].
  pose proof (f_equal appliance E) as E1.
  pose proof (f_equal base_power_kW E) as E2.
  pose proof (f_equal power_kW E) as E3.
  cbn in E1, E2, E3. rewrite winter_power_rule in E3. auto.
Qed.

Lemma lds_winter_twice (g g1 g2 : Globals) :
  apply_scenario g "Winter weekday" = Some g1 ->
  apply_scenario g1 "Winter weekday" = Some g2 ->
  map power_kW (ASSETS g2) = map power_kW (ASSETS g1).
Proof.
  intros H1 H2.
  destruct (lds_apply_winter _ _ H1) as (L1 & A1).
  destruct (lds_apply_winter _ _ H2) as (L2 & A2).
  apply nth_error_ext. intro n. rewrite !nth_error_map.
  destruct (nth_error (ASSETS g2) n) as [a2|] eqn:N2.
  - destruct (A2 n a2 N2) as (a1 & N1 & Ap & B & P). rewrite N1.
    destruct (A1 n a1 N1) as (a & N & Ap' & B' & P').
    cbn [option_map]. now rewrite P, P', B', Ap'.
  - apply nth_error_None in N2. rewrite L2 in N2. apply nth_error_None in N2.
    now rewrite N2.
Qed.

End LDSScenarios.

(* ------------------------------------------------------------------ *)
(** * Scenario scaling: the two programs differ *)
(* ------------------------------------------------------------------ *)

Section ScenarioClaims.

Import Spec SpecLDS Examples.

(** C8, as stated, fails on the script: under "Winter weekday" its
    [apply_scenario] gives "Fridge defrost cycles", which matches no
    category keyword, 1.2 times its base power (24 kW for 20 kW), where the
    product of the matching factors is 1. *)
Lemma winter_weekday_scales_unmatched_labels :
  exists g' a a',
    SmartLDS.apply_scenario original_four_globals "Winter weekday" = Some g' /\
    nth_error (SmartLDS.ASSETS original_four_globals) 2 = Some a /\
    nth_error (SmartLDS.ASSETS g') 2 = Some a' /\
    SmartLDS.appliance a = "Fridge defrost cycles"%string /\
    keyword_factor winter_weekday (SmartLDS.appliance a) = 1%Qc /\
    SmartLDS.power_kW a' = lit 24 1 /\
    SmartLDS.power_kW a'
    <> (SmartLDS.base_power_kW a * keyword_factor winter_weekday (SmartLDS.appliance a))%Qc.
Proof.
  destruct (SmartLDS.apply_scenario original_four_globals "Winter weekday")
    as [g'|] eqn:E; [|vm_compute in E; discriminate].
  destruct (lds_apply_winter _ _ E) as (L & A).
  destruct (nth_error (SmartLDS.ASSETS g') 2) as [a'|] eqn:N.
  2:{ apply nth_error_None in N. rewrite L in N. simpl in N. lia. }
  destruct (A 2%nat a' N) as (a & Na & Ap & B & P).
  cbn in Na. injection Na as <-.
  exists g', (lds_asset "Supermarket" "Fridge defrost cycles" (lit 20 1) 4 0 24 false), a'.
  cbn [SmartLDS.appliance SmartLDS.base_power_kW lds_asset] in *.
  assert (K : keyword_factor winter_weekday "Fridge defrost cycles" = 1%Qc)
    by reflexivity.
  assert (P24 : SmartLDS.power_kW a' = lit 24 1).
  { rewrite P. now apply Qc_is_canon. }
  repeat split; auto.
  rewrite P24, K. intro H. apply (f_equal this) in H. vm_compute in H. discriminate.
Qed.


(** C8, amended.  In [logic.py], applying a scenario sets every asset's
    power to its captured base power times the product of the scenario's
    factors over the categories whose keywords the label contains (1 for an
    absent category): under "Winter weekday" a label with "EV" and no other
    keyword gets exactly 1.4, one with "EV" and "HVAC" gets 1.4 x 1.8.  In
    the script, "Winter weekday" applies to the captured base power the
    factor of the first rule that the label passes: 1.8 for "Heat pumps" or
    "HVAC", else 1.4 for "EV" or "charg", else 1.6 for "Sauna", else 1.2.  In
    both, applying the scenario again leaves the powers as they are. *)
Theorem scenario_scaling_from_base_power :
  (forall s s' name,
     Logic.apply_scenario s name = Some s' ->
     exists sc,
       dict_getitem String.eqb (Logic.scenarios s) name = Some sc /\
       Logic.current_scenario s' = sc /\
       Logic.scenarios s' = Logic.scenarios s /\
       Logic.base_power s' = Logic.base_power s /\
       List.length (Logic.assets s') = List.length (Logic.assets s) /\
       forall i a', nth_error (Logic.assets s') i = Some a' ->
       exists a base,
         nth_error (Logic.assets s) i = Some a /\
         dict_getitem Nat.eqb (Logic.base_power s) i = Some base /\
         appliance a' = appliance a /\
         power_kw a' = (base * keyword_factor sc (appliance a))%Qc) /\
  (forall sc label, Logic.scenario_factor sc label = keyword_factor sc label) /\
  dict_getitem String.eqb get_scenarios "Winter weekday"%string = Some winter_weekday /\
  (forall label,
     contains "EV" label = true ->
     contains "HVAC" label = false -> contains "Heat" label = false ->
     contains "Battery" label = false -> contains "Sauna" label = false ->
     keyword_factor winter_weekday label = lit 14 10) /\
  (forall label,
     contains "EV" label = true -> contains "HVAC" label = true ->
     contains "Battery" label = false -> contains "Sauna" label = false ->
     keyword_factor winter_weekday label = (lit 14 10 * lit 18 10)%Qc) /\
  (forall s s1 s2 name,
     Logic.apply_scenario s name = Some s1 ->
     Logic.apply_scenario s1 name = Some s2 ->
     map power_kw (Logic.assets s2) = map power_kw (Logic.assets s1)) /\
  (forall g g',
     SmartLDS.apply_scenario g "Winter weekday" = Some g' ->
     List.length (SmartLDS.ASSETS g') = List.length (SmartLDS.ASSETS g) /\
     forall i a', nth_error (SmartLDS.ASSETS g') i = Some a' ->
     exists a,
       nth_error (SmartLDS.ASSETS g) i = Some a /\
       SmartLDS.appliance a' = SmartLDS.appliance a /\
       SmartLDS.base_power_kW a' = SmartLDS.base_power_kW a /\
       SmartLDS.power_kW a'
       = (SmartLDS.base_power_kW a * winter_rule (SmartLDS.appliance a))%Qc) /\
  (forall g g1 g2,
     SmartLDS.apply_scenario g "Winter weekday" = Some g1 ->
     SmartLDS.apply_scenario g1 "Winter weekday" = Some g2 ->
     map SmartLDS.power_kW (SmartLDS.ASSETS g2)
     = map SmartLDS.power_kW (SmartLDS.ASSETS g1)).
Proof.
  split; [exact logic_apply_scenario|].
  split; [exact scenario_factor_spec|].
  split; [reflexivity|].
  split; [|split; [|split; [exact logic_scenario_twice|
                           split; [exact lds_apply_winter|exact lds_winter_twice]]]].
  - intros label E H1 H2 B S. unfold keyword_factor, categories, matches.
    cbn [fold_left existsb fst snd]. rewrite E, H1, H2, B, S. cbn [orb].
    now apply Qc_is_canon.
  - intros label E H B S. unfold keyword_factor, categories, matches.
    cbn [fold_left existsb fst snd]. rewrite E, H, B, S. cbn [orb].
    now apply Qc_is_canon.
Qed.

End ScenarioClaims.

(* ------------------------------------------------------------------ *)
(** * Where the modular program departs from the script *)
(* ------------------------------------------------------------------ *)

Section WindowClaims.

Import Spec SpecLDS Examples.

Lemma equal_bounds_full_day (h : Z) :
  0 <= h <= 23 ->
  Logic.get_window_hours h h = range h 24 ++ range 0 h /\
  len (Logic.get_window_hours h h) = 24.
Proof.
  intro H. unfold Logic.get_window_hours, Logic.NUM_HOURS.
  rewrite Z.ltb_irrefl. split; [reflexivity|].
  rewrite len_app, !len_range. lia.
Qed.

Lemma form_accepts_equal_bounds (o ap : string) (pw : Qc) (d h : Z) (v : bool) :
  1 <= h <= 23 -> 1 <= d <= 24 ->
  FlexiCityApp._read_form_asset o ap pw d h h v = inr (o, ap, pw, d, h, h, v).
Proof.
  intros H D. unfold FlexiCityApp._read_form_asset.
  change (FlexiCityApp._window_hours h h) with (Logic.get_window_hours h h).
  destruct (equal_bounds_full_day h) as (_ & ->); [lia|].
  replace ((0 <=? h) && (h <? 24)) with true by lia.
  replace ((1 <=? h) && (h <=? 24)) with true by lia.
  cbn [negb]. replace (24 =? 0) with false by reflexivity.
  replace (d <? 1) with false by lia. replace (24 <? d) with false by lia.
  reflexivity.
Qed.

(** C3: the claim fails on the code at start = end = 5.  [get_window_hours(5,
    5)] is the whole day from hour 5 on, 24 hours (the window of equal
    bounds is never empty, and no window of in-range bounds is); the form of
    the modular program accepts such a specification, here with a duration
    of one hour; the form of the script refuses it as an empty window. *)
Theorem equal_bounds_give_the_full_day_and_are_accepted :
  Logic.get_window_hours 5 5 =
    [5; 6; 7; 8; 9; 10; 11; 12; 13; 14; 15; 16; 17; 18; 19; 20; 21; 22; 23;
     0; 1; 2; 3; 4] /\
  (forall h, 0 <= h <= 23 -> len (Logic.get_window_hours h h) = 24) /\
  (forall start end_, 0 <= start <= 23 -> 0 <= end_ <= 24 ->
     Logic.get_window_hours start end_ <> []) /\
  (forall pw, FlexiCityApp._read_form_asset "Custom house" "Appliance" pw 1 5 5 true
              = inr ("Custom house"%string, "Appliance"%string, pw, 1, 5, 5, true)) /\
  (forall o ap pw d h v, 1 <= h <= 23 -> 1 <= d <= 24 ->
     FlexiCityApp._read_form_asset o ap pw d h h v = inr (o, ap, pw, d, h, h, v)) /\
  (forall pw, SmartLDS.read_form_values "Custom house" "Appliance" pw 1 5 5 true true
              = inl "Start and end hour cannot be the same (empty window)"%string).
Proof.
  split; [reflexivity|]. split; [intros h H; now apply equal_bounds_full_day|].
  split; [intros; now apply window_nonempty|].
  split; [intro; apply form_accepts_equal_bounds; lia|].
  split; [exact form_accepts_equal_bounds|reflexivity].
Qed.

(** C2: the claim fails on [logic.py] at flex participation 0.  With the
    four hero assets the recompute leaves the after curve equal to the
    before curve, but it does score and re-place every asset: the after hours
    of the City EV fleet become 23, 22, 21, 20 where its before hours are 17
    to 20.  The other half of the claim holds there: an asset without before
    hours is left without after hours.  The script does short-circuit: at a
    participation of 0 percent every asset ends with its before hours copied
    and the after curve is the before curve, as on its own first four
    assets. *)
Theorem zero_flex_still_replaces_the_hours :
  Logic.flex_participation hero_at_zero_flex = 0%Qc /\
  option_map schedule (Logic.recalculate hero_at_zero_flex) =
    Some [ ([17; 18; 19; 20], [23; 22; 21; 20]);
           ([14; 15; 16], [14; 15; 16]);
           ([0; 1; 2; 3], [3; 4; 5; 6]);
           ([18; 19; 20; 21; 22; 23], [23; 22; 21; 20; 19; 18]) ] /\
  option_map (fun s => values (Logic.after_load s)) (Logic.recalculate hero_at_zero_flex)
  = option_map (fun s => values (Logic.before_load s))
               (Logic.recalculate hero_at_zero_flex) /\
  (forall s s', Logic.recalculate s = Some s' ->
     Forall (fun a => Database.before_hours a = [] -> Database.after_hours a = [])
            (Logic.assets s')) /\
  (forall g g', (SmartLDS.flex_var g <= 0)%Qc ->
     SmartLDS.recalculate_schedules g = Some g' ->
     SmartLDS.after_load g' = SmartLDS.before_load g' /\
     Forall (fun a => SmartLDS.after_hours a = SmartLDS.before_hours a)
            (SmartLDS.ASSETS g')) /\
  option_map lds_schedule
    (SmartLDS.recalculate_schedules (globals_with original_four 0 50)) =
    Some [ ([17; 18; 19; 20], [17; 18; 19; 20]);
           ([14; 15; 16], [14; 15; 16]);
           ([0; 1; 2; 3], [0; 1; 2; 3]);
           ([18; 19; 20; 21; 22; 23], [18; 19; 20; 21; 22; 23]) ].
Proof.
  split; [reflexivity|]. split; [vm_compute; reflexivity|].
  split; [vm_compute; reflexivity|].
  split; [exact empty_before_empty_after|].
  split; [exact lds_zero_flex_copies|vm_compute; reflexivity].
Qed.

End WindowClaims.

(* ------------------------------------------------------------------ *)
(** * The theorems at concrete catalogs *)
(* ------------------------------------------------------------------ *)

Section Witnesses.

Import Spec SpecLDS Examples.

Lemma hero_assets_wf : Forall wf_asset hero_assets.
Proof. repeat constructor; unfold wf_asset; simpl; lia. Qed.

Lemma zero_flex_after_equals_before_witness :
  exists s', Logic.recalculate hero_at_zero_flex = Some s' /\
             Logic.after_load s' = Logic.before_load s'.
Proof.
  destruct (zero_flex_after_equals_before hero_at_zero_flex eq_refl) as (T & E).
  destruct (T hero_assets_wf eq_refl) as (s' & H).
  exists s'. split; [exact H|exact (E s' H)].
Defined.

Lemma energy_is_conserved_witness :
  exists s', Logic.recalculate hero_at_full_flex = Some s' /\
             sum (Logic.after_load s') = sum (Logic.before_load s').
Proof.
  assert (D : forall a, In a (Logic.assets hero_at_full_flex) ->
                        enabled a = true -> 0 <= duration_h a).
  { intros a Ia _. simpl in Ia.
    destruct Ia as [<-|[<-|[<-|[<-|[]]]]]; simpl; lia. }
  destruct (energy_is_conserved hero_at_full_flex D) as (T & E).
  destruct (T hero_assets_wf eq_refl) as (s' & H).
  exists s'. split; [exact H|exact (proj1 (E s' H))].
Defined.

Lemma before_hours_are_window_prefix_witness :
  exists s' a',
    Logic.recalculate (simulator_with [long_wash] 1%Qc (lit 1 2)) = Some s' /\
    nth_error (Logic.assets s') 0 = Some a' /\
    before_hours a' = [18; 19; 20; 21; 22; 23] /\
    List.length (before_hours a') = 6%nat.
Proof.
  destruct (before_hours_are_window_prefix
              (simulator_with [long_wash] 1%Qc (lit 1 2))) as (P & T).
  destruct T as (s' & H & _).
  { repeat constructor; unfold wf_asset; simpl; lia. }
  { reflexivity. }
  destruct (P s' H 0%nat long_wash eq_refl eq_refl) as (a' & N & _ & B & L6).
  { simpl. lia. }
  exists s', a'. split; [exact H|]. split; [exact N|].
  split; [exact B|]. apply L6; reflexivity.
Defined.

Lemma compute_stats_never_divides_by_zero_witness :
  exists st,
    Logic.compute_stats hero_at_full_flex = Some st /\
    Logic.cost_saving_pct st = 0%Qc.
Proof.
  destruct compute_stats_never_divides_by_zero as (C & _ & _ & G & _).
  destruct (C hero_at_full_flex eq_refl eq_refl eq_refl)
    as (st & pb & pa & co2b & co2a & H & _ & _ & _ & S).
  exists st. split; [exact H|].
  destruct S as (_ & _ & _ & _ & _ & _ & _ & -> & _).
  apply G. intro L. vm_compute in L. discriminate.
Defined.

Lemma min_peak_search_takes_first_minimum_witness :
  exists g' flex pr v,
    SmartLDS.find_optimal_settings original_four_globals = Some g' /\
    SmartLDS.flex_var g' = lit flex 1 /\ SmartLDS.priority_var g' = lit pr 1 /\
    first_minimum (peak_at original_four_globals) grid_points (flex, pr) v.
Proof.
  destruct (min_peak_search_takes_first_minimum original_four_globals
              eq_refl eq_refl)
    as (g' & flex & pr & v & H & _ & F & P & _ & FM & _).
  exists g', flex, pr, v. auto.
Defined.

Lemma constrained_search_witness :
  exists g' c red pct,
    SmartLDS.find_ideal_peak_settings zero_power_globals
      = Some (g', SmartLDS.Found c red pct) /\
    SmartLDS.flex c = 0 /\ SmartLDS.priority c = 0.
Proof.
  destruct (constrained_search_is_infeasible_iff_no_point_is_feasible
              zero_power_globals eq_refl eq_refl)
    as (g' & r & H & _ & _ & _ & Z0 & _).
  destruct Z0 as (c & red & pct & -> & F & P & _).
  { repeat constructor. }
  exists g', c, red, pct. auto.
Defined.

Lemma scenario_scaling_from_base_power_witness :
  exists s' a',
    Logic.apply_scenario hero_at_full_flex "Winter weekday" = Some s' /\
    nth_error (Logic.assets s') 0 = Some a' /\
    power_kw a' = (lit 80 1 * lit 14 10)%Qc.
Proof.
  destruct scenario_scaling_from_base_power as (A & _ & _ & EV & _).
  destruct (Logic.apply_scenario hero_at_full_flex "Winter weekday")
    as [s'|] eqn:E; [|vm_compute in E; discriminate].
  destruct (A _ _ _ E) as (sc & S & _ & _ & _ & L & N).
  injection S as <-.
  destruct (nth_error (Logic.assets s') 0) as [a'|] eqn:Na.
  2:{ apply nth_error_None in Na. rewrite L in Na. simpl in Na. lia. }
  destruct (N 0%nat a' Na) as (a & base & N0 & B & _ & P).
  injection N0 as <-. injection B as <-.
  exists s', a'. split; [first [exact E|reflexivity]|].
  split; [first [exact Na|reflexivity]|].
  rewrite P. f_equal. apply EV; reflexivity.
Defined.

Lemma variable_assets_are_placed_greedily_witness :
  exists s' a' al1 scores,
    Logic.recalculate hero_at_full_flex = Some s' /\
    nth_error (Logic.assets s') 0 = Some a' /\
    Logic.score_hours al1 (1 - lit 1 2)%Qc (lit 1 2) (Spec.window_of a') = Some scores /\
    List.length (after_hours a') = 4%nat /\
    greedy (Logic.scores_of scores) 4 (Spec.window_of a') (after_hours a').
Proof.
  destruct variable_assets_are_placed_greedily as (_ & R & _).
  destruct (Logic.recalculate hero_at_full_flex) as [s'|] eqn:E;
    [|vm_compute in E; discriminate].
  pose proof (recalculate_assets _ _ E) as K.
  destruct (nth_error (Logic.assets s') 0) as [a'|] eqn:Na.
  2:{ apply nth_error_None in Na. apply (f_equal (@List.length _)) in K.
      rewrite !length_map in K. rewrite K in Na. simpl in Na. lia. }
  destruct (map_eq_nth _ _ _ _ _ K Na) as (a0 & N0 & E0).
  cbn in N0. injection N0 as <-. apply clear_after_eq in E0.
  destruct (R hero_at_full_flex s' a' E) as (al1 & scores & S & LC & G).
  { eapply nth_error_In; eassumption. }
  { rewrite E0. reflexivity. }
  { rewrite E0. reflexivity. }
  { rewrite E0. reflexivity. }
  { rewrite E0. discriminate. }
  exists s', a', al1, scores. split; [first [exact E|reflexivity]|].
  split; [first [exact Na|reflexivity]|].
  split; [exact S|].
  assert (H4 : hours_needed a' = 4%nat) by (rewrite E0; reflexivity).
  rewrite H4 in LC, G. auto.
Defined.

End Witnesses.
(* ------------------------------------------------------------------ *)
(** * logic.py: further properties of the recompute *)
(* ------------------------------------------------------------------ *)

Section LogicMore.

Import Logic Spec.

Lemma before_loop_curve (l : list Asset) (bl : list Qc) :
  before_loop bl l =
  (bl' <- before_curve bl l ;; Some (map set_naive l, bl')).
Proof.
  revert bl. induction l as [|a l IH]; intro bl; simpl; [reflexivity|].
  rewrite before_place_eq.
  destruct (for_each _ (naive_hours a) bl) as [bl1|]; cbn [bind]; [|reflexivity].
  rewrite IH. destruct (before_curve bl1 l); reflexivity.
Qed.

Lemma naive_hours_forget (a : Asset) : naive_hours (forget_hours a) = naive_hours a.
Proof. reflexivity. Qed.

Lemma before_curve_reset (l : list Asset) (bl : list Qc) :
  before_curve bl (map forget_hours l) = before_curve bl l.
Proof.
  revert bl. induction l as [|a l IH]; intro bl; simpl; [reflexivity|].
  rewrite naive_hours_forget.
  destruct (for_each _ (naive_hours a) bl); cbn [bind]; [apply IH|reflexivity].
Qed.

Lemma for_each_ext2 {S A B : Type} (f : S -> A -> option S) (g : S -> B -> option S)
      (l1 : list A) (l2 : list B) :
  Forall2 (fun a b => forall s, f s a = g s b) l1 l2 ->
  forall s, for_each f l1 s = for_each g l2 s.
Proof.
  induction 1 as [|a b l1 l2 E _ IH]; intro s; simpl; [reflexivity|].
  rewrite E. destruct (g s b); cbn [bind]; [apply IH|reflexivity].
Qed.

Lemma before_cost_reset (l : list Asset) :
  before_cost (map set_naive (map forget_hours l)) = before_cost (map set_naive l).
Proof.
  unfold before_cost. apply for_each_ext2.
  induction l as [|a l IH]; simpl; constructor; [|exact IH].
  intro c. reflexivity.
Qed.

Lemma cleared_reset (l : list Asset) :
  map (fun a => set_after_hours a []) (map set_naive (map forget_hours l))
  = map (fun a => set_after_hours a []) (map set_naive l).
Proof. rewrite !map_map. apply map_ext. intro a. reflexivity. Qed.

Lemma recalculate_forget (s : Simulator) :
  recalculate s = recalculate (forget s).
Proof.
  unfold recalculate, _build_before_curve, forget.
  cbn [current_scenario assets scenarios base_power after_load flex_participation
       price_weight cost_after_cents].
  rewrite !before_loop_curve, before_curve_reset.
  destruct (before_curve _ (assets s)) as [bl|]; cbn [bind]; [|reflexivity].
  rewrite before_cost_reset.
  destruct (before_cost (map set_naive (assets s))) as [c|]; cbn [bind]; [|reflexivity].
  unfold _build_after_curve.
  cbn [current_scenario assets scenarios base_power before_load flex_participation
       price_weight cost_before_cents].
  rewrite cleared_reset. reflexivity.
Qed.

(** A recompute reads nothing of what an earlier recompute wrote: the
    schedules held by the assets, the two curves and the two costs can be
    forgotten beforehand without changing its outcome, a raise included. *)
Theorem recalculate_reads_no_stale_state (s : Simulator) :
  recalculate s = recalculate (forget s).
Proof. exact (recalculate_forget s). Qed.


(** The window of an asset: the hours from [start] up to [end], going over
    midnight exactly when [end <= start]; no hour is listed twice. *)
Theorem window_hours_wrap_over_midnight :
  (forall start end_ h,
     In h (get_window_hours start end_) <->
     (start < end_ /\ start <= h < end_) \/
     (end_ <= start /\ (start <= h < 24 \/ 0 <= h < end_))) /\
  (forall start end_, NoDup (get_window_hours start end_)) /\
  (forall start end_, 0 <= start <= 23 -> 0 <= end_ <= 24 ->
     len (get_window_hours start end_)
       = (if start <? end_ then end_ - start else 24 - start + end_) /\
     hd_error (get_window_hours start end_) = Some start /\
     forall h, In h (get_window_hours start end_) -> 0 <= h <= 23).
Proof.
  split; [|split].
  - intros start end_ h. unfold get_window_hours, NUM_HOURS.
    destruct (start <? end_) eqn:E.
    + rewrite in_range. lia.
    + rewrite in_app_iff, !in_range. lia.
  - intros. apply window_NoDup.
  - intros start end_ Hs He. unfold get_window_hours, NUM_HOURS.
    destruct (start <? end_) eqn:E.
    + rewrite len_range. split; [lia|]. split.
      * unfold range. destruct (Z.to_nat (end_ - start)) eqn:N; [lia|].
        simpl. f_equal. lia.
      * intros h Hh. apply in_range in Hh. lia.
    + rewrite len_app, !len_range. split; [lia|]. split.
      * unfold range. destruct (Z.to_nat (24 - start)) eqn:N; [lia|].
        simpl. f_equal. lia.
      * intros h Hh. rewrite in_app_iff, !in_range in Hh. lia.
Qed.

Lemma qclamp_bounds (pct : Qc) :
  (0 <= qmax2 0 (qmin2 1 pct) <= 1)%Qc /\
  ((0 <= pct <= 1)%Qc -> qmax2 0 (qmin2 1 pct) = pct) /\
  ((pct <= 0)%Qc -> qmax2 0 (qmin2 1 pct) = 0%Qc) /\
  ((1 <= pct)%Qc -> qmax2 0 (qmin2 1 pct) = 1%Qc).
Proof.
  assert (Z1 : (0 <= 1)%Qc) by now vm_compute.
  unfold qmax2, qmin2.
  destruct (ltb pct 1) eqn:E1.
  - apply ltb_lt in E1. destruct (ltb 0 pct) eqn:E2.
    + apply ltb_lt in E2. repeat split.
      * now apply Qclt_le_weak.
      * now apply Qclt_le_weak.
      * intro H. exfalso. exact (Qclt_not_le _ _ E2 H).
      * intro H. exfalso. exact (Qclt_not_le _ _ E1 H).
    + apply ltb_ge in E2. repeat split.
      * apply Qcle_refl.
      * exact Z1.
      * intros (H & _). now apply Qcle_antisym.
      * intro H. exfalso. exact (Qclt_not_le _ _ E1 H).
  - apply ltb_ge in E1. replace (ltb 0 1) with true by reflexivity. repeat split.
    + exact Z1.
    + apply Qcle_refl.
    + intros (_ & H). now apply Qcle_antisym.
    + intro H. exfalso.
      assert (K : (1 <= 0)%Qc) by (eapply Qcle_trans; eassumption).
      revert K. now vm_compute.
Qed.

Lemma recalculate_keeps_sliders (s s' : Simulator) :
  recalculate s = Some s' ->
  flex_participation s' = flex_participation s /\ price_weight s' = price_weight s.
Proof.
  intro H. apply recalculate_inv in H.
  destruct H as (s1 & l' & al' & c' & _ & _ & ->). split; reflexivity.
Qed.

(** The two slider setters clamp their argument to [0, 1] before the
    recompute: the stored value is the argument when that lies in the range,
    the nearer bound otherwise; a participation clamped to 0 leaves the after
    curve equal to the before curve. *)
Theorem slider_setters_clamp (s : Simulator) (pct : Qc) :
  (Forall wf_asset (assets s) ->
   List.length (base_load (current_scenario s)) = 24%nat ->
   (exists s', set_flex_participation s pct = Some s') /\
   (exists s', set_price_weight s pct = Some s')) /\
  (forall s', set_flex_participation s pct = Some s' ->
     (0 <= flex_participation s' <= 1)%Qc /\
     ((0 <= pct <= 1)%Qc -> flex_participation s' = pct) /\
     ((pct <= 0)%Qc -> flex_participation s' = 0%Qc /\
                       after_load s' = before_load s') /\
     ((1 <= pct)%Qc -> flex_participation s' = 1%Qc) /\
     price_weight s' = price_weight s) /\
  (forall s', set_price_weight s pct = Some s' ->
     (0 <= price_weight s' <= 1)%Qc /\
     ((0 <= pct <= 1)%Qc -> price_weight s' = pct) /\
     ((pct <= 0)%Qc -> price_weight s' = 0%Qc) /\
     ((1 <= pct)%Qc -> price_weight s' = 1%Qc) /\
     flex_participation s' = flex_participation s).
Proof.
  destruct (qclamp_bounds pct) as (B & In01 & Lo & Hi).
  split; [|split].
  - intros W L. split; apply recalculate_total; assumption.
  - intros s' H. unfold set_flex_participation in H.
    pose proof (recalculate_keeps_sliders _ _ H) as (F & P).
    cbn [flex_participation price_weight] in F, P. rewrite F, P.
    split; [exact B|]. split; [exact In01|]. split; [|split; [exact Hi|reflexivity]].
    intro Hp. split; [now apply Lo|]. unfold recalculate in H.
    apply bind_Some in H. destruct H as (s1 & B1 & H).
    pose proof (build_before_inv _ _ B1) as (_ & _ & _ & _ & _ & F1 & _).
    cbn [flex_participation] in F1.
    apply after_curve_zero_flex in H; [destruct H; congruence|].
    rewrite F1. now apply Lo.
  - intros s' H. unfold set_price_weight in H.
    pose proof (recalculate_keeps_sliders _ _ H) as (F & P).
    cbn [flex_participation price_weight] in F, P. rewrite F, P.
    split; [exact B|]. split; [exact In01|]. split; [exact Lo|].
    split; [exact Hi|reflexivity].
Qed.

Lemma index_out_of_range {A : Type} (l : list A) (h : Z) :
  h < - len l \/ len l <= h -> index l h = None.
Proof.
  intro H. unfold index. pose proof (len_nonneg l).
  replace ((0 <=? h) && (h <? len l)) with false by lia.
  replace ((- len l <=? h) && (h <? 0)) with false by lia. reflexivity.
Qed.

Lemma for_each_iadd_raises (v : Qc) (hs : list Z) (h : Z) :
  In h hs -> forall bl, h < - len bl \/ len bl <= h ->
  for_each (fun bl h => iadd bl h v) hs bl = None.
Proof.
  induction hs as [|h0 hs IH]; intros I bl B; [contradiction|]. simpl.
  destruct (iadd bl h0 v) as [bl1|] eqn:E; cbn [bind]; [|reflexivity].
  destruct I as [->|I].
  - unfold iadd, getitem in E. rewrite index_out_of_range in E by exact B.
    discriminate.
  - apply IH; [exact I|]. apply iadd_length in E. unfold len in *. rewrite E. exact B.
Qed.

Lemma before_curve_raises (l : list Asset) (a : Asset) (h : Z) :
  In a l -> In h (naive_hours a) ->
  forall bl, h < - len bl \/ len bl <= h -> before_curve bl l = None.
Proof.
  induction l as [|a0 l IH]; intros I Hh bl B; [contradiction|]. simpl.
  destruct (for_each _ (naive_hours a0) bl) as [bl1|] eqn:E; cbn [bind]; [|reflexivity].
  destruct I as [->|I].
  - rewrite (for_each_iadd_raises _ _ h Hh bl B) in E. discriminate.
  - apply IH; [exact I|exact Hh|].
    apply for_each_iadd_length in E. unfold len in *. rewrite E. exact B.
Qed.

(** The recompute does not check the hours of the catalog: when the naive
    hours of an asset reach an hour from 24 on (or before -24) its write to
    the before curve raises [IndexError], and so does the recompute. *)
Theorem hour_past_the_day_raises (s : Simulator) (a : Asset) (h : Z) :
  List.length (base_load (current_scenario s)) = 24%nat ->
  In a (assets s) -> In h (naive_hours a) -> h < -24 \/ 24 <= h ->
  recalculate s = None.
Proof.
  intros L I Hh B. unfold recalculate, _build_before_curve.
  rewrite before_loop_curve.
  rewrite (before_curve_raises _ a h I Hh); [reflexivity|].
  unfold len. rewrite L. exact B.
Qed.

Lemma first_least_one {A : Type} (f : A -> option Qc) (x : A) (v : Qc) :
  f x = Some v -> first_least f [x] x v.
Proof. intro F. exists [], []. repeat split; auto; intros q []. Qed.

Lemma first_least_better {A : Type} (f : A -> option Qc) (done : list A)
      (b x : A) (vb v : Qc) :
  first_least f done b vb -> f x = Some v -> (v < vb)%Qc ->
  first_least f (done ++ [x]) x v.
Proof.
  intros (e & l & -> & Fb & E & L) F Lt. exists (e ++ b :: l), [].
  repeat split; auto; [|intros q []].
  intros q Hq. apply in_app_iff in Hq. destruct Hq as [Hq|[<-|Hq]].
  - destruct (E q Hq) as (vq & Fq & Lq). exists vq. split; [assumption|].
    eapply Qclt_trans; eassumption.
  - now exists vb.
  - destruct (L q Hq) as (vq & Fq & Lq). exists vq. split; [assumption|].
    eapply Qclt_le_trans; eassumption.
Qed.

Lemma first_least_kept {A : Type} (f : A -> option Qc) (done : list A)
      (b x : A) (vb v : Qc) :
  first_least f done b vb -> f x = Some v -> (vb <= v)%Qc ->
  first_least f (done ++ [x]) b vb.
Proof.
  intros (e & l & -> & Fb & E & L) F Le. exists e, (l ++ [x]).
  repeat split; auto.
  - now rewrite <- app_assoc.
  - intros q Hq. apply in_app_iff in Hq. destruct Hq as [Hq|[<-|[]]]; auto.
    now exists v.
Qed.

Lemma first_least_In {A : Type} (f : A -> option Qc) (xs : list A) (b : A) (v : Qc) :
  first_least f xs b v -> In b xs.
Proof. intros (e & l & -> & _). apply in_app_iff. right. now left. Qed.

Lemma block_step_inv (scores : list (Z * Qc)) (window : list Z) (d : Z)
      (done : list Z) (i : Z) (st st' : option (list Z) * option Qc) :
  block_search_inv scores window d done st ->
  block_step scores window d st i = Some st' ->
  block_search_inv scores window d (done ++ [i]) st'.
Proof.
  intros I H. unfold block_step in H.
  apply bind_Some in H. destruct H as (vals & C & H).
  assert (F : block_score scores window d i = Some (sum vals)).
  { unfold block_score. now rewrite C. }
  right. destruct I as [(-> & ->)|(j & v & -> & FL)]; cbn [snd] in H.
  - injection H as <-. exists i, (sum vals). split; [reflexivity|].
    now apply first_least_one.
  - destruct (ltb (sum vals) v) eqn:E; injection H as <-.
    + apply ltb_lt in E. exists i, (sum vals). split; [reflexivity|].
      eapply first_least_better; eassumption.
    + apply ltb_ge in E. exists j, v. split; [reflexivity|].
      eapply first_least_kept; eassumption.
Qed.

Lemma block_loop_inv (scores : list (Z * Qc)) (window : list Z) (d : Z)
      (rest : list Z) :
  forall done st st',
  block_search_inv scores window d done st ->
  for_each (block_step scores window d) rest st = Some st' ->
  block_search_inv scores window d (done ++ rest) st'.
Proof.
  induction rest as [|i rest IH]; intros done st st' I H; simpl in H.
  - injection H as <-. now rewrite app_nil_r.
  - apply bind_Some in H. destruct H as (st1 & B & H).
    replace (done ++ i :: rest) with ((done ++ [i]) ++ rest)
      by now rewrite <- app_assoc.
    eapply IH; [|exact H]. eapply block_step_inv; eassumption.
Qed.

(** The search of the best continuous block, for a duration that fits the
    window: the block found starts at the first position whose block has the
    least total score. *)
Lemma block_search_first_least (scores : list (Z * Qc)) (window : list Z) (d : Z)
      (bb : option (list Z)) :
  1 <= d <= len window ->
  block_search scores window d = Some bb ->
  exists i v,
    bb = Some (slice window i (i + d)) /\ 0 <= i /\ i + d <= len window /\
    first_least (block_score scores window d) (range 0 (len window - d + 1)) i v.
Proof.
  intros Hd H. unfold block_search in H.
  replace (len window <? d) with false in H by lia.
  apply bind_Some in H. destruct H as ([b s] & L & H). injection H as <-.
  apply (block_loop_inv _ _ _ _ [] _ _ (or_introl (conj eq_refl eq_refl))) in L.
  cbn [app] in L. destruct L as [(E & _)|(i & v & E & FL)].
  - exfalso. apply (f_equal (@List.length Z)) in E.
    rewrite length_range in E. simpl in E. lia.
  - injection E as -> ->. exists i, v. split; [reflexivity|].
    pose proof (first_least_In _ _ _ _ FL) as I. apply in_range in I.
    repeat split; try lia. exact FL.
Qed.


Lemma block_search_slice (scores : list (Z * Qc)) (window : list Z) (d : Z)
      (block : list Z) :
  block_search scores window d = Some (Some block) ->
  exists i j, block = slice window i j.
Proof.
  unfold block_search. intro H.
  apply bind_Some in H. destruct H as ([b s] & L & H). injection H as ->.
  set (d' := if len window <? d then len window else d) in *.
  assert (Inv : forall b, fst (Some block, s) = Some b -> exists i j, b = slice window i j);
    [|exact (Inv block eq_refl)].
  eapply (for_each_invariant
            (fun st => forall b, fst st = Some b -> exists i j, b = slice window i j));
    [| |exact L].
  - intros [ob os] x [ob' os'] _ Inv B. unfold block_step in B.
    apply bind_Some in B. destruct B as (vals & _ & B). simpl in B.
    intros b0 E. simpl in E. subst ob'.
    destruct os as [bs|].
    + destruct (ltb (sum vals) bs); injection B as E1 E2.
      * subst b0. now eexists _, _.
      * subst ob. now apply Inv.
    + injection B as E1 E2. subst b0. now eexists _, _.
  - intros b0 E. discriminate.
Qed.

Lemma chosen_NoDup (scores : list (Z * Qc)) (a : Asset) (chosen : list Z) :
  (if variable a
   then take_best scores
          (Z.to_nat (min2 (duration_h a) (len (window_of a)))) (window_of a) []
   else best_block scores (window_of a)
          (min2 (duration_h a) (len (window_of a)))) = Some chosen ->
  NoDup chosen.
Proof.
  destruct (variable a); intro H.
  - apply take_best_greedy in H. destruct H as (picks & -> & G).
    simpl. eapply greedy_NoDup; [|exact G]. apply window_NoDup.
  - unfold best_block in H. apply bind_Some in H. destruct H as (bb & B & H).
    destruct bb as [[|h0 block]|]; injection H as E; subst chosen;
      [constructor| |constructor].
    apply block_search_slice in B. destruct B as (i & j & ->).
    apply NoDup_slice, window_NoDup.
Qed.

Lemma naive_hours_incl (a : Asset) : incl (naive_hours a) (window_of a).
Proof.
  intros h H. unfold naive_hours in H. destruct (enabled a); [|contradiction].
  eapply slice_incl; eassumption.
Qed.

Lemma naive_hours_distinct (a : Asset) : NoDup (naive_hours a).
Proof.
  unfold naive_hours. destruct (enabled a); [|constructor].
  apply NoDup_slice, window_NoDup.
Qed.

(** No asset is ever scheduled outside its window or twice on the same
    hour, before or after; a disabled asset is not scheduled at all. *)
Theorem schedules_stay_in_the_window (s s' : Simulator) :
  recalculate s = Some s' ->
  Forall (fun a' =>
            incl (before_hours a') (window_of a') /\
            incl (after_hours a') (window_of a') /\
            NoDup (before_hours a') /\ NoDup (after_hours a') /\
            (enabled a' = false -> before_hours a' = [] /\ after_hours a' = []))
         (assets s').
Proof.
  intro H. pose proof (empty_before_empty_after _ _ H) as EB.
  apply recalculate_inv in H.
  destruct H as (s1 & l' & al' & c' & _ & L & ->). cbn [assets] in *.
  set (l0 := map clear_after (map set_naive (assets s))) in *.
  set (ok := fun a : Asset =>
               before_hours a = naive_hours a /\
               incl (after_hours a) (window_of a) /\ NoDup (after_hours a)).
  assert (F : Forall ok l').
  { apply (for_each_invariant (fun st => Forall ok (fst (fst st))) _ _)
      with (s' := (l', al', c')) in L; auto.
    - intros [[l1 al1] c1] i [[l2 al2] c2] _ I P. cbn [fst] in *.
      apply place_inv in P. destruct P as (a & N & P).
      assert (Oa : ok a).
      { rewrite Forall_forall in I. apply I. eapply nth_error_In; eassumption. }
      destruct Oa as (Ba & _).
      destruct P as [(_ & -> & _)|[(C & W & -> & _)|
                     (_ & _ & al2' & scores & chosen & _ & _ & S3 & _ & ->)]];
        [assumption| |].
      + exfalso. apply orb_false_elim in C. destruct C as (_ & C).
        rewrite Ba in C. unfold naive_hours in C. rewrite W in C.
        destruct (enabled a); [rewrite slice_nil in C|]; discriminate.
      + apply Forall_update; [|assumption]. split; [exact Ba|]. split.
        * intros h Hh. eapply chosen_in_window; eassumption.
        * eapply chosen_NoDup; eassumption.
    - cbn [fst]. unfold l0. rewrite map_map. apply Forall_map, Forall_forall.
      intros a _. split; [reflexivity|]. split; [intros h []|constructor]. }
  rewrite Forall_forall in F, EB |- *. intros a' Ia.
  destruct (F a' Ia) as (B & I & N). rewrite B.
  split; [apply naive_hours_incl|]. split; [exact I|].
  split; [apply naive_hours_distinct|]. split; [exact N|].
  intro E. assert (B0 : before_hours a' = []).
  { rewrite B. unfold naive_hours. now rewrite E. }
  rewrite B0 in B. split; [now rewrite <- B|]. apply EB; assumption.
Qed.




End LogicMore.

(* ------------------------------------------------------------------ *)
(** * logic.py: the order of the placement loop *)
(* ------------------------------------------------------------------ *)

Section LogicOrder.

Import Logic Spec.

Lemma insert_by_sorted {A : Type} (key : nat * A -> Qc) (x : nat * A)
      (l : list (nat * A)) :
  StronglySorted (key_then_position key) l ->
  Forall (fun y => (fst x < fst y)%nat) l ->
  StronglySorted (key_then_position key) (insert_by key x l).
Proof.
  induction 1 as [|y l S IH F]; intro P; simpl.
  - repeat constructor.
  - inversion P as [|? ? Pxy P']; subst.
    destruct (ltb (key y) (key x)) eqn:E.
    + apply ltb_lt in E. constructor; [now apply IH|].
      apply Forall_forall. intros z Hz. apply In_insert_by in Hz.
      destruct Hz as [->|Hz]; [now left|].
      rewrite Forall_forall in F. now apply F.
    + apply ltb_ge in E.
      assert (Rxy : key_then_position key x y).
      { destruct (Qc_eq_dec (key x) (key y)) as [Q|Q]; [right; auto|left].
        destruct (Qcle_lt_or_eq _ _ E); [assumption|contradiction]. }
      constructor; [now constructor|].
      constructor; [exact Rxy|].
      rewrite Forall_forall in F, P' |- *. intros z Hz.
      specialize (F z Hz). specialize (P' z Hz).
      destruct F as [F|(F & _)].
      * left. eapply Qcle_lt_trans; eassumption.
      * destruct (Qc_eq_dec (key x) (key y)) as [Q|Q].
        -- right. split; [congruence|exact P'].
        -- left. rewrite <- F.
           destruct (Qcle_lt_or_eq _ _ E); [assumption|contradiction].
Qed.

Lemma sorted_by_key {A : Type} (key : nat * A -> Qc) (l : list (nat * A)) :
  StronglySorted (fun x y => (fst x < fst y)%nat) l ->
  StronglySorted (key_then_position key) (sorted key l).
Proof.
  induction 1 as [|x l S IH F]; simpl; [constructor|].
  apply insert_by_sorted; [exact IH|].
  rewrite Forall_forall in F |- *. intros y Hy. apply F.
  now apply In_sorted in Hy.
Qed.

Lemma combine_seq_sorted {A : Type} (l : list A) (s : nat) :
  StronglySorted (fun x y : nat * A => (fst x < fst y)%nat)
                 (combine (seq s (List.length l)) l).
Proof.
  revert s. induction l as [|a l IH]; intro s; simpl; constructor; [apply IH|].
  apply Forall_forall. intros [i b] H. apply In_combine_seq in H. simpl. lia.
Qed.

Lemma filter_sorted {A : Type} (R : A -> A -> Prop) (f : A -> bool) (l : list A) :
  StronglySorted R l -> StronglySorted R (filter f l).
Proof.
  induction 1 as [|x l S IH F]; simpl; [constructor|].
  destruct (f x); [|exact IH]. constructor; [exact IH|].
  rewrite Forall_forall in F |- *. intros y Hy. apply filter_In in Hy. now apply F.
Qed.

Lemma map_sorted {A B : Type} (R : A -> A -> Prop) (R' : B -> B -> Prop) (f : A -> B)
      (l : list A) :
  (forall x y, In x l -> In y l -> R x y -> R' (f x) (f y)) ->
  StronglySorted R l -> StronglySorted R' (map f l).
Proof.
  intros K S. induction S as [|x l S IH F]; simpl; constructor.
  - apply IH. intros. apply K; simpl; auto.
  - apply Forall_map. rewrite Forall_forall in F |- *. intros y Hy.
    apply K; simpl; auto.
Qed.

Lemma sorted_NoDup {A : Type} (R : A -> A -> Prop) (l : list A) :
  (forall x, ~ R x x) -> StronglySorted R l -> NoDup l.
Proof.
  intros Irr S. induction S as [|x l S IH F]; constructor; [|exact IH].
  intro I. rewrite Forall_forall in F. exact (Irr x (F x I)).
Qed.

Lemma opp_lt_inv (a b : Qc) : (- a < - b)%Qc -> (b < a)%Qc.
Proof.
  intro H. apply Qcnot_le_lt. intro L. apply Qcopp_le_compat in L.
  exact (Qclt_not_le _ _ H L).
Qed.

Lemma enabled_assets_sorted (l : list Asset) :
  StronglySorted (goes_first l) (enabled_assets l).
Proof.
  unfold enabled_assets.
  apply (map_sorted (key_then_position (fun x : nat * Asset => (- power_kw (snd x))%Qc))).
  - intros [i a] [j b] Hi Hj R.
    apply In_sorted, filter_In in Hi, Hj. destruct Hi as (Hi & _), Hj as (Hj & _).
    apply In_enumerate in Hi, Hj. exists a, b. repeat split; auto.
    destruct R as [R|(R & Lt)]; cbn [fst snd] in *.
    + left. now apply opp_lt_inv.
    + right. split; [|exact Lt].
      rewrite <- (Qcopp_involutive (power_kw a)), R. apply Qcopp_involutive.
  - apply sorted_by_key, filter_sorted. apply combine_seq_sorted.
Qed.

Lemma enabled_assets_NoDup (l : list Asset) : NoDup (enabled_assets l).
Proof.
  eapply sorted_NoDup; [|apply enabled_assets_sorted].
  intros i (a & b & Na & Nb & [Lt|(_ & Lt)]).
  - rewrite Na in Nb. injection Nb as <-. exact (Qclt_not_eq _ _ Lt eq_refl).
  - lia.
Qed.

(** Big assets first: the placement loop visits every enabled asset once,
    in the order of descending power; assets of equal power keep their
    catalog order. *)
Theorem placement_order_is_by_descending_power (l : list Asset) :
  StronglySorted (goes_first l) (enabled_assets l) /\
  NoDup (enabled_assets l) /\
  (forall i, In i (enabled_assets l) <->
             exists a, nth_error l i = Some a /\ enabled a = true).
Proof.
  split; [apply enabled_assets_sorted|].
  split; [apply enabled_assets_NoDup|apply In_enabled_assets].
Qed.

End LogicOrder.

(* ------------------------------------------------------------------ *)
(** * logic.py: scenarios applied one after the other *)
(* ------------------------------------------------------------------ *)

Section LogicScenarios.

Import Logic Spec.

Lemma same_load_spec_scaled (a1 a : Asset) (q : Qc) :
  same_load_spec a1 a ->
  appliance a1 = appliance a /\
  forget_hours (set_power_kw a1 q) = forget_hours (set_power_kw a q).
Proof.
  unfold same_load_spec. destruct a1, a. cbn. intro E.
  injection E as -> -> -> -> -> -> ->. auto.
Qed.

Lemma scale_loop_same (sc : Scenario) (bp : list (nat * Qc)) (l1 l : list Asset) :
  Forall2 same_load_spec l1 l ->
  forall k,
  option_map (map forget_hours)
    (comprehension
       (fun x : nat * Asset =>
          let (i, a) := x in
          base <- dict_getitem Nat.eqb bp i ;;
          Some (set_power_kw a (base * scenario_factor sc (appliance a))%Qc))
       (combine (seq k (List.length l1)) l1))
  = option_map (map forget_hours)
    (comprehension
       (fun x : nat * Asset =>
          let (i, a) := x in
          base <- dict_getitem Nat.eqb bp i ;;
          Some (set_power_kw a (base * scenario_factor sc (appliance a))%Qc))
       (combine (seq k (List.length l)) l)).
Proof.
  induction 1 as [|a1 a l1 l R _ IH]; intro k; [reflexivity|].
  cbn [List.length seq combine comprehension].
  destruct (dict_getitem Nat.eqb bp k) as [base|]; cbn [bind]; [|reflexivity].
  specialize (IH (S k)).
  destruct (comprehension _ (combine (seq (S k) (List.length l1)) l1)) as [r1|];
    destruct (comprehension _ (combine (seq (S k) (List.length l)) l)) as [r|];
    cbn [bind option_map] in *; try discriminate; [|reflexivity].
  injection IH as IH. cbn [map]. rewrite IH.
  destruct (same_load_spec_scaled a1 a
              (base * scenario_factor sc (appliance a))%Qc R) as (Ap & E).
  rewrite Ap, E. reflexivity.
Qed.

Lemma recalculate_same_inputs (s1 s2 : Simulator) :
  forget s1 = forget s2 -> recalculate s1 = recalculate s2.
Proof.
  intro E. rewrite (recalculate_forget s1), (recalculate_forget s2). now rewrite E.
Qed.

(** Applying a scenario wipes out the scenario applied before: the powers
    are rebuilt from the reference powers and everything else is recomputed,
    so the outcome is the one that the second scenario gives on its own. *)
Theorem scenario_application_forgets_the_previous_one
        (s s1 : Simulator) (name1 name2 : string) :
  apply_scenario s name1 = Some s1 ->
  apply_scenario s1 name2 = apply_scenario s name2.
Proof.
  intro H. unfold apply_scenario in H.
  apply bind_Some in H. destruct H as (sc1 & S1 & H).
  apply bind_Some in H. destruct H as (l1 & SA & H).
  pose proof (recalculate_assets _ _ H) as K.
  apply recalculate_inv in H.
  destruct H as (s0 & l' & al' & c' & _ & _ & ->).
  cbn [assets flex_participation price_weight] in *.
  assert (R : Forall2 same_load_spec l' (assets s)).
  { rewrite map_map in K.
    apply (map_eq_Forall2 clear_after (fun a => clear_after (set_naive a))) in K.
    assert (R1 : Forall2 (fun a' a1 => forget_hours a' = forget_hours a1) l' l1).
    { eapply Forall2_impl; [|exact K]. intros a' a1 E.
      apply clear_after_eq in E. rewrite E. reflexivity. }
    clear K. unfold scale_assets in SA.
    assert (R2 : Forall2 (fun a1 a => same_load_spec a1 a) l1 (assets s)).
    { revert SA. unfold enumerate. generalize 0%nat. generalize (assets s).
      clear. intro l. revert l1.
      induction l as [|a l IH]; intros l1 k SA; simpl in SA.
      - injection SA as <-. constructor.
      - apply bind_Some in SA. destruct SA as (y & Y & SA).
        apply bind_Some in Y. destruct Y as (base & _ & Y). injection Y as <-.
        apply bind_Some in SA. destruct SA as (ys & YS & SA). injection SA as <-.
        constructor; [reflexivity|]. eapply IH; eassumption. }
    revert R2. generalize (assets s). clear - R1.
    induction R1 as [|a' a1 l' l1 E _ IH]; intros l R2; inversion R2; subst;
      constructor; auto.
    unfold same_load_spec in *. destruct a', a1. cbn in *.
    injection E as -> -> -> -> -> -> -> ->. assumption. }
  unfold apply_scenario. cbn [scenarios assets base_power before_load after_load
    flex_participation price_weight cost_before_cents cost_after_cents].
  destruct (dict_getitem String.eqb (scenarios s) name2) as [sc|]; cbn [bind];
    [|reflexivity].
  pose proof (scale_loop_same sc (base_power s) _ _ R 0%nat) as Q.
  fold (enumerate l') (enumerate (assets s)) in Q.
  fold (scale_assets sc (base_power s) l') in Q.
  fold (scale_assets sc (base_power s) (assets s)) in Q.
  destruct (scale_assets sc (base_power s) l') as [r1|];
    destruct (scale_assets sc (base_power s) (assets s)) as [r|];
    cbn [option_map bind] in *; try discriminate; [|reflexivity].
  injection Q as Q.
  apply recalculate_same_inputs. unfold forget.
  cbn [scenarios current_scenario assets base_power flex_participation price_weight].
  now rewrite Q.
Qed.

End LogicScenarios.

(* ------------------------------------------------------------------ *)
(** * logic.py: the two cost accumulators *)
(* ------------------------------------------------------------------ *)

Section LogicCosts.

Import Logic Spec.









Lemma cost_before_of_clear (a : Asset) : cost_before_of (clear_after a) = cost_before_of a.
Proof. reflexivity. Qed.















End LogicCosts.

(* ------------------------------------------------------------------ *)
(** * The modular application: the form, the refresh and the callbacks *)
(* ------------------------------------------------------------------ *)

Section AppSafety.

Import Logic Spec SpecApp FlexiCityApp.

Ltac form_case :=
  repeat split; intros; try discriminate; try lia;
  repeat match goal with
         | H : _ /\ _ |- _ => destruct H
         | H : inr _ = inr _ |- _ => injection H as <-
         | H : ~ _ |- _ => exfalso; apply H; lia
         end;
  try reflexivity; try lia; try discriminate.

Lemma window_eq (s e : Z) : _window_hours s e = get_window_hours s e.
Proof. reflexivity. Qed.

(** The cases of the form. *)
Lemma read_form_cases (o ap : string) (pw : Qc) (d s e : Z) (v : bool) :
  (_read_form_asset o ap pw d s e v = inr (o, ap, pw, d, s, e, v) <->
   0 <= s <= 23 /\ 1 <= e <= 24 /\ 1 <= d <= len (get_window_hours s e)) /\
  (forall r, _read_form_asset o ap pw d s e v = inr r -> r = (o, ap, pw, d, s, e, v)) /\
  _read_form_asset o ap pw d s e v <> inl "Time window is empty or invalid."%string /\
  (_read_form_asset o ap pw d s e v = inl "Start hour must be between 0 and 23"%string
   <-> ~ 0 <= s <= 23) /\
  (_read_form_asset o ap pw d s e v = inl "Duration cannot exceed window length."%string
   <-> 0 <= s <= 23 /\ 1 <= e <= 24 /\ len (get_window_hours s e) < d).
Proof.
  unfold _read_form_asset. rewrite !window_eq.
  destruct ((0 <=? s) && (s <? 24)) eqn:Es; cbn [negb]; [|form_case].
  destruct ((1 <=? e) && (e <=? 24)) eqn:Ee; cbn [negb]; [|form_case].
  assert (L : 1 <= len (get_window_hours s e) <= 24) by (apply window_len; lia).
  replace (len (get_window_hours s e) =? 0) with false by lia.
  destruct (d <? 1) eqn:Ed; [form_case|].
  destruct (len (get_window_hours s e) <? d) eqn:El; form_case.
Qed.

(** The form accepts exactly the entries with a start hour in 0..23, an end
    hour in 1..24 and a duration between one hour and the length of the
    window; it returns them unchanged; and its message "Time window is empty
    or invalid." is never shown, a window with such bounds being never
    empty. *)
Theorem form_accepts_exactly_the_windows_that_fit
        (o ap : string) (pw : Qc) (d s e : Z) (v : bool) :
  (_read_form_asset o ap pw d s e v = inr (o, ap, pw, d, s, e, v) <->
   0 <= s <= 23 /\ 1 <= e <= 24 /\ 1 <= d <= len (get_window_hours s e)) /\
  (forall r, _read_form_asset o ap pw d s e v = inr r -> r = (o, ap, pw, d, s, e, v)) /\
  _read_form_asset o ap pw d s e v <> inl "Time window is empty or invalid."%string /\
  (_read_form_asset o ap pw d s e v = inl "Start hour must be between 0 and 23"%string
   <-> ~ 0 <= s <= 23) /\
  (_read_form_asset o ap pw d s e v = inl "Duration cannot exceed window length."%string
   <-> 0 <= s <= 23 /\ 1 <= e <= 24 /\ len (get_window_hours s e) < d).
Proof. exact (read_form_cases o ap pw d s e v). Qed.


Lemma known_lengths (sc : Scenario) :
  known_scenario sc ->
  List.length (base_load sc) = 24%nat /\ List.length (co2_per_hour sc) = 24%nat.
Proof.
  unfold known_scenario. simpl. intros [<-|[<-|[<-|[]]]]; split; reflexivity.
Qed.

Lemma known_name (name : string) :
  In name (map fst get_scenarios) ->
  exists sc, dict_getitem String.eqb get_scenarios name = Some sc /\ known_scenario sc.
Proof.
  unfold known_scenario. simpl. intros [<-|[<-|[<-|[]]]]; eexists; split;
    try reflexivity; simpl; auto.
Qed.

(** What a recompute keeps and what it gives. *)
Lemma recalculate_fields (s s' : Simulator) :
  recalculate s = Some s' ->
  scenarios s' = scenarios s /\ current_scenario s' = current_scenario s /\
  base_power s' = base_power s /\
  List.length (assets s') = List.length (assets s) /\
  (Forall wf_asset (assets s) -> Forall wf_asset (assets s')) /\
  List.length (before_load s') = List.length (base_load (current_scenario s)) /\
  List.length (after_load s') = List.length (base_load (current_scenario s)).
Proof.
  intro H. pose proof (recalculate_assets _ _ H) as K.
  apply recalculate_inv in H.
  destruct H as (s1 & l' & al' & c' & B & L & ->).
  cbn [scenarios current_scenario base_power assets before_load after_load] in *.
  apply build_before_inv in B. destruct B as (_ & LB & _).
  apply after_loop_keeps in L. destruct L as (_ & LA).
  repeat split; auto; try congruence.
  - apply (f_equal (@List.length _)) in K. now rewrite !length_map in K.
  - intro W. apply Forall_forall. intros a' Ia.
    apply In_nth_error in Ia. destruct Ia as (i & Ni).
    destruct (map_eq_nth _ _ _ _ _ K Ni) as (a0 & N0 & E0).
    rewrite nth_error_map in N0.
    destruct (nth_error (assets s) i) as [a|] eqn:Na; [|discriminate].
    cbn [option_map] in N0. injection N0 as <-.
    rewrite Forall_forall in W. specialize (W a (nth_error_In _ _ Na)).
    unfold wf_asset in *.
    pose proof (f_equal start_hour E0) as E1. pose proof (f_equal end_hour E0) as E2.
    cbn in E1, E2. now rewrite E1, E2.
Qed.

Lemma recalculate_ready (s s' : Simulator) :
  Forall wf_asset (assets s) -> scenarios s = get_scenarios ->
  known_scenario (current_scenario s) ->
  (forall i, (i < List.length (assets s))%nat ->
             dict_getitem Nat.eqb (base_power s) i <> None) ->
  recalculate s = Some s' -> ready s'.
Proof.
  intros W S K C H.
  destruct (recalculate_fields _ _ H) as (E1 & E2 & E3 & E4 & W' & LB & LA).
  destruct (known_lengths _ K) as (L & _).
  unfold ready. rewrite E1, E2, E3, E4, LB, LA. auto 10.
Qed.

Lemma div_nonzero (x y : Qc) : y <> 0%Qc -> div x y = Some (x / y)%Qc.
Proof. intro M. unfold div. now rewrite Qc_eq_bool_false. Qed.

Lemma points_loop_total (load : list Qc) (f : Qc -> Z -> Qc * Qc) (max_val : Qc) :
  List.length load = 24%nat -> max_val <> 0%Qc ->
  forall ks pts, Forall (fun k => 0 <= k) ks ->
  exists r, for_each
    (fun pts k =>
       v <- getitem load (k mod NUM_HOURS) ;;
       r <- div v max_val ;;
       let (x, y) := f r k in
       Some (pts ++ [x; y])) ks pts = Some r.
Proof.
  intros L M ks. induction ks as [|k ks IH]; intros pts F; simpl; [now eexists|].
  inversion F as [|? ? Hk F']; subst.
  destruct (getitem_total load (k mod NUM_HOURS)) as (v & ->).
  { unfold len, NUM_HOURS. rewrite L. apply Z.mod_pos_bound. lia. }
  cbn [bind]. rewrite div_nonzero by exact M. cbn [bind].
  destruct (f _ k). apply IH. exact F'.
Qed.

Lemma range_nonneg (n : Z) : Forall (fun k => 0 <= k) (range 0 n).
Proof. apply Forall_forall. intros k H. apply in_range in H. lia. Qed.

Lemma scaled_max_nonzero (m : Qc) :
  (if ltb 0%Qc m then (m * lit 11 10)%Qc else 1%Qc) <> 0%Qc.
Proof.
  destruct (ltb 0%Qc m) eqn:E; [|discriminate].
  apply ltb_lt in E. intro Z0.
  apply Qcmult_integral in Z0. destruct Z0 as [Z0|Z0]; [|discriminate].
  rewrite Z0 in E. exact (Qclt_not_eq _ _ E eq_refl).
Qed.

Lemma draw_curve_total (w h : Z) (load : list Qc) :
  List.length load = 24%nat -> exists pts, _draw_curve w h load = Some pts.
Proof.
  intro L. unfold _draw_curve.
  destruct (max_total load) as (m & ->); [intro E; rewrite E in L; discriminate|].
  cbn [bind].
  apply (points_loop_total load
           (fun r k => ((lit 40 1 + lit k 1 * (lit (w - 2 * 40) 1 / lit 24 1))%Qc,
                        (lit (h - 40) 1 - r * lit (h - 2 * 40) 1)%Qc)));
    [exact L|apply scaled_max_nonzero|apply range_nonneg].
Qed.

Lemma pts_for_total (w h : Z) (max_val : Qc) (curve : list Qc) :
  List.length curve = 24%nat -> max_val <> 0%Qc ->
  exists pts, pts_for w h max_val curve = Some pts.
Proof.
  intros L M. unfold pts_for.
  apply (points_loop_total curve
           (fun r k => ((lit 40 1 + lit k 1 * (lit (w - 2 * 40) 1 / lit 24 1))%Qc,
                        (lit (h - 40) 1 - r * lit (h - 2 * 40) 1)%Qc)));
    [exact L|exact M|apply range_nonneg].
Qed.

Lemma max_from_In (l : list Qc) : forall b, In (max_from b l) (b :: l).
Proof.
  induction l as [|y l IH]; intro b; simpl; [auto|].
  destruct (IH (if ltb b y then y else b)) as [E|I]; [|auto].
  rewrite <- E. destruct (ltb b y); auto.
Qed.

Lemma max_from_ge (l : list Qc) :
  forall b, (b <= max_from b l)%Qc /\ forall x, In x l -> (x <= max_from b l)%Qc.
Proof.
  induction l as [|y l IH]; intro b; simpl.
  - split; [apply Qcle_refl|intros x []].
  - destruct (IH (if ltb b y then y else b)) as (B & A).
    assert (Hb : (b <= (if ltb b y then y else b))%Qc).
    { destruct (ltb b y) eqn:E; [apply Qclt_le_weak; now apply ltb_lt|apply Qcle_refl]. }
    assert (Hy : (y <= (if ltb b y then y else b))%Qc).
    { destruct (ltb b y) eqn:E; [apply Qcle_refl|now apply ltb_ge]. }
    split; [eapply Qcle_trans; eassumption|].
    intros x [<-|I]; [eapply Qcle_trans; eassumption|auto].
Qed.

Lemma max_In (l : list Qc) (m : Qc) : Py.max l = Some m -> In m l.
Proof. destruct l as [|x l]; [discriminate|]. intro H. injection H as <-. apply max_from_In. Qed.

Lemma max_ge (l : list Qc) (m x : Qc) : Py.max l = Some m -> In x l -> (x <= m)%Qc.
Proof.
  destruct l as [|y l]; [discriminate|]. intros H I. injection H as <-.
  destruct (max_from_ge l y) as (B & A). destruct I as [<-|I]; auto.
Qed.

Lemma qmax2_ge (a b : Qc) : (a <= qmax2 a b)%Qc /\ (b <= qmax2 a b)%Qc.
Proof.
  unfold qmax2. destruct (ltb a b) eqn:E.
  - split; [apply Qclt_le_weak; now apply ltb_lt|apply Qcle_refl].
  - split; [apply Qcle_refl|now apply ltb_ge].
Qed.

Lemma draw_combined_total (w h : Z) (before after : list Qc) :
  List.length before = 24%nat -> List.length after = 24%nat ->
  exists pts, _draw_combined w h before after = Some pts.
Proof.
  intros Lb La. unfold _draw_combined.
  destruct (max_total (before ++ after)) as (m & Mm).
  { destruct before; discriminate. }
  destruct (max_total before) as (mb & Mb); [intro E; rewrite E in Lb; discriminate|].
  destruct (max_total after) as (ma & Ma); [intro E; rewrite E in La; discriminate|].
  rewrite Mm, Mb, Ma. cbn [bind].
  assert (exists mv, (if ltb 0%Qc m then Some (qmax2 mb ma * lit 11 10)%Qc
                      else Some 1%Qc) = Some mv /\ mv <> 0%Qc) as (mv & -> & NZ).
  { destruct (ltb 0%Qc m) eqn:E; eexists; (split; [reflexivity|]); [|discriminate].
    apply ltb_lt in E. intro Z0.
    apply Qcmult_integral in Z0. destruct Z0 as [Z0|Z0]; [|discriminate].
    destruct (qmax2_ge mb ma) as (G1 & G2). rewrite Z0 in G1, G2.
    apply max_In in Mm. apply in_app_iff in Mm.
    assert (Le : (m <= 0)%Qc).
    { destruct Mm as [I|I].
      - eapply Qcle_trans; [exact (max_ge _ _ _ Mb I)|exact G1].
      - eapply Qcle_trans; [exact (max_ge _ _ _ Ma I)|exact G2]. }
    exact (Qclt_not_le _ _ E Le). }
  cbn [bind].
  destruct (pts_for_total w h mv before Lb NZ) as (pb & ->).
  destruct (pts_for_total w h mv after La NZ) as (pa & ->).
  cbn [bind]. now eexists.
Qed.

Lemma draw_price_total (w h : Z) : exists pts, _draw_price w h = Some pts.
Proof.
  unfold _draw_price.
  assert (T : forall ks pts, Forall (fun k => 0 <= k) ks ->
            exists r, for_each
              (fun pts k =>
                 v <- getitem PRICE_PER_HOUR (k mod NUM_HOURS) ;;
                 let (x, y) := to_point w h k v in
                 Some (pts ++ [x; y])) ks pts = Some r).
  { induction ks as [|k ks IH]; intros pts F; simpl; [now eexists|].
    inversion F as [|? ? Hk F']; subst.
    destruct (getitem_total PRICE_PER_HOUR (k mod NUM_HOURS)) as (v & ->).
    { rewrite len_PRICE. apply Z.mod_pos_bound. reflexivity. }
    cbn [bind]. destruct (to_point w h k v). apply IH. exact F'. }
  apply T, range_nonneg.
Qed.

Lemma refresh_total (cv : Canvases) (sim : Simulator) :
  List.length (before_load sim) = 24%nat -> List.length (after_load sim) = 24%nat ->
  List.length (co2_per_hour (current_scenario sim)) = 24%nat ->
  exists stats, _refresh_all cv sim = Some stats.
Proof.
  intros Lb La Lc. unfold _refresh_all, _redraw_graphs.
  destruct (compute_stats_completes sim Lb La Lc) as (st & _ & _ & _ & _ & -> & _).
  cbn [bind].
  destruct (draw_curve_total (fst (canvas_before cv)) (snd (canvas_before cv)) _ Lb)
    as (p1 & ->).
  destruct (draw_curve_total (fst (canvas_after cv)) (snd (canvas_after cv)) _ La)
    as (p2 & ->).
  destruct (draw_combined_total (fst (canvas_combined cv)) (snd (canvas_combined cv))
              _ _ Lb La) as (p3 & ->).
  cbn [bind].
  destruct (draw_price_total (fst (canvas_price cv)) (snd (canvas_price cv)))
    as (p4 & ->).
  cbn [bind]. now eexists.
Qed.

Lemma ready_refresh (cv : Canvases) (sim : Simulator) :
  ready sim -> exists stats, _refresh_all cv sim = Some stats.
Proof.
  intros (_ & _ & K & _ & Lb & La). apply refresh_total; auto.
  now apply known_lengths.
Qed.


Lemma wf_set_power (a : Asset) (q : Qc) : wf_asset a -> wf_asset (set_power_kw a q).
Proof. intro W. exact W. Qed.

Lemma scale_assets_total (sc : Scenario) (bp : list (nat * Qc)) (l : list Asset) :
  (forall i, (i < List.length l)%nat -> dict_getitem Nat.eqb bp i <> None) ->
  exists l', scale_assets sc bp l = Some l' /\
             List.length l' = List.length l /\
             (Forall wf_asset l -> Forall wf_asset l').
Proof.
  intro C. unfold scale_assets.
  destruct (comprehension_total
              (fun x : nat * Asset =>
                 let (i, a) := x in
                 base <- dict_getitem Nat.eqb bp i ;;
                 Some (set_power_kw a (base * scenario_factor sc (appliance a))%Qc))
              (enumerate l)) as (l' & H).
  { intros [i a] I. apply In_enumerate in I.
    assert (Li : (i < List.length l)%nat) by (apply nth_error_Some; congruence).
    destruct (dict_getitem Nat.eqb bp i) as [base|] eqn:E; [|now apply C in Li].
    cbn [bind]. now eexists. }
  exists l'. split; [exact H|]. split.
  - apply comprehension_length in H. rewrite H. unfold enumerate.
    rewrite length_combine, length_seq. lia.
  - intro W. apply Forall_forall. intros a' Ia.
    apply In_nth_error in Ia. destruct Ia as (i & Ni).
    destruct (scale_assets_nth sc bp l l' H i a' Ni) as (a & base & Na & _ & ->).
    rewrite Forall_forall in W. apply wf_set_power, W.
    eapply nth_error_In; eassumption.
Qed.

Lemma dict_getitem_prepend (bp : list (nat * Qc)) (k i : nat) (v : Qc) :
  dict_getitem Nat.eqb (dict_setitem bp k v) i
  = if Nat.eqb k i then Some v else dict_getitem Nat.eqb bp i.
Proof. reflexivity. Qed.

Lemma power_by_index_loop (xs : list (nat * Asset)) :
  forall d i,
  dict_getitem Nat.eqb
    (fold_left (fun d (x : nat * Asset) => dict_setitem d (fst x) (power_kw (snd x)))
               xs d) i <> None <->
  (exists a, In (i, a) xs) \/ dict_getitem Nat.eqb d i <> None.
Proof.
  induction xs as [|[k a] xs IH]; intros d i; simpl.
  - split; [auto|]. intros [(a & [])|H]; exact H.
  - rewrite IH, dict_getitem_prepend. cbn [fst snd].
    destruct (Nat.eqb k i) eqn:E.
    + apply Nat.eqb_eq in E. subst k. split; intros _.
      * left. exists a. now left.
      * right. discriminate.
    + apply Nat.eqb_neq in E. split.
      * intros [(b & I)|H]; [left; exists b; now right|now right].
      * intros [(b & [I|I])|H]; [congruence|left; now exists b|now right].
Qed.

Lemma power_by_index_covers (l : list Asset) (i : nat) :
  (i < List.length l)%nat -> dict_getitem Nat.eqb (power_by_index l) i <> None.
Proof.
  intro L. unfold power_by_index. apply power_by_index_loop. left.
  destruct (nth_error l i) as [a|] eqn:N.
  - exists a. now apply In_enumerate.
  - apply nth_error_None in N. lia.
Qed.

Lemma length_del {A : Type} (l : list A) (i : nat) :
  (i < List.length l)%nat -> List.length (del l i) = (List.length l - 1)%nat.
Proof.
  revert i. induction l as [|x l IH]; intros [|i] H; simpl in *; try lia.
  rewrite IH by lia. lia.
Qed.

Lemma In_del {A : Type} (l : list A) (i : nat) (x : A) : In x (del l i) -> In x l.
Proof.
  revert i. induction l as [|y l IH]; intros [|i] H; simpl in *; auto.
  destruct H as [H|H]; eauto.
Qed.

Lemma Forall_del {A : Type} (P : A -> Prop) (l : list A) (i : nat) :
  Forall P l -> Forall P (del l i).
Proof.
  rewrite !Forall_forall. intros F x I. apply F. eapply In_del; eassumption.
Qed.

(** From a ready simulator every allowed event is handled without a raise,
    and leaves a ready simulator. *)
Lemma ready_step (cv : Canvases) (sim : Simulator) (ev : Event) :
  ready sim -> allowed sim ev ->
  exists sim', handle cv sim ev = Some sim' /\ ready sim'.
Proof.
  intros R A. pose proof R as (W & S & K & C & Lb & La).
  destruct (known_lengths _ K) as (L24 & _).
  assert (REF : forall r s', r = Some s' -> ready s' ->
            exists sim', (sim' <- r ;; _ <- _refresh_all cv sim' ;; Some sim')
                         = Some sim' /\ ready sim').
  { intros r s' -> R'. destruct (ready_refresh cv s' R') as (st & Q).
    exists s'. cbn [bind]. rewrite Q. auto. }
  assert (REC : forall s0, Forall wf_asset (assets s0) ->
            scenarios s0 = get_scenarios -> known_scenario (current_scenario s0) ->
            (forall i, (i < List.length (assets s0))%nat ->
                       dict_getitem Nat.eqb (base_power s0) i <> None) ->
            exists s', recalculate s0 = Some s' /\ ready s').
  { intros s0 W0 S0 K0 C0.
    destruct (recalculate_total s0 W0) as (s' & H); [now apply known_lengths|].
    exists s'. split; [exact H|]. eapply recalculate_ready; eassumption. }
  destruct ev as [name|v|v|[i|]|[i|] [|]|o ap pw d s e v|[i|] o ap pw d s e v];
    cbn [handle allowed] in *.
  - (* scenario *)
    rewrite S in A. destruct (known_name _ A) as (sc & G & Ksc).
    destruct (scale_assets_total sc (base_power sim) (assets sim) C)
      as (l1 & SA & L1 & W1).
    destruct (REC (mkSimulator (scenarios sim) sc l1 (base_power sim)
                     (before_load sim) (after_load sim) (flex_participation sim)
                     (price_weight sim) (cost_before_cents sim)
                     (cost_after_cents sim))) as (s' & H & R'); cbn; auto.
    { intros i Hi. apply C. lia. }
    apply (REF _ s'); [|exact R'].
    unfold _on_scenario_change, apply_scenario. rewrite S, G. cbn [bind].
    rewrite <- S, SA. cbn [bind]. exact H.
  - (* flex *)
    destruct (REC (mkSimulator (scenarios sim) (current_scenario sim) (assets sim)
                     (base_power sim) (before_load sim) (after_load sim)
                     (qmax2 0%Qc (qmin2 1%Qc (v / lit 100 1)%Qc))
                     (price_weight sim) (cost_before_cents sim)
                     (cost_after_cents sim))) as (s' & H & R'); cbn; auto.
    apply (REF _ s'); [exact H|exact R'].
  - (* price weight *)
    destruct (REC (mkSimulator (scenarios sim) (current_scenario sim) (assets sim)
                     (base_power sim) (before_load sim) (after_load sim)
                     (flex_participation sim)
                     (qmax2 0%Qc (qmin2 1%Qc (v / lit 100 1)%Qc))
                     (cost_before_cents sim)
                     (cost_after_cents sim))) as (s' & H & R'); cbn; auto.
    apply (REF _ s'); [exact H|exact R'].
  - (* toggle *)
    destruct (nth_error (assets sim) i) as [a|] eqn:N;
      [|apply nth_error_None in N; lia].
    destruct (REC (with_assets sim
                     (update i (set_enabled a (negb (enabled a))) (assets sim))
                     (base_power sim))) as (s' & H & R'); cbn; auto.
    { apply Forall_update; [|exact W]. rewrite Forall_forall in W.
      exact (W a (nth_error_In _ _ N)). }
    { intros k Hk. rewrite length_update in Hk. now apply C. }
    apply (REF _ s'); [|exact R']. unfold _on_toggle_asset. rewrite N. exact H.
  - now exists sim.
  - (* delete, confirmed *)
    destruct (nth_error (assets sim) i) as [a|] eqn:N;
      [|apply nth_error_None in N; lia].
    destruct (REC (with_assets sim (del (assets sim) i)
                     (power_by_index (del (assets sim) i)))) as (s' & H & R');
      cbn; auto.
    { now apply Forall_del. }
    { intros k Hk. now apply power_by_index_covers. }
    apply (REF _ s'); [|exact R']. unfold _on_delete_asset. rewrite N. exact H.
  - (* delete, declined *)
    destruct (nth_error (assets sim) i) as [a|] eqn:N;
      [|apply nth_error_None in N; lia].
    exists sim. unfold _on_delete_asset. rewrite N. auto.
  - now exists sim.
  - now exists sim.
  - (* add *)
    unfold _on_add_asset.
    destruct (_read_form_asset o ap pw d s e v) as [msg|[[[[[[o' ap'] pw'] d'] s'] e'] v']] eqn:F;
      [now exists sim|].
    destruct (read_form_cases o ap pw d s e v)
      as (Acc & Same & _).
    pose proof (Same _ F) as E. injection E as -> -> -> -> -> -> ->.
    apply Acc in F. destruct F as (Hs & He & Hd).
    destruct (REC (mkSimulator (scenarios sim) (current_scenario sim)
                     (assets sim ++ [new_asset o ap pw d s e v])
                     (dict_setitem (base_power sim)
                        (List.length (assets sim ++ [new_asset o ap pw d s e v]) - 1)%nat
                        pw)
                     (before_load sim) (after_load sim) (flex_participation sim)
                     (price_weight sim) (cost_before_cents sim)
                     (cost_after_cents sim))) as (s1 & H & R'); cbn [assets scenarios
      current_scenario base_power]; auto.
    { apply Forall_app. split; [exact W|]. constructor; [|constructor].
      unfold wf_asset. simpl. lia. }
    { intros k Hk. rewrite dict_getitem_prepend.
      rewrite length_app in *. cbn [List.length] in *.
      destruct (Nat.eqb _ k) eqn:Ek; [discriminate|].
      apply Nat.eqb_neq in Ek. apply C. lia. }
    rewrite H. cbn [bind]. destruct (ready_refresh cv s1 R') as (st & Q).
    exists s1. rewrite Q. auto.
  - (* edit *)
    unfold _on_apply_edit_to_selected.
    replace (Nat.ltb i (List.length (assets sim))) with true
      by (symmetry; apply Nat.ltb_lt; exact A).
    cbn [negb].
    destruct (_read_form_asset o ap pw d s e v) as [msg|[[[[[[o' ap'] pw'] d'] s'] e'] v']] eqn:F;
      [now exists sim|].
    destruct (read_form_cases o ap pw d s e v)
      as (Acc & Same & _).
    pose proof (Same _ F) as E. injection E as -> -> -> -> -> -> ->.
    apply Acc in F. destruct F as (Hs & He & Hd).
    destruct (nth_error (assets sim) i) as [a|] eqn:N;
      [|apply nth_error_None in N; lia].
    cbn [bind].
    destruct (REC (with_assets sim
                     (update i (set_form_fields a o ap pw d s e v) (assets sim))
                     (dict_setitem (base_power sim) i pw))) as (s1 & H & R');
      cbn [with_assets assets scenarios current_scenario base_power]; auto.
    { apply Forall_update; [|exact W]. unfold wf_asset. simpl. lia. }
    { intros k Hk. rewrite length_update in Hk. rewrite dict_getitem_prepend.
      destruct (Nat.eqb i k); [discriminate|]. now apply C. }
    unfold with_assets in H |- *. rewrite H. cbn [bind].
    destruct (ready_refresh cv s1 R') as (st & Q). exists s1. rewrite Q. auto.
  - now exists sim.
Qed.


Lemma initial_assets_wf : Forall wf_asset initial_assets.
Proof.
  apply Forall_forall. intros a Ia.
  assert (B : forallb (fun a => (0 <=? start_hour a) && (start_hour a <=? 23)
                                && (0 <=? end_hour a) && (end_hour a <=? 24))
                      initial_assets = true).
  { vm_compute. reflexivity. }
  rewrite forallb_forall in B. specialize (B a Ia). unfold wf_asset. lia.
Qed.

Lemma baseline_known :
  dict_getitem String.eqb get_scenarios "Baseline"%string
  = Some (mkScenario "Baseline" generate_baseline_base_load CO2_PER_HOUR_BASELINE []).
Proof. reflexivity. Qed.

Lemma baseline_is_known :
  known_scenario (mkScenario "Baseline" generate_baseline_base_load CO2_PER_HOUR_BASELINE []).
Proof. unfold known_scenario, get_scenarios. cbn [map snd]. left. reflexivity. Qed.

Lemma init_ready : exists sim, __init__ = Some sim /\ ready sim.
Proof.
  unfold __init__. rewrite baseline_known. cbn [bind].
  set (sc := mkScenario "Baseline" generate_baseline_base_load CO2_PER_HOUR_BASELINE []).
  pose proof baseline_is_known as K. fold sc in K.
  set (s0 := mkSimulator get_scenarios sc initial_assets
               (power_by_index initial_assets) (base_load sc) (base_load sc)
               1%Qc (lit 5 10) 0%Qc 0%Qc).
  destruct (recalculate_total s0 initial_assets_wf) as (sim & H).
  { apply (known_lengths sc K). }
  exists sim. split; [exact H|].
  apply (recalculate_ready s0 sim initial_assets_wf eq_refl K); [|exact H].
  intros i Hi. now apply power_by_index_covers.
Qed.

(** The modular application never raises: the simulator is constructed and
    first refreshed without a raise, and from then on every event that the
    widgets allow (a scenario of the combo box, a slider move, a button with
    a line of the list box selected or none, any parsed form) is handled to
    its end, the statistics and the four graphs included, and leaves the
    simulator ready for the next one. *)
Theorem the_application_never_raises (cv : Canvases) :
  (exists sim stats, __init__ = Some sim /\ _refresh_all cv sim = Some stats) /\
  (forall sim, reachable cv sim ->
     ready sim /\
     forall ev, allowed sim ev -> exists sim', handle cv sim ev = Some sim').
Proof.
  split.
  - destruct init_ready as (sim & H & R).
    destruct (ready_refresh cv sim R) as (st & Q).
    exists sim, st. split; [exact H|exact Q].
  - assert (RR : forall sim, reachable cv sim -> ready sim).
    { induction 1 as [sim st H Q|sim ev sim' _ IH A H].
      - destruct init_ready as (sim0 & H0 & R0).
        rewrite H0 in H. injection H as <-. exact R0.
      - destruct (ready_step cv sim ev IH A) as (sim1 & H1 & R1).
        rewrite H1 in H. injection H as <-. exact R1. }
    intros sim R. split; [exact (RR sim R)|].
    intros ev A. destruct (ready_step cv sim ev (RR sim R) A) as (sim' & H & _).
    exists sim'. exact H.
Qed.

End AppSafety.

(* ------------------------------------------------------------------ *)
(** * The modular application: what the callbacks do to the catalog *)
(* ------------------------------------------------------------------ *)

Section AppCallbacks.

Import Logic Spec SpecApp FlexiCityApp.

Lemma power_by_index_lookup (l : list Asset) :
  forall s d i,
  dict_getitem Nat.eqb
    (fold_left (fun d (x : nat * Asset) => dict_setitem d (fst x) (power_kw (snd x)))
               (combine (seq s (List.length l)) l) d) i
  = match nth_error l (i - s) with
    | Some a => if Nat.leb s i then Some (power_kw a) else dict_getitem Nat.eqb d i
    | None => dict_getitem Nat.eqb d i
    end.
Proof.
  induction l as [|a l IH]; intros s d i; simpl.
  - destruct (i - s)%nat; reflexivity.
  - rewrite IH. cbn [fst snd]. rewrite dict_getitem_prepend.
    destruct (Nat.leb s i) eqn:E1; [apply Nat.leb_le in E1|apply Nat.leb_gt in E1].
    + destruct (Nat.eq_dec s i) as [->|Ne].
      * rewrite Nat.sub_diag, Nat.eqb_refl. cbn [nth_error].
        replace (i - S i)%nat with 0%nat by lia.
        replace (Nat.leb (S i) i) with false by (symmetry; apply Nat.leb_gt; lia).
        destruct l; reflexivity.
      * replace (i - s)%nat with (S (i - S s)) by lia. cbn [nth_error].
        replace (Nat.leb (S s) i) with true by (symmetry; apply Nat.leb_le; lia).
        replace (Nat.eqb s i) with false by (symmetry; apply Nat.eqb_neq; lia).
        reflexivity.
    + replace (Nat.leb (S s) i) with false by (symmetry; apply Nat.leb_gt; lia).
      replace (Nat.eqb s i) with false by (symmetry; apply Nat.eqb_neq; lia).
      replace (i - s)%nat with 0%nat by lia.
      replace (i - S s)%nat with 0%nat by lia. cbn [nth_error].
      destruct l; reflexivity.
Qed.

Lemma power_by_index_nth (l : list Asset) (i : nat) (a : Asset) :
  nth_error l i = Some a ->
  dict_getitem Nat.eqb (power_by_index l) i = Some (power_kw a).
Proof.
  intro N. unfold power_by_index, enumerate. rewrite power_by_index_lookup.
  rewrite Nat.sub_0_r, N. reflexivity.
Qed.

(** Deleting an asset re-bases the scenarios: the reference powers are
    rebuilt from the powers of the moment, so that the scenario applied next
    scales the power that every remaining asset has at the deletion (scaled
    as it may be by the scenario in force), not the power it was given. *)
Theorem deleting_an_asset_rebases_the_scenarios
        (sim sim' : Simulator) (i : nat) :
  _on_delete_asset sim (Some i) true = Some sim' ->
  List.length (assets sim') = (List.length (assets sim) - 1)%nat /\
  map power_kw (assets sim') = map power_kw (del (assets sim) i) /\
  (forall k a', nth_error (assets sim') k = Some a' ->
     dict_getitem Nat.eqb (base_power sim') k = Some (power_kw a')) /\
  (forall name sim'', apply_scenario sim' name = Some sim'' ->
   forall k a'', nth_error (assets sim'') k = Some a'' ->
   exists a', nth_error (assets sim') k = Some a' /\
     power_kw a''
     = (power_kw a' * keyword_factor (current_scenario sim'') (appliance a'))%Qc).
Proof.
  unfold _on_delete_asset. intro H.
  apply bind_Some in H. destruct H as (a & N & H). cbn [negb] in H.
  assert (Li : (i < List.length (assets sim))%nat) by (apply nth_error_Some; congruence).
  pose proof (recalculate_assets _ _ H) as K.
  destruct (recalculate_fields _ _ H) as (_ & _ & EB & EL & _).
  cbn [with_assets assets base_power] in *.
  assert (P : map power_kw (assets sim') = map power_kw (del (assets sim) i)).
  { transitivity (map power_kw (map clear_after (assets sim'))).
    - rewrite map_map. reflexivity.
    - rewrite K, !map_map. reflexivity. }
  assert (B : forall k a', nth_error (assets sim') k = Some a' ->
            dict_getitem Nat.eqb (base_power sim') k = Some (power_kw a')).
  { intros k a' Nk. rewrite EB.
    pose proof (f_equal (fun l => nth_error l k) P) as Q. cbn beta in Q.
    rewrite !nth_error_map, Nk in Q. cbn [option_map] in Q.
    destruct (nth_error (del (assets sim) i) k) as [a0|] eqn:N0; [|discriminate].
    cbn [option_map] in Q. injection Q as ->. now apply power_by_index_nth. }
  split; [rewrite EL; now apply length_del|]. split; [exact P|]. split; [exact B|].
  intros name sim'' HA k a'' Nk.
  destruct (logic_apply_scenario _ _ _ HA) as (sc & _ & <- & _ & _ & _ & AS).
  destruct (AS k a'' Nk) as (a' & base & Na & Bk & _ & Pk).
  exists a'. split; [exact Na|]. rewrite (B k a' Na) in Bk. injection Bk as <-.
  exact Pk.
Qed.


Lemma update_update {A : Type} (k : nat) (x y : A) (l : list A) :
  update k x (update k y l) = update k x l.
Proof.
  revert k. induction l as [|z l IH]; intros [|k]; simpl; auto. now rewrite IH.
Qed.

Lemma forget_hours_placed (l' l : list Asset) :
  map clear_after l' = map clear_after (map set_naive l) ->
  map forget_hours l' = map forget_hours l.
Proof.
  intro K.
  transitivity (map forget_hours (map clear_after l')).
  - rewrite map_map. reflexivity.
  - rewrite K, !map_map. reflexivity.
Qed.

Lemma forget_recalculated (s s' : Simulator) :
  recalculate s = Some s' -> forget s' = forget s.
Proof.
  intro H. pose proof (recalculate_assets _ _ H) as K.
  destruct (recalculate_fields _ _ H) as (E1 & E2 & E3 & _).
  destruct (recalculate_keeps_sliders _ _ H) as (E4 & E5).
  unfold forget. rewrite E1, E2, E3, E4, E5. f_equal.
  now apply forget_hours_placed.
Qed.

(** Switching an asset off and on again (or on and off) brings back the
    schedules, the curves and the costs that a plain recompute gives. *)
Theorem toggling_twice_restores_the_recompute
        (sim sim1 : Simulator) (i : nat) :
  _on_toggle_asset sim (Some i) = Some sim1 ->
  _on_toggle_asset sim1 (Some i) = recalculate sim.
Proof.
  unfold _on_toggle_asset. intro H.
  apply bind_Some in H. destruct H as (a & N & H).
  pose proof (forget_recalculated _ _ H) as F.
  assert (Li : (i < List.length (assets sim))%nat) by (apply nth_error_Some; congruence).
  destruct (nth_error (assets sim1) i) as [a1|] eqn:N1.
  2:{ exfalso. apply nth_error_None in N1.
      destruct (recalculate_fields _ _ H) as (_ & _ & _ & EL & _).
      cbn [with_assets assets] in EL. rewrite length_update in EL. lia. }
  cbn [bind]. apply recalculate_same_inputs.
  unfold forget, with_assets in *.
  cbn [scenarios current_scenario assets base_power flex_participation price_weight]
    in *.
  injection F as E1 E2 E3 E4 E5 E6. rewrite E1, E2, E4, E5, E6. f_equal.
  rewrite map_update, E3, map_update, update_update.
  apply update_same.
  rewrite nth_error_map, N. cbn [option_map]. f_equal.
  assert (Q : forget_hours a1 = forget_hours (set_enabled a (negb (enabled a)))).
  { pose proof (f_equal (fun l => nth_error l i) E3) as Q. cbn beta in Q.
    rewrite map_update, !nth_error_map, N1 in Q. cbn [option_map] in Q.
    rewrite nth_error_update_eq in Q by (now rewrite length_map).
    congruence. }
  destruct a, a1. cbn in Q |- *. injection Q as -> -> -> -> -> -> -> ->.
  now rewrite negb_involutive.
Qed.


(** A re-placed asset of non-negative duration gets as many after hours as
    it has before hours. *)
Lemma after_hours_as_many (s s' : Simulator) (a' : Asset) :
  recalculate s = Some s' -> In a' (assets s') ->
  enabled a' = true -> 0 <= duration_h a' -> replaced a' ->
  List.length (after_hours a') = List.length (before_hours a').
Proof.
  intros H Ia E D R. pose proof (recalculate_assets _ _ H) as K.
  apply recalculate_inv in H.
  destruct H as (s1 & l' & al' & c' & _ & L & ->). cbn [assets] in *.
  set (l0 := map clear_after (map set_naive (assets s))) in *.
  destruct (after_loop_visited
              (fun a' => 0 <= duration_h a' -> replaced a' ->
                         List.length (after_hours a') = List.length (before_hours a'))
              (fun st => map clear_after (fst (fst st)) = map clear_after l0)
              (flex_participation s) (price_weight s) (1 - price_weight s)%Qc
              (enabled_assets l0)) with (idxs := enabled_assets l0)
              (st := (l0, before_load s1, 0%Qc)) (st' := (l', al', c'))
    as (_ & VIS).
  - intros [[l1 al1] c1] j [[l2 al2] c2] I1 Ij P. cbn [fst snd] in *.
    pose proof (place_keeps _ _ _ _ _ _ _ _ _ _ P) as (K1 & _). congruence.
  - intros [[l1 al1] c1] j [[l2 al2] c2] a2 I1 Ij P N2 D2. cbn [fst snd] in *.
    pose proof (place_inv _ _ _ _ _ _ _ _ _ _ P) as (a1 & N1 & _).
    pose proof (place_keeps _ _ _ _ _ _ _ _ _ _ P) as (K1 & _).
    destruct (map_eq_nth _ _ _ _ _ K1 N2) as (a1' & N1' & E1).
    rewrite N1 in N1'. injection N1' as <-.
    pose proof (f_equal duration_h E1) as Ed. cbn in Ed.
    apply In_enabled_assets in Ij. destruct Ij as (a0 & N0 & E0).
    destruct (map_eq_nth _ _ _ _ _ I1 N1) as (a0' & N0' & Ec).
    rewrite N0 in N0'. injection N0' as <-.
    apply clear_after_eq in Ec.
    assert (S1 : settled a1).
    { rewrite Ec. unfold l0 in N0. rewrite map_map, nth_error_map in N0.
      destruct (nth_error (assets s) j) as [a|]; [|discriminate].
      cbn [option_map] in N0. injection N0 as <-. split; [reflexivity|].
      pose proof (f_equal duration_h Ec) as Ed'. cbn in Ed'. cbn. lia. }
    assert (En1 : enabled a1 = true) by (rewrite Ec; exact E0).
    destruct (place_conserves _ _ _ _ _ _ _ _ _ _ _ P N1 En1 S1) as (_ & Q).
    exact (Q a2 N2).
  - apply incl_refl.
  - reflexivity.
  - exact L.
  - cbn [fst snd] in VIS.
    apply In_nth_error in Ia. destruct Ia as (i & Ni).
    refine (VIS i a' _ Ni D R). apply In_enabled_assets.
    assert (K' : map clear_after l' = map clear_after l0).
    { rewrite K. unfold l0. now rewrite !map_map. }
    destruct (map_eq_nth _ _ _ _ _ K' Ni) as (a0 & N0 & E0).
    exists a0. split; [exact N0|].
    apply (f_equal enabled) in E0. cbn in E0. congruence.
Qed.

Lemma nth_error_last {A : Type} (l : list A) (x : A) :
  nth_error (l ++ [x]) (List.length l) = Some x.
Proof. rewrite nth_error_app2 by lia. now rewrite Nat.sub_diag. Qed.

(** An asset that the form accepts goes to the end of the catalog with its
    power as reference power, and runs its full duration: its before hours
    are the first [duration] hours of its window and, its power being
    positive, it has [duration] after hours too; the validation makes the
    clamp of the engine idle. *)
Theorem an_accepted_asset_runs_its_full_duration
        (sim sim' : Simulator) (o ap : string) (pw : Qc) (d s e : Z) (v : bool) :
  _on_add_asset sim o ap pw d s e v = Some (Some sim') ->
  List.length (assets sim') = S (List.length (assets sim)) /\
  dict_getitem Nat.eqb (base_power sim') (List.length (assets sim)) = Some pw /\
  exists a',
    nth_error (assets sim') (List.length (assets sim)) = Some a' /\
    clear_after a' = set_naive (new_asset o ap pw d s e v) /\
    before_hours a' = firstn (Z.to_nat d) (get_window_hours s e) /\
    List.length (before_hours a') = Z.to_nat d /\
    ((0 < pw)%Qc -> List.length (after_hours a') = Z.to_nat d).
Proof.
  unfold _on_add_asset. intro H.
  destruct (_read_form_asset o ap pw d s e v)
    as [msg|[[[[[[o' ap'] pw'] d'] s'] e'] v']] eqn:F; [discriminate|].
  destruct (read_form_cases o ap pw d s e v) as (Acc & Same & _).
  pose proof (Same _ F) as E. injection E as -> -> -> -> -> -> ->.
  apply Acc in F. destruct F as (Hs & He & Hd).
  apply bind_Some in H. destruct H as (s1 & H & E). injection E as ->.
  pose proof (recalculate_assets _ _ H) as K.
  destruct (recalculate_fields _ _ H) as (_ & _ & EB & EL & _).
  cbn [assets base_power] in *.
  rewrite length_app in EL. cbn [List.length] in EL.
  split; [lia|]. split.
  { rewrite EB, dict_getitem_prepend, length_app. cbn [List.length].
    replace (List.length (assets sim) + 1 - 1)%nat with (List.length (assets sim)) by lia.
    now rewrite Nat.eqb_refl. }
  destruct (nth_error (assets sim') (List.length (assets sim))) as [a'|] eqn:N.
  2:{ exfalso. apply nth_error_None in N. lia. }
  exists a'. split; [reflexivity|].
  destruct (map_eq_nth _ _ _ _ _ K N) as (a0 & N0 & E0).
  rewrite nth_error_map, nth_error_last in N0. cbn [option_map] in N0.
  injection N0 as <-.
  assert (C : clear_after a' = set_naive (new_asset o ap pw d s e v)) by exact E0.
  assert (B : before_hours a' = firstn (Z.to_nat d) (get_window_hours s e)).
  { pose proof (f_equal before_hours C) as B. cbn in B. rewrite B.
    unfold naive_hours, window_of. cbn [enabled start_hour end_hour duration_h new_asset].
    replace (min2 d (len (get_window_hours s e))) with d
      by (unfold min2; destruct (_ <? _) eqn:Q; lia).
    rewrite slice_prefix by lia. f_equal. lia. }
  assert (LB : List.length (before_hours a') = Z.to_nat d).
  { rewrite B, length_firstn. unfold len in Hd. lia. }
  repeat split; auto.
  intro P. rewrite <- LB.
  apply (after_hours_as_many _ _ a' H); [eapply nth_error_In; exact N| | |].
  - apply (f_equal enabled) in C. exact C.
  - apply (f_equal duration_h) in C. cbn in C. rewrite C. lia.
  - apply replaced_iff. split.
    + apply (f_equal power_kw) in C. cbn in C. now rewrite C.
    + intro Z0. rewrite Z0 in LB. simpl in LB. lia.
Qed.

End AppCallbacks.


(* ------------------------------------------------------------------ *)
(** * SmartLDS: the schedule that a recompute leaves *)
(* ------------------------------------------------------------------ *)

Section LDSSchedule.

Import SmartLDS SpecLDS.
Import Spec (hour_in_day).

Lemma lds_naive_length (a : Asset) :
  naive_hours a <> [] -> List.length (naive_hours a) = Z.to_nat (duration_of a).
Proof.
  unfold naive_hours. destruct (_ && _ && _); [|congruence]. intros _.
  pose proof (lds_duration_bounds a) as D.
  rewrite slice_prefix by lia. rewrite length_firstn. unfold len in *. lia.
Qed.

Lemma lds_chosen_length (scores : list (Z * Qc)) (a : Asset) (chosen : list Z) :
  (if variable a
   then Logic.take_best scores (Z.to_nat (duration_of a)) (window_of a) []
   else
     best_block <- Logic.block_search scores (window_of a) (duration_of a) ;;
     match best_block with
     | Some block => Some block
     | None => Some []
     end) = Some chosen ->
  List.length chosen = Z.to_nat (duration_of a).
Proof.
  pose proof (lds_duration_bounds a) as D.
  destruct (variable a); intro H.
  - apply take_best_greedy in H. destruct H as (picks & -> & G).
    apply greedy_length in G. cbn [app]. rewrite G. unfold len in D. lia.
  - apply bind_Some in H. destruct H as (bb & B & H).
    destruct (block_search_first_least _ _ _ _ D B) as (i & v & -> & I0 & I1 & _).
    injection H as <-. apply length_slice; lia.
Qed.

Lemma lds_chosen_NoDup (scores : list (Z * Qc)) (a : Asset) (chosen : list Z) :
  (if variable a
   then Logic.take_best scores (Z.to_nat (duration_of a)) (window_of a) []
   else
     best_block <- Logic.block_search scores (window_of a) (duration_of a) ;;
     match best_block with
     | Some block => Some block
     | None => Some []
     end) = Some chosen ->
  NoDup chosen.
Proof.
  assert (W : NoDup (window_of a)).
  { unfold window_of. rewrite lds_window_eq. apply window_NoDup. }
  destruct (variable a); intro H.
  - apply take_best_greedy in H. destruct H as (picks & -> & G).
    cbn [app]. eapply greedy_NoDup; eassumption.
  - apply bind_Some in H. destruct H as (bb & B & H).
    destruct bb as [block|]; injection H as <-; [|constructor].
    destruct (block_search_slice _ _ _ _ B) as (i & j & ->).
    now apply NoDup_slice.
Qed.

Lemma lds_naive_incl (a : Asset) : incl (naive_hours a) (window_of a).
Proof.
  intros h H. unfold naive_hours in H. destruct (_ && _ && _); [|contradiction].
  eapply slice_incl; eassumption.
Qed.

Lemma lds_naive_NoDup (a : Asset) : NoDup (naive_hours a).
Proof.
  unfold naive_hours. destruct (_ && _ && _); [|constructor].
  apply NoDup_slice. unfold window_of. rewrite lds_window_eq. apply window_NoDup.
Qed.

Lemma lds_naive_enabled (a : Asset) :
  naive_hours a <> [] -> enabled a = true /\ leb (power_kW a) 0%Qc = false.
Proof.
  unfold naive_hours. destruct (enabled a); [|now cbn [andb]].
  destruct (leb (power_kW a) 0%Qc); [|auto].
  rewrite andb_false_r. congruence.
Qed.

(** A loop establishes at each element it visits a property that later
    turns keep. *)
Lemma for_each_visited {S A : Type} (I : S -> Prop) (P : S -> A -> Prop)
      (body : S -> A -> option S) (l : list A) :
  (forall s x s', In x l -> I s -> body s x = Some s' ->
     I s' /\ P s' x /\ forall y, P s y -> P s' y) ->
  forall s s', I s -> for_each body l s = Some s' ->
  I s' /\ (forall y, P s y -> P s' y) /\ forall x, In x l -> P s' x.
Proof.
  induction l as [|x l IH]; intros Hb s s' Hs H; simpl in H.
  - injection H as <-. split; [exact Hs|]. split; [auto|]. intros x [].
  - apply bind_Some in H. destruct H as (s1 & B & H).
    destruct (Hb s x s1 (or_introl eq_refl) Hs B) as (I1 & P1 & K1).
    destruct (IH (fun s x s' Hx => Hb s x s' (or_intror Hx)) s1 s' I1 H)
      as (I2 & K2 & V2).
    split; [exact I2|]. split; [auto|].
    intros y [<-|Hy]; auto.
Qed.

Lemma lds_place_step (p w wg : Qc) (l0 : list Asset) (al0 : list Qc)
      (st st' : list Asset * list Qc) (i : nat) :
  Forall (fun a => before_hours a = naive_hours a) l0 ->
  lds_loop_inv l0 al0 st -> place p w wg st i = Some st' ->
  lds_loop_inv l0 al0 st' /\ lds_as_many st' i /\
  forall j, lds_as_many st j -> lds_as_many st' j.
Proof.
  destruct st as [l al], st' as [l' al']. intros B0 (K & S & F) H.
  cbn [fst snd] in *.
  pose proof (lds_place_keeps _ _ _ _ _ _ _ _ H) as (K' & _ & _).
  apply lds_place_inv in H. destruct H as (a & N & H).
  assert (Ba : before_hours a = naive_hours a).
  { destruct (map_eq_nth _ _ _ _ _ K N) as (a0 & N0 & E0).
    apply lds_clear_after_eq in E0. rewrite Forall_forall in B0.
    rewrite E0. cbn [before_hours set_after_hours].
    rewrite (B0 a0 (nth_error_In _ _ N0)).
    destruct a0; reflexivity. }
  pose proof F as F'. rewrite Forall_forall in F'.
  destruct (F' a (nth_error_In _ _ N)) as (Fa1 & Fa2 & Fa3).
  assert (Li : (i < List.length l)%nat) by (apply nth_error_Some; congruence).
  assert (U : forall hs,
             (before_hours a = [] -> hs = []) -> incl hs (window_of a) -> NoDup hs ->
             List.length hs = List.length (before_hours a) ->
             Forall (fun a => (before_hours a = [] -> after_hours a = []) /\
                              incl (after_hours a) (window_of a) /\
                              NoDup (after_hours a))
                    (update i (set_after_hours a hs) l) /\
             lds_as_many (update i (set_after_hours a hs) l, al') i /\
             forall j, lds_as_many (l, al) j ->
                       lds_as_many (update i (set_after_hours a hs) l, al') j).
  { intros hs H1 H2 H3 H4. split; [|split].
    - apply Forall_update; [|exact F]. cbn [before_hours after_hours set_after_hours].
      destruct a; auto.
    - intros a' N'. cbn [fst] in N'. rewrite nth_error_update_eq in N' by exact Li.
      injection N' as <-. exact H4.
    - intros j Pj a' N'. cbn [fst] in N'.
      destruct (Nat.eq_dec j i) as [->|Ne].
      + rewrite nth_error_update_eq in N' by exact Li. injection N' as <-. exact H4.
      + rewrite nth_error_update_neq in N' by congruence. exact (Pj a' N'). }
  destruct H as [(Z0 & -> & ->)|[(_ & E & -> & ->)|
                 (_ & E & _ & al1 & scores & chosen & S1 & _ & S3 & S4 & ->)]].
  - split; [now repeat split|]. split; [|auto].
    intros a' N'. cbn [fst] in N'. rewrite N in N'. injection N' as <-.
    assert (Bn : before_hours a = []).
    { rewrite Ba. destruct (naive_hours a) eqn:En; [reflexivity|].
      destruct (lds_naive_enabled a) as (_ & C); congruence. }
    now rewrite Bn, (Fa1 Bn).
  - destruct (U (before_hours a)) as (U1 & U2 & U3); auto.
    + rewrite Ba. apply lds_naive_incl.
    + rewrite Ba. apply lds_naive_NoDup.
    + split; [|split; assumption].
      split; [cbn [fst]; rewrite K'; exact K|]. split; assumption.
  - apply orb_false_iff in E. destruct E as (_ & E).
    assert (Bn : before_hours a <> []) by (destruct (before_hours a); [discriminate|congruence]).
    destruct (U chosen) as (U1 & U2 & U3).
    + intro C. contradiction.
    + intros h Hh. eapply lds_chosen_in_window; eassumption.
    + eapply lds_chosen_NoDup; eassumption.
    + rewrite (lds_chosen_length _ _ _ S3), Ba. symmetry. apply lds_naive_length.
      now rewrite <- Ba.
    + split; [|split; assumption].
      split; [cbn [fst]; rewrite K'; exact K|]. split; [|exact U1].
      cbn [snd]. rewrite (for_each_iadd_sum _ _ _ _ S4), (for_each_isub_sum _ _ _ _ S1), S.
      unfold len. rewrite (lds_chosen_length _ _ _ S3), Ba, lds_naive_length
        by now rewrite <- Ba.
      ring.
Qed.


Lemma Forall2_and_right {A B : Type} (R : A -> B -> Prop) (P : B -> Prop)
      (l : list A) (l2 : list B) :
  Forall2 R l l2 -> Forall P l2 -> Forall2 (fun a b => R a b /\ P b) l l2.
Proof.
  induction 1 as [|a b l l2 Hab _ IH]; intro F; constructor;
    inversion F; subst; auto.
Qed.

(** What a recompute of the script leaves: the curve after flexibility has
    the total of the curve before, and every asset has its naive hours as
    before hours and as many after hours, taken from its window, no hour
    twice. *)
Lemma lds_recalc_schedule (g g' : Globals) :
  recalculate_schedules g = Some g' ->
  sum (after_load g') = sum (before_load g') /\
  Forall2 (fun a a' =>
             (reset a' = reset a /\ before_hours a' = naive_hours a) /\
             incl (after_hours a') (window_of a') /\
             NoDup (after_hours a') /\
             List.length (after_hours a') = List.length (before_hours a'))
          (ASSETS g) (ASSETS g').
Proof.
  intro H. apply lds_recalc_inv in H.
  destruct H as (bl & cb & l2 & al & ca & _ & _ & L & _ & ->).
  cbn [ASSETS after_load before_load].
  set (l0 := map set_naive (map reset (ASSETS g))) in *.
  assert (B0 : Forall (fun a => before_hours a = naive_hours a) l0).
  { unfold l0. rewrite map_map. apply Forall_map, Forall_forall. intros a _.
    destruct a; reflexivity. }
  assert (I0 : lds_loop_inv l0 bl (l0, bl)).
  { split; [reflexivity|]. split; [reflexivity|]. cbn [fst].
    unfold l0. rewrite map_map. apply Forall_map, Forall_forall. intros a _.
    cbn [after_hours set_naive set_before_hours reset set_after_hours].
    split; [reflexivity|]. split; [intros h []|constructor]. }
  destruct (for_each_visited (lds_loop_inv l0 bl) lds_as_many
              (place (flex_var g / lit 100 1)%Qc (priority_var g / lit 100 1)%Qc
                     (1 - priority_var g / lit 100 1)%Qc)
              (enabled_sorted l0)) with (s := (l0, bl)) (s' := (l2, al))
    as ((K & S & F) & _ & V); auto.
  { intros st i st' _ I P. eapply lds_place_step; eassumption. }
  cbn [fst snd] in *. split; [exact S|].
  assert (R : Forall2 (fun a a' => reset a' = reset a /\ before_hours a' = naive_hours a)
                      (ASSETS g) l2).
  { symmetry in K. unfold l0 in K. rewrite !map_map in K.
    apply map_eq_Forall2 in K. eapply Forall2_impl; [|exact K].
    intros a a' E. cbv beta in E. symmetry in E. apply lds_clear_after_eq in E.
    rewrite E. destruct a; split; reflexivity. }
  apply Forall2_and_right; [exact R|].
  apply Forall_forall. intros a' Ia'.
  rewrite Forall_forall in F. destruct (F a' Ia') as (F1 & F2 & F3).
  split; [exact F2|]. split; [exact F3|].
  apply In_nth_error in Ia'. destruct Ia' as (i & Ni).
  destruct (map_eq_nth _ _ _ _ _ K Ni) as (a0 & N0 & E0).
  destruct (before_hours a') eqn:Eb; [now rewrite F1|]. rewrite <- Eb.
  apply (V i); [|exact Ni].
  apply lds_In_enabled_sorted. exists a0. split; [exact N0|].
  apply lds_clear_after_eq in E0. rewrite Forall_forall in B0.
  pose proof (B0 a0 (nth_error_In _ _ N0)) as Bn.
  rewrite E0 in Eb. cbn [before_hours set_after_hours] in Eb.
  destruct (lds_naive_enabled a0) as (En & _); [congruence|exact En].
Qed.


Lemma reset_window (a a' : Asset) : reset a' = reset a -> window_of a' = window_of a.
Proof.
  intro E. unfold window_of, sh_of, eh_of.
  pose proof (f_equal start_hour E) as Es. pose proof (f_equal end_hour E) as Ee.
  cbn in Es, Ee. now rewrite Es, Ee.
Qed.

(** The recompute of the script raises nothing on a 24-hour base curve,
    whatever the catalog and the sliders: hour bounds are clamped into the
    day and durations into [1, window length], so that every index is one
    of the day.  It leaves 24-hour curves; every asset keeps its static
    fields, has its naive hours as before hours, and as after hours distinct
    hours of the day taken from its window, none if it is disabled.  An
    enabled asset with distinct clamped bounds and a positive power has as
    many before hours as its duration clamped into [1, window length], so at
    least one. *)
Theorem script_recompute_never_raises (g : Globals) :
  List.length (BASE_LOAD g) = 24%nat ->
  exists g',
    recalculate_schedules g = Some g' /\
    List.length (before_load g') = 24%nat /\
    List.length (after_load g') = 24%nat /\
    Forall2 (fun a a' =>
               reset a' = reset a /\
               before_hours a' = naive_hours a /\
               incl (after_hours a') (window_of a) /\
               NoDup (after_hours a') /\
               Forall hour_in_day (after_hours a') /\
               (enabled a = false -> after_hours a' = []) /\
               (enabled a = true -> sh_of a <> eh_of a -> (0 < power_kW a)%Qc ->
                len (before_hours a') = clamp (duration_h a) 1 (len (window_of a)) /\
                1 <= len (before_hours a')))
            (ASSETS g) (ASSETS g').
Proof.
  intro L. destruct (lds_recalc_total g L) as (g' & H). exists g'.
  split; [exact H|].
  pose proof (lds_recalc_keeps _ _ H) as (_ & _ & _ & _ & _ & Lb & La).
  split; [congruence|]. split; [congruence|].
  destruct (lds_recalc_schedule _ _ H) as (_ & F).
  eapply Forall2_impl; [|exact F].
  intros a a' ((R & B) & I & N & M). cbv beta.
  rewrite (reset_window _ _ R) in I.
  split; [exact R|]. split; [exact B|]. split; [exact I|]. split; [exact N|].
  split; [|split].
  - apply Forall_forall. intros h Hh. eapply lds_window_in_day. apply I. exact Hh.
  - intro E. destruct (after_hours a'); [reflexivity|]. exfalso.
    rewrite B in M. unfold naive_hours in M. rewrite E in M. discriminate.
  - intros E S P. rewrite B. unfold naive_hours. rewrite E.
    apply Z.eqb_neq in S. rewrite S.
    replace (leb (power_kW a) 0%Qc) with false
      by (symmetry; apply leb_gt; exact P).
    cbn [andb negb]. pose proof (lds_duration_bounds a) as D.
    unfold len at 1 3. rewrite slice_prefix by lia. rewrite length_firstn.
    fold (duration_of a). unfold len in *. lia.
Qed.


End LDSSchedule.

(* ------------------------------------------------------------------ *)
(** * SmartLDS: the CO2 search and the balanced search *)
(* ------------------------------------------------------------------ *)

Section LDSOptimizers.

Import SmartLDS SpecLDS.
Import Spec (hour_in_day, first_least).

(** The two emission totals, computed in one loop. *)
Lemma co2_loop_split (bl al co2 : list Qc) (hs : list Z) :
  forall b0 a0 b a,
  for_each (Logic.co2_step bl al co2) hs (b0, a0) = Some (b, a) ->
  for_each (fun acc h => x <- getitem bl h ;; c <- getitem co2 h ;;
                         Some (acc + x * c)%Qc) hs b0 = Some b /\
  for_each (fun acc h => x <- getitem al h ;; c <- getitem co2 h ;;
                         Some (acc + x * c)%Qc) hs a0 = Some a.
Proof.
  induction hs as [|h hs IH]; intros b0 a0 b a H; simpl in H.
  - injection H as <- <-. auto.
  - apply bind_Some in H. destruct H as ([b1 a1] & S & H).
    unfold Logic.co2_step in S.
    apply bind_Some in S. destruct S as (x & X & S).
    apply bind_Some in S. destruct S as (c & C & S).
    apply bind_Some in S. destruct S as (y & Y & S).
    rewrite C in S. cbn [bind] in S. injection S as <- <-.
    simpl. rewrite X, Y, C. cbn [bind]. apply IH. exact H.
Qed.

Lemma co2_loop_emissions (bl al co2 : list Qc) (b a : Qc) :
  for_each (Logic.co2_step bl al co2) (range 0 NUM_HOURS) (0%Qc, 0%Qc) = Some (b, a) ->
  emissions bl co2 = Some b /\ emissions al co2 = Some a.
Proof. apply co2_loop_split. Qed.

Lemma best_so_far_step {A : Type} (score : A -> option Qc) (done : list A) (x : A)
      (st : option A * option Qc) (v : Qc) :
  best_so_far score done st -> score x = Some v ->
  best_so_far score (done ++ [x])
    (match snd st with
     | None => (Some x, Some v)
     | Some best_score => if ltb v best_score then (Some x, Some v) else st
     end).
Proof.
  intros [(-> & ->)|(b & vb & -> & FL)] F; cbn [snd]; right.
  - exists x, v. split; [reflexivity|]. now apply first_least_one.
  - destruct (ltb v vb) eqn:E.
    + apply ltb_lt in E. exists x, v. split; [reflexivity|].
      eapply first_least_better; eassumption.
    + apply ltb_ge in E. exists b, vb. split; [reflexivity|].
      eapply first_least_kept; eassumption.
Qed.

(** A loop whose body keeps the first item of least score. *)
Lemma best_loop {A : Type} (score : A -> option Qc)
      (body : option A * option Qc -> A -> option (option A * option Qc)) :
  (forall st x,
     body st x =
     (v <- score x ;;
      match snd st with
      | None => Some (Some x, Some v)
      | Some best_score => if ltb v best_score then Some (Some x, Some v) else Some st
      end)) ->
  forall rest done st,
  best_so_far score done st ->
  (forall x, In x rest -> score x <> None) ->
  exists st', for_each body rest st = Some st' /\
              best_so_far score (done ++ rest) st'.
Proof.
  intros Hb. induction rest as [|x rest IH]; intros done st I K; simpl.
  - exists st. rewrite app_nil_r. auto.
  - rewrite Hb. destruct (score x) as [v|] eqn:F;
      [|exfalso; exact (K x (or_introl eq_refl) F)].
    cbn [bind].
    pose proof (best_so_far_step score done x st v I F) as I1.
    replace (done ++ x :: rest) with ((done ++ [x]) ++ rest)
      by now rewrite <- app_assoc.
    destruct (snd st) as [bs|]; [destruct (ltb v bs)|]; cbn [bind];
      apply IH; auto; intros; apply K; now right.
Qed.

Lemma min_total (l : list Qc) : l <> [] -> exists m, Py.min l = Some m.
Proof. destruct l; [contradiction|]. intros _. simpl. now eexists. Qed.

Lemma co2_result_total (g : Globals) (pt : Z * Z) :
  List.length (BASE_LOAD g) = 24%nat -> List.length (CO2_PER_HOUR g) = 24%nat ->
  exists r, co2_result_at g pt = Some r.
Proof.
  intros L C. unfold co2_result_at.
  destruct (lds_recalc_total (set_vars g (fst pt) (snd pt)) L) as (g' & H).
  rewrite H. cbn [bind].
  apply lds_recalc_keeps in H. destruct H as (_ & _ & C2 & _ & _ & Lb & La).
  cbn [set_vars BASE_LOAD CO2_PER_HOUR] in *.
  destruct (max_total (after_load g')) as (pk & ->).
  { intro E. rewrite E in La. simpl in La. lia. }
  cbn [bind].
  destruct (emissions_total (before_load g') (CO2_PER_HOUR g')) as (eb & ->);
    try congruence.
  destruct (emissions_total (after_load g') (CO2_PER_HOUR g')) as (ea & ->);
    try congruence.
  cbn [bind]. now eexists.
Qed.

Lemma co2_scan_step_inv (g : Globals) (done : list (Z * Z)) (pt : Z * Z)
      (st st' : Globals * list Co2Result) :
  co2_scan_inv g done st -> co2_scan_step st pt = Some st' ->
  co2_scan_inv g (done ++ [pt]) st'.
Proof.
  destruct st as [g1 results], pt as [flex pr]. intros (SC & F) H.
  cbn [fst snd] in *. unfold co2_scan_step in H.
  apply bind_Some in H. destruct H as (g2 & R & H).
  apply bind_Some in H. destruct H as (peak_a & M & H).
  apply bind_Some in H. destruct H as ([eb ea] & E & H).
  injection H as <-.
  pose proof (same_catalog_step _ _ _ _ _ SC R) as (SC2 & R2 & _).
  apply co2_loop_emissions in E. destruct E as (Eb & Ea).
  split; [exact SC2|]. cbn [snd]. apply Forall2_app; [exact F|].
  constructor; [|constructor].
  unfold co2_result_at. cbn [fst snd]. rewrite R2. cbn [bind].
  rewrite M. cbn [bind]. rewrite Eb, Ea. reflexivity.
Qed.

Lemma co2_scan_loop (g : Globals) (rest : list (Z * Z)) :
  List.length (BASE_LOAD g) = 24%nat -> List.length (CO2_PER_HOUR g) = 24%nat ->
  forall done st,
  co2_scan_inv g done st ->
  exists st', for_each co2_scan_step rest st = Some st' /\
              co2_scan_inv g (done ++ rest) st'.
Proof.
  intros L C. induction rest as [|pt rest IH]; intros done st I; simpl.
  - exists st. now rewrite app_nil_r.
  - assert (exists st1, co2_scan_step st pt = Some st1) as (st1 & S1).
    { destruct st as [g1 results], pt as [flex pr]. destruct I as (SC & _).
      cbn [fst] in SC. unfold co2_scan_step.
      destruct (lds_recalc_total (set_vars g1 flex pr)) as (g2 & R).
      { cbn [set_vars BASE_LOAD]. destruct SC as (_ & B & _). congruence. }
      rewrite R. cbn [bind].
      pose proof (same_catalog_step _ _ _ _ _ SC R) as (SC2 & _ & _ & _ & Lb & La).
      destruct (max_total (after_load g2)) as (pk & ->).
      { intro E. rewrite E in La. simpl in La. lia. }
      cbn [bind].
      destruct (co2_loop_total (before_load g2) (after_load g2) (CO2_PER_HOUR g2))
        as (eb & ea & E); try congruence.
      { destruct SC2 as (_ & _ & B). congruence. }
      change SmartLDS.NUM_HOURS with Logic.NUM_HOURS. rewrite E. cbn [bind]. now eexists. }
    rewrite S1. cbn [bind].
    replace (done ++ pt :: rest) with ((done ++ [pt]) ++ rest)
      by now rewrite <- app_assoc.
    apply IH. eapply co2_scan_step_inv; eassumption.
Qed.

(** The first entry of least key, read on the grid. *)
Lemma first_least_on_points {R : Type} (res_at : Z * Z -> option R)
      (key : R -> option Qc) (pt_of : R -> Z * Z)
      (pts : list (Z * Z)) (results : list R) (best : R) (v : Qc) :
  Forall2 (fun pt r => res_at pt = Some r) pts results ->
  (forall pt r, res_at pt = Some r -> pt_of r = pt) ->
  first_least key results best v ->
  first_least (fun pt => r <- res_at pt ;; key r) pts (pt_of best) v.
Proof.
  intros F PT (e & l & -> & Kb & E & L).
  apply Forall2_app_inv_r in F. destruct F as (pe & pl0 & Fe & Fl & ->).
  inversion Fl as [|pb rb pl l' Rb Fl' E1 E2]. subst.
  rewrite (PT _ _ Rb).
  assert (T : forall (ps : list (Z * Z)) (rs : list R),
             Forall2 (fun pt r => res_at pt = Some r) ps rs ->
             forall q, In q ps -> exists r, In r rs /\ res_at q = Some r).
  { induction 1 as [|p r ps rs Hp _ IH]; intros q []; [subst; exists r; simpl; auto|].
    destruct (IH q H) as (r' & I' & Q'). exists r'. simpl. auto. }
  exists pe, pl. split; [reflexivity|]. split; [now rewrite Rb|]. split.
  - intros q Hq. destruct (T _ _ Fe q Hq) as (r & Ir & Q). rewrite Q. cbn [bind]. auto.
  - intros q Hq. destruct (T _ _ Fl' q Hq) as (r & Ir & Q). rewrite Q. cbn [bind]. auto.
Qed.


Lemma co2_result_point (g : Globals) (pt : Z * Z) (r : Co2Result) :
  co2_result_at g pt = Some r -> (co2_flex r, co2_priority r) = pt.
Proof.
  unfold co2_result_at. intro H.
  apply bind_Some in H. destruct H as (g' & _ & H).
  apply bind_Some in H. destruct H as (pk & _ & H).
  apply bind_Some in H. destruct H as (eb & _ & H).
  apply bind_Some in H. destruct H as (ea & _ & H).
  injection H as <-. now destruct pt.
Qed.

Lemma balanced_step_score (results : list Co2Result) (peak_min peak_max em_min em_max : Qc) :
  Py.min (map co2_peak results) = Some peak_min ->
  Py.max (map co2_peak results) = Some peak_max ->
  Py.min (map co2_emissions_after results) = Some em_min ->
  Py.max (map co2_emissions_after results) = Some em_max ->
  forall st x,
  balanced_step peak_min peak_max em_min em_max st x =
  (v <- balanced_score results x ;;
   match snd st with
   | None => Some (Some x, Some v)
   | Some best_score => if ltb v best_score then Some (Some x, Some v) else Some st
   end).
Proof.
  intros P1 P2 E1 E2 st x. unfold balanced_step, balanced_score.
  rewrite P1, P2, E1, E2. cbn [bind].
  destruct (Logic.norm (co2_peak x) peak_min peak_max); [|reflexivity].
  cbn [bind].
  destruct (Logic.norm (co2_emissions_after x) em_min em_max); reflexivity.
Qed.

Lemma balanced_score_total (results : list Co2Result) (r : Co2Result) :
  results <> [] -> balanced_score results r <> None.
Proof.
  intro N. unfold balanced_score.
  destruct (min_total (map co2_peak results)) as (a & ->);
    [destruct results; [contradiction|discriminate]|].
  destruct (max_total (map co2_peak results)) as (b & ->);
    [destruct results; [contradiction|discriminate]|].
  destruct (min_total (map co2_emissions_after results)) as (c & ->);
    [destruct results; [contradiction|discriminate]|].
  destruct (max_total (map co2_emissions_after results)) as (d & ->);
    [destruct results; [contradiction|discriminate]|].
  cbn [bind].
  destruct (norm_total (co2_peak r) a b) as (x & ->).
  destruct (norm_total (co2_emissions_after r) c d) as (y & ->).
  discriminate.
Qed.

(** Both slider callbacks after the sliders are set to a grid point. *)
Lemma apply_point (g g1 : Globals) (flex pr : Z) :
  List.length (BASE_LOAD g) = 24%nat -> List.length (CO2_PER_HOUR g) = 24%nat ->
  same_catalog g g1 ->
  exists g2,
    on_flex_change (set_vars g1 flex pr) = Some g2 /\
    on_priority_change g2 = Some g2 /\
    recalculate_schedules (set_vars g flex pr) = Some g2.
Proof.
  intros L C SC.
  destruct (lds_recalc_total (set_vars g1 flex pr)) as (g2 & R).
  { cbn [set_vars BASE_LOAD]. destruct SC as (_ & B & _). congruence. }
  pose proof (same_catalog_step _ _ _ _ _ SC R) as (SC2 & R2 & F2 & P2 & _ & La2).
  destruct (slider_change_total (set_vars g1 flex pr) g2) as (OF & _); auto.
  { cbn [set_vars BASE_LOAD]. destruct SC as (_ & B & _). congruence. }
  { cbn [set_vars CO2_PER_HOUR]. destruct SC as (_ & _ & B). congruence. }
  assert (R3 : recalculate_schedules g2 = Some g2).
  { transitivity (recalculate_schedules (set_vars g flex pr)); [|exact R2].
    destruct SC2 as (A & B & D).
    apply lds_recalc_static; cbn [set_vars ASSETS BASE_LOAD CO2_PER_HOUR
      flex_var priority_var]; assumption. }
  destruct (slider_change_total g2 g2) as (_ & OP); auto.
  { destruct SC2 as (_ & B & _). congruence. }
  { destruct SC2 as (_ & _ & B). congruence. }
  exists g2. auto.
Qed.

Lemma grid_points_nonempty : grid_points <> [].
Proof. discriminate. Qed.

(** On 24-hour curves [find_optimal_co2_settings] raises nothing: it
    recomputes at each of the 121 grid points in scan order and reports two
    entries.  [best_co2] is the first grid point at which the emissions of
    the after curve are least: every point scanned earlier emits strictly
    more.  [best_balanced] is the first grid point of least balanced score,
    half the peak and half the emissions, each normalised over the grid.
    The sliders and the engine are left at [best_co2], and each reported
    saving is the emissions before minus the emissions after of its entry,
    with a percentage that is 0 when the emissions before are not
    positive. *)
Theorem min_co2_search_takes_first_minimum (g : Globals) :
  List.length (BASE_LOAD g) = 24%nat ->
  List.length (CO2_PER_HOUR g) = 24%nat ->
  exists g' results best_co2 best_balanced v sc,
    find_optimal_co2_settings g
    = Some (g', Co2Found best_co2 best_balanced
                  (co2_emissions_before best_co2 - co2_emissions_after best_co2)
                  (Spec.guarded_pct
                     (co2_emissions_before best_co2 - co2_emissions_after best_co2)
                     (co2_emissions_before best_co2))
                  (co2_emissions_before best_balanced
                   - co2_emissions_after best_balanced)
                  (Spec.guarded_pct
                     (co2_emissions_before best_balanced
                      - co2_emissions_after best_balanced)
                     (co2_emissions_before best_balanced))) /\
    Forall2 (fun pt r => co2_result_at g pt = Some r) grid_points results /\
    In best_co2 results /\ In best_balanced results /\
    first_least (emissions_after_at g) grid_points
                (co2_flex best_co2, co2_priority best_co2) v /\
    first_least (balanced_score_at g results) grid_points
                (co2_flex best_balanced, co2_priority best_balanced) sc /\
    recalculate_schedules (set_vars g (co2_flex best_co2) (co2_priority best_co2))
    = Some g'.
Proof.
  intros L C. unfold find_optimal_co2_settings. rewrite grid_loop_points.
  destruct (co2_scan_loop g grid_points L C [] (g, []))
    as ([g1 results] & H & SC & F).
  { split; [apply same_catalog_refl|constructor]. }
  rewrite H. cbn [bind app fst snd] in *.
  assert (NE : results <> []).
  { intro E. rewrite E in F. inversion F. }
  replace (Logic.is_nil results) with false by (destruct results; [contradiction|reflexivity]).
  destruct (min_key_total (fun r => Some (co2_emissions_after r)) results NE)
    as (best_co2 & M); [discriminate|].
  rewrite M. cbn [bind].
  destruct (min_total (map co2_peak results)) as (pmin & P1);
    [destruct results; [contradiction|discriminate]|].
  destruct (max_total (map co2_peak results)) as (pmax & P2);
    [destruct results; [contradiction|discriminate]|].
  destruct (min_total (map co2_emissions_after results)) as (emin & E1);
    [destruct results; [contradiction|discriminate]|].
  destruct (max_total (map co2_emissions_after results)) as (emax & E2);
    [destruct results; [contradiction|discriminate]|].
  rewrite P1, P2, E1, E2. cbn [bind].
  destruct (best_loop (balanced_score results)
              (balanced_step pmin pmax emin emax)
              (balanced_step_score results _ _ _ _ P1 P2 E1 E2)
              results [] (None, None)) as ([ob os] & BL & BI).
  { left. auto. }
  { intros x _. now apply balanced_score_total. }
  rewrite BL. cbn [bind app] in *.
  destruct BI as [(E & _)|(bb & sc & E & FB)]; [contradiction|].
  injection E as -> ->.
  destruct (apply_point g g1 (co2_flex best_co2) (co2_priority best_co2) L C SC)
    as (g2 & OF & OP & R).
  rewrite OF. cbn [bind]. rewrite OP. cbn [bind].
  rewrite !pct_of_guarded. cbn [bind].
  apply min_key_first_min in M. destruct M as (l1 & l2 & v & E & Kv & Bf & Af).
  assert (FM : first_least (fun r => Some (co2_emissions_after r)) results best_co2 v).
  { exists l1, l2. auto. }
  exists g2, results, best_co2, bb, v, sc.
  split; [reflexivity|]. split; [exact F|].
  split; [eapply first_least_In; exact FM|].
  split; [eapply first_least_In; exact FB|].
  split.
  { apply (first_least_on_points (co2_result_at g)
             (fun r => Some (co2_emissions_after r))
             (fun r => (co2_flex r, co2_priority r)) _ _ _ _ F); auto.
    apply co2_result_point. }
  split; [|exact R].
  apply (first_least_on_points (co2_result_at g) (balanced_score results)
           (fun r => (co2_flex r, co2_priority r)) _ _ _ _ F); auto.
  apply co2_result_point.
Qed.


Lemma ideal_scan_step_inv (g : Globals) (done : list (Z * Z)) (pt : Z * Z)
      (st st' : Globals * list IdealResult * option Qc) :
  ideal_scan_inv g done st -> ideal_scan_step st pt = Some st' ->
  ideal_scan_inv g (done ++ [pt]) st'.
Proof.
  destruct st as [[g1 results] base], pt as [flex pr]. intros (SC & F & B & BN) H.
  unfold ideal_scan_step in H.
  apply bind_Some in H. destruct H as (g2 & R & H).
  apply bind_Some in H. destruct H as (peak_a & M & H).
  apply bind_Some in H. destruct H as ([eb ea] & E & H).
  injection H as <-.
  pose proof (same_catalog_step _ _ _ _ _ SC R) as (SC2 & R2 & _).
  apply co2_loop_emissions in E. destruct E as (Eb & Ea).
  split; [exact SC2|]. split; [|split].
  - apply Forall2_app; [exact F|]. constructor; [|constructor].
    unfold ideal_result_at. cbn [fst snd]. rewrite R2. cbn [bind].
    rewrite M. cbn [bind]. rewrite Eb, Ea. reflexivity.
  - destruct done as [|pt0 done]; cbn [app].
    + subst base. unfold emissions_before_at. cbn [fst snd]. rewrite R2.
      cbn [bind]. now rewrite Eb.
    + destruct base as [b|]; [exact B|]. exfalso. now apply BN.
  - intros _. destruct base; discriminate.
Qed.

Lemma ideal_scan_loop (g : Globals) (rest : list (Z * Z)) :
  List.length (BASE_LOAD g) = 24%nat -> List.length (CO2_PER_HOUR g) = 24%nat ->
  forall done st,
  ideal_scan_inv g done st ->
  exists st', for_each ideal_scan_step rest st = Some st' /\
              ideal_scan_inv g (done ++ rest) st'.
Proof.
  intros L C. induction rest as [|pt rest IH]; intros done st I; simpl.
  - exists st. now rewrite app_nil_r.
  - assert (exists st1, ideal_scan_step st pt = Some st1) as (st1 & S1).
    { destruct st as [[g1 results] base], pt as [flex pr]. destruct I as (SC & _).
      unfold ideal_scan_step.
      destruct (lds_recalc_total (set_vars g1 flex pr)) as (g2 & R).
      { cbn [set_vars BASE_LOAD]. destruct SC as (_ & B & _). congruence. }
      rewrite R. cbn [bind].
      pose proof (same_catalog_step _ _ _ _ _ SC R) as (SC2 & _ & _ & _ & Lb & La).
      destruct (max_total (after_load g2)) as (pk & ->).
      { intro E. rewrite E in La. simpl in La. lia. }
      cbn [bind].
      destruct (co2_loop_total (before_load g2) (after_load g2) (CO2_PER_HOUR g2))
        as (eb & ea & E); try congruence.
      { destruct SC2 as (_ & _ & B). congruence. }
      change SmartLDS.NUM_HOURS with Logic.NUM_HOURS. rewrite E. cbn [bind].
      now eexists. }
    rewrite S1. cbn [bind].
    replace (done ++ pt :: rest) with ((done ++ [pt]) ++ rest)
      by now rewrite <- app_assoc.
    apply IH. eapply ideal_scan_step_inv; eassumption.
Qed.

Lemma ideal_result_point (g : Globals) (pt : Z * Z) (r : IdealResult) :
  ideal_result_at g pt = Some r -> (ideal_flex r, ideal_priority r) = pt.
Proof.
  unfold ideal_result_at. intro H.
  apply bind_Some in H. destruct H as (g' & _ & H).
  apply bind_Some in H. destruct H as (pk & _ & H).
  apply bind_Some in H. destruct H as (eb & _ & H).
  apply bind_Some in H. destruct H as (ea & _ & H).
  injection H as <-. now destruct pt.
Qed.

Lemma ideal_step_score (results : list IdealResult)
      (peak_min peak_max cost_min cost_max em_min em_max : Qc) :
  Py.min (map ideal_peak results) = Some peak_min ->
  Py.max (map ideal_peak results) = Some peak_max ->
  Py.min (map ideal_cost results) = Some cost_min ->
  Py.max (map ideal_cost results) = Some cost_max ->
  Py.min (map ideal_emissions results) = Some em_min ->
  Py.max (map ideal_emissions results) = Some em_max ->
  forall st x,
  ideal_step peak_min peak_max cost_min cost_max em_min em_max st x =
  (v <- ideal_score_of results x ;;
   match snd st with
   | None => Some (Some x, Some v)
   | Some best_score => if ltb v best_score then Some (Some x, Some v) else Some st
   end).
Proof.
  intros P1 P2 C1 C2 E1 E2 st x. unfold ideal_step, ideal_score_of.
  rewrite P1, P2, C1, C2, E1, E2. reflexivity.
Qed.

Lemma ideal_score_total (results : list IdealResult) (r : IdealResult) :
  results <> [] -> ideal_score_of results r <> None.
Proof.
  intro N. unfold ideal_score_of.
  destruct (min_total (map ideal_peak results)) as (a & ->);
    [destruct results; [contradiction|discriminate]|].
  destruct (max_total (map ideal_peak results)) as (b & ->);
    [destruct results; [contradiction|discriminate]|].
  destruct (min_total (map ideal_cost results)) as (c & ->);
    [destruct results; [contradiction|discriminate]|].
  destruct (max_total (map ideal_cost results)) as (d & ->);
    [destruct results; [contradiction|discriminate]|].
  destruct (min_total (map ideal_emissions results)) as (e & ->);
    [destruct results; [contradiction|discriminate]|].
  destruct (max_total (map ideal_emissions results)) as (f & ->);
    [destruct results; [contradiction|discriminate]|].
  cbn [bind]. unfold ideal_score.
  destruct (norm_total (ideal_peak r) a b) as (x & ->).
  destruct (norm_total (ideal_cost r) c d) as (y & ->).
  destruct (norm_total (ideal_emissions r) e f) as (z & ->).
  discriminate.
Qed.

(** On 24-hour curves [find_ideal_settings] raises nothing: it recomputes
    at each of the 121 grid points in scan order and ends on the first grid
    point of least score, the mean of the normalised peak, cost and
    emissions, of the penalty of a low participation and of the penalty of a
    priority away from 50.  The sliders and the engine are left at that
    point, and the saving reported is measured from the emissions before of
    the first grid point [(0, 0)]. *)
Theorem ideal_search_takes_first_least_score (g : Globals) :
  List.length (BASE_LOAD g) = 24%nat ->
  List.length (CO2_PER_HOUR g) = 24%nat ->
  exists g' results best_ideal base_em v,
    find_ideal_settings g
    = Some (g', IdealFound best_ideal
                  (base_em - ideal_emissions best_ideal)
                  (Spec.guarded_pct (base_em - ideal_emissions best_ideal) base_em)) /\
    Forall2 (fun pt r => ideal_result_at g pt = Some r) grid_points results /\
    emissions_before_at g (0, 0) = Some base_em /\
    In best_ideal results /\
    first_least (ideal_score_at g results) grid_points
                (ideal_flex best_ideal, ideal_priority best_ideal) v /\
    recalculate_schedules
      (set_vars g (ideal_flex best_ideal) (ideal_priority best_ideal)) = Some g'.
Proof.
  intros L C. unfold find_ideal_settings. rewrite grid_loop_points.
  destruct (ideal_scan_loop g grid_points L C [] (g, [], None))
    as ([[g1 results] base] & H & SC & F & B & BN).
  { split; [apply same_catalog_refl|]. split; [constructor|]. split; [reflexivity|].
    intro N. contradiction. }
  rewrite H. cbn [bind app] in *.
  assert (NE : results <> []).
  { intro E. rewrite E in F. inversion F. }
  replace (Logic.is_nil results) with false by (destruct results; [contradiction|reflexivity]).
  destruct (min_total (map ideal_peak results)) as (pmin & P1);
    [destruct results; [contradiction|discriminate]|].
  destruct (max_total (map ideal_peak results)) as (pmax & P2);
    [destruct results; [contradiction|discriminate]|].
  destruct (min_total (map ideal_cost results)) as (cmin & C1);
    [destruct results; [contradiction|discriminate]|].
  destruct (max_total (map ideal_cost results)) as (cmax & C2);
    [destruct results; [contradiction|discriminate]|].
  destruct (min_total (map ideal_emissions results)) as (emin & E1);
    [destruct results; [contradiction|discriminate]|].
  destruct (max_total (map ideal_emissions results)) as (emax & E2);
    [destruct results; [contradiction|discriminate]|].
  rewrite P1, P2, C1, C2, E1, E2. cbn [bind].
  destruct (best_loop (ideal_score_of results)
              (ideal_step pmin pmax cmin cmax emin emax)
              (ideal_step_score results _ _ _ _ _ _ P1 P2 C1 C2 E1 E2)
              results [] (None, None)) as ([ob os] & BL & BI).
  { left. auto. }
  { intros x _. now apply ideal_score_total. }
  rewrite BL. cbn [bind app] in *.
  destruct BI as [(E & _)|(bb & sc & E & FB)]; [contradiction|].
  injection E as -> ->. cbn [bind].
  destruct (apply_point g g1 (ideal_flex bb) (ideal_priority bb) L C SC)
    as (g2 & OF & OP & R).
  rewrite OF. cbn [bind]. rewrite OP. cbn [bind].
  rewrite !pct_of_guarded. cbn [bind].
  change grid_points with ((0, 0) :: tl grid_points) in B.
  destruct base as [b|]; [|exfalso; apply BN; [discriminate|reflexivity]].
  exists g2, results, bb, b, sc.
  split; [reflexivity|]. split; [exact F|]. split; [now symmetry|].
  split; [eapply first_least_In; exact FB|].
  split; [|exact R].
  apply (first_least_on_points (ideal_result_at g) (ideal_score_of results)
           (fun r => (ideal_flex r, ideal_priority r)) _ _ _ _ F); auto.
  apply ideal_result_point.
Qed.


End LDSOptimizers.

(* ------------------------------------------------------------------ *)
(** * SmartLDS: the graphs *)
(* ------------------------------------------------------------------ *)

Section LDSDrawing.

Import SmartLDS SpecLDS.

Lemma lit_le (a b : Z) : a <= b -> (lit a 1 <= lit b 1)%Qc.
Proof.
  intro H. unfold lit, Qcle. cbn [this Q2Qc]. rewrite !Qred_correct.
  unfold Qle. simpl. lia.
Qed.

Lemma lit_lt (a b : Z) : a < b -> (lit a 1 < lit b 1)%Qc.
Proof.
  intro H. unfold lit, Qclt. cbn [this Q2Qc]. rewrite !Qred_correct.
  unfold Qlt. simpl. lia.
Qed.

Lemma lit_mul (a b : Z) : lit (a * b) 1 = (lit a 1 * lit b 1)%Qc.
Proof.
  unfold lit. apply Qc_is_canon. unfold Qcmult. cbn [this Q2Qc].
  rewrite !Qred_correct. unfold Qmult, Qeq. simpl. lia.
Qed.

Lemma lit_sub (a b : Z) : lit (a - b) 1 = (lit a 1 - lit b 1)%Qc.
Proof.
  replace (lit a 1) with (lit ((a - b) + b) 1) by (f_equal; lia).
  rewrite lit_add. ring.
Qed.

Lemma ceil_ge (x : Qc) : (x <= lit (ceil x) 1)%Qc.
Proof.
  unfold ceil, lit, Qcle. cbn [this Q2Qc]. rewrite Qred_correct.
  apply Qle_ceiling.
Qed.

Lemma lit_nonzero (a : Z) : a <> 0 -> lit a 1 <> 0%Qc.
Proof.
  intros H E. destruct (Z_lt_le_dec a 0) as [N|P].
  - apply lit_lt in N. rewrite lit_0, E in N. exact (Qclt_not_eq _ _ N eq_refl).
  - assert (P' : 0 < a) by lia. apply lit_lt in P'. rewrite lit_0, E in P'.
    exact (Qclt_not_eq _ _ P' eq_refl).
Qed.

(** A ratio of a value within [0, m]. *)
Lemma ratio_unit (v m : Qc) :
  (0 <= v)%Qc -> (v <= m)%Qc -> (0 < m)%Qc -> (0 <= v / m)%Qc /\ (v / m <= 1)%Qc.
Proof.
  intros V M P.
  assert (Nz : m <> 0%Qc) by (intro E; rewrite E in P; exact (Qclt_not_eq _ _ P eq_refl)).
  assert (E : (v / m * m)%Qc = v) by (field; exact Nz).
  split; apply (Qcmult_lt_0_le_reg_r _ _ m P); rewrite E.
  - now rewrite Qcmult_0_l.
  - now rewrite Qcmult_1_l.
Qed.

Lemma scaled_unit (r u : Qc) :
  (0 <= r)%Qc -> (r <= 1)%Qc -> (0 <= u)%Qc -> (0 <= r * u)%Qc /\ (r * u <= u)%Qc.
Proof.
  intros R0 R1 U. split.
  - rewrite <- (Qcmult_0_l u). now apply Qcmult_le_compat_r.
  - rewrite <- (Qcmult_1_l u) at 2. now apply Qcmult_le_compat_r.
Qed.

(** A coordinate that goes from [a] back by a part of [u]. *)
Lemma back_by_part (x : Qc) (A U : Z) :
  (0 <= x)%Qc -> (x <= lit U 1)%Qc ->
  (lit (A - U) 1 <= lit A 1 - x)%Qc /\ (lit A 1 - x <= lit A 1)%Qc.
Proof.
  intros X0 X1. rewrite lit_sub. split.
  - unfold Qcminus. apply Qcplus_le_compat; [apply Qcle_refl|].
    now apply Qcopp_le_compat.
  - rewrite <- (Qcplus_0_r (lit A 1)) at 2. unfold Qcminus.
    apply Qcplus_le_compat; [apply Qcle_refl|].
    replace 0%Qc with (- 0)%Qc by ring. now apply Qcopp_le_compat.
Qed.

Lemma forth_by_part (x : Qc) (A U : Z) :
  (0 <= x)%Qc -> (x <= lit U 1)%Qc ->
  (lit A 1 <= lit A 1 + x)%Qc /\ (lit A 1 + x <= lit (A + U) 1)%Qc.
Proof.
  intros X0 X1. rewrite lit_add. split.
  - rewrite <- (Qcplus_0_r (lit A 1)) at 1.
    apply Qcplus_le_compat; [apply Qcle_refl|exact X0].
  - apply Qcplus_le_compat; [apply Qcle_refl|exact X1].
Qed.

(** The scale of the load graphs. *)
Lemma y_scaling (g : Globals) (h margin : Z) :
  before_load g <> [] -> after_load g <> [] ->
  exists max_tick,
    get_y_scaling_params g h margin = Some (max_tick, h - 2 * margin) /\
    25 <= max_tick /\ (exists n, max_tick = 25 * n) /\
    forall v, In v (before_load g) \/ In v (after_load g) ->
              (v <= lit max_tick 1)%Qc.
Proof.
  intros Nb Na. unfold get_y_scaling_params.
  destruct (max_total _ Nb) as (mb & Mb). destruct (max_total _ Na) as (ma & Ma).
  rewrite Mb, Ma. cbn [bind].
  set (m := qmax2 mb ma).
  assert (G : forall v, In v (before_load g) \/ In v (after_load g) -> (v <= m)%Qc).
  { intros v [I|I].
    - eapply Qcle_trans; [exact (max_ge _ _ _ Mb I)|]. apply qmax2_ge.
    - eapply Qcle_trans; [exact (max_ge _ _ _ Ma I)|]. apply qmax2_ge. }
  eexists. split; [reflexivity|].
  destruct (leb m 0%Qc) eqn:E.
  - split; [lia|]. split; [exists 1; lia|].
    intros v I. apply leb_le in E.
    eapply Qcle_trans; [exact (G v I)|]. eapply Qcle_trans; [exact E|].
    rewrite <- lit_0. apply lit_le. lia.
  - set (c := ceil (m / lit 25 1)%Qc).
    assert (T : (m <= lit (25 * c) 1)%Qc).
    { rewrite lit_mul.
      replace m with (lit 25 1 * (m / lit 25 1))%Qc at 1
        by (field; apply lit_nonzero; lia).
      rewrite (Qcmult_comm (lit 25 1) (m / lit 25 1)), (Qcmult_comm (lit 25 1) (lit c 1)).
      apply Qcmult_le_compat_r; [apply ceil_ge|].
      rewrite <- lit_0. apply lit_le. lia. }
    unfold max2. destruct (25 <? 25 * c) eqn:E2.
    + split; [lia|]. split; [now exists c|].
      intros v I. eapply Qcle_trans; [exact (G v I)|exact T].
    + split; [lia|]. split; [exists 1; lia|].
      intros v I. eapply Qcle_trans; [exact (G v I)|].
      eapply Qcle_trans; [exact T|]. apply lit_le. lia.
Qed.


(** A point of a load graph, for a value between 0 and the scale. *)
Lemma to_point_inside (w h max_tick : Z) (k : Z) (v : Qc) :
  80 <= w -> 80 <= h -> 0 < max_tick -> 0 <= k <= 24 ->
  (0 <= v)%Qc -> (v <= lit max_tick 1)%Qc ->
  exists p, to_point w h max_tick (h - 2 * 40) k v = Some p /\ inside w h p /\
            snd p = (lit (h - 40) 1 - v / lit max_tick 1 * lit (h - 2 * 40) 1)%Qc /\
            (k = 0 -> fst p = lit 40 1) /\ (k = 24 -> fst p = lit (w - 40) 1).
Proof.
  intros W H M K V0 V1. unfold to_point. cbv zeta.
  rewrite div_nonzero by (apply lit_nonzero; lia). cbn [bind].
  eexists. split; [reflexivity|]. cbn [fst snd].
  assert (M0 : (0 < lit max_tick 1)%Qc) by (rewrite <- lit_0; apply lit_lt; lia).
  destruct (ratio_unit v (lit max_tick 1) V0 V1 M0) as (R0 & R1).
  assert (U0 : (0 <= lit (h - 2 * 40) 1)%Qc) by (rewrite <- lit_0; apply lit_le; lia).
  destruct (scaled_unit _ _ R0 R1 U0) as (S0 & S1).
  destruct (back_by_part _ (h - 40) (h - 2 * 40) S0 S1) as (Y0 & Y1).
  replace (h - 40 - (h - 2 * 40)) with 40 in Y0 by lia.
  assert (E : (lit k 1 * (lit (w - 2 * 40) 1 / lit 24 1))%Qc
              = (lit k 1 / lit 24 1 * lit (w - 2 * 40) 1)%Qc).
  { field. apply lit_nonzero. lia. }
  assert (K0 : (0 <= lit k 1)%Qc) by (rewrite <- lit_0; apply lit_le; lia).
  assert (K1 : (lit k 1 <= lit 24 1)%Qc) by (apply lit_le; lia).
  assert (T0 : (0 < lit 24 1)%Qc) by (rewrite <- lit_0; apply lit_lt; lia).
  destruct (ratio_unit _ _ K0 K1 T0) as (Q0 & Q1).
  assert (W0 : (0 <= lit (w - 2 * 40) 1)%Qc) by (rewrite <- lit_0; apply lit_le; lia).
  destruct (scaled_unit _ _ Q0 Q1 W0) as (X0 & X1).
  destruct (forth_by_part _ 40 (w - 2 * 40) X0 X1) as (A0 & A1).
  replace (40 + (w - 2 * 40)) with (w - 40) in A1 by lia.
  rewrite E. split; [repeat split; assumption|]. split; [reflexivity|]. split.
  - intros ->. rewrite lit_0. unfold Qcdiv. ring.
  - intros ->. replace (lit (w - 40) 1) with (lit (40 + (w - 2 * 40)) 1) by (f_equal; lia).
    rewrite lit_add. field. apply lit_nonzero. lia.
Qed.

(** A point of the price graph: the price is clamped into the scale. *)
Lemma to_point_price_inside (w h : Z) (k : Z) (price_value : Qc) :
  80 <= w -> 80 <= h -> 0 <= k <= 24 ->
  inside w h (to_point_price w h k price_value).
Proof.
  intros W H K. unfold to_point_price. cbv zeta. cbn [fst snd].
  set (pv := qmax2 0%Qc (qmin2 (lit 25 1) price_value)).
  assert (P0 : (0 <= pv)%Qc) by apply qmax2_ge.
  assert (T25 : (0 < lit 25 1)%Qc) by (rewrite <- lit_0; apply lit_lt; lia).
  assert (P1 : (pv <= lit 25 1)%Qc).
  { unfold pv, qmax2, qmin2.
    destruct (ltb price_value (lit 25 1)) eqn:E1.
    - apply ltb_lt in E1. destruct (ltb 0%Qc price_value); [now apply Qclt_le_weak|].
      now apply Qclt_le_weak.
    - destruct (ltb 0%Qc (lit 25 1)); [apply Qcle_refl|now apply Qclt_le_weak]. }
  replace (pv - 0)%Qc with pv by ring.
  replace (lit 25 1 - 0)%Qc with (lit 25 1) by ring.
  destruct (ratio_unit pv (lit 25 1) P0 P1 T25) as (R0 & R1).
  assert (U0 : (0 <= lit (h - 2 * 40) 1)%Qc) by (rewrite <- lit_0; apply lit_le; lia).
  destruct (scaled_unit _ _ R0 R1 U0) as (S0 & S1).
  destruct (back_by_part _ (h - 40) (h - 2 * 40) S0 S1) as (Y0 & Y1).
  replace (h - 40 - (h - 2 * 40)) with 40 in Y0 by lia.
  assert (E : (lit k 1 * (lit (w - 2 * 40) 1 / lit 24 1))%Qc
              = (lit k 1 / lit 24 1 * lit (w - 2 * 40) 1)%Qc).
  { field. apply lit_nonzero. lia. }
  assert (K0 : (0 <= lit k 1)%Qc) by (rewrite <- lit_0; apply lit_le; lia).
  assert (K1 : (lit k 1 <= lit 24 1)%Qc) by (apply lit_le; lia).
  assert (T0 : (0 < lit 24 1)%Qc) by (rewrite <- lit_0; apply lit_lt; lia).
  destruct (ratio_unit _ _ K0 K1 T0) as (Q0 & Q1).
  assert (W0 : (0 <= lit (w - 2 * 40) 1)%Qc) by (rewrite <- lit_0; apply lit_le; lia).
  destruct (scaled_unit _ _ Q0 Q1 W0) as (X0 & X1).
  destruct (forth_by_part _ 40 (w - 2 * 40) X0 X1) as (A0 & A1).
  replace (40 + (w - 2 * 40)) with (w - 40) in A1 by lia.
  rewrite E. repeat split; assumption.
Qed.

Lemma pairs_app (ps : list Qc) (x y : Qc) :
  Nat.even (List.length ps) = true -> pairs (ps ++ [x; y]) = pairs ps ++ [(x, y)].
Proof.
  revert ps. fix IH 1. intros [|a [|b ps]] E; try discriminate; [reflexivity|].
  cbn [app pairs]. cbn [app] in IH. rewrite IH; [reflexivity|]. exact E.
Qed.


Lemma getitem_In {A : Type} (l : list A) (i : Z) (x : A) : getitem l i = Some x -> In x l.
Proof.
  intro H. apply getitem_Some in H. destruct H as (k & _ & N).
  eapply nth_error_In; eassumption.
Qed.

Lemma draw_loop (w h max_tick : Z) (load : list Qc) (ks : list Z) :
  80 <= w -> 80 <= h -> 0 < max_tick -> List.length load = 24%nat ->
  Forall (fun v => (0 <= v)%Qc /\ (v <= lit max_tick 1)%Qc) load ->
  (forall k, In k ks -> 0 <= k <= 24) ->
  forall pts, Nat.even (List.length pts) = true ->
  exists pts' qs,
    for_each
      (fun pts k =>
         let idx := k mod NUM_HOURS in
         v <- getitem load idx ;;
         '(x, y) <- to_point w h max_tick (h - 2 * 40) k v ;;
         Some (pts ++ [x; y])) ks pts = Some pts' /\
    Nat.even (List.length pts') = true /\
    pairs pts' = pairs pts ++ qs /\
    Forall2 (drawn_at w h max_tick load) ks qs.
Proof.
  intros W H M L F. induction ks as [|k ks IH]; intros K pts E; cbn [for_each].
  - exists pts, []. rewrite app_nil_r. split; [reflexivity|]. split; [exact E|].
    split; [reflexivity|constructor].
  - assert (Kk : 0 <= k <= 24) by (apply K; now left).
    destruct (getitem_total load (k mod NUM_HOURS)) as (v & G).
    { unfold len, NUM_HOURS. rewrite L. pose proof (Z.mod_pos_bound k 24). lia. }
    rewrite G. cbn [bind].
    rewrite Forall_forall in F. destruct (F v (getitem_In _ _ _ G)) as (V0 & V1).
    destruct (to_point_inside w h max_tick k v W H M Kk V0 V1)
      as ([x y] & T & I & Y & X0 & X24).
    rewrite T. cbn [bind].
    destruct (IH (fun k Hk => K k (or_intror Hk)) (pts ++ [x; y]))
      as (pts' & qs & R & E' & P & D).
    { rewrite length_app. cbn [List.length]. rewrite Nat.even_add, E. reflexivity. }
    exists pts', ((x, y) :: qs). split; [exact R|]. split; [exact E'|]. split.
    + rewrite P, pairs_app by exact E. now rewrite <- app_assoc.
    + constructor; [|exact D]. split; [exact I|]. split; [|split; assumption].
      exists v. split; [exact G|exact Y].
Qed.

(** The load graphs of the script. *)
Lemma single_graph (g : Globals) (w h : Z) (load : list Qc) :
  List.length (before_load g) = 24%nat -> List.length (after_load g) = 24%nat ->
  load = before_load g \/ load = after_load g ->
  Forall (fun v => (0 <= v)%Qc) load ->
  80 <= w -> 80 <= h ->
  exists pts max_tick,
    get_y_scaling_params g h 40 = Some (max_tick, h - 2 * 40) /\
    25 <= max_tick /\ (exists n, max_tick = 25 * n) /\
    (forall v, In v (before_load g) \/ In v (after_load g) ->
               (v <= lit max_tick 1)%Qc) /\
    draw_single_graph g w h load = Some pts /\
    Forall2 (drawn_at w h max_tick load) (range 0 25) (pairs pts).
Proof.
  intros Lb La Ld F W H.
  destruct (y_scaling g h 40) as (max_tick & Y & M & Dv & G).
  { intro E. rewrite E in Lb. discriminate. }
  { intro E. rewrite E in La. discriminate. }
  destruct (draw_loop w h max_tick load (range 0 25)) with (pts := @nil Qc)
    as (pts & qs & R & _ & P & D); auto; try lia.
  - destruct Ld; congruence.
  - apply Forall_forall. intros v I. rewrite Forall_forall in F.
    split; [exact (F v I)|]. apply G. destruct Ld; subst; auto.
  - intros k I. apply in_range in I. lia.
  - exists pts, max_tick. cbn [pairs app] in P. rewrite P.
    split; [exact Y|]. split; [exact M|]. split; [exact Dv|]. split; [exact G|].
    split; [|exact D].
    unfold draw_single_graph. cbv zeta. rewrite Y. cbn [bind]. exact R.
Qed.


(** The load graphs of the script stay inside their axes.  On 24-hour
    curves the scale is a multiple of 25, at least 25 and at least every
    value of the two curves; [draw_single_graph] then raises nothing on the
    before or the after curve and, if the curve has no negative value, draws
    one point per hour 0..24, each within the margins of 40 on a canvas of at
    least 80 by 80, hour 24 at the height of hour 0, from the left axis to
    the right end of the hour axis.  A point of the price graph is within
    the margins whatever the price, which is clamped into the scale
    [0, 25]. *)
Theorem script_graphs_stay_inside_the_axes :
  (forall (g : Globals) (w h : Z) (load : list Qc),
     List.length (before_load g) = 24%nat -> List.length (after_load g) = 24%nat ->
     load = before_load g \/ load = after_load g ->
     Forall (fun v => (0 <= v)%Qc) load ->
     80 <= w -> 80 <= h ->
     exists pts max_tick,
       get_y_scaling_params g h 40 = Some (max_tick, h - 2 * 40) /\
       25 <= max_tick /\ (exists n, max_tick = 25 * n) /\
       (forall v, In v (before_load g) \/ In v (after_load g) ->
                  (v <= lit max_tick 1)%Qc) /\
       draw_single_graph g w h load = Some pts /\
       Forall2 (drawn_at w h max_tick load) (range 0 25) (pairs pts) /\
       Forall (inside w h) (pairs pts) /\
       exists p0 mid p24,
         pairs pts = p0 :: mid ++ [p24] /\ List.length mid = 23%nat /\
         fst p0 = lit 40 1 /\ fst p24 = lit (w - 40) 1 /\ snd p24 = snd p0) /\
  (forall (w h k : Z) (price_value : Qc),
     80 <= w -> 80 <= h -> 0 <= k <= 24 ->
     inside w h (to_point_price w h k price_value)).
Proof.
  split; [|exact to_point_price_inside].
  intros g w h load Lb La Ld F W H.
  destruct (single_graph g w h load Lb La Ld F W H)
    as (pts & max_tick & Y & M & Dv & G & R & D).
  exists pts, max_tick.
  split; [exact Y|]. split; [exact M|]. split; [exact Dv|]. split; [exact G|].
  split; [exact R|]. split; [exact D|]. split.
  - clear - D. induction D as [|k p ks ps (I & _) _ IH]; constructor; auto.
  - assert (S : forall ks qs,
               Forall2 (drawn_at w h max_tick load) (0 :: ks ++ [24]) qs ->
               exists p0 mid p24,
                 qs = p0 :: mid ++ [p24] /\ List.length mid = List.length ks /\
                 drawn_at w h max_tick load 0 p0 /\
                 drawn_at w h max_tick load 24 p24).
    { intros ks qs D'. inversion D' as [|k0 p0 ks0 rest D0 Dr E1 E2]. subst.
      apply Forall2_app_inv_l in Dr. destruct Dr as (mid & l24 & Dm & D24 & ->).
      inversion D24 as [|k24 p24 ks24 r24 D24' Dn E1 E2]. subst.
      inversion Dn. subst.
      exists p0, mid, p24. split; [reflexivity|]. split; [|auto].
      apply Forall2_length in Dm. now rewrite <- Dm. }
    destruct (S (range 1 24) (pairs pts) D) as (p0 & mid & p24 & E & Lm & D0 & D24').
    exists p0, mid, p24. split; [exact E|]. split; [rewrite Lm; reflexivity|].
    destruct D0 as (_ & (v0 & G0 & Y0) & X0 & _).
    destruct D24' as (_ & (v24 & G24 & Y24) & _ & X24).
    split; [now apply X0|]. split; [now apply X24|].
    change (24 mod NUM_HOURS) with (0 mod NUM_HOURS) in G24.
    rewrite G0 in G24. injection G24 as <-. now rewrite Y0, Y24.
Qed.


End LDSDrawing.

(* ------------------------------------------------------------------ *)
(** * The engine of logic.py and the engine of the script *)
(* ------------------------------------------------------------------ *)

Section Agreement.

Import Spec SpecBoth.
































End Agreement.

(* ------------------------------------------------------------------ *)
(** * SmartLDS: the buttons of the asset form *)
(* ------------------------------------------------------------------ *)

Section LDSButtons.

Import SmartLDS SpecLDS.

Lemma map_del {A B : Type} (f : A -> B) (l : list A) (i : nat) :
  map f (FlexiCityApp.del l i) = FlexiCityApp.del (map f l) i.
Proof.
  revert i. induction l as [|x l IH]; intros [|i]; simpl; auto. now rewrite IH.
Qed.

Lemma del_last {A : Type} (l : list A) (x : A) :
  FlexiCityApp.del (l ++ [x]) (List.length l) = l.
Proof. induction l as [|y l IH]; simpl; [reflexivity|]. now rewrite IH. Qed.

Lemma reset_set_enabled (a : Asset) (b : bool) :
  reset (set_enabled (set_enabled a b) (negb b)) = reset (set_enabled a (negb b)).
Proof. reflexivity. Qed.

Lemma reset_enabled_congr (a b : Asset) (x : bool) :
  reset a = reset b -> reset (set_enabled a x) = reset (set_enabled b x).
Proof.
  destruct a, b. unfold reset, set_enabled, set_after_hours, set_before_hours.
  cbn. intro E. injection E as -> -> -> -> -> -> -> -> ->. reflexivity.
Qed.

Lemma form_accepted (o ap : string) (pw : Qc) (d s e : Z) (v en : bool) :
  0 <= s < 24 -> 0 <= e <= 24 -> s <> e ->
  read_form_values o ap pw d s e v en = inr (mkAsset o ap pw d s e v en [] [] pw).
Proof.
  intros S E N. unfold read_form_values, NUM_HOURS.
  replace (0 <=? s) with true by lia. replace (s <? 24) with true by lia.
  replace (0 <=? e) with true by lia. replace (e <=? 24) with true by lia.
  replace (s =? e) with false by lia. reflexivity.
Qed.

Lemma form_rejected (o ap : string) (pw : Qc) (d s e : Z) (v en : bool) :
  ~ (0 <= s < 24 /\ 0 <= e <= 24 /\ s <> e) ->
  exists msg, read_form_values o ap pw d s e v en = inl msg.
Proof.
  intro N. unfold read_form_values, NUM_HOURS.
  destruct ((0 <=? s) && (s <? 24)) eqn:E1; cbn [negb]; [|now eexists].
  destruct ((0 <=? e) && (e <=? 24)) eqn:E2; cbn [negb]; [|now eexists].
  destruct (s =? e) eqn:E3; [now eexists|].
  exfalso. apply N. lia.
Qed.

Lemma recalc_with_assets (g : Globals) (l : list Asset) :
  List.length (BASE_LOAD g) = 24%nat ->
  exists g1, recalculate_schedules (with_ASSETS g l) = Some g1 /\
             map reset (ASSETS g1) = map reset l /\
             BASE_LOAD g1 = BASE_LOAD g /\ CO2_PER_HOUR g1 = CO2_PER_HOUR g /\
             flex_var g1 = flex_var g /\ priority_var g1 = priority_var g.
Proof.
  intro L. destruct (lds_recalc_total (with_ASSETS g l) L) as (g1 & R).
  exists g1. split; [exact R|].
  apply lds_recalc_keeps in R. cbn [with_ASSETS ASSETS BASE_LOAD CO2_PER_HOUR
    flex_var priority_var] in R. tauto.
Qed.

(** The buttons of the asset form of the script undo each other.  On a
    24-hour base curve, toggling a line of the list negates its [enabled]
    flag, and toggling it again leaves what a recompute of the first state
    leaves.  A form with a start hour in 0..23, an end hour in 0..24 and
    distinct bounds is accepted: the asset is appended as the last line, its
    power as base power, and deleting that line leaves what a recompute of
    the first state leaves.  Any other form changes nothing, neither in
    [add_asset] nor in [save_changes]. *)
Theorem script_buttons_undo_each_other :
  (forall (g : Globals) (i : nat) (a : Asset),
     List.length (BASE_LOAD g) = 24%nat -> nth_error (ASSETS g) i = Some a ->
     exists g1 g2 a1,
       toggle_enabled_selected g (Some i) = Some g1 /\
       nth_error (ASSETS g1) i = Some a1 /\ enabled a1 = negb (enabled a) /\
       toggle_enabled_selected g1 (Some i) = Some g2 /\
       recalculate_schedules g = Some g2) /\
  (forall (g : Globals) (editing_index : option nat) (o ap : string) (pw : Qc)
          (d s e : Z) (v en : bool),
     List.length (BASE_LOAD g) = 24%nat ->
     0 <= s < 24 -> 0 <= e <= 24 -> s <> e ->
     exists g1 g2 a1,
       add_asset g editing_index o ap pw d s e v en = Some (g1, None) /\
       map reset (ASSETS g1)
       = map reset (ASSETS g) ++ [mkAsset o ap pw d s e v en [] [] pw] /\
       nth_error (ASSETS g1) (List.length (ASSETS g)) = Some a1 /\
       delete_selected g1 None (Some (List.length (ASSETS g))) = Some (g2, None) /\
       recalculate_schedules g = Some g2) /\
  (forall (g : Globals) (editing_index : option nat) (o ap : string) (pw : Qc)
          (d s e : Z) (v en : bool),
     ~ (0 <= s < 24 /\ 0 <= e <= 24 /\ s <> e) ->
     add_asset g editing_index o ap pw d s e v en = Some (g, editing_index) /\
     save_changes g editing_index o ap pw d s e v en = Some (g, editing_index)).
Proof.
  split; [|split].
  - intros g i a L N. unfold toggle_enabled_selected at 1. rewrite N. cbn [bind].
    destruct (recalc_with_assets g
                (update i (set_enabled a (negb (enabled a))) (ASSETS g)) L)
      as (g1 & R1 & A1 & B1 & C1 & F1 & P1).
    assert (Li : (i < List.length (ASSETS g))%nat) by (apply nth_error_Some; congruence).
    assert (exists a1, nth_error (ASSETS g1) i = Some a1 /\
                       reset a1 = reset (set_enabled a (negb (enabled a))))
      as (a1 & N1 & E1).
    { destruct (nth_error (ASSETS g1) i) as [a1|] eqn:Na.
      - exists a1. split; [reflexivity|].
        apply (f_equal (fun m => nth_error m i)) in A1.
        rewrite !nth_error_map, Na, nth_error_update_eq in A1 by exact Li.
        cbn [option_map] in A1. congruence.
      - exfalso. apply nth_error_None in Na.
        apply (f_equal (@List.length _)) in A1.
        rewrite !length_map, length_update in A1. lia. }
    assert (En : enabled a1 = negb (enabled a)).
    { apply (f_equal enabled) in E1. exact E1. }
    assert (L1 : List.length (BASE_LOAD g1) = 24%nat) by congruence.
    destruct (recalc_with_assets g1
                (update i (set_enabled a1 (negb (enabled a1))) (ASSETS g1)) L1)
      as (g2 & R2 & A2 & B2 & C2 & F2 & P2).
    exists g1, g2, a1. split; [exact R1|]. split; [exact N1|]. split; [exact En|].
    unfold toggle_enabled_selected. rewrite N1. cbn [bind].
    split; [exact R2|]. rewrite <- R2. apply lds_recalc_static;
      cbn [with_ASSETS ASSETS BASE_LOAD CO2_PER_HOUR flex_var priority_var];
      try congruence.
    rewrite map_update, A1, map_update, update_update.
    symmetry. apply update_same. rewrite nth_error_map, N. cbn [option_map].
    f_equal. rewrite En, negb_involutive.
    transitivity (reset (set_enabled (set_enabled a (negb (enabled a))) (enabled a))).
    + destruct a; reflexivity.
    + symmetry. now apply reset_enabled_congr.
  - intros g ei o ap pw d s e v en L Hs He Hn. unfold add_asset.
    rewrite form_accepted by assumption.
    set (asset := mkAsset o ap pw d s e v en [] [] pw).
    destruct (recalc_with_assets g (ASSETS g ++ [asset]) L)
      as (g1 & R1 & A1 & B1 & C1 & F1 & P1).
    rewrite R1. cbn [bind].
    assert (Ln : List.length (ASSETS g1) = S (List.length (ASSETS g))).
    { apply (f_equal (@List.length _)) in A1.
      rewrite !length_map, length_app in A1. cbn [List.length] in A1. lia. }
    destruct (nth_error (ASSETS g1) (List.length (ASSETS g))) as [a1|] eqn:Na;
      [|apply nth_error_None in Na; lia].
    assert (L1 : List.length (BASE_LOAD g1) = 24%nat) by congruence.
    destruct (recalc_with_assets g1
                (FlexiCityApp.del (ASSETS g1) (List.length (ASSETS g))) L1)
      as (g2 & R2 & A2 & B2 & C2 & F2 & P2).
    exists g1, g2, a1. split; [reflexivity|]. split.
    { rewrite A1, map_app. reflexivity. }
    split; [exact Na|].
    unfold delete_selected.
    replace (List.length (ASSETS g) <? List.length (ASSETS g1))%nat with true
      by (symmetry; apply Nat.ltb_lt; lia).
    cbn [negb]. rewrite R2. cbn [bind]. split; [reflexivity|].
    rewrite <- R2. apply lds_recalc_static;
      cbn [with_ASSETS ASSETS BASE_LOAD CO2_PER_HOUR flex_var priority_var];
      try congruence.
    rewrite map_del, A1, map_app. cbn [map].
    replace (List.length (ASSETS g)) with (List.length (map reset (ASSETS g)))
      by apply length_map.
    now rewrite del_last.
  - intros g ei o ap pw d s e v en N.
    destruct (form_rejected o ap pw d s e v en N) as (msg & R).
    unfold add_asset, save_changes. rewrite R. split; [reflexivity|].
    destruct ei; reflexivity.
Qed.


End LDSButtons.

(* ------------------------------------------------------------------ *)
(** * Further theorems at concrete catalogs *)
(* ------------------------------------------------------------------ *)

Section MoreWitnesses.

Import Spec SpecLDS SpecApp SpecBoth Examples.


Lemma hour_past_the_day_raises_witness :
  Logic.recalculate (simulator_with [late_charge] 1%Qc (lit 1 2)) = None.
Proof.
  apply (hour_past_the_day_raises (simulator_with [late_charge] 1%Qc (lit 1 2))
           late_charge 24).
  - reflexivity.
  - simpl. auto.
  - simpl. auto 10.
  - lia.
Defined.

Lemma schedules_stay_in_the_window_witness :
  exists s',
    Logic.recalculate hero_at_full_flex = Some s' /\
    Forall (fun a' => incl (after_hours a') (Spec.window_of a') /\ NoDup (after_hours a'))
           (Logic.assets s').
Proof.
  destruct (recalculate_total hero_at_full_flex hero_assets_wf eq_refl) as (s' & H).
  exists s'. split; [exact H|].
  eapply Forall_impl; [|exact (schedules_stay_in_the_window hero_at_full_flex s' H)].
  intros a (_ & I & _ & N & _). auto.
Defined.


Lemma scenario_application_forgets_the_previous_one_witness :
  exists s1,
    Logic.apply_scenario hero_at_full_flex "Winter weekday" = Some s1 /\
    Logic.apply_scenario s1 "Baseline"
    = Logic.apply_scenario hero_at_full_flex "Baseline".
Proof.
  destruct (Logic.apply_scenario hero_at_full_flex "Winter weekday")
    as [s1|] eqn:E; [|vm_compute in E; discriminate].
  exists s1. split; [reflexivity|].
  exact (scenario_application_forgets_the_previous_one
           hero_at_full_flex s1 "Winter weekday" "Baseline" E).
Defined.



Lemma deleting_an_asset_rebases_the_scenarios_witness :
  exists sim',
    FlexiCityApp._on_delete_asset hero_at_full_flex (Some 0%nat) true = Some sim' /\
    List.length (Logic.assets sim') = 3%nat /\
    map power_kw (Logic.assets sim') = [lit 30 1; lit 20 1; lit 40 1].
Proof.
  destruct (FlexiCityApp._on_delete_asset hero_at_full_flex (Some 0%nat) true)
    as [sim'|] eqn:E; [|vm_compute in E; discriminate].
  exists sim'. split; [reflexivity|].
  destruct (deleting_an_asset_rebases_the_scenarios hero_at_full_flex sim' 0 E)
    as (L & P & _).
  split; [exact L|exact P].
Defined.

Lemma toggling_twice_restores_the_recompute_witness :
  exists sim1,
    FlexiCityApp._on_toggle_asset hero_at_full_flex (Some 1%nat) = Some sim1 /\
    FlexiCityApp._on_toggle_asset sim1 (Some 1%nat)
    = Logic.recalculate hero_at_full_flex.
Proof.
  destruct (FlexiCityApp._on_toggle_asset hero_at_full_flex (Some 1%nat))
    as [sim1|] eqn:E; [|vm_compute in E; discriminate].
  exists sim1. split; [reflexivity|].
  exact (toggling_twice_restores_the_recompute hero_at_full_flex sim1 1 E).
Defined.

Lemma an_accepted_asset_runs_its_full_duration_witness :
  exists sim' a',
    FlexiCityApp._on_add_asset hero_at_full_flex "Household" "Dishwasher"
      (lit 2 1) 3 22 6 true = Some (Some sim') /\
    nth_error (Logic.assets sim') 4 = Some a' /\
    before_hours a' = [22; 23; 0] /\
    List.length (after_hours a') = 3%nat.
Proof.
  destruct (FlexiCityApp._on_add_asset hero_at_full_flex "Household" "Dishwasher"
              (lit 2 1) 3 22 6 true) as [[sim'|]|] eqn:E;
    [|vm_compute in E; discriminate|vm_compute in E; discriminate].
  destruct (an_accepted_asset_runs_its_full_duration hero_at_full_flex sim'
              "Household" "Dishwasher" (lit 2 1) 3 22 6 true E)
    as (_ & _ & a' & N & _ & B & _ & A).
  exists sim', a'. split; [reflexivity|]. split; [exact N|]. split; [exact B|].
  apply A. reflexivity.
Defined.

Lemma script_recompute_never_raises_witness :
  exists g',
    SmartLDS.recalculate_schedules original_four_globals = Some g' /\
    List.length (SmartLDS.after_load g') = 24%nat /\
    List.length (SmartLDS.ASSETS g') = 4%nat.
Proof.
  destruct (script_recompute_never_raises original_four_globals eq_refl)
    as (g' & H & _ & La & F).
  exists g'. split; [exact H|]. split; [exact La|].
  apply Forall2_length in F. rewrite <- F. reflexivity.
Defined.


Lemma min_co2_search_takes_first_minimum_witness :
  exists g' best_co2 best_balanced s1 s2 s3 s4 v,
    SmartLDS.find_optimal_co2_settings original_four_globals
    = Some (g', SmartLDS.Co2Found best_co2 best_balanced s1 s2 s3 s4) /\
    first_least (emissions_after_at original_four_globals) grid_points
      (SmartLDS.co2_flex best_co2, SmartLDS.co2_priority best_co2) v.
Proof.
  destruct (min_co2_search_takes_first_minimum original_four_globals eq_refl eq_refl)
    as (g' & results & best_co2 & best_balanced & v & sc & H & _ & _ & _ & FM & _).
  exists g', best_co2, best_balanced. do 4 eexists. exists v.
  split; [exact H|exact FM].
Defined.

Lemma ideal_search_takes_first_least_score_witness :
  exists g' results best_ideal s1 s2 v,
    SmartLDS.find_ideal_settings original_four_globals
    = Some (g', SmartLDS.IdealFound best_ideal s1 s2) /\
    first_least (ideal_score_at original_four_globals results) grid_points
      (SmartLDS.ideal_flex best_ideal, SmartLDS.ideal_priority best_ideal) v.
Proof.
  destruct (ideal_search_takes_first_least_score original_four_globals eq_refl eq_refl)
    as (g' & results & best_ideal & base_em & v & H & _ & _ & _ & FM & _).
  exists g', results, best_ideal. do 2 eexists. exists v.
  split; [exact H|exact FM].
Defined.


End MoreWitnesses.
